(** * TuttePolynomial: the graph cache and the delete-contract engine

    A shallow embedding of [tuttex/cache.hpp] (the arena-backed bucketed
    cache) and of the recursion frames [tutte], [flow] and [chromatic] of
    [tutte/tutte.cpp], with the properties the specification states about
    them, and of the helpers around them: the bucket statistics, the
    iterator, the random eviction and [rebucket] of the cache,
    [select_edge], [search_replace] and [read_graph].

    Conventions.
    - Machine integers are [Z] with the wrap-around written out ([u32],
      [u64]).
    - Pointers into the cache are [ptr]: null, the address of a bucket
      sentinel, or the address of a node, given as its byte offset from
      [start_p].
    - A C++ call that can throw, dereference an invalid pointer or loop
      returns a [res]: [Done], [Throw], [Fault] (undefined behaviour) or
      [OutOfFuel] (the loop bound of the model was reached). *)

From Stdlib Require Import ZArith Floats Uint63 Lia.
From stdpp Require Import gmap list strings.

Local Open Scope Z_scope.
Set Default Proof Using "Type".

(** ** Machine integers *)

Definition wrap (w : Z) (z : Z) : Z := z mod 2 ^ w.
Definition u32 : Z → Z := wrap 32.
Definition u64 : Z → Z := wrap 64.
Definition UINT_MAX : Z := 2 ^ 32 - 1.

Lemma u32_small z : 0 ≤ z < 2 ^ 32 → u32 z = z.
Proof. intros. unfold u32, wrap. by apply Z.mod_small. Qed.

Lemma u64_small z : 0 ≤ z < 2 ^ 64 → u64 z = z.
Proof. intros. unfold u64, wrap. by apply Z.mod_small. Qed.

Lemma u32_incr z : 0 ≤ z < UINT_MAX → u32 (z + 1) = z + 1.
Proof. unfold UINT_MAX. intros. apply u32_small. lia. Qed.

(** ** Doubles

    [replacement] and the eviction accumulator are IEEE doubles in the
    source; they are primitive binary64 floats here. *)

Definition double_of_Z (z : Z) : float := PrimFloat.of_uint63 (Uint63.of_Z z).

(** ** Results of calls *)

Inductive exn :=
  | bad_alloc
  | runtime_error (msg : string).

Inductive res (A : Type) :=
  | Done (a : A)
  | Throw (e : exn)
  | Fault
  | OutOfFuel.
Arguments Done {A} a.
Arguments Throw {A} e.
Arguments Fault {A}.
Arguments OutOfFuel {A}.

Definition res_bind {A B} (f : A → res B) (m : res A) : res B :=
  match m with
  | Done a => f a
  | Throw e => Throw e
  | Fault => Fault
  | OutOfFuel => OutOfFuel
  end.

#[global] Instance res_mbind : MBind res := @res_bind.
#[global] Instance res_mret : MRet res := @Done.

Lemma res_bind_done {A B} (f : A → res B) (m : res A) (b : B) :
  m ≫= f = Done b → ∃ a, m = Done a ∧ f a = Done b.
Proof. destruct m; simpl; intros; try discriminate. eauto. Qed.

Lemma bind_Done {A B} (a : A) (f : A → res B) : Done a ≫= f = f a.
Proof. reflexivity. Qed.

(** * The cache, [tuttex/cache.hpp] *)

Module Cache.

(** [struct cache_node *]: null, [&buckets[i]], or [start_p + off]. *)
Inductive ptr :=
  | NULL
  | Bucket (i : nat)
  | Node (off : Z).

#[global] Instance ptr_eq_dec : EqDecision ptr.
Proof. solve_decision. Defined.

Definition is_null (p : ptr) : bool :=
  match p with NULL => true | _ => false end.

(** A bucket sentinel is a [struct cache_node] of which only the two
    links are ever read or written. *)
Record bucket_head := { b_next : ptr; b_prev : ptr }.

Section cache.
(** The graph key and the polynomial stream come from headers that are
    used, not defined, by [cache.hpp]. *)
Context {K P : Type}.
Variable sizeof_cache_node : Z.
Variable hash_graph_key : K → Z.
Variable compare_graph_keys : K → K → bool.
Variable sizeof_graph_key : K → Z.
Variable graph_size : K → Z.
(** [bout << p] and [bin >> dst]. *)
Variable bstream_write : P → list Byte.byte.
Variable bistream_read : list Byte.byte → P.
(** The values [rand()] returns, in call order, and [RAND_MAX]. *)
Variable rand : nat → Z.
Variable RAND_MAX : Z.

(** The image of a node in the arena: the header, then the key, then
    the polynomial bytes. *)
Record cache_node := {
  next : ptr;
  prev : ptr;
  hit_count : Z;
  graph_id : Z;
  size : Z;
  key : K;
  stream : list Byte.byte
}.

Record cache := {
  hits : Z;
  misses : Z;
  collisions : Z;
  numentries : Z;
  buckets : list bucket_head;
  arena : gmap Z cache_node;      (* node images, by offset from start_p *)
  next_p : Z;                     (* next_p - start_p *)
  bufsize : Z;
  replacement : float;
  min_replace_size : Z;
  random_replacement : bool;
  rand_calls : nat                (* calls of rand() made so far *)
}.

Definition nbuckets (c : cache) : Z := Z.of_nat (length (buckets c)).

(** *** Field updates *)

Definition with_hits (v : Z) (c : cache) : cache :=
  {| hits := v; misses := misses c; collisions := collisions c;
     numentries := numentries c; buckets := buckets c; arena := arena c;
     next_p := next_p c; bufsize := bufsize c; replacement := replacement c;
     min_replace_size := min_replace_size c;
     random_replacement := random_replacement c; rand_calls := rand_calls c |}.
Definition with_misses (v : Z) (c : cache) : cache :=
  {| hits := hits c; misses := v; collisions := collisions c;
     numentries := numentries c; buckets := buckets c; arena := arena c;
     next_p := next_p c; bufsize := bufsize c; replacement := replacement c;
     min_replace_size := min_replace_size c;
     random_replacement := random_replacement c; rand_calls := rand_calls c |}.
Definition with_collisions (v : Z) (c : cache) : cache :=
  {| hits := hits c; misses := misses c; collisions := v;
     numentries := numentries c; buckets := buckets c; arena := arena c;
     next_p := next_p c; bufsize := bufsize c; replacement := replacement c;
     min_replace_size := min_replace_size c;
     random_replacement := random_replacement c; rand_calls := rand_calls c |}.
Definition with_numentries (v : Z) (c : cache) : cache :=
  {| hits := hits c; misses := misses c; collisions := collisions c;
     numentries := v; buckets := buckets c; arena := arena c;
     next_p := next_p c; bufsize := bufsize c; replacement := replacement c;
     min_replace_size := min_replace_size c;
     random_replacement := random_replacement c; rand_calls := rand_calls c |}.
Definition with_buckets (v : list bucket_head) (c : cache) : cache :=
  {| hits := hits c; misses := misses c; collisions := collisions c;
     numentries := numentries c; buckets := v; arena := arena c;
     next_p := next_p c; bufsize := bufsize c; replacement := replacement c;
     min_replace_size := min_replace_size c;
     random_replacement := random_replacement c; rand_calls := rand_calls c |}.
Definition with_arena (v : gmap Z cache_node) (c : cache) : cache :=
  {| hits := hits c; misses := misses c; collisions := collisions c;
     numentries := numentries c; buckets := buckets c; arena := v;
     next_p := next_p c; bufsize := bufsize c; replacement := replacement c;
     min_replace_size := min_replace_size c;
     random_replacement := random_replacement c; rand_calls := rand_calls c |}.
Definition with_next_p (v : Z) (c : cache) : cache :=
  {| hits := hits c; misses := misses c; collisions := collisions c;
     numentries := numentries c; buckets := buckets c; arena := arena c;
     next_p := v; bufsize := bufsize c; replacement := replacement c;
     min_replace_size := min_replace_size c;
     random_replacement := random_replacement c; rand_calls := rand_calls c |}.
Definition with_rand_calls (v : nat) (c : cache) : cache :=
  {| hits := hits c; misses := misses c; collisions := collisions c;
     numentries := numentries c; buckets := buckets c; arena := arena c;
     next_p := next_p c; bufsize := bufsize c; replacement := replacement c;
     min_replace_size := min_replace_size c;
     random_replacement := random_replacement c; rand_calls := v |}.

Definition with_next (v : ptr) (n : cache_node) : cache_node :=
  {| next := v; prev := prev n; hit_count := hit_count n;
     graph_id := graph_id n; size := size n; key := key n; stream := stream n |}.
Definition with_prev (v : ptr) (n : cache_node) : cache_node :=
  {| next := next n; prev := v; hit_count := hit_count n;
     graph_id := graph_id n; size := size n; key := key n; stream := stream n |}.
Definition with_hit_count (v : Z) (n : cache_node) : cache_node :=
  {| next := next n; prev := prev n; hit_count := v;
     graph_id := graph_id n; size := size n; key := key n; stream := stream n |}.

(** *** Loads and stores through a [cache_node *] *)

Definition get_next (c : cache) (p : ptr) : res ptr :=
  match p with
  | NULL => Fault
  | Bucket i => match buckets c !! i with
                | Some b => Done (b_next b)
                | None => Fault
                end
  | Node o => match arena c !! o with
              | Some n => Done (next n)
              | None => Fault
              end
  end.

Definition get_prev (c : cache) (p : ptr) : res ptr :=
  match p with
  | NULL => Fault
  | Bucket i => match buckets c !! i with
                | Some b => Done (b_prev b)
                | None => Fault
                end
  | Node o => match arena c !! o with
              | Some n => Done (prev n)
              | None => Fault
              end
  end.

Definition set_next (c : cache) (p : ptr) (v : ptr) : res cache :=
  match p with
  | NULL => Fault
  | Bucket i => match buckets c !! i with
                | Some b =>
                    Done (with_buckets
                            (<[i := {| b_next := v; b_prev := b_prev b |}]> (buckets c)) c)
                | None => Fault
                end
  | Node o => match arena c !! o with
              | Some n => Done (with_arena (<[o := with_next v n]> (arena c)) c)
              | None => Fault
              end
  end.

Definition set_prev (c : cache) (p : ptr) (v : ptr) : res cache :=
  match p with
  | NULL => Fault
  | Bucket i => match buckets c !! i with
                | Some b =>
                    Done (with_buckets
                            (<[i := {| b_next := b_next b; b_prev := v |}]> (buckets c)) c)
                | None => Fault
                end
  | Node o => match arena c !! o with
              | Some n => Done (with_arena (<[o := with_prev v n]> (arena c)) c)
              | None => Fault
              end
  end.

(** Writing the [len] bytes of [n] at offset [dst] overwrites
    [dst, dst + len): node images that started strictly inside that
    range are gone. *)
Definition clobbered (dst len : Z) (o : Z) : Prop := dst < o < dst + len.

#[local] Instance clobbered_dec dst len o : Decision (clobbered dst len o).
Proof. unfold clobbered. apply _. Defined.

Definition write_node (a : gmap Z cache_node) (dst len : Z) (n : cache_node)
  : gmap Z cache_node :=
  <[dst := n]> (filter (λ e, ¬ clobbered dst len e.1) a).

(** *** Simple accessors, lines 127-136 *)

(** The five counters are returned as [int]: an unsigned value from
    [2^31] on reads negative. *)
Definition to_int (z : Z) : Z :=
  let r := u32 z in if r <? 2 ^ 31 then r else r - 2 ^ 32.

Definition num_hits (c : cache) : Z := to_int (hits c).
Definition num_misses (c : cache) : Z := to_int (misses c).
(** [int num_entries() { return numentries; }]: the 64-bit counter
    converted to [int]. *)
Definition num_entries (c : cache) : Z :=
  let r := u32 (numentries c) in if r <? 2 ^ 31 then r else r - 2 ^ 32.
Definition num_collisions (c : cache) : Z := to_int (collisions c).
Definition num_buckets (c : cache) : Z := to_int (nbuckets c).
Definition cache_size (c : cache) : Z := next_p c.      (* size() *)
Definition capacity (c : cache) : Z := bufsize c.

(** *** [clear] and [reset_stats], lines 190-208 *)

Definition clear (c : cache) : cache :=
  with_buckets ((λ _, {| b_next := NULL; b_prev := NULL |}) <$> buckets c)
               (with_next_p 0 c).

Definition reset_stats (c : cache) : cache :=
  with_collisions 0 (with_misses 0 (with_hits 0 c)).

(** *** Replacement settings, lines 210-223 *)

Definition set_random_replacement (c : cache) : cache :=
  {| hits := hits c; misses := misses c; collisions := collisions c;
     numentries := numentries c; buckets := buckets c; arena := arena c;
     next_p := next_p c; bufsize := bufsize c; replacement := replacement c;
     min_replace_size := min_replace_size c; random_replacement := true;
     rand_calls := rand_calls c |}.

Definition set_replace_size (minsize : Z) (c : cache) : cache :=
  {| hits := hits c; misses := misses c; collisions := collisions c;
     numentries := numentries c; buckets := buckets c; arena := arena c;
     next_p := next_p c; bufsize := bufsize c; replacement := replacement c;
     min_replace_size := minsize; random_replacement := random_replacement c;
     rand_calls := rand_calls c |}.

(** *** Node manipulation, lines 506-544 *)

Definition insert_node_after (c : cache) (new_node pos : ptr) : res cache :=
  pn ← get_next c pos;
  c ← set_next c new_node pn;
  c ← set_prev c new_node pos;
  c ← set_next c pos new_node;
  nn ← get_next c new_node;
  if is_null nn then Done c else set_prev c nn new_node.

Definition remove_node (c : cache) (node : ptr) : res cache :=
  pv ← get_prev c node;
  nx ← get_next c node;
  c ← set_next c pv nx;
  nx ← get_next c node;
  c ← (if is_null nx then Done c
       else pv ← get_prev c node; set_prev c nx pv);
  c ← set_next c node NULL;
  set_prev c node NULL.

Definition move_node (c : cache) (dst : Z) (ptr : Z) : res cache :=
  pv ← get_prev c (Node ptr);
  c ← set_next c pv (Node dst);
  nx ← get_next c (Node ptr);
  c ← (if is_null nx then Done c else set_prev c nx (Node dst));
  match arena c !! ptr with
  | Some n => Done (with_arena (write_node (arena c) dst (size n) n) c)
  | None => Fault
  end.

(** *** Construction, lines 106-119 and 400-410

    The constructor leaves [numentries] uninitialised; [garbage] is the
    value the field happens to hold. *)

Definition create_bucket_array (nbs : nat) : list bucket_head :=
  replicate nbs {| b_next := NULL; b_prev := NULL |}.

Definition new_cache (max_size : Z) (nbs : nat) (garbage : Z) : cache :=
  {| hits := 0; misses := 0; collisions := 0; numentries := garbage;
     buckets := create_bucket_array nbs; arena := ∅; next_p := 0;
     bufsize := max_size; replacement := 0x1.333334p-2%float;
     min_replace_size := UINT_MAX; random_replacement := false;
     rand_calls := 0%nat |}.

(** *** [lookup], lines 298-331 *)

(** The bytes the [bistream] of a hit is opened on. *)
Definition stream_of (n : cache_node) : list Byte.byte :=
  take (Z.to_nat (size n - (sizeof_graph_key (key n) + sizeof_cache_node)))
       (stream n).

Fixpoint lookup_walk (fuel : nat) (c : cache) (k : K) (bucket : nat)
    (node_p : ptr) : res (option (P * Z) * cache) :=
  match fuel with
  | O => OutOfFuel
  | S fuel =>
      match node_p with
      | NULL => Done (None, with_misses (u32 (misses c + 1)) c)
      | Bucket _ => Fault
      | Node o =>
          match arena c !! o with
          | None => Fault
          | Some n =>
              if compare_graph_keys k (key n) then
                let dst := bistream_read (stream_of n) in
                let id := graph_id n in
                let c := with_arena
                           (<[o := with_hit_count (u32 (hit_count n + 1)) n]> (arena c)) c in
                c ← remove_node c (Node o);
                c ← insert_node_after c (Node o) (Bucket bucket);
                Done (Some (dst, id), with_hits (u32 (hits c + 1)) c)
              else
                lookup_walk fuel (with_collisions (u32 (collisions c + 1)) c)
                            k bucket (next n)
          end
      end
  end.

Definition bucket_of (c : cache) (k : K) : nat :=
  Z.to_nat (u32 (hash_graph_key k) mod nbuckets c).

Definition lookup (fuel : nat) (c : cache) (k : K) : res (option (P * Z) * cache) :=
  if nbuckets c =? 0 then Fault
  else
    node_p ← get_next c (Bucket (bucket_of c k));
    lookup_walk fuel c k (bucket_of c k) node_p.

(** *** Eviction, lines 412-472 *)

Definition pinned (c : cache) (n : cache_node) : bool :=
  negb (graph_size (key n) <? min_replace_size c).

Definition unused (c : cache) (hc : Z) (n : cache_node) : bool :=
  (hit_count n <? hc) && (graph_size (key n) <? min_replace_size c).

(** The inner [while (ptr != NULL)] of [remove_unused_nodes]. *)
Fixpoint unused_walk (fuel : nat) (hc : Z) (c : cache) (ptr : ptr)
    (count : Z) (amount : float) : res (cache * Z * float) :=
  match fuel with
  | O => OutOfFuel
  | S fuel =>
      match ptr with
      | NULL => Done (c, count, amount)
      | Bucket _ => Fault
      | Node o =>
          match arena c !! o with
          | None => Fault
          | Some n =>
              if unused c hc n then
                c' ← remove_node c (Node o);
                unused_walk fuel hc c' (next n) (u32 (count + 1))
                            (amount + double_of_Z (size n))%float
              else unused_walk fuel hc c (next n) count amount
          end
      end
  end.

(** The [for] over the buckets, one pass for one value of [hc]. *)
Fixpoint unused_pass (fuel : nat) (hc : Z) (bs : list nat) (c : cache)
    (count : Z) (amount : float) : res (cache * Z * float) :=
  match bs with
  | [] => Done (c, count, amount)
  | i :: bs =>
      p ← get_next c (Bucket i);
      r ← unused_walk fuel hc c p count amount;
      unused_pass fuel hc bs r.1.1 r.1.2 r.2
  end.

(** [(amount / orig_size) < p], the test of the [do ... while]. *)
Definition below_ratio (amount : float) (orig_size : Z) (p : float) : bool :=
  PrimFloat.ltb (amount / double_of_Z orig_size)%float p.

Fixpoint unused_passes (fuel passes : nat) (p : float) (orig_size : Z)
    (hc : Z) (c : cache) (amount : float) : res cache :=
  match passes with
  | O => OutOfFuel
  | S passes =>
      let hc := u32 (hc + 1) in
      r ← unused_pass fuel hc (seq 0 (length (buckets c))) c 0 amount;
      let c := with_numentries (u64 (numentries r.1.1 - r.1.2)) r.1.1 in
      if below_ratio r.2 orig_size p
      then unused_passes fuel passes p orig_size hc c r.2
      else Done c
  end.

Definition remove_unused_nodes (fuel : nat) (c : cache) (p : float) : res cache :=
  unused_passes fuel fuel p (next_p c) 0 c 0%float.

(** The inner loop of [randomly_remove_nodes]. *)
Fixpoint random_walk (fuel : nat) (p : float) (c : cache) (ptr : ptr)
    (count : Z) : res (cache * Z) :=
  match fuel with
  | O => OutOfFuel
  | S fuel =>
      match ptr with
      | NULL => Done (c, count)
      | Bucket _ => Fault
      | Node o =>
          match arena c !! o with
          | None => Fault
          | Some n =>
              if graph_size (key n) <? min_replace_size c then
                let f := (double_of_Z (rand (rand_calls c)) / double_of_Z RAND_MAX)%float in
                let c := with_rand_calls (S (rand_calls c)) c in
                if PrimFloat.ltb f p then
                  c' ← remove_node c (Node o);
                  random_walk fuel p c' (next n) (u64 (count + 1))
                else random_walk fuel p c (next n) count
              else random_walk fuel p c (next n) count
          end
      end
  end.

Fixpoint random_pass (fuel : nat) (p : float) (bs : list nat) (c : cache)
    (count : Z) : res (cache * Z) :=
  match bs with
  | [] => Done (c, count)
  | i :: bs =>
      ptr ← get_next c (Bucket i);
      r ← random_walk fuel p c ptr count;
      random_pass fuel p bs r.1 r.2
  end.

Definition randomly_remove_nodes (fuel : nat) (c : cache) (p : float) : res cache :=
  r ← random_pass fuel p (seq 0 (length (buckets c))) c 0;
  Done (with_numentries (u64 (numentries r.1 - r.2)) r.1).

(** *** Compaction, lines 474-500 *)

Definition is_free (n : cache_node) : bool := is_null (next n) && is_null (prev n).

Fixpoint pack_walk (fuel : nat) (c : cache) (ptr pend : Z) (diff : Z)
    : res (cache * Z) :=
  match fuel with
  | O => OutOfFuel
  | S fuel =>
      if ptr =? pend then Done (c, diff)
      else
        match arena c !! ptr with
        | None => Fault
        | Some n =>
            let nptr := ptr + size n in
            if is_free n then pack_walk fuel c nptr pend (diff + size n)
            else if 0 <? diff then
              c' ← move_node c (ptr - diff) ptr;
              pack_walk fuel c' nptr pend diff
            else pack_walk fuel c nptr pend diff
        end
  end.

Definition pack_buffer (fuel : nat) (c : cache) : res cache :=
  r ← pack_walk fuel c 0 (next_p c) 0;
  Done (with_next_p (next_p r.1 - r.2) r.1).

(** *** [alloc_node] and [store], lines 333-398 *)

Definition evict (fuel : nat) (c : cache) : res cache :=
  c ← (if random_replacement c
       then randomly_remove_nodes fuel c (replacement c)
       else remove_unused_nodes fuel c (replacement c));
  pack_buffer fuel c.

Fixpoint alloc_loop (fuel rounds : nat) (c : cache) (sz : Z) : res (Z * cache) :=
  if next_p c + sz <? bufsize c
  then Done (next_p c, with_next_p (next_p c + sz) c)
  else
    match rounds with
    | O => OutOfFuel
    | S rounds => c ← evict fuel c; alloc_loop fuel rounds c sz
    end.

Definition alloc_node (fuel : nat) (c : cache) (sz : Z) : res (Z * cache) :=
  if bufsize c <=? sz then Throw bad_alloc else alloc_loop fuel fuel c sz.

Definition entry_size (k : K) (p : P) : Z :=
  sizeof_cache_node + sizeof_graph_key k + Z.of_nat (length (bstream_write p)).

(** The node [store] leaves at the address [alloc_node] returned, before
    it is linked into its bucket. *)
Definition fresh_node (k : K) (p : P) (id : Z) : cache_node :=
  {| next := NULL; prev := NULL; hit_count := 0; graph_id := id;
     size := u32 (entry_size k p); key := k; stream := bstream_write p |}.

Definition store (fuel : nat) (c : cache) (k : K) (p : P) (id : Z) : res cache :=
  r ← alloc_node fuel c (entry_size k p);
  let node_p := r.1 in
  let c := r.2 in
  let c := with_arena (write_node (arena c) node_p (entry_size k p) (fresh_node k p id)) c in
  if nbuckets c =? 0 then Fault
  else
    c ← insert_node_after c (Node node_p) (Bucket (bucket_of c k));
    Done (with_numentries (u64 (numentries c + 1)) c).

(** *** Bucket statistics, lines 138-181

    [bucket_length] counts in an [int] and returns [unsigned int]; the
    increment of an [int] at [INT_MAX] is undefined.  [l] and [u] of
    [count_buckets_sized] are [int]s that the comparisons with the
    [unsigned int] length convert to [unsigned int]. *)

Definition INT_MAX : Z := 2 ^ 31 - 1.

Fixpoint length_walk (fuel : nat) (c : cache) (ptr : ptr) (len : Z) : res Z :=
  match fuel with
  | O => OutOfFuel
  | S fuel =>
      if is_null ptr then Done len
      else
        nx ← get_next c ptr;
        if len <? INT_MAX then length_walk fuel c nx (len + 1) else Fault
  end.

Definition bucket_length (fuel : nat) (c : cache) (b : Z) : res Z :=
  if (0 <=? b) && (b <? nbuckets c) then
    ptr ← get_next c (Bucket (Z.to_nat b));
    len ← length_walk fuel c ptr 0;
    Done (u32 len)
  else Fault.

Fixpoint min_bucket_scan (fuel : nat) (c : cache) (bs : list nat) (r : Z) : res Z :=
  match bs with
  | [] => Done r
  | i :: bs =>
      bl ← bucket_length fuel c (Z.of_nat i);
      min_bucket_scan fuel c bs (Z.min r bl)
  end.

Definition min_bucket_size (fuel : nat) (c : cache) : res Z :=
  min_bucket_scan fuel c (seq 0 (length (buckets c))) UINT_MAX.

Fixpoint max_bucket_scan (fuel : nat) (c : cache) (bs : list nat) (r : Z) : res Z :=
  match bs with
  | [] => Done r
  | i :: bs =>
      bl ← bucket_length fuel c (Z.of_nat i);
      max_bucket_scan fuel c bs (Z.max r bl)
  end.

Definition max_bucket_size (fuel : nat) (c : cache) : res Z :=
  max_bucket_scan fuel c (seq 0 (length (buckets c))) 0.

Fixpoint count_sized_scan (fuel : nat) (c : cache) (l u : Z) (bs : list nat)
    (count : Z) : res Z :=
  match bs with
  | [] => Done count
  | i :: bs =>
      bl ← bucket_length fuel c (Z.of_nat i);
      count_sized_scan fuel c l u bs
        (if (u32 l <=? bl) && (bl <=? u32 u) then u32 (count + 1) else count)
  end.

Definition count_buckets_sized (fuel : nat) (c : cache) (l u : Z) : res Z :=
  count_sized_scan fuel c l u (seq 0 (length (buckets c))) 0.

(** *** [rebucket], lines 266-296

    The walk works on a cache whose [buckets] are the new array [bs]; the
    heads of the old array are read from the cache as it was on entry.
    The number of buckets is the length of the array in this model, which
    is what [nbuckets = nbs] stores as long as [nbs] fits an
    [unsigned int]. *)

(** The body of the inner [while], after the bucket index is known. *)
Definition rebucket_insert (c : cache) (o : Z) (b : nat) : res cache :=
  hd ← get_next c (Bucket b);
  c ← set_next c (Node o) hd;
  c ← set_prev c (Node o) (Bucket b);
  nx ← get_next c (Node o);
  c ← (if is_null nx then Done c else set_prev c nx (Node o));
  set_next c (Bucket b) (Node o).

Fixpoint rebucket_walk (fuel : nat) (nbs : Z) (c : cache) (ptr : ptr) : res cache :=
  match fuel with
  | O => OutOfFuel
  | S fuel =>
      match ptr with
      | NULL => Done c
      | Bucket _ => Fault
      | Node o =>
          match arena c !! o with
          | None => Fault
          | Some n =>
              if nbs =? 0 then Fault
              else
                let b := Z.to_nat (u32 (u32 (hash_graph_key (key n)) mod nbs)) in
                c ← rebucket_insert c o b;
                rebucket_walk fuel nbs c (next n)
          end
      end
  end.

Fixpoint rebucket_pass (fuel : nat) (nbs : Z) (heads : list bucket_head) (c : cache)
    : res cache :=
  match heads with
  | [] => Done c
  | hd :: heads =>
      c ← rebucket_walk fuel nbs c (b_next hd);
      rebucket_pass fuel nbs heads c
  end.

Definition rebucket (fuel : nat) (c : cache) (nbs : nat) : res cache :=
  rebucket_pass fuel (Z.of_nat nbs) (buckets c) (with_buckets (create_bucket_array nbs) c).

(** *** Iteration, lines 37-83 and 366-367

    [begin()] is the start of the buffer, [end()] the frontier, and
    [operator++] steps over the [size] bytes of the node it is at.
    [visit] is the loop [for (iterator i(begin()); i != end(); ++i)] of
    [write_graph_sizes] ([tutte.cpp], line 857), with the positions the
    iterator takes as its result. *)

Definition begin (c : cache) : Z := 0.
Definition end_ (c : cache) : Z := next_p c.

(** [++i]. *)
Definition advance (c : cache) (ptr : Z) : res Z :=
  match arena c !! ptr with
  | Some n => Done (ptr + size n)
  | None => Fault
  end.

Fixpoint visit_from (fuel : nat) (c : cache) (ptr : Z) : res (list Z) :=
  match fuel with
  | O => OutOfFuel
  | S fuel =>
      if ptr =? end_ c then Done []
      else
        nx ← advance c ptr;
        rest ← visit_from fuel c nx;
        Done (ptr :: rest)
  end.

Definition visit (fuel : nat) (c : cache) : res (list Z) := visit_from fuel c (begin c).

(** ** Shape of the linked lists

    [seg a pv p l q]: starting at pointer [p], whose predecessor is [pv],
    the [next] links visit the nodes at offsets [l] and end at [q], and
    every [prev] link points back. *)

Fixpoint seg (a : gmap Z cache_node) (pv p : ptr) (l : list Z) (q : ptr) : Prop :=
  match l with
  | [] => p = q
  | o :: l => p = Node o ∧
              ∃ n, a !! o = Some n ∧ prev n = pv ∧ seg a (Node o) (next n) l q
  end.

Definition chain (a : gmap Z cache_node) (pv p : ptr) (l : list Z) : Prop :=
  seg a pv p l NULL.

(** The entries of bucket [b], front first. *)
Definition bucket_list (c : cache) (b : nat) (l : list Z) : Prop :=
  ∃ hd, buckets c !! b = Some hd ∧ chain (arena c) (Bucket b) (b_next hd) l.

Fixpoint last_ptr (pv : ptr) (l : list Z) : ptr :=
  match l with
  | [] => pv
  | o :: l => last_ptr (Node o) l
  end.

Definition head_ptr (l : list Z) (q : ptr) : ptr :=
  match l with o :: _ => Node o | [] => q end.

(** The same, as a check that runs. *)
Fixpoint seg_b (a : gmap Z cache_node) (pv p : ptr) (l : list Z) (q : ptr) : bool :=
  match l with
  | [] => bool_decide (p = q)
  | o :: l =>
      bool_decide (p = Node o) &&
      match a !! o with
      | Some n => bool_decide (prev n = pv) && seg_b a (Node o) (next n) l q
      | None => false
      end
  end.

Definition bucket_list_b (c : cache) (b : nat) (l : list Z) : bool :=
  match buckets c !! b with
  | Some hd => seg_b (arena c) (Bucket b) (b_next hd) l NULL
  | None => false
  end.

(** Two node images that differ at most in their links. *)
Definition same_payload (n n' : cache_node) : Prop :=
  hit_count n' = hit_count n ∧ graph_id n' = graph_id n ∧ size n' = size n ∧
  key n' = key n ∧ stream n' = stream n.

(** Two caches that differ at most in buckets and arena. *)
Definition same_scalars (c c' : cache) : Prop :=
  hits c' = hits c ∧ misses c' = misses c ∧ collisions c' = collisions c ∧
  numentries c' = numentries c ∧ next_p c' = next_p c ∧ bufsize c' = bufsize c ∧
  replacement c' = replacement c ∧ min_replace_size c' = min_replace_size c ∧
  random_replacement c' = random_replacement c ∧ rand_calls c' = rand_calls c.

(** Does the node at [o] carry a key that [compare_graph_keys] matches? *)
Definition key_matches (c : cache) (k : K) (o : Z) : bool :=
  match arena c !! o with
  | Some n => compare_graph_keys k (key n)
  | None => false
  end.

(** What an operation on the list of bucket [b] leaves alone: the
    scalars, the other buckets, the nodes outside [touched], and the
    payload of every node. *)
Definition relinked (c c' : cache) (b : nat) (touched : list Z) : Prop :=
  same_scalars c c' ∧
  length (buckets c') = length (buckets c) ∧
  (∀ b', b' ≠ b → buckets c' !! b' = buckets c !! b') ∧
  (∀ x, x ∉ touched → arena c' !! x = arena c !! x) ∧
  (∀ x n, arena c !! x = Some n →
          ∃ n', arena c' !! x = Some n' ∧ same_payload n n') ∧
  (∀ x, arena c !! x = None → arena c' !! x = None).

(** [evicted fuel n c sz c']: [n] times in a row the entry of [sz] bytes
    did not fit behind the frontier and the body of the [while] of
    [alloc_node] ran, ending in [c']. *)
Fixpoint evicted (fuel n : nat) (c : cache) (sz : Z) (c' : cache) : Prop :=
  match n with
  | O => c' = c
  | S n => bufsize c ≤ next_p c + sz ∧
           ∃ c1, evict fuel c = Done c1 ∧ evicted fuel n c1 sz c'
  end.

(** [n] increments of a 32-bit counter. *)
Definition bump32 (n : nat) (x : Z) : Z := Nat.iter n (λ v, u32 (v + 1)) x.

(** What a pass of [remove_unused_nodes] with counter [hc] does to the
    entry at offset [o]: it is unlinked when its [hit_count] is below [hc]
    and its graph has fewer than [min_replace_size] vertices. *)
Definition evictable (c : cache) (hc : Z) (o : Z) : bool :=
  match arena c !! o with
  | Some n => unused c hc n
  | None => false
  end.

Definition size_at (c : cache) (o : Z) : Z :=
  match arena c !! o with
  | Some n => size n
  | None => 0
  end.

(** [amount += optr->size] over the entries [l], in order. *)
Definition add_sizes (c : cache) (amount : float) (l : list Z) : float :=
  fold_left (λ a o, (a + double_of_Z (size_at c o))%float) l amount.

Definition kept_by (c : cache) (hc : Z) (l : list Z) : list Z :=
  filter (λ o, evictable c hc o = false) l.

Definition dropped_by (c : cache) (hc : Z) (l : list Z) : list Z :=
  filter (λ o, evictable c hc o = true) l.

(** What [randomly_remove_nodes] does to the entries [l] of one bucket
    when [calls] numbers have been drawn so far: an entry whose graph has
    fewer than [min_replace_size] vertices takes the next number, and is
    unlinked when the number, over [RAND_MAX], is below [p].  The result
    is the entries that stay and the numbers drawn by the end. *)
Definition small (c : cache) (o : Z) : bool :=
  match arena c !! o with
  | Some n => graph_size (key n) <? min_replace_size c
  | None => false
  end.

Definition drawn (calls : nat) (p : float) : bool :=
  PrimFloat.ltb (double_of_Z (rand calls) / double_of_Z RAND_MAX)%float p.

Fixpoint random_split (c : cache) (p : float) (calls : nat) (l : list Z)
    : list Z * nat :=
  match l with
  | [] => ([], calls)
  | o :: l =>
      if small c o then
        let r := random_split c p (S calls) l in
        if drawn calls p then r else (o :: r.1, r.2)
      else
        let r := random_split c p calls l in (o :: r.1, r.2)
  end.

(** The same over the buckets in turn. *)
Fixpoint random_lists (c : cache) (p : float) (calls : nat) (L : list (list Z))
    : list (list Z) * nat :=
  match L with
  | [] => ([], calls)
  | l :: L =>
      let r := random_split c p calls l in
      let R := random_lists c p r.2 L in
      (r.1 :: R.1, R.2)
  end.

(** [n] increments of a 64-bit counter. *)
Definition bump64 (n : nat) (x : Z) : Z := Nat.iter n (λ v, u64 (v + 1)) x.

(** Two caches with the same arena bounds and eviction settings and the
    same entries up to their links. *)
Definition same_settings (c c' : cache) : Prop :=
  next_p c' = next_p c ∧ bufsize c' = bufsize c ∧
  replacement c' = replacement c ∧ min_replace_size c' = min_replace_size c ∧
  random_replacement c' = random_replacement c.

Definition preserved (c c' : cache) : Prop :=
  same_settings c c' ∧
  length (buckets c') = length (buckets c) ∧
  (∀ x n, arena c !! x = Some n →
          ∃ n', arena c' !! x = Some n' ∧ same_payload n n') ∧
  (∀ x, arena c !! x = None → arena c' !! x = None).

(** The bucket lists of a cache: list [i] holds the entries of bucket
    [i], and no entry is in two places. *)
Definition lists_wf (c : cache) (L : list (list Z)) : Prop :=
  length L = length (buckets c) ∧
  (∀ i l, L !! i = Some l → bucket_list c i l) ∧
  NoDup (mjoin L).

(** The bucket lists, the accumulated [amount] and the entry counter
    after the passes [hc = 1, ..., h] of [remove_unused_nodes]. *)
Fixpoint lists_after (c : cache) (L : list (list Z)) (h : nat) : list (list Z) :=
  match h with
  | O => L
  | S h' => kept_by c (Z.of_nat (S h')) <$> lists_after c L h'
  end.

Fixpoint amount_after (c : cache) (L : list (list Z)) (h : nat) : float :=
  match h with
  | O => 0%float
  | S h' => add_sizes c (amount_after c L h')
                      (dropped_by c (Z.of_nat (S h')) (mjoin (lists_after c L h')))
  end.

Fixpoint entries_after (c : cache) (L : list (list Z)) (h : nat) : Z :=
  match h with
  | O => numentries c
  | S h' =>
      u64 (entries_after c L h' -
           bump32 (length (dropped_by c (Z.of_nat (S h')) (mjoin (lists_after c L h')))) 0)
  end.

(** ** Layout of the arena

    [tiles a start offs stop]: the node images at the offsets [offs] lie
    back to back from [start] to [stop]; this is the sequence [next_node]
    walks in [pack_buffer]. *)
Fixpoint tiles (a : gmap Z cache_node) (start : Z) (offs : list Z) (stop : Z) : Prop :=
  match offs with
  | [] => start = stop
  | o :: offs =>
      o = start ∧ ∃ n, a !! o = Some n ∧ 0 < size n ∧ tiles a (o + size n) offs stop
  end.

Fixpoint tiles_b (a : gmap Z cache_node) (start : Z) (offs : list Z) (stop : Z) : bool :=
  match offs with
  | [] => start =? stop
  | o :: offs =>
      (o =? start) &&
      match a !! o with
      | Some n => (0 <? size n) && tiles_b a (o + size n) offs stop
      | None => false
      end
  end.

Definition free_at (c : cache) (o : Z) : bool :=
  match arena c !! o with
  | Some n => is_free n
  | None => false
  end.

Definition live_at (c : cache) (o : Z) : bool :=
  match arena c !! o with
  | Some n => negb (is_free n)
  | None => false
  end.

(** The bytes of the free entries, and of the live entries, among [l]. *)
Definition free_total (c : cache) (l : list Z) : Z :=
  foldr (λ o acc, (if free_at c o then size_at c o else 0) + acc) 0 l.

Definition live_total (c : cache) (l : list Z) : Z :=
  foldr (λ o acc, (if live_at c o then size_at c o else 0) + acc) 0 l.

(** The accumulated size of the free entries of the layout [offs] that
    lie before offset [o], and where [pack_buffer] moves the entry at [o]. *)
Definition freed_before (c : cache) (offs : list Z) (o : Z) : Z :=
  free_total c (filter (λ x, x < o) offs).

Definition reloc (c : cache) (offs : list Z) (o : Z) : Z :=
  o - freed_before c offs o.

(** Pointers, node images and bucket heads with the node addresses
    renamed: [fn] in [next] links, [fp] in [prev] links. *)
Definition pmap (f : Z → Z) (p : ptr) : ptr :=
  match p with
  | Node o => Node (f o)
  | _ => p
  end.

Definition relink (fn fp : Z → Z) (n : cache_node) : cache_node :=
  {| next := pmap fn (next n); prev := pmap fp (prev n); hit_count := hit_count n;
     graph_id := graph_id n; size := size n; key := key n; stream := stream n |}.

Definition relink_head (f : Z → Z) (hd : bucket_head) : bucket_head :=
  {| b_next := pmap f (b_next hd); b_prev := b_prev hd |}.

(** The images under [f] of the entries [l] lie back to back from
    [start] to [stop]. *)
Fixpoint ptiles (c : cache) (f : Z → Z) (start : Z) (l : list Z) (stop : Z) : Prop :=
  match l with
  | [] => start = stop
  | o :: l => f o = start ∧ ptiles c f (start + size_at c o) l stop
  end.

(** The links of the entries of the layout [offs] are those of doubly
    linked lists hanging off the buckets: what a [prev] link points to
    points back with its [next] link, and conversely. *)
Record linked (c : cache) (offs : list Z) : Prop := {
  lk_prev : ∀ o n, o ∈ offs → arena c !! o = Some n → is_free n = false →
    match prev n with
    | NULL => False
    | Bucket b => ∃ hd, buckets c !! b = Some hd ∧ b_next hd = Node o
    | Node x => x ≠ o ∧ x ∈ offs ∧ ∃ nx, arena c !! x = Some nx ∧ next nx = Node o
    end;
  lk_next : ∀ o n, o ∈ offs → arena c !! o = Some n → is_free n = false →
    match next n with
    | NULL => True
    | Bucket _ => False
    | Node y => y ≠ o ∧ y ∈ offs ∧ ∃ ny, arena c !! y = Some ny ∧ prev ny = Node o
    end;
  lk_head : ∀ b hd, buckets c !! b = Some hd →
    match b_next hd with
    | NULL => True
    | Bucket _ => False
    | Node y => y ∈ offs ∧ ∃ ny, arena c !! y = Some ny ∧ prev ny = Bucket b
    end
}.

(** The address map after the entry at [o] went to [dst]. *)
Definition moved (f : Z → Z) (o dst : Z) : Z → Z :=
  λ z, if bool_decide (z = o) then dst else f z.

(** The state of the walk of [pack_buffer] that has passed the entries
    [done] and stands at [ptr] in front of the entries [rest]: [c] is the
    cache on entry, [cc] the cache now, [f] where each entry is now. *)
Record pack_inv (c : cache) (offs done rest : list Z) (ptr diff : Z)
    (f : Z → Z) (cc : cache) : Prop := {
  pi_split : offs = done ++ rest;
  pi_tiles : tiles (arena c) ptr rest (next_p c);
  pi_diff : diff = free_total c done;
  pi_diff_pos : 0 ≤ diff;
  pi_below : ∀ z, z ∈ done → z < ptr;
  pi_id : ∀ z, ¬ (z ∈ done ∧ live_at c z = true) → f z = z;
  pi_reloc : ∀ z, z ∈ done → live_at c z = true → f z = reloc c offs z;
  pi_ptiles : ptiles c f 0 (filter (λ z, live_at c z = true) done) (ptr - diff);
  pi_arena : ∀ z n, z ∈ offs → arena c !! z = Some n →
             is_free n = false ∨ z ∈ rest →
             arena cc !! f z = Some (relink f f n);
  pi_heads : buckets cc = relink_head f <$> buckets c;
  pi_scalars : same_scalars c cc
}.

(** The bucket [rebucket(nbs)] sends the entry at [o] to, and the bucket
    lists it builds from the entries [order], taken in that order: each
    entry goes to the front of its new bucket. *)
Definition slot (c : cache) (nbs : nat) (o : Z) : nat :=
  match arena c !! o with
  | Some n => Z.to_nat (u32 (hash_graph_key (key n)) mod Z.of_nat nbs)
  | None => 0
  end.

Fixpoint place (c : cache) (nbs : nat) (order : list Z) (NL : list (list Z))
    : list (list Z) :=
  match order with
  | [] => NL
  | o :: order => place c nbs order (alter (cons o) (slot c nbs o) NL)
  end.

Definition rebucketed (c : cache) (nbs : nat) (order : list Z) : list (list Z) :=
  (λ b, reverse (filter (λ o, slot c nbs o = b) order)) <$> seq 0 nbs.

(** ** Loads and stores: evaluation lemmas *)

Lemma get_next_node c o n : arena c !! o = Some n → get_next c (Node o) = Done (next n).
Proof. intros H. simpl. by rewrite H. Qed.

Lemma get_prev_node c o n : arena c !! o = Some n → get_prev c (Node o) = Done (prev n).
Proof. intros H. simpl. by rewrite H. Qed.

Lemma get_next_bucket c b hd :
  buckets c !! b = Some hd → get_next c (Bucket b) = Done (b_next hd).
Proof. intros H. simpl. by rewrite H. Qed.

Lemma set_next_node c o n v :
  arena c !! o = Some n →
  set_next c (Node o) v = Done (with_arena (<[o := with_next v n]> (arena c)) c).
Proof. intros H. simpl. by rewrite H. Qed.

Lemma set_prev_node c o n v :
  arena c !! o = Some n →
  set_prev c (Node o) v = Done (with_arena (<[o := with_prev v n]> (arena c)) c).
Proof. intros H. simpl. by rewrite H. Qed.

Lemma set_next_bucket c b hd v :
  buckets c !! b = Some hd →
  set_next c (Bucket b) v =
  Done (with_buckets (<[b := {| b_next := v; b_prev := b_prev hd |}]> (buckets c)) c).
Proof. intros H. simpl. by rewrite H. Qed.

(** ** Segments *)

Lemma seg_nil a pv p q : seg a pv p [] q ↔ p = q.
Proof. done. Qed.

Lemma seg_cons a pv p o l q :
  seg a pv p (o :: l) q ↔
  p = Node o ∧ ∃ n, a !! o = Some n ∧ prev n = pv ∧ seg a (Node o) (next n) l q.
Proof. done. Qed.

Lemma seg_nil_inv a pv p q : seg a pv p [] q → p = q.
Proof. done. Qed.

Arguments seg : simpl never.

Lemma seg_b_true a pv p l q : seg_b a pv p l q = true → seg a pv p l q.
Proof.
  revert pv p. induction l as [|o l IH]; intros pv p; simpl.
  - intros H. apply seg_nil. by apply bool_decide_eq_true in H.
  - intros H. apply andb_true_iff in H as (Hp & H). apply bool_decide_eq_true in Hp.
    destruct (a !! o) as [n|] eqn:Hn; [|done].
    apply andb_true_iff in H as (Hpv & H). apply bool_decide_eq_true in Hpv.
    apply seg_cons. split; [done|]. exists n. split; [done|]. split; [done|].
    by apply IH.
Qed.

Lemma bucket_list_b_true c b l : bucket_list_b c b l = true → bucket_list c b l.
Proof.
  unfold bucket_list_b, bucket_list. destruct (buckets c !! b) as [hd|]; [|done].
  intros H. exists hd. split; [done|]. by apply seg_b_true.
Qed.

Lemma seg_app a pv p l1 l2 q :
  seg a pv p (l1 ++ l2) q ↔
  ∃ m, seg a pv p l1 m ∧ seg a (last_ptr pv l1) m l2 q.
Proof.
  revert pv p. induction l1 as [|o l1 IH]; intros pv p; simpl.
  - split.
    + intros H. exists p. done.
    + intros (m & -> & H). done.
  - split.
    + intros (-> & n & Hn & Hpv & H). apply IH in H as (m & H1 & H2).
      exists m. split; [|done]. split; [done|]. exists n. done.
    + intros (m & (-> & n & Hn & Hpv & H1) & H2). split; [done|].
      exists n. split; [done|]. split; [done|]. apply IH. by exists m.
Qed.

Lemma seg_frame a a' pv p l q :
  (∀ x, x ∈ l → a' !! x = a !! x) → seg a pv p l q → seg a' pv p l q.
Proof.
  revert pv p. induction l as [|o l IH]; intros pv p Hfr; simpl; [done|].
  intros (-> & n & Hn & Hpv & H). split; [done|]. exists n.
  split; [rewrite Hfr; [done|by left]|]. split; [done|].
  apply IH; [|done]. intros x Hx. apply Hfr. by right.
Qed.

Lemma seg_head a pv p l q : seg a pv p l q → p = head_ptr l q.
Proof. destruct l; simpl; [done|]. by intros (-> & _). Qed.

Lemma seg_lookup a pv p l q x :
  seg a pv p l q → x ∈ l → is_Some (a !! x).
Proof.
  revert pv p. induction l as [|o l IH]; intros pv p; simpl.
  - intros _ Hx. by apply elem_of_nil in Hx.
  - intros (-> & n & Hn & _ & H) Hx. apply elem_of_cons in Hx as [->|Hx]; [by eexists|].
    by eapply IH.
Qed.

Lemma last_ptr_app pv l x : last_ptr pv (l ++ [x]) = Node x.
Proof. revert pv. induction l as [|o l IH]; intros pv; simpl; [done|]. apply IH. Qed.

(** Changing the [prev] link of the first node of a chain. *)
Lemma chain_set_first_prev a pv pv' q nq l :
  a !! q = Some nq → q ∉ l →
  chain a pv (Node q) (q :: l) →
  chain (<[q := with_prev pv' nq]> a) pv' (Node q) (q :: l).
Proof.
  intros Hq Hnin (_ & n & Hn & _ & H).
  assert (n = nq) as -> by congruence.
  split; [done|]. exists (with_prev pv' nq).
  split; [by rewrite lookup_insert_eq|]. split; [done|]. simpl.
  eapply seg_frame; [|done]. intros x Hx. rewrite lookup_insert_ne; [done|].
  intros ->. done.
Qed.

(** ** [remove_node] unlinks one entry of a bucket list *)

Lemma same_scalars_refl_links c bs a :
  same_scalars c (with_arena a (with_buckets bs c)).
Proof. by repeat split. Qed.

(** The parameters of the section play no part in arguments about list
    membership. *)
Ltac drop_params :=
  try clear rand; try clear RAND_MAX; try clear bistream_read;
  try clear bstream_write; try clear graph_size; try clear sizeof_graph_key;
  try clear compare_graph_keys; try clear hash_graph_key;
  try clear sizeof_cache_node.

Ltac solve_lookups :=
  simpl; rewrite ?lookup_insert; repeat case_decide; simplify_eq; eauto.

Ltac mem_simpl :=
  cbn [arena buckets with_arena with_buckets next prev with_next with_prev
       with_hit_count b_next b_prev is_null].

Lemma remove_node_spec c b l1 o l2 :
  bucket_list c b (l1 ++ o :: l2) → NoDup (l1 ++ o :: l2) →
  ∃ c' n, remove_node c (Node o) = Done c' ∧
    arena c !! o = Some n ∧
    arena c' !! o = Some (with_prev NULL (with_next NULL n)) ∧
    bucket_list c' b (l1 ++ l2) ∧
    relinked c c' b (l1 ++ o :: l2).
Proof.
  intros (hd & Hb & Hch) Hnd.
  apply seg_app in Hch as (m & Hs1 & Hs2).
  destruct Hs2 as (-> & n & Ho & Hpv & Hs2).
  apply NoDup_app in Hnd as (Hnd1 & Hdisj & Hnd2).
  apply NoDup_cons in Hnd2 as (Hol2 & Hnd2).
  assert (Hol1 : o ∉ l1) by (intros Hin; apply (Hdisj _ Hin); by left).
  unfold remove_node.
  rewrite (get_prev_node _ _ _ Ho), bind_Done, (get_next_node _ _ _ Ho), bind_Done.
  rewrite Hpv.
  destruct l1 as [|p l1' _] using rev_ind.
  - (* the entry is first in its bucket *)
    simpl in Hs1, Hpv. simpl last_ptr.
    rewrite (set_next_bucket _ _ _ _ Hb), bind_Done.
    set (c1 := with_buckets _ c).
    rewrite (get_next_node c1 o n Ho), bind_Done.
    destruct l2 as [|q l2'].
    + simpl in Hs2. rewrite Hs2. simpl is_null. cbv iota. rewrite bind_Done.
      rewrite (set_next_node c1 o n NULL Ho), bind_Done.
      erewrite set_prev_node by (simpl; apply lookup_insert_eq).
      eexists _, n. split; [reflexivity|]. split; [done|].
      split; [solve_lookups|]. split.
      * eexists. split; [simpl; apply list_lookup_insert_eq; by eapply lookup_lt_Some|].
        done.
      * split; [by repeat split|]. split; [simpl; by rewrite length_insert|].
        split; [intros b' Hb'; simpl; by rewrite list_lookup_insert_ne|].
        split; [intros x Hx; solve_lookups; exfalso; apply Hx; by left|].
        split; [intros x nx Hx; solve_lookups; by eexists|].
        intros x Hx. solve_lookups.
    + destruct Hs2 as (Hnx & nq & Hq & Hqpv & Hs2). rewrite Hnx. simpl is_null. cbv iota.
      apply NoDup_cons in Hnd2 as (Hql2 & Hnd2).
      assert (Hoq : o ≠ q) by (intros ->; apply Hol2; by left).
      rewrite (get_prev_node c1 o n Ho), bind_Done, Hpv.
      rewrite (set_prev_node c1 q nq _ Hq), bind_Done.
      erewrite set_next_node by (simpl; rewrite lookup_insert_ne by done; exact Ho).
      rewrite bind_Done.
      erewrite set_prev_node by (simpl; apply lookup_insert_eq).
      eexists _, n. split; [reflexivity|]. split; [done|].
      split; [solve_lookups|]. split.
      * eexists. split; [simpl; apply list_lookup_insert_eq; by eapply lookup_lt_Some|].
        simpl. rewrite insert_insert_eq, Hnx.
        eapply seg_frame with (a := <[q := with_prev (Bucket b) nq]> (arena c)).
        { intros x Hx. rewrite lookup_insert_ne; [done|]. intros <-. done. }
        apply chain_set_first_prev with (pv := Node o); [done|done|].
        apply seg_cons. split; [done|]. exists nq. done.
      * split; [by repeat split|]. split; [simpl; by rewrite length_insert|].
        split; [intros b' Hb'; simpl; by rewrite list_lookup_insert_ne|].
        split.
        { intros x Hx. solve_lookups; exfalso; apply Hx; (drop_params; set_solver). }
        split; [intros x nx Hx; solve_lookups; by eexists|].
        intros x Hx. solve_lookups.
  - (* the entry has a predecessor [p] *)
    rewrite last_ptr_app in Hpv |- *.
    apply seg_app in Hs1 as (m & Hs1 & Hsp).
    destruct Hsp as (-> & np & Hp & Hppv & Hpnx). simpl in Hpnx.
    assert (Hpo : p ≠ o) by (intros ->; apply Hol1; (drop_params; set_solver)).
    apply NoDup_app in Hnd1 as (Hnd1 & Hdisj1 & _).
    assert (Hpl1 : p ∉ l1') by (intros Hin; apply (Hdisj1 _ Hin); by left).
    rewrite (set_next_node _ _ _ _ Hp), bind_Done.
    set (c1 := with_arena _ c).
    assert (Ho1 : arena c1 !! o = Some n) by (simpl; by rewrite lookup_insert_ne).
    rewrite (get_next_node c1 o n Ho1), bind_Done.
    destruct l2 as [|q l2'].
    + simpl in Hs2. rewrite Hs2. simpl is_null. cbv iota. rewrite bind_Done.
      rewrite (set_next_node c1 o n NULL Ho1), bind_Done.
      erewrite set_prev_node by (simpl; apply lookup_insert_eq).
      eexists _, n. split; [reflexivity|]. split; [done|].
      split; [solve_lookups|]. split.
      * exists hd. split; [done|]. simpl. rewrite insert_insert_eq.
        rewrite app_nil_r. apply seg_app. exists (Node p). split.
        { eapply seg_frame; [|done]. intros x Hx.
          assert (o ∉ l1') by (drop_params; set_solver).
          rewrite !lookup_insert_ne by (intros ->; done). done. }
        apply seg_cons. split; [done|]. eexists. split; [solve_lookups|]. simpl.
        split; [done|]. apply seg_nil_inv in Hs2. by rewrite Hs2.
      * split; [by repeat split|]. split; [done|]. split; [done|].
        split.
        { intros x Hx. solve_lookups; exfalso; apply Hx; (drop_params; set_solver). }
        split; [intros x nx Hx; solve_lookups; by eexists|].
        intros x Hx. solve_lookups.
    + destruct Hs2 as (Hnx & nq & Hq & Hqpv & Hs2). rewrite Hnx. simpl is_null. cbv iota.
      apply NoDup_cons in Hnd2 as (Hql2 & Hnd2).
      assert (Hoq : o ≠ q) by (intros ->; apply Hol2; by left).
      assert (Hpq : p ≠ q).
      { intros ->. apply (Hdisj q); (drop_params; set_solver). }
      rewrite (get_prev_node c1 o n Ho1), bind_Done, Hpv.
      assert (Hq1 : arena c1 !! q = Some nq) by (simpl; by rewrite lookup_insert_ne).
      rewrite (set_prev_node c1 q nq _ Hq1), bind_Done.
      erewrite set_next_node by (simpl; rewrite lookup_insert_ne by done; exact Ho1).
      rewrite bind_Done.
      erewrite set_prev_node by (simpl; apply lookup_insert_eq).
      eexists _, n. split; [reflexivity|]. split; [done|].
      split; [solve_lookups|]. split.
      * exists hd. split; [done|]. simpl. rewrite insert_insert_eq.
        assert (Hl1 : o ∉ l1') by (drop_params; set_solver).
        assert (Hl1q : q ∉ l1') by (drop_params; set_solver).
        assert (Hl2 : p ∉ l2') by (drop_params; set_solver).
        assert (Hl2o : o ∉ l2') by (drop_params; set_solver).
        apply seg_app. exists (Node q). split.
        { apply seg_app. exists (Node p). split.
          - eapply seg_frame; [|done]. intros x Hx.
            rewrite !lookup_insert_ne by (intros ->; done). done.
          - apply seg_cons. split; [done|]. eexists. split; [solve_lookups|]. simpl.
            split; [done|]. apply seg_nil. by rewrite Hnx. }
        rewrite last_ptr_app.
        apply seg_cons. split; [done|]. eexists. split; [solve_lookups|]. simpl.
        split; [done|].
        eapply seg_frame; [|done]. intros x Hx.
        rewrite !lookup_insert_ne by (intros ->; done). done.
      * split; [by repeat split|]. split; [done|]. split; [done|].
        split.
        { intros x Hx. solve_lookups; exfalso; apply Hx; (drop_params; set_solver). }
        split; [intros x nx Hx; solve_lookups; by eexists|].
        intros x Hx. solve_lookups.
Qed.


(** ** [insert_node_after] pushes an entry to the front of a bucket *)

Lemma set_prev_bucket_free c o n v :
  arena c !! o = Some n →
  set_prev c (Node o) v = Done (with_arena (<[o := with_prev v n]> (arena c)) c).
Proof. apply set_prev_node. Qed.

Lemma insert_front_spec c b l o n :
  bucket_list c b l → NoDup l → arena c !! o = Some n → o ∉ l →
  ∃ c', insert_node_after c (Node o) (Bucket b) = Done c' ∧
    bucket_list c' b (o :: l) ∧
    (∃ n', arena c' !! o = Some n' ∧ same_payload n n') ∧
    relinked c c' b (o :: l).
Proof.
  intros (hd & Hb & Hch) Hnd Ho Hol. unfold chain in Hch.
  unfold insert_node_after.
  rewrite (get_next_bucket _ _ _ Hb), bind_Done.
  rewrite (set_next_node _ _ _ _ Ho), bind_Done.
  rewrite (set_prev_node _ o (with_next (b_next hd) n)), bind_Done
    by (mem_simpl; apply lookup_insert_eq).
  mem_simpl. rewrite insert_insert_eq.
  rewrite (set_next_bucket _ _ hd), bind_Done by (mem_simpl; exact Hb).
  mem_simpl.
  rewrite (get_next_node _ o (with_prev (Bucket b) (with_next (b_next hd) n))), bind_Done
    by (mem_simpl; apply lookup_insert_eq).
  mem_simpl.
  destruct l as [|q l'].
  - apply seg_nil_inv in Hch. rewrite Hch. simpl is_null. cbv iota.
    eexists. split; [reflexivity|]. split.
    + eexists. split; [simpl; apply list_lookup_insert_eq; by eapply lookup_lt_Some|].
      simpl. apply seg_cons. split; [done|]. eexists.
      split; [apply lookup_insert_eq|]. split; [done|]. by apply seg_nil.
    + split; [eexists; split; [simpl; apply lookup_insert_eq|by repeat split]|].
      split; [by repeat split|]. split; [simpl; by rewrite length_insert|].
      split; [intros b' Hb'; simpl; by rewrite list_lookup_insert_ne|].
      split; [intros x Hx; solve_lookups; exfalso; apply Hx; by left|].
      split; [intros x nx Hx; solve_lookups; by eexists|].
      intros x Hx. solve_lookups.
  - apply seg_cons in Hch as (Hhd & nq & Hq & Hqpv & Hch). rewrite Hhd.
    simpl is_null. cbv iota.
    apply NoDup_cons in Hnd as (Hql & Hnd).
    assert (Hoq : o ≠ q) by (intros ->; apply Hol; by left).
    erewrite set_prev_node by (simpl; rewrite lookup_insert_ne by done; exact Hq).
    eexists. split; [reflexivity|]. split.
    + eexists. split; [simpl; apply list_lookup_insert_eq; by eapply lookup_lt_Some|].
      simpl. apply seg_cons. split; [done|]. eexists.
      split; [rewrite lookup_insert_ne by done; apply lookup_insert_eq|].
      split; [done|]. simpl.
      rewrite insert_insert_ne by done.
      apply seg_frame with (a := <[q := with_prev (Node o) nq]> (arena c)).
      { intros x Hx. rewrite lookup_insert_ne; [done|]. intros <-. done. }
      apply chain_set_first_prev with (pv := Bucket b); [done|done|].
      apply seg_cons. split; [done|]. exists nq. done.
    + split.
      { eexists. split; [simpl; rewrite lookup_insert_ne by done; apply lookup_insert_eq|].
        by repeat split. }
      split; [by repeat split|]. split; [simpl; by rewrite length_insert|].
      split; [intros b' Hb'; simpl; by rewrite list_lookup_insert_ne|].
      split.
      { intros x Hx. solve_lookups; exfalso; apply Hx; (drop_params; set_solver). }
      split; [intros x nx Hx; solve_lookups; by eexists|].
      intros x Hx. solve_lookups.
Qed.

(** ** [lookup] *)

Lemma bump32_S n x : bump32 (S n) x = bump32 n (u32 (x + 1)).
Proof. unfold bump32. by rewrite Nat.iter_succ_r. Qed.

(** A segment only depends on the links of its nodes. *)
Lemma seg_same_links a a' pv p l q :
  (∀ x n, x ∈ l → a !! x = Some n →
          ∃ n', a' !! x = Some n' ∧ next n' = next n ∧ prev n' = prev n) →
  seg a pv p l q → seg a' pv p l q.
Proof.
  revert pv p. induction l as [|o l IH]; intros pv p Hfr; [done|].
  intros (-> & n & Hn & Hpv & H)%seg_cons. apply seg_cons. split; [done|].
  destruct (Hfr o n) as (n' & Hn' & Hnx & Hpr); [by left|done|].
  exists n'. split; [done|]. split; [congruence|]. rewrite Hnx.
  apply IH; [|done]. intros x nx Hx. apply Hfr. by right.
Qed.

Lemma key_matches_collisions c v k x :
  key_matches (with_collisions v c) k x = key_matches c k x.
Proof. done. Qed.

(** Walking over entries whose keys do not match costs one collision
    each. *)
Lemma lookup_walk_skip fuel c k b pv p l q :
  seg (arena c) pv p l q →
  (∀ x, x ∈ l → key_matches c k x = false) →
  lookup_walk (length l + fuel) c k b p =
  lookup_walk fuel (with_collisions (bump32 (length l) (collisions c)) c) k b q.
Proof.
  revert c pv p. induction l as [|o l IH]; intros c pv p Hseg Hkeys.
  - apply seg_nil_inv in Hseg as ->. simpl. by destruct c.
  - apply seg_cons in Hseg as (-> & n & Hn & Hpv & Hseg).
    assert (Hk : compare_graph_keys k (key n) = false).
    { specialize (Hkeys o). unfold key_matches in Hkeys. rewrite Hn in Hkeys.
      apply Hkeys. by left. }
    cbn [length Nat.add lookup_walk]. rewrite Hn, Hk.
    rewrite (IH _ (Node o)); [|done|].
    + by rewrite bump32_S.
    + intros x Hx. rewrite key_matches_collisions. apply Hkeys. by right.
Qed.

Lemma same_scalars_trans c1 c2 c3 :
  same_scalars c1 c2 → same_scalars c2 c3 → same_scalars c1 c3.
Proof.
  intros (?&?&?&?&?&?&?&?&?&?) (?&?&?&?&?&?&?&?&?&?). repeat split; congruence.
Qed.

Lemma relinked_trans c1 c2 c3 b t1 t2 :
  relinked c1 c2 b t1 → relinked c2 c3 b t2 → relinked c1 c3 b (t1 ++ t2).
Proof.
  intros (Hs1 & Hl1 & Hb1 & Hf1 & Hp1 & Hn1) (Hs2 & Hl2 & Hb2 & Hf2 & Hp2 & Hn2).
  split; [by eapply same_scalars_trans|].
  split; [congruence|]. split; [intros b' Hb'; rewrite Hb2, Hb1; done|].
  split.
  { intros x Hx. rewrite Hf2, Hf1; [done| |]; intros Hin; apply Hx; (drop_params; set_solver). }
  split.
  { intros x n Hx. destruct (Hp1 x n Hx) as (n' & Hx' & Hpay).
    destruct (Hp2 x n' Hx') as (n'' & Hx'' & Hpay'). exists n''. split; [done|].
    destruct Hpay as (?&?&?&?&?), Hpay' as (?&?&?&?&?). repeat split; congruence. }
  intros x Hx. auto.
Qed.

Lemma bucket_list_nbuckets c b l : bucket_list c b l → (nbuckets c =? 0) = false.
Proof.
  intros (hd & Hb & _). apply lookup_lt_Some in Hb. unfold nbuckets.
  apply Z.eqb_neq. lia.
Qed.

Lemma lookup_hit fuel c k l1 o l2 n :
  bucket_list c (bucket_of c k) (l1 ++ o :: l2) →
  NoDup (l1 ++ o :: l2) →
  (length l1 < fuel)%nat →
  (∀ x, x ∈ l1 → key_matches c k x = false) →
  arena c !! o = Some n →
  compare_graph_keys k (key n) = true →
  ∃ c', lookup fuel c k = Done (Some (bistream_read (stream_of n), graph_id n), c') ∧
    bucket_list c' (bucket_of c k) (o :: l1 ++ l2) ∧
    (∃ n', arena c' !! o = Some n' ∧ hit_count n' = u32 (hit_count n + 1) ∧
           graph_id n' = graph_id n ∧ size n' = size n ∧ key n' = key n ∧
           stream n' = stream n) ∧
    (∀ x nx, x ≠ o → arena c !! x = Some nx →
             ∃ nx', arena c' !! x = Some nx' ∧ same_payload nx nx') ∧
    (∀ x, x ∉ l1 ++ o :: l2 → arena c' !! x = arena c !! x) ∧
    (∀ b', b' ≠ bucket_of c k → buckets c' !! b' = buckets c !! b') ∧
    hits c' = u32 (hits c + 1) ∧ misses c' = misses c ∧
    collisions c' = bump32 (length l1) (collisions c) ∧
    numentries c' = numentries c ∧ next_p c' = next_p c.
Proof.
  intros Hbl Hnd Hfuel Hkeys Ho Hk.
  unfold lookup. rewrite (bucket_list_nbuckets _ _ _ Hbl).
  set (b := bucket_of c k) in *.
  pose proof Hbl as (hd & Hb & Hch).
  rewrite (get_next_bucket _ _ _ Hb), bind_Done.
  apply seg_app in Hch as (m & Hs1 & Hs2).
  replace fuel with (length l1 + S (fuel - S (length l1)))%nat by lia.
  rewrite (lookup_walk_skip _ _ _ _ _ _ _ _ Hs1 Hkeys).
  apply seg_cons in Hs2 as (-> & n0 & Ho' & Hpv & Hs2).
  assert (n0 = n) as -> by congruence.
  set (cc := with_collisions _ c).
  cbn [lookup_walk]. change (arena cc) with (arena c). rewrite Ho, Hk.
  set (nh := with_hit_count (u32 (hit_count n + 1)) n).
  set (ch := with_arena (<[o := nh]> (arena c)) cc).
  assert (Hblh : bucket_list ch b (l1 ++ o :: l2)).
  { exists hd. split; [done|]. unfold chain. simpl.
    destruct Hbl as (hd' & Hb' & Hch'). assert (hd' = hd) as -> by congruence.
    eapply seg_same_links; [|exact Hch'].
    intros x nx Hx Hnx. destruct (decide (x = o)) as [->|Hne].
    - exists nh. rewrite lookup_insert_eq. assert (nx = n) as -> by congruence. done.
    - exists nx. by rewrite lookup_insert_ne. }
  destruct (remove_node_spec ch b l1 o l2 Hblh Hnd)
    as (cr & nr & Hrm & Hor & Hor' & Hblr & Hrel1).
  assert (nr = nh) as ->.
  { simpl in Hor. rewrite lookup_insert_eq in Hor. congruence. }
  rewrite Hrm, bind_Done.
  assert (Hnd' : NoDup (l1 ++ l2)).
  { apply NoDup_app in Hnd as (? & Hd & Hnd2). apply NoDup_cons in Hnd2 as (? & ?).
    apply NoDup_app. split; [done|]. split; [|done]. intros x Hx Hx2.
    apply (Hd x Hx). by right. }
  assert (Hol : o ∉ l1 ++ l2).
  { apply NoDup_app in Hnd as (? & Hd & Hnd2). apply NoDup_cons in Hnd2 as (? & ?).
    intros Hin. apply elem_of_app in Hin. destruct Hin as [Hin|Hin]; [|done].
    apply (Hd o Hin). by left. }
  destruct (insert_front_spec cr b (l1 ++ l2) o _ Hblr Hnd' Hor' Hol)
    as (ci & Hins & Hbli & (ni & Hoi & Hpayi) & Hrel2).
  rewrite Hins, bind_Done.
  pose proof (relinked_trans _ _ _ _ _ _ Hrel1 Hrel2)
    as (Hsc & Hlen & Hbk & Hfr & Hpay & Hnone).
  destruct Hsc as (Hh & Hm & Hc & Hne & Hnp & _).
  eexists. split; [reflexivity|]. split.
  { destruct Hbli as (hdi & ? & ?). by exists hdi. }
  split.
  { exists ni. split; [done|]. destruct Hpayi as (?&?&?&?&?). done. }
  split.
  { intros x nx Hxo Hx. apply (Hpay x nx). simpl. by rewrite lookup_insert_ne. }
  split.
  { intros x Hx. simpl. rewrite Hfr.
    - simpl. rewrite lookup_insert_ne; [done|]. intros <-. apply Hx.
      apply elem_of_app. right. by left.
    - intros Hin. apply Hx. clear -Hin.
      rewrite !elem_of_app, !elem_of_cons, !elem_of_app in Hin.
      rewrite elem_of_app, elem_of_cons. tauto. }
  split; [done|].
  simpl. rewrite Hh, Hm, Hc, Hne, Hnp. done.
Qed.

Lemma lookup_miss fuel c k l :
  bucket_list c (bucket_of c k) l →
  (length l < fuel)%nat →
  (∀ x, x ∈ l → key_matches c k x = false) →
  lookup fuel c k =
  Done (None, with_misses (u32 (misses c + 1))
                (with_collisions (bump32 (length l) (collisions c)) c)).
Proof.
  intros Hbl Hfuel Hkeys.
  unfold lookup. rewrite (bucket_list_nbuckets _ _ _ Hbl).
  destruct Hbl as (hd & Hb & Hch).
  rewrite (get_next_bucket _ _ _ Hb), bind_Done.
  replace fuel with (length l + S (fuel - S (length l)))%nat by lia.
  by rewrite (lookup_walk_skip _ _ _ _ _ _ _ _ Hch Hkeys).
Qed.

(** C2. [lookup] consults only the bucket [hash(K) mod nbuckets], walks
    its list front to back comparing the stored keys with [K], and
    - at the first entry whose key matches: returns the polynomial
      deserialised from that entry and its id, has incremented the
      entry's [hit_count] by one (a 32-bit increment), has moved the entry
      to the front of the bucket list, has counted one hit and one
      collision per entry walked over, and has left every other entry's
      payload, every node outside this bucket and every other bucket as
      they were;
    - if no entry of the bucket matches: reports a miss, has incremented
      [misses] by one, and the arena, the buckets, the entry counter and
      the frontier are unchanged. *)
Theorem lookup_spec (fuel : nat) (c : cache) (k : K) (l : list Z) :
  bucket_list c (bucket_of c k) l →
  NoDup l →
  (length l < fuel)%nat →
  Z.of_nat (bucket_of c k) = u32 (hash_graph_key k) mod nbuckets c ∧
  (∀ l1 o l2 n,
     l = l1 ++ o :: l2 →
     (∀ x, x ∈ l1 → key_matches c k x = false) →
     arena c !! o = Some n →
     compare_graph_keys k (key n) = true →
     ∃ c', lookup fuel c k = Done (Some (bistream_read (stream_of n), graph_id n), c') ∧
       bucket_list c' (bucket_of c k) (o :: l1 ++ l2) ∧
       (∃ n', arena c' !! o = Some n' ∧ hit_count n' = u32 (hit_count n + 1) ∧
              (0 ≤ hit_count n < UINT_MAX → hit_count n' = hit_count n + 1) ∧
              graph_id n' = graph_id n ∧ size n' = size n ∧ key n' = key n ∧
              stream n' = stream n) ∧
       (∀ x nx, x ≠ o → arena c !! x = Some nx →
                ∃ nx', arena c' !! x = Some nx' ∧ same_payload nx nx') ∧
       (∀ x, x ∉ l → arena c' !! x = arena c !! x) ∧
       (∀ b', b' ≠ bucket_of c k → buckets c' !! b' = buckets c !! b') ∧
       hits c' = u32 (hits c + 1) ∧ misses c' = misses c ∧
       collisions c' = bump32 (length l1) (collisions c) ∧
       numentries c' = numentries c ∧ next_p c' = next_p c) ∧
  ((∀ x, x ∈ l → key_matches c k x = false) →
     ∃ c', lookup fuel c k = Done (None, c') ∧
       misses c' = u32 (misses c + 1) ∧ hits c' = hits c ∧
       collisions c' = bump32 (length l) (collisions c) ∧
       arena c' = arena c ∧ buckets c' = buckets c ∧
       numentries c' = numentries c ∧ next_p c' = next_p c).
Proof.
  intros Hbl Hnd Hfuel. split; [|split].
  - unfold bucket_of. rewrite Z2Nat.id; [done|].
    apply bucket_list_nbuckets, Z.eqb_neq in Hbl.
    apply Z.mod_pos_bound. unfold nbuckets in *. lia.
  - intros l1 o l2 n -> Hkeys Ho Hk.
    assert (Hf1 : (length l1 < fuel)%nat) by (rewrite length_app in Hfuel; lia).
    destruct (lookup_hit fuel c k l1 o l2 n Hbl Hnd Hf1 Hkeys Ho Hk)
      as (c' & Hlk & Hbl' & (n' & Hn' & Hhc & Hrest) & H).
    exists c'. split; [done|]. split; [done|]. split; [|done].
    exists n'. split; [done|]. split; [done|]. split; [|done].
    intros Hrange. rewrite Hhc. by apply u32_incr.
  - intros Hkeys. eexists. split; [by apply lookup_miss|]. done.
Qed.

(** ** [store] *)

Lemma lookup_write_node_eq a dst len n : write_node a dst len n !! dst = Some n.
Proof. unfold write_node. apply lookup_insert_eq. Qed.

Lemma lookup_write_node_ne a dst len n x :
  x ≠ dst → ¬ clobbered dst len x → write_node a dst len n !! x = a !! x.
Proof.
  intros Hne Hcl. unfold write_node. rewrite lookup_insert_ne by done.
  destruct (a !! x) as [nx|] eqn:Hx.
  - apply map_lookup_filter_Some. done.
  - apply map_lookup_filter_None. left. done.
Qed.

Lemma lookup_write_node_below a dst len n x :
  x < dst → write_node a dst len n !! x = a !! x.
Proof. intros. apply lookup_write_node_ne; [lia|]. unfold clobbered. lia. Qed.

Lemma alloc_loop_spec fuel n : ∀ rounds c sz c1,
  (n ≤ rounds)%nat →
  evicted fuel n c sz c1 →
  next_p c1 + sz < bufsize c1 →
  alloc_loop fuel rounds c sz = Done (next_p c1, with_next_p (next_p c1 + sz) c1).
Proof.
  induction n as [|n IH]; intros rounds c sz c1 Hr Hev Hfit.
  - simpl in Hev. subst c1. destruct rounds; simpl;
      by replace (next_p c + sz <? bufsize c) with true by (symmetry; apply Z.ltb_lt; lia).
  - destruct Hev as (Hfull & c2 & Hevict & Hev).
    destruct rounds as [|rounds]; [lia|]. simpl.
    replace (next_p c + sz <? bufsize c) with false by (symmetry; apply Z.ltb_ge; lia).
    rewrite Hevict, bind_Done. apply (IH rounds c2); [lia|done|done].
Qed.

Lemma store_appends fuel c k p id n c1 l :
  entry_size k p < bufsize c →
  (n ≤ fuel)%nat →
  evicted fuel n c (entry_size k p) c1 →
  next_p c1 + entry_size k p < bufsize c1 →
  bucket_list c1 (bucket_of c1 k) l →
  NoDup l →
  (∀ x, x ∈ l → x < next_p c1) →
  ∃ c', store fuel c k p id = Done c' ∧
    next_p c' = next_p c1 + entry_size k p ∧
    (∃ n', arena c' !! next_p c1 = Some n' ∧ same_payload (fresh_node k p id) n') ∧
    bucket_list c' (bucket_of c1 k) (next_p c1 :: l) ∧
    numentries c' = u64 (numentries c1 + 1) ∧
    (∀ x nx, x < next_p c1 → arena c1 !! x = Some nx →
             ∃ nx', arena c' !! x = Some nx' ∧ same_payload nx nx') ∧
    (∀ x, x < next_p c1 → x ∉ l → arena c' !! x = arena c1 !! x) ∧
    (∀ b', b' ≠ bucket_of c1 k → buckets c' !! b' = buckets c1 !! b') ∧
    hits c' = hits c1 ∧ misses c' = misses c1 ∧ collisions c' = collisions c1 ∧
    bufsize c' = bufsize c1.
Proof.
  intros Hsz Hn Hev Hfit Hbl Hnd Hbelow.
  unfold store, alloc_node.
  replace (bufsize c <=? entry_size k p) with false by (symmetry; apply Z.leb_gt; lia).
  rewrite (alloc_loop_spec fuel n fuel c _ c1 Hn Hev Hfit), bind_Done. cbn [fst snd].
  set (np := next_p c1). set (sz := entry_size k p).
  set (c2 := with_arena _ _).
  assert (Hnb : nbuckets c2 = nbuckets c1) by done.
  assert (Hbo : bucket_of c2 k = bucket_of c1 k) by done.
  rewrite Hnb, (bucket_list_nbuckets _ _ _ Hbl), Hbo.
  assert (Hbl2 : bucket_list c2 (bucket_of c1 k) l).
  { destruct Hbl as (hd & Hb & Hch). exists hd. split; [done|].
    eapply seg_frame; [|exact Hch]. intros x Hx. simpl.
    apply lookup_write_node_below. by apply Hbelow. }
  assert (Hnp : arena c2 !! np = Some (fresh_node k p id)).
  { simpl. apply lookup_write_node_eq. }
  assert (Hnl : np ∉ l) by (intros Hin; apply Hbelow in Hin; lia).
  destruct (insert_front_spec c2 _ l np _ Hbl2 Hnd Hnp Hnl)
    as (ci & Hins & Hbli & (n' & Hn' & Hpay') & Hsc & Hlen & Hbk & Hfr & Hpay & Hnone).
  rewrite Hins, bind_Done.
  destruct Hsc as (Hh & Hm & Hc & Hne & Hnxt & Hbs & _).
  eexists. split; [reflexivity|]. cbn [next_p with_numentries numentries arena buckets
    hits misses collisions bufsize].
  split; [by rewrite Hnxt|]. split; [by exists n'|].
  split; [destruct Hbli as (hd & ? & ?); by exists hd|].
  split; [by rewrite Hne|]. split.
  { intros x nx Hx Hnx. apply (Hpay x nx). simpl. by rewrite lookup_write_node_below. }
  split.
  { intros x Hx Hxl. rewrite Hfr.
    - simpl. by apply lookup_write_node_below.
    - intros Hin. apply elem_of_cons in Hin as [->|Hin]; [unfold np in Hx; lia|done]. }
  split; [done|]. by rewrite Hh, Hm, Hc, Hbs.
Qed.

(** C6, as the code has it.  [store] asks [alloc_node] for the size of the
    entry (header, key and polynomial stream).  [alloc_node] throws
    [bad_alloc] as soon as that size reaches the capacity ([>=]: an entry
    of exactly [bufsize] bytes is refused as well).  Below the capacity,
    the body of its [while] runs as long as the frontier plus the size
    reaches the capacity ([>=] again: an entry that would end exactly at
    the end of the buffer does not go in); one round is the usage-aware
    eviction, or the random one when it was selected, followed by
    [pack_buffer].  After the last round the entry is written at the
    frontier, which advances by its size, the node goes to the front of
    the bucket of its key and [numentries] goes up by one. *)
Theorem store_spec (fuel : nat) (c : cache) (k : K) (p : P) (id : Z) :
  (bufsize c ≤ entry_size k p → store fuel c k p id = Throw bad_alloc) ∧
  (∀ c1 c2,
     (if random_replacement c
      then randomly_remove_nodes fuel c (replacement c)
      else remove_unused_nodes fuel c (replacement c)) = Done c1 →
     pack_buffer fuel c1 = Done c2 →
     evict fuel c = Done c2) ∧
  (entry_size k p < bufsize c →
   ∀ n c1 l,
     (n ≤ fuel)%nat →
     evicted fuel n c (entry_size k p) c1 →
     next_p c1 + entry_size k p < bufsize c1 →
     bucket_list c1 (bucket_of c1 k) l →
     NoDup l →
     (∀ x, x ∈ l → x < next_p c1) →
     ∃ c', store fuel c k p id = Done c' ∧
       next_p c' = next_p c1 + entry_size k p ∧
       (∃ n', arena c' !! next_p c1 = Some n' ∧ same_payload (fresh_node k p id) n') ∧
       bucket_list c' (bucket_of c1 k) (next_p c1 :: l) ∧
       numentries c' = u64 (numentries c1 + 1) ∧
       (∀ x nx, x < next_p c1 → arena c1 !! x = Some nx →
                ∃ nx', arena c' !! x = Some nx' ∧ same_payload nx nx')).
Proof.
  split; [|split].
  - intros Hbig. unfold store, alloc_node.
    by replace (bufsize c <=? entry_size k p) with true by (symmetry; apply Z.leb_le; lia).
  - intros c1 c2 Hev Hpack. unfold evict. by rewrite Hev, bind_Done.
  - intros Hsz n c1 l Hn Hev Hfit Hbl Hnd Hbelow.
    destruct (store_appends fuel c k p id n c1 l Hsz Hn Hev Hfit Hbl Hnd Hbelow)
      as (c' & Hst & Hnp & Hnew & Hbl' & Hnum & Hpay & _).
    exists c'. by repeat split.
Qed.

(** ** Eviction *)

Lemma relinked_preserved c c' b t : relinked c c' b t → preserved c c'.
Proof.
  intros ((?&?&?&?&?&?&?&?&?&?) & ? & _ & _ & ? & ?). by repeat split.
Qed.

Lemma preserved_refl c : preserved c c.
Proof.
  split; [by repeat split|]. split; [done|]. split; [|done].
  intros x n Hx. exists n. by repeat split.
Qed.

Lemma preserved_trans c1 c2 c3 : preserved c1 c2 → preserved c2 c3 → preserved c1 c3.
Proof.
  intros (Hs1 & Hl1 & Hp1 & Hn1) (Hs2 & Hl2 & Hp2 & Hn2).
  split.
  { destruct Hs1 as (?&?&?&?&?), Hs2 as (?&?&?&?&?).
    repeat split; congruence. }
  split; [congruence|]. split; [|auto].
  intros x n Hx. destruct (Hp1 x n Hx) as (n' & Hx' & Hpay).
  destruct (Hp2 x n' Hx') as (n'' & Hx'' & Hpay'). exists n''. split; [done|].
  destruct Hpay as (?&?&?&?&?), Hpay' as (?&?&?&?&?). repeat split; congruence.
Qed.

Lemma evictable_preserved c c' hc o :
  preserved c c' → evictable c' hc o = evictable c hc o.
Proof.
  intros (Hs & _ & Hp & Hn). unfold evictable.
  destruct (arena c !! o) as [n|] eqn:Ho.
  - destruct (Hp o n Ho) as (n' & -> & (Hhc & _ & _ & Hk & _)).
    unfold unused. destruct Hs as (_&_&_&Hmin&_). by rewrite Hhc, Hk, Hmin.
  - by rewrite (Hn o Ho).
Qed.

Lemma size_at_preserved c c' o : preserved c c' → size_at c' o = size_at c o.
Proof.
  intros (_ & _ & Hp & Hn). unfold size_at.
  destruct (arena c !! o) as [n|] eqn:Ho.
  - by destruct (Hp o n Ho) as (n' & -> & (_ & _ & -> & _)).
  - by rewrite (Hn o Ho).
Qed.

Lemma add_sizes_preserved c c' amount l :
  preserved c c' → add_sizes c' amount l = add_sizes c amount l.
Proof.
  intros Hp. unfold add_sizes. revert amount.
  induction l as [|o l IH]; intros amount; simpl; [done|].
  by rewrite IH, (size_at_preserved c c').
Qed.

Lemma kept_by_preserved c c' hc l : preserved c c' → kept_by c' hc l = kept_by c hc l.
Proof.
  intros Hp. unfold kept_by. apply list_filter_iff. intros o.
  by rewrite (evictable_preserved c c').
Qed.

Lemma dropped_by_preserved c c' hc l :
  preserved c c' → dropped_by c' hc l = dropped_by c hc l.
Proof.
  intros Hp. unfold dropped_by. apply list_filter_iff. intros o.
  by rewrite (evictable_preserved c c').
Qed.

(** The inner loop of a pass, from any point of the bucket list: [kept]
    are the entries already walked over and left in place. *)
Lemma unused_walk_spec fuel hc b rest : ∀ c kept count amount,
  bucket_list c b (kept ++ rest) →
  NoDup (kept ++ rest) →
  (length rest < fuel)%nat →
  ∃ c', unused_walk fuel hc c (head_ptr rest NULL) count amount =
        Done (c', bump32 (length (dropped_by c hc rest)) count,
              add_sizes c amount (dropped_by c hc rest)) ∧
    bucket_list c' b (kept ++ kept_by c hc rest) ∧
    relinked c c' b (kept ++ rest) ∧
    (∀ o, o ∈ dropped_by c hc rest →
          ∃ n, arena c' !! o = Some n ∧ is_free n = true).
Proof.
  revert fuel. induction rest as [|o rest IH]; intros fuel c kept count amount Hbl Hnd Hfuel.
  - destruct fuel as [|fuel]; [simpl in Hfuel; lia|]. simpl.
    exists c. split; [done|]. split; [done|]. split.
    + split; [by repeat split|]. split; [done|]. split; [done|]. split; [done|].
      split; [|done]. intros x n Hx. exists n. by repeat split.
    + intros o Ho. by apply elem_of_nil in Ho.
  - destruct fuel as [|fuel]; [simpl in Hfuel; lia|].
    pose proof Hbl as (hd & Hb & Hch). unfold chain in Hch.
    apply seg_app in Hch as (m & Hs1 & Hs2).
    apply seg_cons in Hs2 as (-> & n & Ho & Hpv & Hs2).
    pose proof (seg_head _ _ _ _ _ Hs2) as Hnx.
    cbn [head_ptr unused_walk]. rewrite Ho.
    destruct (unused c hc n) eqn:Hun.
    + (* the entry is unlinked *)
      destruct (remove_node_spec c b kept o rest Hbl Hnd)
        as (c1 & n1 & Hrm & Ho1 & Ho1' & Hbl1 & Hrel1).
      assert (n1 = n) as -> by congruence.
      rewrite Hrm, bind_Done, Hnx.
      assert (Hnd1 : NoDup (kept ++ rest)).
      { apply NoDup_app in Hnd as (? & Hd & Hnd2). apply NoDup_cons in Hnd2 as (? & ?).
        apply NoDup_app. split; [done|]. split; [|done]. intros x Hx Hx2.
        apply (Hd x Hx). by right. }
      assert (Hok : o ∉ kept ++ rest).
      { apply NoDup_app in Hnd as (? & Hd & Hnd2). apply NoDup_cons in Hnd2 as (? & ?).
        intros Hin. apply elem_of_app in Hin. destruct Hin as [Hin|Hin]; [|done].
        apply (Hd o Hin). by left. }
      assert (Hpres : preserved c c1) by (by eapply relinked_preserved).
      destruct (IH fuel c1 kept (u32 (count + 1)) (amount + double_of_Z (size n))%float
                  Hbl1 Hnd1) as (c' & Hwalk & Hbl' & Hrel' & Hfree'); [simpl in Hfuel; lia|].
      assert (Hev : evictable c hc o = true) by (unfold evictable; by rewrite Ho).
      assert (Hd : dropped_by c hc (o :: rest) = o :: dropped_by c hc rest).
      { unfold dropped_by. by rewrite filter_cons_True. }
      assert (Hk : kept_by c hc (o :: rest) = kept_by c hc rest).
      { unfold kept_by. rewrite filter_cons_False; [done|]. by rewrite Hev. }
      rewrite (dropped_by_preserved c c1), (add_sizes_preserved c c1) in Hwalk by done.
      rewrite (kept_by_preserved c c1) in Hbl' by done.
      rewrite (dropped_by_preserved c c1) in Hfree' by done.
      rewrite Hd, Hk.
      exists c'. split.
      { rewrite Hwalk. cbn [length]. rewrite bump32_S. unfold add_sizes. cbn [fold_left].
        assert (size_at c o = size n) as -> by (unfold size_at; by rewrite Ho). done. }
      split; [done|].
      split.
      { pose proof (relinked_trans _ _ _ _ _ _ Hrel1 Hrel') as (?&?&?&Hfr&?&?).
        split; [done|]. split; [done|]. split; [done|]. split; [|done].
        intros x Hx. apply Hfr. intros Hin. apply Hx.
        apply elem_of_app in Hin. destruct Hin as [Hin|Hin]; [done|].
        apply elem_of_app in Hin. apply elem_of_app. destruct Hin as [Hin|Hin]; [by left|].
        right. by right. }
      intros x Hx. apply elem_of_cons in Hx. destruct Hx as [->|Hx].
      * destruct Hrel' as (_ & _ & _ & Hfr & _). rewrite (Hfr o Hok), Ho1'.
        eexists. split; [done|]. done.
      * by apply Hfree'.
    + (* the entry stays *)
      rewrite Hnx.
      assert (Hbl1 : bucket_list c b ((kept ++ [o]) ++ rest)) by (by rewrite <- app_assoc).
      assert (Hnd1 : NoDup ((kept ++ [o]) ++ rest)) by (by rewrite <- app_assoc).
      destruct (IH fuel c (kept ++ [o]) count amount Hbl1 Hnd1)
        as (c' & Hwalk & Hbl' & Hrel' & Hfree'); [simpl in Hfuel; lia|].
      assert (Hev : evictable c hc o = false) by (unfold evictable; by rewrite Ho).
      assert (Hd : dropped_by c hc (o :: rest) = dropped_by c hc rest).
      { unfold dropped_by. rewrite filter_cons_False; [done|]. by rewrite Hev. }
      assert (Hk : kept_by c hc (o :: rest) = o :: kept_by c hc rest).
      { unfold kept_by. by rewrite filter_cons_True. }
      rewrite Hd, Hk. rewrite <- app_assoc in Hbl', Hrel'.
      exists c'. done.
Qed.

Lemma bump32_add n m x : bump32 (n + m) x = bump32 m (bump32 n x).
Proof.
  revert x. induction n as [|n IH]; intros x; [done|].
  change (S n + m)%nat with (S (n + m)). by rewrite !bump32_S, IH.
Qed.

Lemma dropped_by_app c hc l1 l2 :
  dropped_by c hc (l1 ++ l2) = dropped_by c hc l1 ++ dropped_by c hc l2.
Proof. apply filter_app. Qed.

Lemma add_sizes_app c amount l1 l2 :
  add_sizes c amount (l1 ++ l2) = add_sizes c (add_sizes c amount l1) l2.
Proof. apply fold_left_app. Qed.

Lemma elem_of_dropped_by c hc l o : o ∈ dropped_by c hc l → o ∈ l.
Proof. unfold dropped_by. intros H. by apply list_elem_of_filter in H as (_ & ?). Qed.

Lemma elem_of_kept_by c hc l o : o ∈ kept_by c hc l → o ∈ l.
Proof. unfold kept_by. intros H. by apply list_elem_of_filter in H as (_ & ?). Qed.

(** One pass over the buckets [i0, i0 + 1, ...], whose lists are [Lr]. *)
Lemma unused_pass_spec fuel hc Lr : ∀ i0 c count amount,
  (∀ j l, Lr !! j = Some l → bucket_list c (i0 + j) l) →
  NoDup (mjoin Lr) →
  (∀ l, l ∈ Lr → (length l < fuel)%nat) →
  ∃ c', unused_pass fuel hc (seq i0 (length Lr)) c count amount =
        Done (c', bump32 (length (dropped_by c hc (mjoin Lr))) count,
              add_sizes c amount (dropped_by c hc (mjoin Lr))) ∧
    (∀ j l, Lr !! j = Some l → bucket_list c' (i0 + j) (kept_by c hc l)) ∧
    preserved c c' ∧ same_scalars c c' ∧
    (∀ x, x ∉ mjoin Lr → arena c' !! x = arena c !! x) ∧
    (∀ b, (b < i0)%nat → buckets c' !! b = buckets c !! b) ∧
    (∀ o, o ∈ dropped_by c hc (mjoin Lr) →
          ∃ n, arena c' !! o = Some n ∧ is_free n = true).
Proof.
  induction Lr as [|l Lr IH]; intros i0 c count amount Hbls Hnd Hfuel.
  - simpl. exists c. split; [done|]. split; [by intros j l Hj|].
    split; [apply preserved_refl|]. split; [by repeat split|]. split; [done|].
    split; [done|]. intros o Ho. by apply elem_of_nil in Ho.
  - cbn [length seq unused_pass]. change (mjoin (l :: Lr)) with (l ++ mjoin Lr) in *.
    apply NoDup_app in Hnd as (Hndl & Hdisj & Hndr).
    pose proof (Hbls 0%nat l eq_refl) as Hbl. rewrite Nat.add_0_r in Hbl.
    pose proof Hbl as (hd & Hb & Hch).
    rewrite (get_next_bucket _ _ _ Hb), bind_Done, (seg_head _ _ _ _ _ Hch).
    destruct (unused_walk_spec fuel hc i0 l c [] count amount Hbl Hndl)
      as (c1 & Hwalk & Hbl1 & Hrel1 & Hfree1).
    { apply Hfuel. by left. }
    rewrite Hwalk, bind_Done. cbn [fst snd].
    pose proof (relinked_preserved _ _ _ _ Hrel1) as Hpres1.
    destruct Hrel1 as (Hsc1 & _ & Hbk1 & Hfr1 & _).
    destruct (IH (S i0) c1 (bump32 (length (dropped_by c hc l)) count)
                 (add_sizes c amount (dropped_by c hc l)))
      as (c' & Hpass & Hbls' & Hpres' & Hsc' & Hfr' & Hbk' & Hfree'); [|done|..].
    { intros j lj Hj. specialize (Hbls (S j) lj Hj).
      replace (i0 + S j)%nat with (S i0 + j)%nat in Hbls by lia.
      destruct Hbls as (hdj & Hbj & Hchj). exists hdj. split.
      - rewrite Hbk1; [done|lia].
      - eapply seg_frame; [|exact Hchj]. intros x Hx. apply Hfr1. simpl.
        intros Hxl. apply (Hdisj x Hxl). apply list_elem_of_join. exists lj.
        split; [done|]. by eapply list_elem_of_lookup_2. }
    { intros lj Hlj. apply Hfuel. by right. }
    exists c'. split.
    { rewrite Hpass. rewrite dropped_by_app, length_app, bump32_add, add_sizes_app.
      by rewrite (dropped_by_preserved c c1), (add_sizes_preserved c c1). }
    split.
    { intros [|j] lj Hj.
      - simpl in Hj. injection Hj as <-. rewrite Nat.add_0_r.
        destruct Hbl1 as (hd1 & Hb1 & Hch1). exists hd1. split.
        + rewrite Hbk'; [done|lia].
        + eapply seg_frame; [|exact Hch1]. intros x Hx. apply Hfr'.
          intros Hxr. apply (Hdisj x); [|done]. by eapply elem_of_kept_by.
      - simpl in Hj. replace (i0 + S j)%nat with (S i0 + j)%nat by lia.
        rewrite <- (kept_by_preserved c c1) by done. by apply Hbls'. }
    split; [by eapply preserved_trans|].
    split; [by eapply same_scalars_trans|].
    split.
    { intros x Hx. rewrite Hfr', Hfr1; [done| |]; intros Hin; apply Hx;
        apply elem_of_app; [by left|by right]. }
    split; [intros b Hb'; rewrite Hbk', Hbk1; [done|lia|lia]|].
    intros o Ho. rewrite dropped_by_app in Ho. apply elem_of_app in Ho.
    destruct Ho as [Ho|Ho].
    + rewrite Hfr'; [by apply Hfree1|]. apply Hdisj. by eapply elem_of_dropped_by.
    + apply Hfree'. by rewrite (dropped_by_preserved c c1).
Qed.

Lemma kept_by_join c hc (Lr : list (list Z)) :
  mjoin (kept_by c hc <$> Lr) = kept_by c hc (mjoin Lr).
Proof.
  induction Lr as [|l Lr IH]; [done|].
  change (mjoin (l :: Lr)) with (l ++ mjoin Lr).
  change (kept_by c hc <$> l :: Lr) with (kept_by c hc l :: (kept_by c hc <$> Lr)).
  change (mjoin (kept_by c hc l :: (kept_by c hc <$> Lr)))
    with (kept_by c hc l ++ mjoin (kept_by c hc <$> Lr)).
  rewrite IH. unfold kept_by. by rewrite filter_app.
Qed.

Lemma kept_or_dropped c hc l o :
  o ∈ l → o ∉ kept_by c hc l → o ∈ dropped_by c hc l.
Proof.
  intros Hin Hk. unfold kept_by, dropped_by in *. apply list_elem_of_filter.
  split; [|done]. destruct (evictable c hc o) eqn:He; [done|].
  exfalso. apply Hk. apply list_elem_of_filter. done.
Qed.

Lemma lists_after_short c L fuel h :
  (∀ l, l ∈ L → (length l < fuel)%nat) →
  ∀ l, l ∈ lists_after c L h → (length l < fuel)%nat.
Proof.
  intros HL. induction h as [|h IH]; [done|]. intros l Hl. simpl in Hl.
  apply list_elem_of_fmap in Hl as (l0 & -> & Hl0).
  specialize (IH l0 Hl0). unfold kept_by.
  pose proof (length_filter (λ o, evictable c (Z.of_nat (S h)) o = false) l0). lia.
Qed.

Lemma evictable_mono c h1 h2 o :
  h1 ≤ h2 → evictable c h1 o = true → evictable c h2 o = true.
Proof.
  unfold evictable, unused. destruct (arena c !! o) as [n|]; [|done].
  intros Hle H. apply andb_true_iff in H as (H1 & H2). apply andb_true_iff.
  split; [|done]. apply Z.ltb_lt in H1. apply Z.ltb_lt. lia.
Qed.

Lemma lists_after_kept c L h :
  (1 ≤ h)%nat → lists_after c L h = kept_by c (Z.of_nat h) <$> L.
Proof.
  induction h as [|h IH]; [lia|]. intros _. destruct h as [|h]; [done|].
  change (lists_after c L (S (S h)))
    with (kept_by c (Z.of_nat (S (S h))) <$> lists_after c L (S h)).
  rewrite IH by lia. rewrite <- list_fmap_compose. apply list_fmap_ext.
  intros _ l _. simpl. unfold kept_by. rewrite list_filter_filter.
  apply list_filter_iff. intros o. split; [by intros (? & _)|]. intros He.
  split; [done|]. destruct (evictable c (Z.of_nat (S h)) o) eqn:He'; [|done].
  rewrite (evictable_mono c (Z.of_nat (S h)) (Z.of_nat (S (S h))) o) in He; [done|lia|done].
Qed.

(** The [do ... while] from pass [j + 1] up to the pass [h] that ends
    it. *)
Lemma unused_passes_spec fuel p orig c0 L h : ∀ k j c passes,
  (j + k = h)%nat → (1 ≤ k ≤ passes)%nat → Z.of_nat h ≤ UINT_MAX →
  lists_wf c (lists_after c0 L j) →
  preserved c0 c →
  numentries c = entries_after c0 L j →
  (∀ l, l ∈ L → (length l < fuel)%nat) →
  (∀ j', (j < j' < h)%nat → below_ratio (amount_after c0 L j') orig p = true) →
  below_ratio (amount_after c0 L h) orig p = false →
  ∃ c', unused_passes fuel passes p orig (Z.of_nat j) c (amount_after c0 L j) = Done c' ∧
    lists_wf c' (lists_after c0 L h) ∧
    preserved c0 c' ∧
    numentries c' = entries_after c0 L h ∧
    (∀ x, x ∉ mjoin (lists_after c0 L j) → arena c' !! x = arena c !! x) ∧
    (∀ o, o ∈ mjoin (lists_after c0 L j) → o ∉ mjoin (lists_after c0 L h) →
          ∃ n, arena c' !! o = Some n ∧ is_free n = true).
Proof.
  induction k as [|k IH]; intros j c passes Hjk Hk Hmax Hwf Hpres Hnum Hshort Hbelow Hstop;
    [lia|].
  destruct passes as [|passes]; [lia|]. cbn [unused_passes].
  assert (Hhc : u32 (Z.of_nat j + 1) = Z.of_nat (S j)).
  { rewrite u32_small; [lia|]. unfold UINT_MAX in Hmax. lia. }
  rewrite Hhc.
  destruct Hwf as (Hlen & Hbls & Hnd).
  set (Lj := lists_after c0 L j) in *.
  destruct (unused_pass_spec fuel (Z.of_nat (S j)) Lj 0%nat c 0 (amount_after c0 L j))
    as (c1 & Hpass & Hbls1 & Hpres1 & Hsc1 & Hfr1 & _ & Hfree1); [done|done|..].
  { by apply lists_after_short. }
  rewrite <- Hlen, Hpass, bind_Done. cbn [fst snd].
  rewrite (dropped_by_preserved c0 c), (add_sizes_preserved c0 c) by done.
  change (add_sizes c0 (amount_after c0 L j)
            (dropped_by c0 (Z.of_nat (S j)) (mjoin Lj)))
    with (amount_after c0 L (S j)).
  set (c1' := with_numentries _ c1).
  assert (Hwf1 : lists_wf c1' (lists_after c0 L (S j))).
  { change (lists_after c0 L (S j)) with (kept_by c0 (Z.of_nat (S j)) <$> Lj).
    split; [|split].
    - rewrite length_fmap. destruct Hpres1 as (_ & Hl1 & _). simpl. by rewrite Hl1.
    - intros i l Hi. apply list_lookup_fmap_Some in Hi as (l0 & -> & Hi).
      rewrite <- (kept_by_preserved c0 c) by done. exact (Hbls1 i l0 Hi).
    - rewrite kept_by_join. unfold kept_by. by apply NoDup_filter. }
  assert (Hpres1' : preserved c0 c1').
  { eapply preserved_trans; [exact Hpres|]. destruct Hpres1 as ((?&?&?&?&?)&?&?&?).
    subst c1'. split; [by repeat split|]. by repeat split. }
  assert (Hnum1 : numentries c1' = entries_after c0 L (S j)).
  { simpl. destruct Hsc1 as (_ & _ & _ & -> & _). by rewrite Hnum. }
  assert (Hfree1' : ∀ o, o ∈ mjoin Lj → o ∉ mjoin (lists_after c0 L (S j)) →
            ∃ n, arena c1' !! o = Some n ∧ is_free n = true).
  { intros o Ho Hno. apply Hfree1. rewrite (dropped_by_preserved c0 c) by done.
    apply kept_or_dropped; [done|]. by rewrite <- kept_by_join. }
  assert (Hsub : ∀ x, x ∈ mjoin (lists_after c0 L (S j)) → x ∈ mjoin Lj).
  { intros x Hx. change (lists_after c0 L (S j)) with (kept_by c0 (Z.of_nat (S j)) <$> Lj) in Hx.
    rewrite kept_by_join in Hx. by eapply elem_of_kept_by. }
  destruct (decide (S j = h)) as [<-|Hne].
  - rewrite Hstop. exists c1'. split; [done|]. split; [done|]. split; [done|].
    split; [done|]. split; [done|]. exact Hfree1'.
  - rewrite Hbelow by lia.
    destruct (IH (S j) c1' passes) as (c' & Hrun & Hwf' & Hpres' & Hnum' & Hfr' & Hfree');
      try done; try lia.
    { intros j' Hj'. apply Hbelow. lia. }
    exists c'. split; [done|]. split; [done|]. split; [done|]. split; [done|].
    split.
    { intros x Hx. rewrite Hfr'; [by apply Hfr1|]. intros Hin. by apply Hx, Hsub. }
    intros o Ho Hno. destruct (decide (o ∈ mjoin (lists_after c0 L (S j)))) as [Hin|Hnin].
    + by apply Hfree'.
    + rewrite (Hfr' o Hnin). by apply Hfree1'.
Qed.

(** C7.  Usage-aware eviction on a cache whose bucket lists are [L]: the
    passes run with [hc = 1, 2, ...], each unlinking every entry that is
    still listed, has [hit_count < hc] and a graph of fewer than
    [min_replace_size] vertices; the loop ends after the first pass [h]
    at which [(amount / orig_size) < p] is false, [amount] being the sum of
    the sizes of the entries unlinked so far and [orig_size] the arena
    usage on entry.  Then the lists hold exactly the entries that are not
    evictable at [h]: every entry with [hit_count < h] below the size
    bound is unlinked and free, every entry of a graph with at least
    [min_replace_size] vertices and every entry with [hit_count >= h] is
    still listed, payloads and settings are untouched, and [numentries]
    went down by the number of unlinked entries. *)
Theorem remove_unused_nodes_spec (fuel : nat) (c : cache) (p : float)
    (L : list (list Z)) (h : nat) :
  lists_wf c L →
  (∀ l, l ∈ L → (length l < fuel)%nat) →
  (1 ≤ h ≤ fuel)%nat → Z.of_nat h ≤ UINT_MAX →
  (∀ j, (1 ≤ j < h)%nat → below_ratio (amount_after c L j) (next_p c) p = true) →
  below_ratio (amount_after c L h) (next_p c) p = false →
  ∃ c', remove_unused_nodes fuel c p = Done c' ∧
    lists_wf c' (kept_by c (Z.of_nat h) <$> L) ∧
    (∀ o n, o ∈ mjoin L → arena c !! o = Some n →
            hit_count n < Z.of_nat h → pinned c n = false →
            (o ∉ mjoin (kept_by c (Z.of_nat h) <$> L)) ∧
            (∃ n', arena c' !! o = Some n' ∧ is_free n' = true ∧ same_payload n n')) ∧
    (∀ o n, o ∈ mjoin L → arena c !! o = Some n →
            pinned c n = true ∨ Z.of_nat h ≤ hit_count n →
            o ∈ mjoin (kept_by c (Z.of_nat h) <$> L)) ∧
    preserved c c' ∧
    numentries c' = entries_after c L h.
Proof.
  intros Hwf Hshort Hh Hmax Hbelow Hstop.
  assert (Hbelow' : ∀ j, (0 < j < h)%nat →
            below_ratio (amount_after c L j) (next_p c) p = true).
  { intros j Hj. apply Hbelow. lia. }
  destruct (unused_passes_spec fuel p (next_p c) c L h h 0%nat c fuel
              eq_refl Hh Hmax Hwf (preserved_refl c) eq_refl Hshort Hbelow' Hstop)
    as (c' & Hrun & Hwf' & Hpres & Hnum & _ & Hfree).
  rewrite (lists_after_kept c L h) in Hwf', Hfree by lia.
  exists c'. split; [exact Hrun|]. split; [exact Hwf'|].
  assert (Hev : ∀ o n, arena c !! o = Some n →
            evictable c (Z.of_nat h) o = ((hit_count n <? Z.of_nat h) && negb (pinned c n))).
  { intros o n Hn. unfold evictable, unused, pinned. rewrite Hn.
    by rewrite negb_involutive. }
  split; [|split; [|done]].
  - intros o n Ho Hn Hhit Hpin.
    assert (Hno : o ∉ mjoin (kept_by c (Z.of_nat h) <$> L)).
    { rewrite kept_by_join. unfold kept_by. intros Hin.
      apply list_elem_of_filter in Hin as (He & _).
      cbv beta in He. rewrite (Hev o n Hn), Hpin in He.
      apply (proj2 (Z.ltb_lt _ _)) in Hhit. by rewrite Hhit in He. }
    split; [exact Hno|].
    destruct (Hfree o Ho Hno) as (n' & Hn' & Hfr). exists n'. split; [done|]. split; [done|].
    destruct Hpres as (_ & _ & Hpay & _).
    destruct (Hpay o n Hn) as (n'' & Hn'' & Hsp). congruence.
  - intros o n Ho Hn Hkeep. rewrite kept_by_join. unfold kept_by.
    apply list_elem_of_filter. split; [|done]. rewrite (Hev o n Hn).
    destruct Hkeep as [->|Hge]; [by rewrite andb_false_r|].
    apply (proj2 (Z.ltb_ge _ _)) in Hge. by rewrite Hge.
Qed.


(** ** Compaction *)

Lemma tiles_b_true a s l e : tiles_b a s l e = true → tiles a s l e.
Proof.
  revert s. induction l as [|o l IH]; intros s; simpl.
  - intros H. by apply Z.eqb_eq in H.
  - intros H. apply andb_true_iff in H as (Ho & H). apply Z.eqb_eq in Ho.
    destruct (a !! o) as [n|] eqn:Hn; [|done].
    apply andb_true_iff in H as (Hsz & H). apply Z.ltb_lt in Hsz.
    split; [done|]. exists n. split; [done|]. split; [done|]. by apply IH.
Qed.

Lemma tiles_le a s l e : tiles a s l e → s ≤ e.
Proof.
  revert s. induction l as [|o l IH]; intros s; simpl; [lia|].
  intros (<- & n & _ & Hsz & H). apply IH in H. lia.
Qed.

Lemma tiles_elem a s l e z :
  tiles a s l e → z ∈ l → ∃ n, a !! z = Some n ∧ 0 < size n ∧ s ≤ z ∧ z + size n ≤ e.
Proof.
  revert s. induction l as [|o l IH]; intros s; simpl.
  - intros _ Hz. by apply elem_of_nil in Hz.
  - intros (<- & n & Hn & Hsz & H) Hz. apply elem_of_cons in Hz as [->|Hz].
    + exists n. apply tiles_le in H. repeat split; [done|done|lia|lia].
    + destruct (IH _ H Hz) as (m & Hm & ? & ? & ?). exists m.
      repeat split; [done|done|lia|lia].
Qed.

Lemma free_total_app c l1 l2 :
  free_total c (l1 ++ l2) = free_total c l1 + free_total c l2.
Proof. induction l1 as [|o l1 IH]; simpl; [done|]. rewrite IH. lia. Qed.

Lemma live_total_app c l1 l2 :
  live_total c (l1 ++ l2) = live_total c l1 + live_total c l2.
Proof. induction l1 as [|o l1 IH]; simpl; [done|]. rewrite IH. lia. Qed.

Lemma free_or_live c o n :
  arena c !! o = Some n →
  free_at c o = is_free n ∧ live_at c o = negb (is_free n) ∧ size_at c o = size n.
Proof. intros H. unfold free_at, live_at, size_at. by rewrite H. Qed.

(** The frontier is the sum of the sizes of the entries of the layout. *)
Lemma tiles_total c s l e :
  tiles (arena c) s l e → e - s = free_total c l + live_total c l.
Proof.
  revert s. induction l as [|o l IH]; intros s; simpl; [lia|].
  intros (<- & n & Hn & Hsz & H). apply IH in H.
  destruct (free_or_live c o n Hn) as (-> & -> & ->). destruct (is_free n); simpl; lia.
Qed.

Lemma filter_all {A} (Q : A → Prop) `{∀ x, Decision (Q x)} (l : list A) :
  (∀ x, x ∈ l → Q x) → filter Q l = l.
Proof.
  induction l as [|x l IH]; intros HQ; [done|].
  rewrite filter_cons_True by (apply HQ; by left).
  rewrite IH; [done|]. intros y Hy. apply HQ. by right.
Qed.

Lemma filter_none {A} (Q : A → Prop) `{∀ x, Decision (Q x)} (l : list A) :
  (∀ x, x ∈ l → ¬ Q x) → filter Q l = [].
Proof.
  induction l as [|x l IH]; intros HQ; [done|].
  rewrite filter_cons_False by (apply HQ; by left).
  apply IH. intros y Hy. apply HQ. by right.
Qed.

Lemma freed_before_split c done rest o :
  (∀ z, z ∈ done → z < o) → (∀ z, z ∈ rest → o ≤ z) →
  freed_before c (done ++ rest) o = free_total c done.
Proof.
  intros Hd Hr. unfold freed_before. rewrite filter_app.
  rewrite (filter_all _ done) by done.
  rewrite (filter_none _ rest); [by rewrite app_nil_r|].
  intros z Hz. apply Hr in Hz. lia.
Qed.

Lemma is_free_relink fn fp n : is_free (relink fn fp n) = is_free n.
Proof. unfold is_free. simpl. by destruct (next n), (prev n). Qed.

Lemma relink_free fn fp n : is_free n = true → relink fn fp n = n.
Proof.
  unfold is_free. destruct n as [nx pv ? ? ? ? ?]. simpl.
  destruct nx, pv; simpl; intros H; try done.
Qed.

Lemma ptiles_app c f s l1 l2 e :
  ptiles c f s (l1 ++ l2) e ↔ ∃ m, ptiles c f s l1 m ∧ ptiles c f m l2 e.
Proof.
  revert s. induction l1 as [|o l1 IH]; intros s; simpl.
  - split; [intros H; by exists s|]. by intros (m & -> & H).
  - split.
    + intros (Ho & H). apply IH in H as (m & H1 & H2). by exists m.
    + intros (m & (Ho & H1) & H2). split; [done|]. apply IH. by exists m.
Qed.

Lemma ptiles_ext c f g s l e :
  (∀ z, z ∈ l → g z = f z) → ptiles c f s l e → ptiles c g s l e.
Proof.
  revert s. induction l as [|o l IH]; intros s Hfg; simpl; [done|].
  intros (Ho & H). split; [rewrite Hfg; [done|by left]|].
  apply IH; [|done]. intros z Hz. apply Hfg. by right.
Qed.

Lemma ptiles_bounds c f s l e z :
  (∀ x, x ∈ l → 0 < size_at c x) →
  ptiles c f s l e → z ∈ l → s ≤ f z ∧ f z + size_at c z ≤ e.
Proof.
  revert s. induction l as [|o l IH]; intros s Hsz; simpl.
  - intros _ Hz. by apply elem_of_nil in Hz.
  - intros (Ho & H) Hz.
    assert (Hle : s + size_at c o ≤ e).
    { clear -H Hsz. revert H. generalize (s + size_at c o).
      induction l as [|x l IHl]; intros s'; simpl; [lia|].
      intros (_ & H). apply IHl in H.
      - assert (0 < size_at c x) by (apply Hsz; right; by left). lia.
      - intros y Hy. apply Hsz. apply elem_of_cons in Hy as [->|Hy]; [by left|].
        right. by right. }
    assert (0 < size_at c o) by (apply Hsz; by left).
    apply elem_of_cons in Hz as [->|Hz]; [lia|].
    destruct (IH (s + size_at c o)) as (? & ?); [|done|done|lia].
    intros x Hx. apply Hsz. by right.
Qed.

Lemma ptiles_inj c f s l e z1 z2 :
  (∀ x, x ∈ l → 0 < size_at c x) →
  ptiles c f s l e → z1 ∈ l → z2 ∈ l → f z1 = f z2 → z1 = z2.
Proof.
  revert s. induction l as [|o l IH]; intros s Hsz; simpl.
  - intros _ Hz. by apply elem_of_nil in Hz.
  - intros (Ho & H) Hz1 Hz2 Heq.
    assert (Hsz' : ∀ x, x ∈ l → 0 < size_at c x) by (intros x Hx; apply Hsz; by right).
    assert (0 < size_at c o) by (apply Hsz; by left).
    apply elem_of_cons in Hz1 as [->|Hz1]; apply elem_of_cons in Hz2 as [->|Hz2]; [done|..].
    + destruct (ptiles_bounds c f _ l e z2 Hsz' H Hz2). lia.
    + destruct (ptiles_bounds c f _ l e z1 Hsz' H Hz1). lia.
    + by eapply IH.
Qed.

(** What the invariant says about the entry the walk stands at. *)
Lemma pack_head c offs done o tl ptr diff f cc :
  pack_inv c offs done (o :: tl) ptr diff f cc →
  ∃ n, ptr = o ∧ arena c !! o = Some n ∧ 0 < size n ∧
       tiles (arena c) (o + size n) tl (next_p c) ∧
       (o ∉ done) ∧ o ∈ offs ∧ f o = o ∧
       arena cc !! o = Some (relink f f n) ∧
       freed_before c offs o = diff ∧ o < next_p c ∧
       (∀ z, z ∈ tl → o + size n ≤ z).
Proof.
  intros [Hsplit Htl Hdiff Hpos Hbelow Hid Hreloc Hpt Har Hhd Hsc].
  destruct Htl as (<- & n & Hn & Hsz & Htl). exists n.
  assert (Hnd : o ∉ done) by (intros Hin; apply Hbelow in Hin; lia).
  assert (Hoffs : o ∈ offs) by (rewrite Hsplit; apply elem_of_app; right; by left).
  assert (Hfo : f o = o) by (apply Hid; by intros (? & _)).
  assert (Htl_ge : ∀ z, z ∈ tl → o + size n ≤ z).
  { intros z Hz. destruct (tiles_elem _ _ _ _ z Htl Hz) as (? & _ & _ & ? & _). lia. }
  repeat split; try done.
  - rewrite <- Hfo at 1. apply Har; [done|done|]. right. by left.
  - rewrite Hsplit, Hdiff. apply freed_before_split; [done|].
    intros z Hz. apply elem_of_cons in Hz as [->|Hz]; [lia|]. apply Htl_ge in Hz. lia.
  - apply tiles_le in Htl. lia.
Qed.

(** Where the entries that are still in use, or not yet passed, are
    now: the passed ones packed below [ptr - diff], the others in place. *)
Lemma pack_pos c offs done rest ptr diff f cc z m :
  tiles (arena c) 0 offs (next_p c) →
  pack_inv c offs done rest ptr diff f cc →
  z ∈ offs → arena c !! z = Some m → is_free m = false ∨ z ∈ rest →
  0 < size m ∧
  ((z ∈ done ∧ is_free m = false ∧ 0 ≤ f z ∧ f z + size m ≤ ptr - diff) ∨
   (z ∈ rest ∧ f z = z ∧ ptr ≤ z)).
Proof.
  intros Hlay [Hsplit Htl Hdiff Hpos Hbelow Hid Hreloc Hpt Har Hhd Hsc] Hz Hm Hcase.
  assert (Hsizes : ∀ x, x ∈ offs → 0 < size_at c x).
  { intros x Hx. destruct (tiles_elem _ _ _ _ x Hlay Hx) as (nx & Hnx & ? & _).
    by destruct (free_or_live c x nx Hnx) as (_ & _ & ->). }
  destruct (free_or_live c z m Hm) as (_ & Hlv & Hsz).
  split; [rewrite <- Hsz; by apply Hsizes|].
  assert (Hrest : z ∈ rest → z ∈ rest ∧ f z = z ∧ ptr ≤ z).
  { intros Hr. destruct (tiles_elem _ _ _ _ z Htl Hr) as (_ & _ & _ & Hge & _).
    split; [done|]. split; [|done]. apply Hid. intros (Hd & _). apply Hbelow in Hd. lia. }
  rewrite Hsplit in Hz. apply elem_of_app in Hz as [Hd|Hr]; [|right; by apply Hrest].
  destruct Hcase as [Hlive|Hr]; [|right; by apply Hrest].
  left. split; [done|]. split; [done|].
  assert (Hin : z ∈ filter (λ z, live_at c z = true) done).
  { apply list_elem_of_filter. split; [|done]. by rewrite Hlv, Hlive. }
  assert (Hszd : ∀ x, x ∈ filter (λ z, live_at c z = true) done → 0 < size_at c x).
  { intros x Hx. apply list_elem_of_filter in Hx as (_ & Hx). apply Hsizes.
    rewrite Hsplit. apply elem_of_app. by left. }
  destruct (ptiles_bounds c f 0 _ _ z Hszd Hpt Hin) as (? & ?).
  rewrite <- Hsz. done.
Qed.

Lemma pack_inj c offs done rest ptr diff f cc z1 m1 z2 m2 :
  tiles (arena c) 0 offs (next_p c) →
  pack_inv c offs done rest ptr diff f cc →
  z1 ∈ offs → arena c !! z1 = Some m1 → is_free m1 = false ∨ z1 ∈ rest →
  z2 ∈ offs → arena c !! z2 = Some m2 → is_free m2 = false ∨ z2 ∈ rest →
  f z1 = f z2 → z1 = z2.
Proof.
  intros Hlay Hinv Hz1 Hm1 Hc1 Hz2 Hm2 Hc2 Heq.
  destruct (pack_pos _ _ _ _ _ _ _ _ z1 m1 Hlay Hinv Hz1 Hm1 Hc1) as (Hs1 & Hp1).
  destruct (pack_pos _ _ _ _ _ _ _ _ z2 m2 Hlay Hinv Hz2 Hm2 Hc2) as (Hs2 & Hp2).
  destruct Hinv as [Hsplit Htl Hdiff Hpos Hbelow Hid Hreloc Hpt Har Hhd Hsc].
  destruct Hp1 as [(Hd1 & Hl1 & ? & ?)|(Hr1 & Hf1 & ?)],
           Hp2 as [(Hd2 & Hl2 & ? & ?)|(Hr2 & Hf2 & ?)]; try lia.
  eapply (ptiles_inj c f 0 _ _ z1 z2); [|exact Hpt|..|done].
  - intros x Hx. apply list_elem_of_filter in Hx as (_ & Hx).
    assert (Hxo : x ∈ offs) by (rewrite Hsplit; apply elem_of_app; by left).
    destruct (tiles_elem _ _ _ _ x Hlay Hxo) as (nx & Hnx & ? & _).
    by destruct (free_or_live c x nx Hnx) as (_ & _ & ->).
  - apply list_elem_of_filter. split; [|done].
    destruct (free_or_live c z1 m1 Hm1) as (_ & -> & _). by rewrite Hl1.
  - apply list_elem_of_filter. split; [|done].
    destruct (free_or_live c z2 m2 Hm2) as (_ & -> & _). by rewrite Hl2.
Qed.

Lemma filter_snoc_live c done o :
  filter (λ z, live_at c z = true) (done ++ [o]) =
  filter (λ z, live_at c z = true) done ++ (if live_at c o then [o] else []).
Proof.
  rewrite filter_app. f_equal. destruct (live_at c o) eqn:Hl.
  - by rewrite filter_cons_True.
  - rewrite filter_cons_False; [done|]. by rewrite Hl.
Qed.

(** The walk steps over a free entry, adding its size to [diff], and over
    an entry in use while [diff] is still 0: nothing is written. *)
Lemma pack_stay c offs done o tl ptr diff f cc n :
  pack_inv c offs done (o :: tl) ptr diff f cc →
  arena c !! o = Some n →
  is_free n = true ∨ diff = 0 →
  pack_inv c offs (done ++ [o]) tl (o + size n)
           (if is_free n then diff + size n else diff) f cc.
Proof.
  intros Hinv Hn Hcase.
  destruct (pack_head _ _ _ _ _ _ _ _ _ Hinv)
    as (n0 & -> & Hn0 & Hsz & Htl & Hnd & Hoffs & Hfo & Hcur & Hfb & Hlt & Hge).
  assert (n0 = n) as -> by congruence.
  destruct Hinv as [Hsplit _ Hdiff Hpos Hbelow Hid Hreloc Hpt Har Hhd Hsc].
  destruct (free_or_live c o n Hn) as (Hfr & Hlv & Hsize).
  split.
  - by rewrite <- app_assoc.
  - done.
  - rewrite free_total_app. simpl. rewrite Hfr, Hsize, <- Hdiff.
    destruct (is_free n); lia.
  - destruct (is_free n); lia.
  - intros z Hz. apply elem_of_app in Hz as [Hz|Hz]; [apply Hbelow in Hz; lia|].
    apply list_elem_of_singleton in Hz as ->. lia.
  - intros z Hz. apply Hid. intros (Hd & Hl). apply Hz. split; [|done].
    apply elem_of_app. by left.
  - intros z Hz Hl. apply elem_of_app in Hz as [Hz|Hz]; [by apply Hreloc|].
    apply list_elem_of_singleton in Hz as ->. rewrite Hfo. unfold reloc. rewrite Hfb.
    destruct Hcase as [Hfree| ->]; [|lia]. rewrite Hlv, Hfree in Hl. done.
  - rewrite filter_snoc_live, Hlv. apply ptiles_app. exists (o - diff).
    split; [done|]. destruct (is_free n) eqn:Hfree; simpl; [lia|].
    destruct Hcase as [?| ->]; [done|]. rewrite Hfo, Hsize. lia.
  - intros z m Hz Hm Hc. apply Har; [done|done|]. destruct Hc as [?|Hc]; [by left|].
    right. by right.
  - done.
  - done.
Qed.

(** [move_node] on an entry in use, once [diff] is positive: the link
    that pointed to the entry ([next] of its predecessor, or of the
    bucket) and the [prev] link of its successor are redirected to the
    new address, and the image is copied there.  The copy overwrites
    neither a packed entry nor one further up. *)
Lemma pack_move c offs done o tl ptr diff f cc n :
  tiles (arena c) 0 offs (next_p c) → linked c offs →
  pack_inv c offs done (o :: tl) ptr diff f cc →
  arena c !! o = Some n → is_free n = false → 0 < diff →
  ∃ cc', move_node cc (o - diff) o = Done cc' ∧
         pack_inv c offs (done ++ [o]) tl (o + size n) diff (moved f o (o - diff)) cc'.
Proof.
  intros Hlay Hlk Hinv Hn Hlive Hdiffp.
  destruct (pack_head _ _ _ _ _ _ _ _ _ Hinv)
    as (n0 & -> & Hn0 & Hsz & Htl & Hnd & Hoffs & Hfo & Hcur & Hfb & Hlt & Hge).
  assert (n0 = n) as -> by congruence.
  set (dst := o - diff). set (f' := moved f o dst).
  assert (Hf'o : f' o = dst) by (unfold f', moved; by rewrite bool_decide_eq_true_2).
  assert (Hf'z : ∀ z, z ≠ o → f' z = f z).
  { intros z Hz. unfold f', moved. by rewrite bool_decide_eq_false_2. }
  assert (Hpm : ∀ p, p ≠ Node o → pmap f' p = pmap f p).
  { intros [| |z] Hp; simpl; try done. rewrite Hf'z; [done|]. by intros ->. }
  assert (Hpmo : pmap f' (Node o) = Node dst) by (simpl; by rewrite Hf'o).
  assert (Hpos : ∀ z m, z ∈ offs → arena c !! z = Some m →
            is_free m = false ∨ z ∈ o :: tl → z ≠ o →
            f z ≠ o ∧ f z ≠ dst ∧ ¬ clobbered dst (size n) (f z)).
  { intros z m Hz Hm Hc Hzo.
    destruct (pack_pos _ _ _ _ _ _ _ _ z m Hlay Hinv Hz Hm Hc)
      as (Hs & [(Hd & Hl & H0 & Hle)|(Hr & Hfz & Hge')]).
    - unfold clobbered, dst. lia.
    - apply elem_of_cons in Hr as [->|Hr]; [done|]. apply Hge in Hr.
      rewrite Hfz. unfold clobbered, dst. lia. }
  pose proof (λ z1 m1 z2 m2, pack_inj _ _ _ _ _ _ _ _ z1 m1 z2 m2 Hlay Hinv) as Hinj.
  assert (Hnx_other : ∀ z m, z ∈ offs → arena c !! z = Some m →
            next m = Node o → prev n = Node z).
  { intros z m Hz Hm Hnx.
    assert (Hfm : is_free m = false) by (unfold is_free; by rewrite Hnx).
    pose proof (lk_prev _ _ Hlk o n Hoffs Hn Hlive) as Hp.
    pose proof (lk_next _ _ Hlk z m Hz Hm Hfm) as Hq. rewrite Hnx in Hq.
    destruct Hq as (_ & _ & no & Hno & Hpo). congruence. }
  assert (Hhd_other : ∀ b hd, buckets c !! b = Some hd →
            b_next hd = Node o → prev n = Bucket b).
  { intros b hd Hb Hbn. pose proof (lk_head _ _ Hlk b hd Hb) as Hq. rewrite Hbn in Hq.
    destruct Hq as (_ & no & Hno & Hpo). congruence. }
  assert (Hpv_other : ∀ z m, z ∈ offs → arena c !! z = Some m →
            prev m = Node o → next n = Node z).
  { intros z m Hz Hm Hpvz.
    assert (Hfm : is_free m = false).
    { unfold is_free. rewrite Hpvz. by destruct (next m). }
    pose proof (lk_prev _ _ Hlk z m Hz Hm Hfm) as Hq. rewrite Hpvz in Hq.
    destruct Hq as (_ & _ & no & Hno & Hpo). congruence. }
  destruct Hinv as [Hsplit _ Hdiff Hposd Hbelow Hid Hreloc Hpt Har Hhd Hsc].
  destruct (free_or_live c o n Hn) as (Hfr & Hlv & Hsize).
  rewrite Hlive in Hfr, Hlv. simpl in Hlv.
  unfold move_node.
  rewrite (get_prev_node cc o _ Hcur), bind_Done. cbn [prev relink].
  (* the link that pointed to the entry *)
  assert (∃ c1, set_next cc (pmap f (prev n)) (Node dst) = Done c1 ∧
            buckets c1 = relink_head f' <$> buckets c ∧
            (∀ z m, z ∈ offs → arena c !! z = Some m →
                    is_free m = false ∨ z ∈ o :: tl →
                    arena c1 !! f z = Some (relink f' f m)) ∧
            same_scalars c c1) as (c1 & Hset1 & Hhd1 & Har1 & Hsc1).
  { pose proof (lk_prev _ _ Hlk o n Hoffs Hn Hlive) as Hp.
    destruct (prev n) as [|b|x] eqn:Hpv; [done| |].
    - destruct Hp as (hd & Hb & Hbn). cbn [pmap set_next].
      assert (Hbcc : buckets cc !! b = Some (relink_head f hd)).
      { by rewrite Hhd, list_lookup_fmap, Hb. }
      rewrite Hbcc. eexists. split; [reflexivity|]. split; [|split].
      + cbn [buckets with_buckets]. apply list_eq. intros i. rewrite Hhd.
        destruct (decide (i = b)) as [->|Hne].
        * rewrite list_lookup_insert_eq
            by (rewrite length_fmap; by eapply lookup_lt_Some).
          rewrite list_lookup_fmap, Hb. simpl. unfold relink_head. simpl.
          by rewrite Hbn, Hpmo.
        * rewrite list_lookup_insert_ne by done. rewrite !list_lookup_fmap.
          destruct (buckets c !! i) as [hd'|] eqn:Hi; [|done]. simpl.
          unfold relink_head. rewrite Hpm; [done|]. intros Hbn'.
          pose proof (Hhd_other i hd' Hi Hbn'). congruence.
      + intros z m Hz Hm Hc. cbn [arena with_buckets].
        rewrite (Har z m Hz Hm Hc). f_equal. unfold relink. rewrite Hpm; [done|].
        intros Hnx. pose proof (Hnx_other z m Hz Hm Hnx). congruence.
      + by destruct Hsc as (?&?&?&?&?&?&?&?&?&?).
    - destruct Hp as (Hxo & Hx & nx & Hnx & Hnxo). cbn [pmap set_next].
      assert (Hfx : is_free nx = false) by (unfold is_free; by rewrite Hnxo).
      assert (Hxcc : arena cc !! f x = Some (relink f f nx)).
      { apply Har; [done|done|by left]. }
      rewrite Hxcc. eexists. split; [reflexivity|]. split; [|split].
      + cbn [buckets with_arena]. rewrite Hhd. apply list_fmap_ext.
        intros i hd' Hi. unfold relink_head. rewrite Hpm; [done|]. intros Hbn'.
        pose proof (Hhd_other i hd' Hi Hbn'). congruence.
      + intros z m Hz Hm Hc. cbn [arena with_arena].
        destruct (decide (z = x)) as [->|Hzx].
        * assert (m = nx) as -> by congruence. rewrite lookup_insert_eq. f_equal.
          unfold with_next, relink. simpl. by rewrite Hnxo, Hpmo.
        * rewrite lookup_insert_ne.
          2:{ intros Heq. apply Hzx. symmetry.
              eapply (Hinj x nx z m); [done|done|by left|done|done|done|done]. }
          rewrite (Har z m Hz Hm Hc). f_equal. unfold relink. rewrite Hpm; [done|].
          intros Hnx'. pose proof (Hnx_other z m Hz Hm Hnx'). congruence.
      + by destruct Hsc as (?&?&?&?&?&?&?&?&?&?). }
  rewrite Hset1, bind_Done.
  assert (Hc1o : arena c1 !! o = Some (relink f' f n)).
  { rewrite <- Hfo at 1. apply Har1; [done|done|]. right. by left. }
  rewrite (get_next_node c1 o _ Hc1o), bind_Done. cbn [next relink].
  (* the [prev] link of the successor *)
  assert (∃ c2, (if is_null (pmap f' (next n)) then Done c1
                 else set_prev c1 (pmap f' (next n)) (Node dst)) = Done c2 ∧
            buckets c2 = buckets c1 ∧
            (∀ z m, z ∈ offs → arena c !! z = Some m →
                    is_free m = false ∨ z ∈ o :: tl →
                    arena c2 !! f z = Some (relink f' f' m)) ∧
            same_scalars c c2) as (c2 & Hset2 & Hhd2 & Har2 & Hsc2).
  { pose proof (lk_next _ _ Hlk o n Hoffs Hn Hlive) as Hq.
    destruct (next n) as [|b|y] eqn:Hnxt; [|done|].
    - cbn [pmap is_null]. exists c1. split; [done|]. split; [done|]. split; [|done].
      intros z m Hz Hm Hc. rewrite (Har1 z m Hz Hm Hc). f_equal. unfold relink.
      rewrite (Hpm (prev m)); [done|]. intros Hpvz.
      pose proof (Hpv_other z m Hz Hm Hpvz). congruence.
    - destruct Hq as (Hyo & Hy & ny & Hny & Hnyo). cbn [pmap is_null set_prev].
      rewrite (Hf'z y Hyo).
      assert (Hfy : is_free ny = false).
      { unfold is_free. rewrite Hnyo. by destruct (next ny). }
      rewrite (Har1 y ny Hy Hny (or_introl Hfy)).
      eexists. split; [reflexivity|]. split; [done|]. split.
      + intros z m Hz Hm Hc. cbn [arena with_arena].
        destruct (decide (z = y)) as [->|Hzy].
        * assert (m = ny) as -> by congruence. rewrite lookup_insert_eq. f_equal.
          unfold with_prev, relink. simpl. by rewrite Hnyo, Hpmo.
        * rewrite lookup_insert_ne.
          2:{ intros Heq. apply Hzy. symmetry.
              eapply (Hinj y ny z m); [done|done|by left|done|done|done|done]. }
          rewrite (Har1 z m Hz Hm Hc). f_equal. unfold relink.
          rewrite (Hpm (prev m)); [done|]. intros Hpvz.
          pose proof (Hpv_other z m Hz Hm Hpvz). congruence.
      + by destruct Hsc1 as (?&?&?&?&?&?&?&?&?&?). }
  rewrite Hset2, bind_Done.
  assert (Hc2o : arena c2 !! o = Some (relink f' f' n)).
  { rewrite <- Hfo at 1. apply Har2; [done|done|]. right. by left. }
  rewrite Hc2o. eexists. split; [reflexivity|].
  split.
  - by rewrite <- app_assoc.
  - done.
  - rewrite free_total_app. simpl. rewrite Hfr, <- Hdiff. lia.
  - lia.
  - intros z Hz. apply elem_of_app in Hz as [Hz|Hz]; [apply Hbelow in Hz; lia|].
    apply list_elem_of_singleton in Hz as ->. lia.
  - intros z Hz. destruct (decide (z = o)) as [->|Hzo].
    + exfalso. apply Hz. split; [|done]. apply elem_of_app. right. by left.
    + rewrite Hf'z by done. apply Hid. intros (Hd & Hl). apply Hz. split; [|done].
      apply elem_of_app. by left.
  - intros z Hz Hl. apply elem_of_app in Hz as [Hz|Hz].
    + rewrite Hf'z by (by intros ->). by apply Hreloc.
    + apply list_elem_of_singleton in Hz as ->. rewrite Hf'o. unfold reloc, dst.
      by rewrite Hfb.
  - rewrite filter_snoc_live, Hlv. apply ptiles_app. exists (o - diff). split.
    + eapply ptiles_ext; [|exact Hpt]. intros z Hz.
      apply list_elem_of_filter in Hz as (_ & Hz). apply Hf'z. by intros ->.
    + simpl. rewrite Hf'o, Hsize. unfold dst. lia.
  - intros z m Hz Hm Hc. cbn [arena with_arena size relink].
    destruct (decide (z = o)) as [->|Hzo].
    + assert (m = n) as -> by congruence. rewrite Hf'o. apply lookup_write_node_eq.
    + rewrite Hf'z by done.
      assert (Hc' : is_free m = false ∨ z ∈ o :: tl).
      { destruct Hc as [?|?]; [by left|right; by right]. }
      destruct (Hpos z m Hz Hm Hc' Hzo) as (_ & Hne & Hncl).
      rewrite lookup_write_node_ne by done. by apply Har2.
  - cbn [buckets with_arena]. by rewrite Hhd2.
  - by destruct Hsc2 as (?&?&?&?&?&?&?&?&?&?).
Qed.

(** The walk from any of its states to the frontier. *)
Lemma pack_walk_spec c offs :
  tiles (arena c) 0 offs (next_p c) → linked c offs →
  ∀ rest done ptr diff f cc fuel,
    pack_inv c offs done rest ptr diff f cc → (length rest < fuel)%nat →
    ∃ cc' f', pack_walk fuel cc ptr (next_p c) diff = Done (cc', free_total c offs) ∧
              pack_inv c offs offs [] (next_p c) (free_total c offs) f' cc'.
Proof.
  intros Hlay Hlk. induction rest as [|o tl IH]; intros done ptr diff f cc fuel Hinv Hfuel.
  - destruct fuel as [|fuel]; [simpl in Hfuel; lia|].
    pose proof (pi_tiles _ _ _ _ _ _ _ _ Hinv) as Hp. simpl in Hp. subst ptr.
    pose proof (pi_split _ _ _ _ _ _ _ _ Hinv) as Hs. rewrite app_nil_r in Hs. subst done.
    pose proof (pi_diff _ _ _ _ _ _ _ _ Hinv) as Hd. subst diff.
    cbn [pack_walk]. rewrite Z.eqb_refl. by exists cc, f.
  - destruct fuel as [|fuel]; [simpl in Hfuel; lia|]. simpl in Hfuel.
    destruct (pack_head _ _ _ _ _ _ _ _ _ Hinv)
      as (n & -> & Hn & Hsz & Htl & Hnd & Hoffs & Hfo & Hcur & Hfb & Hlt & Hge).
    pose proof (pi_diff_pos _ _ _ _ _ _ _ _ Hinv) as Hdp.
    cbn [pack_walk].
    replace (o =? next_p c) with false by (symmetry; apply Z.eqb_neq; lia).
    rewrite Hcur, is_free_relink. cbn [size relink].
    destruct (is_free n) eqn:Hfree.
    + pose proof (pack_stay _ _ _ _ _ _ _ _ _ n Hinv Hn (or_introl Hfree)) as Hinv'.
      rewrite Hfree in Hinv'. apply (IH _ _ _ _ _ _ Hinv'). lia.
    + destruct (0 <? diff) eqn:Hd.
      * apply Z.ltb_lt in Hd.
        destruct (pack_move _ _ _ _ _ _ _ _ _ n Hlay Hlk Hinv Hn Hfree Hd)
          as (cc' & Hmv & Hinv').
        rewrite Hmv, bind_Done. apply (IH _ _ _ _ _ _ Hinv'). lia.
      * apply Z.ltb_ge in Hd. assert (diff = 0) as Hd0 by lia.
        pose proof (pack_stay _ _ _ _ _ _ _ _ _ n Hinv Hn (or_intror Hd0)) as Hinv'.
        rewrite Hfree in Hinv'. apply (IH _ _ _ _ _ _ Hinv'). lia.
Qed.

Lemma pmap_id p : pmap (λ z, z) p = p.
Proof. by destruct p. Qed.

Lemma relink_id n : relink (λ z, z) (λ z, z) n = n.
Proof. destruct n. unfold relink. simpl. by rewrite !pmap_id. Qed.

Lemma relink_head_id hd : relink_head (λ z, z) hd = hd.
Proof. destruct hd. unfold relink_head. simpl. by rewrite pmap_id. Qed.

(** The walk starts at the start of the buffer with [diff = 0]. *)
Lemma pack_inv_start c offs :
  tiles (arena c) 0 offs (next_p c) → pack_inv c offs [] offs 0 0 (λ z, z) c.
Proof.
  intros Hlay. split; try done.
  - intros z Hz. by apply elem_of_nil in Hz.
  - intros z Hz. by apply elem_of_nil in Hz.
  - intros z n _ Hn _. by rewrite relink_id.
  - rewrite <- (list_fmap_id (buckets c)) at 1. apply list_fmap_ext.
    intros i hd _. by rewrite relink_head_id.
Qed.

(** *** From the bucket lists to the links *)

Lemma last_ptr_not_null pv l : pv ≠ NULL → last_ptr pv l ≠ NULL.
Proof. revert pv. induction l as [|o l IH]; intros pv H; simpl; [done|]. by apply IH. Qed.

Lemma seg_at a pv p l1 o l2 q :
  seg a pv p (l1 ++ o :: l2) q →
  ∃ n, a !! o = Some n ∧ prev n = last_ptr pv l1 ∧ next n = head_ptr l2 q.
Proof.
  intros H. apply seg_app in H as (m & _ & H).
  apply seg_cons in H as (_ & n & Hn & Hpv & H).
  exists n. split; [done|]. split; [done|]. by apply seg_head in H.
Qed.

Lemma NoDup_join_elem (L : list (list Z)) l : NoDup (mjoin L) → l ∈ L → NoDup l.
Proof.
  induction L as [|l0 L IH]; intros Hnd Hl; [by apply elem_of_nil in Hl|].
  change (mjoin (l0 :: L)) with (l0 ++ mjoin L) in Hnd.
  apply NoDup_app in Hnd as (H1 & _ & H2).
  apply elem_of_cons in Hl as [->|Hl]; [done|by apply IH].
Qed.

Lemma join_disjoint (L : list (list Z)) : ∀ i j l1 l2 x,
  NoDup (mjoin L) → L !! i = Some l1 → L !! j = Some l2 → i ≠ j →
  x ∈ l1 → x ∉ l2.
Proof.
  induction L as [|l0 L IH]; intros i j l1 l2 x Hnd Hi Hj Hij Hx1 Hx2; [done|].
  change (mjoin (l0 :: L)) with (l0 ++ mjoin L) in Hnd.
  apply NoDup_app in Hnd as (_ & Hdisj & Hnd).
  assert (Hmem : ∀ k l, L !! k = Some l → x ∈ l → x ∈ mjoin L).
  { intros k l Hk Hx. apply list_elem_of_join. exists l. split; [done|].
    by eapply list_elem_of_lookup_2. }
  destruct i as [|i], j as [|j]; simpl in Hi, Hj; [done|..].
  - injection Hi as <-. apply (Hdisj x Hx1). by eapply Hmem.
  - injection Hj as <-. apply (Hdisj x Hx2). by eapply Hmem.
  - apply (IH i j l1 l2 x); try done. by intros ->.
Qed.

(** An entry of a bucket list, with its neighbours. *)
Lemma lists_wf_at c L o :
  lists_wf c L → o ∈ mjoin L →
  ∃ b hd l1 l2 n,
    buckets c !! b = Some hd ∧
    chain (arena c) (Bucket b) (b_next hd) (l1 ++ o :: l2) ∧
    NoDup (l1 ++ o :: l2) ∧
    (∀ x, x ∈ l1 ++ o :: l2 → x ∈ mjoin L) ∧
    arena c !! o = Some n ∧
    prev n = last_ptr (Bucket b) l1 ∧ next n = head_ptr l2 NULL.
Proof.
  intros (Hlen & Hbl & Hnd) Ho.
  apply list_elem_of_join in Ho as (l & Hol & Hl).
  pose proof (NoDup_join_elem L l Hnd Hl) as Hndl.
  assert (Hsub : ∀ x, x ∈ l → x ∈ mjoin L).
  { intros x Hx. apply list_elem_of_join. by exists l. }
  apply list_elem_of_lookup_1 in Hl as (b & Hb).
  destruct (Hbl b l Hb) as (hd & Hhd & Hch).
  apply list_elem_of_split in Hol as (l1 & l2 & ->).
  destruct (seg_at _ _ _ _ _ _ _ Hch) as (n & Hn & Hpv & Hnx).
  by exists b, hd, l1, l2, n.
Qed.

Lemma lists_wf_live c L o n :
  lists_wf c L → o ∈ mjoin L → arena c !! o = Some n → is_free n = false.
Proof.
  intros Hwf Ho Hn.
  destruct (lists_wf_at c L o Hwf Ho) as (b & hd & l1 & l2 & n' & _ & _ & _ & _ & Hn' & Hpv & _).
  assert (n' = n) as -> by congruence.
  assert (Hnn : prev n ≠ NULL) by (rewrite Hpv; by apply last_ptr_not_null).
  unfold is_free. destruct (prev n); [done|..]; by rewrite andb_false_r.
Qed.

Lemma lists_linked c offs L :
  lists_wf c L →
  (∀ o, o ∈ mjoin L → o ∈ offs) →
  (∀ o, o ∈ offs → live_at c o = true → o ∈ mjoin L) →
  linked c offs.
Proof.
  intros Hwf Hin Hlive.
  assert (Hlisted : ∀ o n, o ∈ offs → arena c !! o = Some n → is_free n = false →
            o ∈ mjoin L).
  { intros o n Ho Hn Hfree. apply Hlive; [done|]. unfold live_at. by rewrite Hn, Hfree. }
  split.
  - intros o n Ho Hn Hfree.
    destruct (lists_wf_at c L o Hwf (Hlisted o n Ho Hn Hfree))
      as (b & hd & l1 & l2 & n' & Hb & Hch & Hnd & Hsub & Hn' & Hpv & Hnx).
    assert (n' = n) as -> by congruence. rewrite Hpv.
    destruct l1 as [|x l1 _] using rev_ind.
    + simpl. exists hd. split; [done|]. by apply seg_head in Hch.
    + rewrite last_ptr_app. rewrite <- app_assoc in Hch, Hnd, Hsub. simpl in Hch, Hnd, Hsub.
      destruct (seg_at _ _ _ l1 x (o :: l2) _ Hch) as (nx & Hnx' & _ & Hnxt).
      simpl in Hnxt.
      apply NoDup_app in Hnd as (_ & _ & Hnd). apply NoDup_cons in Hnd as (Hxo & _).
      split; [intros ->; apply Hxo; by left|].
      split; [apply Hin, Hsub, elem_of_app; right; by left|].
      by exists nx.
  - intros o n Ho Hn Hfree.
    destruct (lists_wf_at c L o Hwf (Hlisted o n Ho Hn Hfree))
      as (b & hd & l1 & l2 & n' & Hb & Hch & Hnd & Hsub & Hn' & Hpv & Hnx).
    assert (n' = n) as -> by congruence. rewrite Hnx.
    destruct l2 as [|y l2]; [done|]. simpl.
    assert (Hre : l1 ++ o :: y :: l2 = (l1 ++ [o]) ++ y :: l2) by by rewrite <- app_assoc.
    rewrite Hre in Hch.
    destruct (seg_at _ _ _ (l1 ++ [o]) y l2 _ Hch) as (ny & Hny & Hpvy & _).
    rewrite last_ptr_app in Hpvy.
    apply NoDup_app in Hnd as (_ & _ & Hnd). apply NoDup_cons in Hnd as (Hoy & _).
    split; [intros ->; apply Hoy; by left|].
    split; [apply Hin, Hsub, elem_of_app; right; right; by left|].
    by exists ny.
  - intros b hd Hb. destruct Hwf as (Hlen & Hbl & Hnd).
    assert (Hlt : (b < length L)%nat) by (rewrite Hlen; by eapply lookup_lt_Some).
    apply lookup_lt_is_Some_2 in Hlt as (l & Hl).
    destruct (Hbl b l Hl) as (hd' & Hb' & Hch). assert (hd' = hd) as -> by congruence.
    unfold chain in Hch. destruct l as [|y l].
    + apply seg_nil_inv in Hch. by rewrite Hch.
    + apply seg_cons in Hch as (-> & ny & Hny & Hpv & _).
      split; [|by exists ny]. apply Hin, list_elem_of_join. exists (y :: l).
      split; [by left|]. by eapply list_elem_of_lookup_2.
Qed.

(** *** The lists and the layout after the walk *)

Lemma seg_relink a a' f pv p l q :
  (∀ x n, x ∈ l → a !! x = Some n → a' !! f x = Some (relink f f n)) →
  seg a pv p l q → seg a' (pmap f pv) (pmap f p) (f <$> l) (pmap f q).
Proof.
  revert pv p. induction l as [|o l IH]; intros pv p Ha.
  - intros H. apply seg_nil_inv in H as ->. by apply seg_nil.
  - intros (-> & n & Hn & Hpv & H)%seg_cons. rewrite fmap_cons. apply seg_cons.
    split; [done|]. exists (relink f f n). split; [apply Ha; [by left|done]|].
    split; [simpl; by rewrite Hpv|]. simpl.
    apply (IH (Node o) (next n)); [|done]. intros x nx Hx. apply Ha. by right.
Qed.

Lemma join_fmap_fmap (f : Z → Z) (L : list (list Z)) :
  mjoin ((λ l, f <$> l) <$> L) = f <$> mjoin L.
Proof.
  induction L as [|l L IH]; [done|].
  change (mjoin (l :: L)) with (l ++ mjoin L). rewrite fmap_app, <- IH. done.
Qed.

Lemma ptiles_tiles c a' f s l e :
  (∀ z, z ∈ l → ∃ m, a' !! f z = Some m ∧ size m = size_at c z ∧ 0 < size m) →
  ptiles c f s l e → tiles a' s (f <$> l) e.
Proof.
  revert s. induction l as [|o l IH]; intros s Ha; simpl; [done|].
  intros (Ho & H). split; [done|].
  destruct (Ha o) as (m & Hm & Hsz & Hpos); [by left|].
  exists m. split; [done|]. split; [done|]. rewrite Ho, Hsz.
  apply IH; [|done]. intros z Hz. apply Ha. by right.
Qed.

Lemma tiles_app a s l1 l2 e :
  tiles a s (l1 ++ l2) e ↔ ∃ m, tiles a s l1 m ∧ tiles a m l2 e.
Proof.
  revert s. induction l1 as [|o l1 IH]; intros s; simpl.
  - split; [intros H; by exists s|]. by intros (m & -> & H).
  - split.
    + intros (Ho & n & Hn & Hsz & H). apply IH in H as (m & H1 & H2).
      exists m. split; [|done]. split; [done|]. by exists n.
    + intros (m & (Ho & n & Hn & Hsz & H1) & H2). split; [done|].
      exists n. split; [done|]. split; [done|]. apply IH. by exists m.
Qed.

(** An entry is moved down by the sizes of the free entries that
    precede it in the layout. *)
Lemma reloc_at c s l1 o l2 e :
  tiles (arena c) s (l1 ++ o :: l2) e →
  reloc c (l1 ++ o :: l2) o = o - free_total c l1.
Proof.
  intros H. unfold reloc. f_equal. apply freed_before_split.
  - apply tiles_app in H as (m & H1 & H2). destruct H2 as (-> & _).
    intros z Hz. destruct (tiles_elem _ _ _ _ z H1 Hz) as (? & _ & ? & _ & ?). lia.
  - apply tiles_app in H as (m & _ & H2). intros z Hz.
    destruct (tiles_elem _ _ _ _ z H2 Hz) as (? & _ & _ & ? & _).
    destruct H2 as (-> & _). lia.
Qed.

(** C8.  [pack_buffer] on an arena whose entries [offs] lie back to back
    from the start of the buffer to the frontier, the entries in use being
    those of the bucket lists [L].  One pass over [offs], in address
    order, ends with:
    - the frontier lowered by the total size of the free entries, which
      makes it the sum of the sizes of the entries in use;
    - every entry in use moved down by the accumulated size of the free
      entries before it ([reloc]), with its payload unchanged and its
      links, like the links of the buckets, renamed to the new addresses;
    - the entries in use lying back to back from the start of the buffer
      to the new frontier, in their old order;
    - the bucket lists holding the same entries in the same order, at
      their new addresses;
    - the counters and the capacity unchanged. *)
Theorem pack_buffer_spec (fuel : nat) (c : cache) (offs : list Z) (L : list (list Z)) :
  tiles (arena c) 0 offs (next_p c) →
  lists_wf c L →
  (∀ o : Z, o ∈ mjoin L → o ∈ offs) →
  (∀ o : Z, o ∈ offs → live_at c o = true → o ∈ mjoin L) →
  (length offs < fuel)%nat →
  ∃ c', pack_buffer fuel c = Done c' ∧
    next_p c' = next_p c - free_total c offs ∧
    next_p c' = live_total c offs ∧
    (∀ l1 o l2 n, offs = l1 ++ o :: l2 → arena c !! o = Some n → is_free n = false →
       reloc c offs o = o - free_total c l1 ∧
       arena c' !! reloc c offs o = Some (relink (reloc c offs) (reloc c offs) n)) ∧
    buckets c' = relink_head (reloc c offs) <$> buckets c ∧
    tiles (arena c') 0 (reloc c offs <$> filter (λ z, live_at c z = true) offs)
          (next_p c') ∧
    lists_wf c' ((λ l : list Z, reloc c offs <$> l) <$> L) ∧
    hits c' = hits c ∧ misses c' = misses c ∧ collisions c' = collisions c ∧
    numentries c' = numentries c ∧ bufsize c' = bufsize c.
Proof.
  intros Hlay Hwf Hin Hlive Hfuel.
  pose proof (lists_linked c offs L Hwf Hin Hlive) as Hlk.
  destruct (pack_walk_spec c offs Hlay Hlk offs [] 0 0 (λ z, z) c fuel
              (pack_inv_start c offs Hlay) Hfuel) as (cc & f & Hwalk & Hinv).
  unfold pack_buffer. rewrite Hwalk, bind_Done. cbn [fst snd].
  pose proof (λ z1 m1 z2 m2, pack_inj _ _ _ _ _ _ _ _ z1 m1 z2 m2 Hlay Hinv) as Hinj.
  destruct Hinv as [Hsplit Htl Hdiff Hposd Hbelow Hid Hreloc Hpt Har Hhd Hsc].
  set (r := reloc c offs).
  assert (Hf : ∀ z n, z ∈ offs → arena c !! z = Some n → is_free n = false → f z = r z).
  { intros z n Hz Hn Hfree. apply Hreloc; [done|]. unfold live_at. by rewrite Hn, Hfree. }
  assert (Hrel : ∀ z n, z ∈ offs → arena c !! z = Some n → is_free n = false →
            relink f f n = relink r r n).
  { intros z n Hz Hn Hfree. unfold relink. f_equal.
    - pose proof (lk_next _ _ Hlk z n Hz Hn Hfree) as Hq.
      destruct (next n) as [|b|y]; [done|done|]. simpl.
      destruct Hq as (_ & Hy & ny & Hny & Hpv). f_equal. apply (Hf y ny Hy Hny).
      unfold is_free. rewrite Hpv. by destruct (next ny).
    - pose proof (lk_prev _ _ Hlk z n Hz Hn Hfree) as Hq.
      destruct (prev n) as [|b|x]; [done|done|]. simpl.
      destruct Hq as (_ & Hx & nx & Hnx & Hnxt). f_equal. apply (Hf x nx Hx Hnx).
      unfold is_free. by rewrite Hnxt. }
  assert (Hlisted : ∀ x, x ∈ mjoin L →
            x ∈ offs ∧ ∃ n, arena c !! x = Some n ∧ is_free n = false).
  { intros x Hx. split; [by apply Hin|].
    destruct (lists_wf_at c L x Hwf Hx) as (_ & _ & _ & _ & n & _ & _ & _ & _ & Hn & _).
    exists n. split; [done|]. by eapply lists_wf_live. }
  destruct Hsc as (Hh & Hm & Hco & Hne & Hnp & Hbs & _).
  eexists. split; [reflexivity|].
  cbn [next_p with_next_p arena buckets hits misses collisions numentries bufsize].
  split; [by rewrite Hnp|]. split.
  { rewrite Hnp. pose proof (tiles_total c 0 offs _ Hlay). lia. }
  split.
  { intros l1 o l2 n Hoffs Hn Hfree.
    assert (Ho : o ∈ offs) by (rewrite Hoffs; apply elem_of_app; right; by left).
    split.
    - unfold r. rewrite Hoffs. eapply reloc_at. rewrite <- Hoffs. exact Hlay.
    - rewrite <- (Hf o n Ho Hn Hfree), <- (Hrel o n Ho Hn Hfree).
      apply Har; [done|done|by left]. }
  split.
  { rewrite Hhd. apply list_fmap_ext. intros b hd Hb. unfold relink_head. f_equal.
    pose proof (lk_head _ _ Hlk b hd Hb) as Hq.
    destruct (b_next hd) as [|b'|y]; [done|done|]. simpl.
    destruct Hq as (Hy & ny & Hny & Hpv). f_equal. apply (Hf y ny Hy Hny).
    unfold is_free. rewrite Hpv. by destruct (next ny). }
  assert (Hnode : ∀ z, z ∈ filter (λ z, live_at c z = true) offs →
            z ∈ offs ∧ ∃ n, arena c !! z = Some n ∧ is_free n = false ∧ 0 < size n).
  { intros z Hz. apply list_elem_of_filter in Hz as (Hl & Hz). split; [done|].
    destruct (tiles_elem _ _ _ _ z Hlay Hz) as (n & Hn & Hsz & _).
    exists n. split; [done|]. split; [|done].
    unfold live_at in Hl. rewrite Hn in Hl. by destruct (is_free n). }
  split.
  { assert (Hfm : r <$> filter (λ z, live_at c z = true) offs =
                  f <$> filter (λ z, live_at c z = true) offs).
    { apply list_fmap_ext. intros i z Hz. apply list_elem_of_lookup_2 in Hz.
      destruct (Hnode z Hz) as (Hzo & n & Hn & Hfree & _). symmetry. by eapply Hf. }
    rewrite Hfm, Hnp. apply (ptiles_tiles c); [|done].
    intros z Hz. destruct (Hnode z Hz) as (Hzo & n & Hn & Hfree & Hsz).
    exists (relink f f n). split; [apply Har; [done|done|by left]|].
    destruct (free_or_live c z n Hn) as (_ & _ & ->). done. }
  split.
  { destruct Hwf as (Hlen & Hbl & Hnd). split; [|split].
    - cbn [buckets with_next_p]. by rewrite Hhd, !length_fmap.
    - intros i l' Hi. apply list_lookup_fmap_Some in Hi as (l & -> & Hl).
      destruct (Hbl i l Hl) as (hd & Hb & Hch).
      assert (Hsub : ∀ x, x ∈ l → x ∈ mjoin L).
      { intros x Hx. apply list_elem_of_join. exists l. split; [done|].
        by eapply list_elem_of_lookup_2. }
      exists (relink_head f hd). cbn [buckets arena with_next_p].
      split; [by rewrite Hhd, list_lookup_fmap, Hb|].
      assert (Hfl : r <$> l = f <$> l).
      { apply list_fmap_ext. intros j x Hx. apply list_elem_of_lookup_2 in Hx.
        destruct (Hlisted x (Hsub x Hx)) as (Hxo & n & Hn & Hfree). symmetry. by eapply Hf. }
      rewrite Hfl. unfold chain in *.
      apply (seg_relink (arena c) (arena cc) f (Bucket i) (b_next hd) l NULL); [|done].
      intros x n Hx Hn. destruct (Hlisted x (Hsub x Hx)) as (Hxo & n' & Hn' & Hfree).
      assert (n' = n) as -> by congruence. apply Har; [done|done|by left].
    - rewrite join_fmap_fmap. apply NoDup_fmap_2_strong; [|done].
      intros x y Hx Hy Heq.
      destruct (Hlisted x Hx) as (Hxo & nx & Hnx & Hfx).
      destruct (Hlisted y Hy) as (Hyo & ny & Hny & Hfy).
      apply (Hinj x nx y ny); [done|done|by left|done|done|by left|].
      by rewrite (Hf x nx), (Hf y ny). }
  done.
Qed.

(** ** Bucket statistics *)

Lemma length_walk_seg fuel c pv p l len :
  seg (arena c) pv p l NULL →
  (length l < fuel)%nat → len + Z.of_nat (length l) ≤ INT_MAX →
  length_walk fuel c p len = Done (len + Z.of_nat (length l)).
Proof.
  revert fuel pv p len. induction l as [|o l IH]; intros fuel pv p len Hs Hfuel Hmax.
  - apply seg_nil_inv in Hs as ->. destruct fuel; [simpl in Hfuel; lia|]. simpl.
    f_equal. lia.
  - apply seg_cons in Hs as (-> & n & Hn & _ & Hs).
    destruct fuel as [|fuel]; [simpl in Hfuel; lia|]. cbn [length_walk is_null].
    rewrite (get_next_node _ _ _ Hn), bind_Done.
    simpl length in *.
    replace (len <? INT_MAX) with true by (symmetry; apply Z.ltb_lt; lia).
    rewrite (IH fuel (Node o) (next n) (len + 1) Hs); [f_equal|..]; lia.
Qed.

Lemma bucket_length_list fuel c b l :
  bucket_list c b l →
  (length l < fuel)%nat → Z.of_nat (length l) ≤ INT_MAX →
  bucket_length fuel c (Z.of_nat b) = Done (Z.of_nat (length l)).
Proof.
  intros (hd & Hb & Hch) Hfuel Hmax. unfold bucket_length.
  pose proof (lookup_lt_Some _ _ _ Hb) as Hlt.
  replace ((0 <=? Z.of_nat b) && (Z.of_nat b <? nbuckets c)) with true.
  2:{ symmetry. apply andb_true_iff. split; [apply Z.leb_le|apply Z.ltb_lt];
      unfold nbuckets; lia. }
  rewrite Nat2Z.id, (get_next_bucket _ _ _ Hb), bind_Done.
  rewrite (length_walk_seg fuel c _ _ l 0 Hch Hfuel) by lia. rewrite bind_Done.
  f_equal. apply u32_small. unfold INT_MAX in Hmax. lia.
Qed.

(** X1.  [bucket_length(b)] is the number of entries of bucket [b]; with [b]
    outside the bucket array the read is out of bounds. *)
Theorem bucket_length_spec (fuel : nat) (c : cache) (b : nat) (l : list Z) :
  bucket_list c b l →
  (length l < fuel)%nat → Z.of_nat (length l) ≤ INT_MAX →
  bucket_length fuel c (Z.of_nat b) = Done (Z.of_nat (length l)) ∧
  (∀ b', b' < 0 ∨ nbuckets c ≤ b' → bucket_length fuel c b' = Fault).
Proof.
  intros Hbl Hfuel Hmax. split; [by apply bucket_length_list|].
  intros b' Hb'. unfold bucket_length.
  replace ((0 <=? b') && (b' <? nbuckets c)) with false; [done|].
  symmetry. apply andb_false_iff. destruct Hb'; [left; apply Z.leb_gt|right; apply Z.ltb_ge]; lia.
Qed.

(** The lengths of the bucket lists [L], as the scans see them. *)
Definition lengths (L : list (list Z)) : list Z := (λ l, Z.of_nat (length l)) <$> L.

Definition short_lists (fuel : nat) (L : list (list Z)) : Prop :=
  ∀ l, l ∈ L → (length l < fuel)%nat ∧ Z.of_nat (length l) ≤ INT_MAX.

Lemma min_bucket_scan_lists fuel c : ∀ Lr i0 r,
  (∀ j l, Lr !! j = Some l → bucket_list c (i0 + j) l) →
  short_lists fuel Lr →
  min_bucket_scan fuel c (seq i0 (length Lr)) r = Done (foldl Z.min r (lengths Lr)).
Proof.
  induction Lr as [|l Lr IH]; intros i0 r Hbl Hshort; [done|].
  destruct (Hshort l) as (Hf & Hm); [by left|].
  cbn [length seq min_bucket_scan].
  rewrite (bucket_length_list fuel c i0 l); [|rewrite <- (Nat.add_0_r i0); by apply Hbl|done|done].
  rewrite bind_Done. apply IH.
  - intros j l' Hj. replace (S i0 + j)%nat with (i0 + S j)%nat by lia. by apply Hbl.
  - intros l' Hl'. apply Hshort. by right.
Qed.

Lemma max_bucket_scan_lists fuel c : ∀ Lr i0 r,
  (∀ j l, Lr !! j = Some l → bucket_list c (i0 + j) l) →
  short_lists fuel Lr →
  max_bucket_scan fuel c (seq i0 (length Lr)) r = Done (foldl Z.max r (lengths Lr)).
Proof.
  induction Lr as [|l Lr IH]; intros i0 r Hbl Hshort; [done|].
  destruct (Hshort l) as (Hf & Hm); [by left|].
  cbn [length seq max_bucket_scan].
  rewrite (bucket_length_list fuel c i0 l); [|rewrite <- (Nat.add_0_r i0); by apply Hbl|done|done].
  rewrite bind_Done. apply IH.
  - intros j l' Hj. replace (S i0 + j)%nat with (i0 + S j)%nat by lia. by apply Hbl.
  - intros l' Hl'. apply Hshort. by right.
Qed.

Lemma foldl_min_spec (xs : list Z) : ∀ r,
  foldl Z.min r xs ≤ r ∧
  (∀ x, x ∈ xs → foldl Z.min r xs ≤ x) ∧
  (foldl Z.min r xs = r ∨ foldl Z.min r xs ∈ xs).
Proof.
  induction xs as [|x xs IH]; intros r; simpl.
  - split; [lia|]. split; [|by left]. intros x Hx. by apply elem_of_nil in Hx.
  - destruct (IH (Z.min r x)) as (Hle & Hall & Hin). split; [lia|]. split.
    + intros y Hy. apply elem_of_cons in Hy as [->|Hy]; [lia|by apply Hall].
    + destruct Hin as [Heq|Hin]; [|right; by right].
      rewrite Heq. destruct (Z.min_spec r x) as [(? & Hm)|(? & Hm)]; rewrite Hm.
      * by left.
      * right. by left.
Qed.

Lemma foldl_max_spec (xs : list Z) : ∀ r,
  r ≤ foldl Z.max r xs ∧
  (∀ x, x ∈ xs → x ≤ foldl Z.max r xs) ∧
  (foldl Z.max r xs = r ∨ foldl Z.max r xs ∈ xs).
Proof.
  induction xs as [|x xs IH]; intros r; simpl.
  - split; [lia|]. split; [|by left]. intros x Hx. by apply elem_of_nil in Hx.
  - destruct (IH (Z.max r x)) as (Hle & Hall & Hin). split; [lia|]. split.
    + intros y Hy. apply elem_of_cons in Hy as [->|Hy]; [lia|by apply Hall].
    + destruct Hin as [Heq|Hin]; [|right; by right].
      rewrite Heq. destruct (Z.max_spec r x) as [(? & Hm)|(? & Hm)]; rewrite Hm.
      * right. by left.
      * by left.
Qed.

(** X2.  [min_bucket_size] and [max_bucket_size] on a cache with bucket lists
    [L]: the shortest and the longest list length.  With no bucket at all
    the minimum is [UINT_MAX] and the maximum 0. *)
Theorem min_max_bucket_size_spec (fuel : nat) (c : cache) (L : list (list Z)) :
  lists_wf c L → short_lists fuel L →
  ∃ lo hi,
    min_bucket_size fuel c = Done lo ∧ max_bucket_size fuel c = Done hi ∧
    (L = [] → lo = UINT_MAX ∧ hi = 0) ∧
    (∀ l, l ∈ L → lo ≤ Z.of_nat (length l) ≤ hi) ∧
    (L ≠ [] → (∃ l, l ∈ L ∧ lo = Z.of_nat (length l)) ∧
              (∃ l, l ∈ L ∧ hi = Z.of_nat (length l))).
Proof.
  intros (Hlen & Hbl & _) Hshort. unfold min_bucket_size, max_bucket_size.
  rewrite <- Hlen.
  rewrite (min_bucket_scan_lists fuel c L 0 UINT_MAX), (max_bucket_scan_lists fuel c L 0 0);
    try done.
  destruct (foldl_min_spec (lengths L) UINT_MAX) as (Hle & Hmin & Hmin_in).
  destruct (foldl_max_spec (lengths L) 0) as (Hge & Hmax & Hmax_in).
  assert (Hmem : ∀ l, l ∈ L → Z.of_nat (length l) ∈ lengths L).
  { intros l Hl. unfold lengths. apply list_elem_of_fmap. by exists l. }
  assert (Hmem' : ∀ x, x ∈ lengths L → ∃ l, l ∈ L ∧ x = Z.of_nat (length l)).
  { intros x Hx. unfold lengths in Hx. apply list_elem_of_fmap in Hx as (l & -> & Hl).
    by exists l. }
  eexists _, _. split; [reflexivity|]. split; [reflexivity|]. split; [by intros ->|].
  split.
  { intros l Hl. split; [apply Hmin|apply Hmax]; by apply Hmem. }
  intros Hne. destruct L as [|l0 L0]; [done|].
  assert (Hl0 : Z.of_nat (length l0) ∈ lengths (l0 :: L0)) by (apply Hmem; by left).
  destruct (Hshort l0) as (_ & Hm0); [by left|].
  split.
  - destruct Hmin_in as [Heq|Hin]; [|by apply Hmem'].
    exists l0. split; [by left|]. specialize (Hmin _ Hl0). rewrite Heq in *.
    unfold UINT_MAX, INT_MAX in *. lia.
  - destruct Hmax_in as [Heq|Hin]; [|by apply Hmem'].
    exists l0. split; [by left|]. specialize (Hmax _ Hl0). rewrite Heq in *. lia.
Qed.

Lemma count_sized_scan_lists fuel c lo hi : ∀ Lr i0 count,
  (∀ j l, Lr !! j = Some l → bucket_list c (i0 + j) l) →
  short_lists fuel Lr →
  count_sized_scan fuel c lo hi (seq i0 (length Lr)) count =
  Done (bump32 (length (filter (λ x, u32 lo ≤ x ≤ u32 hi) (lengths Lr))) count).
Proof.
  induction Lr as [|l Lr IH]; intros i0 count Hbl Hshort; [done|].
  destruct (Hshort l) as (Hf & Hm); [by left|].
  cbn [length seq count_sized_scan].
  rewrite (bucket_length_list fuel c i0 l); [|rewrite <- (Nat.add_0_r i0); by apply Hbl|done|done].
  rewrite bind_Done.
  rewrite IH.
  2:{ intros j l' Hj. replace (S i0 + j)%nat with (i0 + S j)%nat by lia. by apply Hbl. }
  2:{ intros l' Hl'. apply Hshort. by right. }
  f_equal. unfold lengths. rewrite fmap_cons.
  destruct (decide (u32 lo ≤ Z.of_nat (length l) ≤ u32 hi)) as [Hin|Hout].
  - rewrite filter_cons_True by done.
    replace ((u32 lo <=? Z.of_nat (length l)) && (Z.of_nat (length l) <=? u32 hi)) with true.
    2:{ symmetry. apply andb_true_iff. split; apply Z.leb_le; lia. }
    simpl length. by rewrite bump32_S.
  - rewrite filter_cons_False by done.
    replace ((u32 lo <=? Z.of_nat (length l)) && (Z.of_nat (length l) <=? u32 hi)) with false;
      [done|].
    symmetry. apply andb_false_iff.
    destruct (Z.leb_spec (u32 lo) (Z.of_nat (length l))); [|by left].
    right. apply Z.leb_gt. lia.
Qed.

Lemma bump32_small n x : 0 ≤ x → x + Z.of_nat n ≤ UINT_MAX → bump32 n x = x + Z.of_nat n.
Proof.
  revert x. induction n as [|n IH]; intros x Hx Hmax; [simpl; lia|].
  rewrite bump32_S, u32_incr by lia. rewrite IH; lia.
Qed.

Lemma length_filter_lengths (Q : Z → Prop) `{∀ x, Decision (Q x)} (L : list (list Z)) :
  length (filter Q (lengths L)) = length (filter (λ l, Q (Z.of_nat (length l))) L).
Proof.
  induction L as [|l L IH]; [done|]. unfold lengths in *. rewrite fmap_cons.
  destruct (decide (Q (Z.of_nat (length l)))).
  - rewrite !filter_cons_True by done. simpl. by rewrite IH.
  - by rewrite !filter_cons_False by done.
Qed.

(** X3.  [count_buckets_sized(l, u)] counts the buckets whose length lies
    between [l] and [u] once both are converted to [unsigned int]: a
    negative lower bound is a bound above every length, and the count is 0. *)
Theorem count_buckets_sized_spec (fuel : nat) (c : cache) (L : list (list Z)) (lo hi : Z) :
  lists_wf c L → short_lists fuel L → Z.of_nat (length L) ≤ UINT_MAX →
  count_buckets_sized fuel c lo hi =
    Done (Z.of_nat (length (filter (λ l, u32 lo ≤ Z.of_nat (length l) ≤ u32 hi) L))) ∧
  (0 ≤ lo ≤ INT_MAX → 0 ≤ hi ≤ INT_MAX →
   count_buckets_sized fuel c lo hi =
     Done (Z.of_nat (length (filter (λ l, lo ≤ Z.of_nat (length l) ≤ hi) L)))) ∧
  (- 2 ^ 31 ≤ lo < 0 → count_buckets_sized fuel c lo hi = Done 0).
Proof.
  intros (Hlen & Hbl & _) Hshort Hmax.
  assert (Hrun : count_buckets_sized fuel c lo hi =
    Done (Z.of_nat (length (filter (λ l, u32 lo ≤ Z.of_nat (length l) ≤ u32 hi) L)))).
  { unfold count_buckets_sized. rewrite <- Hlen.
    rewrite (count_sized_scan_lists fuel c lo hi L 0 0 Hbl Hshort). f_equal.
    rewrite (length_filter_lengths (λ x, u32 lo ≤ x ≤ u32 hi)).
    rewrite bump32_small; [done|lia|].
    pose proof (length_filter (λ l, u32 lo ≤ Z.of_nat (length l) ≤ u32 hi) L). simpl in *. lia. }
  split; [exact Hrun|]. split.
  - intros Hlo Hhi. rewrite Hrun. unfold INT_MAX in *. by rewrite !u32_small by lia.
  - intros Hlo. rewrite Hrun. f_equal. rewrite filter_none; [done|].
    intros l Hl (Hge & _). destruct (Hshort l Hl) as (_ & Hm).
    assert (u32 lo = lo + 2 ^ 32).
    { unfold u32, wrap. symmetry. apply (Z.mod_unique _ _ (-1)); lia. }
    unfold INT_MAX in Hm. lia.
Qed.

(** ** Stores and lookups, composed *)

Lemma buckets_same_length c c' b l l' :
  bucket_list c b l → bucket_list c' b l' →
  (∀ b', b' ≠ b → buckets c' !! b' = buckets c !! b') →
  length (buckets c') = length (buckets c).
Proof.
  intros (hd & Hb & _) (hd' & Hb' & _) Hother.
  assert (Hiff : ∀ i, is_Some (buckets c' !! i) ↔ is_Some (buckets c !! i)).
  { intros i. destruct (decide (i = b)) as [->|Hne]; [by rewrite Hb, Hb'|].
    by rewrite Hother. }
  destruct (Nat.lt_trichotomy (length (buckets c')) (length (buckets c))) as [Hlt|[Heq|Hgt]].
  - apply lookup_lt_is_Some_2, Hiff, lookup_lt_is_Some_1 in Hlt. lia.
  - done.
  - apply lookup_lt_is_Some_2, Hiff, lookup_lt_is_Some_1 in Hgt. lia.
Qed.

Lemma bucket_of_same c c' k :
  length (buckets c') = length (buckets c) → bucket_of c' k = bucket_of c k.
Proof. intros H. unfold bucket_of, nbuckets. by rewrite H. Qed.

(** X4.  What [store] writes, [lookup] reads back: after [store(k, p, id)] (with
    any number of eviction rounds before the entry goes in), [lookup(k)]
    hits on the first entry of the bucket, without a collision, and yields
    [p] and [id], provided the key compares equal to itself, the stream
    reader inverts the stream writer on [p], and the entry size fits the
    32-bit [size] field. *)
Theorem store_then_lookup (fuel : nat) (c : cache) (k : K) (p : P) (id : Z)
    (n : nat) (c1 : cache) (l : list Z) :
  entry_size k p < bufsize c →
  (n ≤ fuel)%nat →
  evicted fuel n c (entry_size k p) c1 →
  next_p c1 + entry_size k p < bufsize c1 →
  bucket_list c1 (bucket_of c1 k) l →
  NoDup l →
  (∀ x, x ∈ l → x < next_p c1) →
  0 ≤ entry_size k p ≤ UINT_MAX →
  compare_graph_keys k k = true →
  bistream_read (bstream_write p) = p →
  (0 < fuel)%nat →
  ∃ c' c'', store fuel c k p id = Done c' ∧
    lookup fuel c' k = Done (Some (p, id), c'') ∧
    bucket_list c'' (bucket_of c1 k) (next_p c1 :: l) ∧
    hits c'' = u32 (hits c1 + 1) ∧ misses c'' = misses c1 ∧
    collisions c'' = collisions c1 ∧
    numentries c'' = u64 (numentries c1 + 1).
Proof.
  intros Hsz Hn Hev Hfit Hbl Hnd Hbelow Hsize Hcmp Hcodec Hfuel.
  destruct (store_appends fuel c k p id n c1 l Hsz Hn Hev Hfit Hbl Hnd Hbelow)
    as (c' & Hst & Hnp & (n' & Hn' & Hpay) & Hbl' & Hnum & _ & _ & Hbk & Hh & Hm & Hco & _).
  pose proof (buckets_same_length c1 c' _ _ _ Hbl Hbl' Hbk) as Hlen.
  pose proof (bucket_of_same c1 c' k Hlen) as Hbo.
  destruct Hpay as (Hhc & Hid & Hsz' & Hkey & Hstream). simpl in Hid, Hsz', Hkey, Hstream.
  assert (Hnd' : NoDup ([] ++ next_p c1 :: l)).
  { simpl. apply NoDup_cons. split; [|done]. intros Hin. apply Hbelow in Hin. lia. }
  destruct (lookup_hit fuel c' k [] (next_p c1) l n') as
    (c'' & Hlk & Hbl'' & _ & _ & _ & _ & Hh' & Hm' & Hco' & Hnum' & _).
  - by rewrite Hbo.
  - done.
  - simpl. lia.
  - intros x Hx. by apply elem_of_nil in Hx.
  - done.
  - by rewrite Hkey.
  - exists c', c''. split; [done|]. split.
    + rewrite Hlk, Hid.
      assert (stream_of n' = bstream_write p) as ->; [|by rewrite Hcodec].
      unfold stream_of. rewrite Hsz', Hkey, Hstream.
      rewrite u32_small by (unfold UINT_MAX in Hsize; lia).
      unfold entry_size.
      replace (sizeof_cache_node + sizeof_graph_key k + Z.of_nat (length (bstream_write p)) -
               (sizeof_graph_key k + sizeof_cache_node))
        with (Z.of_nat (length (bstream_write p))) by lia.
      by rewrite Nat2Z.id, firstn_all.
    + rewrite Hbo in Hbl''. split; [done|].
      rewrite Hh', Hm', Hco', Hnum', Hh, Hm, Hco, Hnum. done.
Qed.

(** X5.  After [clear()] every bucket is empty: a lookup of any key misses, and
    only the miss counter moves.  (Without buckets the bucket index is a
    remainder by zero.) *)
Theorem clear_then_lookup (fuel : nat) (c : cache) (k : K) :
  (0 < fuel)%nat →
  (nbuckets c ≠ 0 →
   lookup fuel (clear c) k = Done (None, with_misses (u32 (misses c + 1)) (clear c))) ∧
  (nbuckets c = 0 → lookup fuel (clear c) k = Fault).
Proof.
  intros Hfuel.
  assert (Hnb : nbuckets (clear c) = nbuckets c).
  { unfold nbuckets, clear. simpl. by rewrite length_fmap. }
  split.
  - intros Hne.
    assert (Hlt : (bucket_of (clear c) k < length (buckets c))%nat).
    { unfold bucket_of. rewrite Hnb. unfold nbuckets in *.
      pose proof (Z.mod_pos_bound (u32 (hash_graph_key k)) (Z.of_nat (length (buckets c)))).
      lia. }
    apply lookup_lt_is_Some_2 in Hlt as (hd & Hhd).
    rewrite (lookup_miss fuel (clear c) k []).
    + done.
    + exists {| b_next := NULL; b_prev := NULL |}. split; [|done].
      set (b := bucket_of (clear c) k) in *.
      unfold clear. simpl. by rewrite list_lookup_fmap, Hhd.
    + simpl. lia.
    + intros x Hx. by apply elem_of_nil in Hx.
  - intros Hz. unfold lookup. rewrite Hnb, Hz. done.
Qed.

(** X6.  A second lookup of a key that was just found finds it at the front
    of the bucket: no collision, the same polynomial and id, the list
    order as the first lookup left it, and a hit count two above the
    original. *)
Theorem lookup_twice (fuel : nat) (c : cache) (k : K) (l1 : list Z) (o : Z)
    (l2 : list Z) (n : cache_node) :
  bucket_list c (bucket_of c k) (l1 ++ o :: l2) →
  NoDup (l1 ++ o :: l2) →
  (length l1 < fuel)%nat →
  (∀ x, x ∈ l1 → key_matches c k x = false) →
  arena c !! o = Some n →
  compare_graph_keys k (key n) = true →
  ∃ c' c'',
    lookup fuel c k = Done (Some (bistream_read (stream_of n), graph_id n), c') ∧
    lookup fuel c' k = Done (Some (bistream_read (stream_of n), graph_id n), c'') ∧
    bucket_list c' (bucket_of c k) (o :: l1 ++ l2) ∧
    bucket_list c'' (bucket_of c k) (o :: l1 ++ l2) ∧
    collisions c'' = collisions c' ∧
    hits c'' = u32 (u32 (hits c + 1) + 1) ∧
    (∃ n'', arena c'' !! o = Some n'' ∧
            hit_count n'' = u32 (u32 (hit_count n + 1) + 1)).
Proof.
  intros Hbl Hnd Hfuel Hkeys Ho Hk.
  destruct (lookup_hit fuel c k l1 o l2 n Hbl Hnd Hfuel Hkeys Ho Hk)
    as (c' & Hlk & Hbl' & (n' & Hn' & Hhc & Hid & Hsz & Hkey & Hst) & _ & _ & Hbk & Hh & _).
  pose proof (buckets_same_length c c' _ _ _ Hbl Hbl' Hbk) as Hlen.
  pose proof (bucket_of_same c c' k Hlen) as Hbo.
  assert (Hnd' : NoDup ([] ++ o :: l1 ++ l2)).
  { simpl. apply NoDup_app in Hnd as (H1 & Hdisj & H2).
    apply NoDup_cons in H2 as (Hol2 & H2). apply NoDup_cons. split.
    - intros Hin. apply elem_of_app in Hin as [Hin|Hin]; [|done].
      apply (Hdisj o Hin). by left.
    - apply NoDup_app. split; [done|]. split; [|done].
      intros x Hx1 Hx2. apply (Hdisj x Hx1). by right. }
  destruct (lookup_hit fuel c' k [] o (l1 ++ l2) n') as
    (c'' & Hlk' & Hbl'' & (n'' & Hn'' & Hhc' & _) & _ & _ & _ & Hh' & _ & Hco' & _).
  - by rewrite Hbo.
  - done.
  - simpl. lia.
  - intros x Hx. by apply elem_of_nil in Hx.
  - done.
  - by rewrite Hkey.
  - exists c', c''. split; [done|]. split.
    + rewrite Hlk'. unfold stream_of. by rewrite Hid, Hsz, Hkey, Hst.
    + split; [done|]. rewrite Hbo in Hbl''. split; [done|]. split; [done|].
      split; [by rewrite Hh', Hh|]. exists n''. split; [done|]. by rewrite Hhc', Hhc.
Qed.

(** ** [randomly_remove_nodes] *)

Lemma small_preserved c c' o : preserved c c' → small c' o = small c o.
Proof.
  intros (Hs & _ & Hp & Hn). unfold small.
  destruct (arena c !! o) as [n|] eqn:Ho.
  - destruct (Hp o n Ho) as (n' & -> & (_ & _ & _ & Hk & _)).
    destruct Hs as (_&_&_&Hmin&_). by rewrite Hk, Hmin.
  - by rewrite (Hn o Ho).
Qed.

Lemma random_split_preserved c c' p : preserved c c' → ∀ l calls,
  random_split c' p calls l = random_split c p calls l.
Proof.
  intros Hp. induction l as [|o l IH]; intros calls; [done|].
  simpl. rewrite (small_preserved c c' o Hp). by rewrite !IH.
Qed.

Lemma random_split_sublist c p : ∀ l calls, (random_split c p calls l).1 `sublist_of` l.
Proof.
  induction l as [|o l IH]; intros calls; [done|]. simpl.
  destruct (small c o).
  - destruct (drawn calls p); simpl.
    + apply sublist_cons. apply IH.
    + apply sublist_skip. apply IH.
  - simpl. apply sublist_skip. apply IH.
Qed.

Lemma random_split_big c p o : ∀ l calls,
  o ∈ l → small c o = false → o ∈ (random_split c p calls l).1.
Proof.
  induction l as [|x l IH]; intros calls Ho Hbig; [by apply elem_of_nil in Ho|].
  simpl. apply elem_of_cons in Ho as [<-|Ho].
  - rewrite Hbig. by left.
  - destruct (small c x); [destruct (drawn calls p)|]; simpl;
      try right; by apply IH.
Qed.

Lemma bump64_S n x : bump64 (S n) x = bump64 n (u64 (x + 1)).
Proof. unfold bump64. by rewrite Nat.iter_succ_r. Qed.

Lemma bump64_add n m x : bump64 (n + m) x = bump64 m (bump64 n x).
Proof. unfold bump64. rewrite Nat.add_comm. apply Nat.iter_add. Qed.

Lemma bump64_zero n : bump64 n 0 = u64 (Z.of_nat n).
Proof.
  induction n as [|n IH]; [done|].
  change (bump64 (S n) 0) with (u64 (bump64 n 0 + 1)). rewrite IH.
  unfold u64, wrap. rewrite Zplus_mod_idemp_l. f_equal. lia.
Qed.

Lemma relinked_weaken c c' b t t' :
  (∀ x, x ∈ t → x ∈ t') → relinked c c' b t → relinked c c' b t'.
Proof.
  intros Hsub (Hs & Hl & Hb & Hf & Hp & Hn).
  split; [done|]. split; [done|]. split; [done|]. split; [|done].
  intros x Hx. apply Hf. intros Hin. by apply Hx, Hsub.
Qed.

Lemma relinked_with_rand_calls k c c' b t :
  relinked c c' b t → relinked (with_rand_calls k c) (with_rand_calls k c') b t.
Proof.
  intros ((?&?&?&?&?&?&?&?&?&?) & Hl & Hb & Hf & Hp & Hn).
  split; [by repeat split|]. by repeat split.
Qed.

Lemma relinked_refl_calls k c b t : rand_calls c = k → relinked (with_rand_calls k c) c b t.
Proof.
  intros Hk. split; [by repeat split|]. split; [done|]. split; [done|].
  split; [done|]. split; [|done]. intros x n Hx. exists n. by repeat split.
Qed.

(** The walk along one bucket, with [kept] the entries already passed. *)
Lemma random_walk_spec p b : ∀ rest fuel c kept count,
  bucket_list c b (kept ++ rest) →
  NoDup (kept ++ rest) →
  (length rest < fuel)%nat →
  let r := random_split c p (rand_calls c) rest in
  ∃ c', random_walk fuel p c (head_ptr rest NULL) count =
        Done (c', bump64 (length rest - length r.1) count) ∧
    bucket_list c' b (kept ++ r.1) ∧
    rand_calls c' = r.2 ∧
    relinked (with_rand_calls r.2 c) c' b (kept ++ rest) ∧
    (∀ o, o ∈ rest → o ∉ r.1 → ∃ n, arena c' !! o = Some n ∧ is_free n = true).
Proof.
  induction rest as [|o rest IH]; intros fuel c kept count Hbl Hnd Hfuel.
  - destruct fuel as [|fuel]; [simpl in Hfuel; lia|]. simpl.
    exists c. split; [done|]. split; [done|]. split; [done|].
    split; [by apply relinked_refl_calls|]. intros o Ho. by apply elem_of_nil in Ho.
  - destruct fuel as [|fuel]; [simpl in Hfuel; lia|].
    pose proof Hbl as (hd & Hb & Hch). unfold chain in Hch.
    apply seg_app in Hch as (m & Hs1 & Hs2).
    apply seg_cons in Hs2 as (-> & n & Ho & Hpv & Hs2).
    pose proof (seg_head _ _ _ _ _ Hs2) as Hnx.
    assert (Hsub : (random_split c p (S (rand_calls c)) rest).1 `sublist_of` rest)
      by apply random_split_sublist.
    assert (Hsub0 : (random_split c p (rand_calls c) rest).1 `sublist_of` rest)
      by apply random_split_sublist.
    pose proof (sublist_length _ _ Hsub) as Hlen.
    pose proof (sublist_length _ _ Hsub0) as Hlen0.
    assert (Hok : o ∉ kept ++ rest).
    { apply NoDup_app in Hnd as (? & Hd & Hnd2). apply NoDup_cons in Hnd2 as (? & ?).
      intros Hin. apply elem_of_app in Hin. destruct Hin as [Hin|Hin]; [|done].
      apply (Hd o Hin). by left. }
    assert (Horest : o ∉ rest).
    { intros Hin. apply Hok, elem_of_app. by right. }
    cbn [head_ptr random_walk random_split]. rewrite Ho.
    assert (Hsm : small c o = (graph_size (key n) <? min_replace_size c))
      by (unfold small; by rewrite Ho).
    rewrite Hsm. destruct (graph_size (key n) <? min_replace_size c).
    + fold (drawn (rand_calls c) p). destruct (drawn (rand_calls c) p) eqn:Hdr.
      * (* the entry is unlinked *)
        set (c0 := with_rand_calls (S (rand_calls c)) c).
        destruct (remove_node_spec c0 b kept o rest Hbl Hnd)
          as (c1 & n1 & Hrm & Ho1 & Ho1' & Hbl1 & Hrel1).
        assert (n1 = n) as -> by (cbn in Ho1; congruence).
        rewrite Hrm, bind_Done, Hnx.
        assert (Hnd1 : NoDup (kept ++ rest)).
        { apply NoDup_app in Hnd as (? & Hd & Hnd2). apply NoDup_cons in Hnd2 as (? & ?).
          apply NoDup_app. split; [done|]. split; [|done]. intros x Hx Hx2.
          apply (Hd x Hx). by right. }
        assert (Hpres : preserved c c1).
        { pose proof (relinked_preserved _ _ _ _ Hrel1) as Hp. exact Hp. }
        assert (Hcalls : rand_calls c1 = S (rand_calls c)).
        { destruct Hrel1 as ((_&_&_&_&_&_&_&_&_&Hrc) & _). exact Hrc. }
        destruct (IH fuel c1 kept (u64 (count + 1)) Hbl1 Hnd1)
          as (c' & Hwalk & Hbl' & Hrc' & Hrel' & Hfree'); [simpl in Hfuel; lia|].
        rewrite Hcalls, (random_split_preserved c c1 p Hpres) in Hwalk, Hbl', Hrc', Hrel', Hfree'.
        set (r := random_split c p (S (rand_calls c)) rest) in *.
        exists c'. split.
        { rewrite Hwalk. f_equal. f_equal. cbn [length].
          replace (S (length rest) - length r.1)%nat with (S (length rest - length r.1)) by lia.
          by rewrite bump64_S. }
        split; [done|]. split; [done|]. split.
        { eapply relinked_weaken;
            [|exact (relinked_trans _ _ _ _ _ _
                       (relinked_with_rand_calls r.2 _ _ _ _ Hrel1) Hrel')].
          intros x Hx. apply elem_of_app in Hx as [Hx|Hx]; [done|].
          apply elem_of_app in Hx as [Hx|Hx]; apply elem_of_app; [by left|].
          right. by right. }
        intros x Hx Hnot. apply elem_of_cons in Hx as [->|Hx].
        -- destruct Hrel' as (_ & _ & _ & Hfr & _). rewrite (Hfr o Hok). cbn [arena with_rand_calls].
           rewrite Ho1'. eexists. split; [done|]. done.
        -- by apply Hfree'.
      * (* a number was drawn and the entry stays *)
        rewrite Hnx. set (c0 := with_rand_calls (S (rand_calls c)) c).
        assert (Hbl1 : bucket_list c0 b ((kept ++ [o]) ++ rest)) by (by rewrite <- app_assoc).
        assert (Hnd1 : NoDup ((kept ++ [o]) ++ rest)) by (by rewrite <- app_assoc).
        destruct (IH fuel c0 (kept ++ [o]) count Hbl1 Hnd1)
          as (c' & Hwalk & Hbl' & Hrc' & Hrel' & Hfree'); [simpl in Hfuel; lia|].
        change (rand_calls c0) with (S (rand_calls c)) in *.
        assert (Hp0 : preserved c c0).
        { split; [by repeat split|]. split; [done|]. split; [|done].
          intros x nx Hx. exists nx. by repeat split. }
        rewrite (random_split_preserved c c0 p Hp0) in Hwalk, Hbl', Hrc', Hrel', Hfree'.
        set (r := random_split c p (S (rand_calls c)) rest) in *.
        change (with_rand_calls r.2 c0) with (with_rand_calls r.2 c) in Hrel'.
        rewrite <- app_assoc in Hbl', Hrel'.
        exists c'. split.
        { rewrite Hwalk. by cbn [length fst Nat.sub]. }
        split; [done|]. split; [done|]. split; [done|].
        intros x Hx Hnot. apply elem_of_cons in Hx as [->|Hx].
        -- exfalso. apply Hnot. by left.
        -- apply Hfree'; [done|]. intros Hin. apply Hnot. by right.
    + (* too big to be replaced *)
      rewrite Hnx.
      assert (Hbl1 : bucket_list c b ((kept ++ [o]) ++ rest)) by (by rewrite <- app_assoc).
      assert (Hnd1 : NoDup ((kept ++ [o]) ++ rest)) by (by rewrite <- app_assoc).
      destruct (IH fuel c (kept ++ [o]) count Hbl1 Hnd1)
        as (c' & Hwalk & Hbl' & Hrc' & Hrel' & Hfree'); [simpl in Hfuel; lia|].
      set (r := random_split c p (rand_calls c) rest) in *.
      rewrite <- app_assoc in Hbl', Hrel'.
      exists c'. split.
      { rewrite Hwalk. by cbn [length fst Nat.sub]. }
      split; [done|]. split; [done|]. split; [done|].
      intros x Hx Hnot. apply elem_of_cons in Hx as [->|Hx].
      -- exfalso. apply Hnot. by left.
      -- apply Hfree'; [done|]. intros Hin. apply Hnot. by right.
Qed.

Lemma random_lists_sublist c p : ∀ L calls, Forall2 sublist (random_lists c p calls L).1 L.
Proof.
  induction L as [|l L IH]; intros calls; [by constructor|].
  simpl. constructor; [apply random_split_sublist|apply IH].
Qed.

Lemma sublist_join_length (R L : list (list Z)) :
  Forall2 sublist R L → (length (mjoin R) ≤ length (mjoin L))%nat.
Proof.
  induction 1 as [|r l R L Hs _ IH]; [done|].
  change (mjoin (r :: R)) with (r ++ mjoin R). change (mjoin (l :: L)) with (l ++ mjoin L).
  rewrite !length_app. apply sublist_length in Hs. lia.
Qed.

Lemma sublist_join_elem (R L : list (list Z)) (o : Z) :
  Forall2 sublist R L → o ∈ mjoin R → o ∈ mjoin L.
Proof.
  induction 1 as [|r l R L Hs _ IH]; [done|].
  change (mjoin (r :: R)) with (r ++ mjoin R). change (mjoin (l :: L)) with (l ++ mjoin L).
  intros Ho. apply elem_of_app in Ho as [Ho|Ho]; apply elem_of_app.
  - left. by eapply (elem_of_sublist r l).
  - right. by apply IH.
Qed.

Lemma random_lists_big c p o : ∀ L calls,
  o ∈ mjoin L → small c o = false → o ∈ mjoin (random_lists c p calls L).1.
Proof.
  induction L as [|l L IH]; intros calls Ho Hbig; [done|].
  change (mjoin (l :: L)) with (l ++ mjoin L) in Ho. simpl.
  change (mjoin (?r :: ?R)) with (r ++ mjoin R).
  apply elem_of_app in Ho as [Ho|Ho]; apply elem_of_app.
  - left. by apply random_split_big.
  - right. by apply IH.
Qed.

Lemma random_lists_preserved c c' p : preserved c c' → ∀ L calls,
  random_lists c' p calls L = random_lists c p calls L.
Proof.
  intros Hp. induction L as [|l L IH]; intros calls; [done|].
  simpl. by rewrite (random_split_preserved c c' p Hp), IH.
Qed.

(** The counters that [randomly_remove_nodes] leaves to its last line. *)
Definition same_counters (c c' : cache) : Prop :=
  hits c' = hits c ∧ misses c' = misses c ∧ collisions c' = collisions c ∧
  numentries c' = numentries c.

(** The loop over the buckets [i0, i0 + 1, ...], whose lists are [Lr]. *)
Lemma random_pass_spec fuel p Lr : ∀ i0 c count,
  (∀ j l, Lr !! j = Some l → bucket_list c (i0 + j) l) →
  NoDup (mjoin Lr) →
  (∀ l, l ∈ Lr → (length l < fuel)%nat) →
  let R := random_lists c p (rand_calls c) Lr in
  ∃ c', random_pass fuel p (seq i0 (length Lr)) c count =
        Done (c', bump64 (length (mjoin Lr) - length (mjoin R.1)) count) ∧
    (∀ j l, R.1 !! j = Some l → bucket_list c' (i0 + j) l) ∧
    rand_calls c' = R.2 ∧
    preserved c c' ∧ same_counters c c' ∧
    (∀ x, x ∉ mjoin Lr → arena c' !! x = arena c !! x) ∧
    (∀ b, (b < i0)%nat → buckets c' !! b = buckets c !! b) ∧
    (∀ o, o ∈ mjoin Lr → o ∉ mjoin R.1 →
          ∃ n, arena c' !! o = Some n ∧ is_free n = true).
Proof.
  induction Lr as [|l Lr IH]; intros i0 c count Hbls Hnd Hfuel.
  - simpl. exists c. split; [done|]. split; [by intros j l Hj|]. split; [done|].
    split; [apply preserved_refl|]. split; [by repeat split|]. split; [done|].
    split; [done|]. intros o Ho. by apply elem_of_nil in Ho.
  - cbn [length seq random_pass random_lists]. cbv zeta.
    change (mjoin (l :: Lr)) with (l ++ mjoin Lr) in *.
    apply NoDup_app in Hnd as (Hndl & Hdisj & Hndr).
    pose proof (Hbls 0%nat l eq_refl) as Hbl. rewrite Nat.add_0_r in Hbl.
    pose proof Hbl as (hd & Hb & Hch).
    rewrite (get_next_bucket _ _ _ Hb), bind_Done, (seg_head _ _ _ _ _ Hch).
    destruct (random_walk_spec p i0 l fuel c [] count Hbl Hndl)
      as (c1 & Hwalk & Hbl1 & Hrc1 & Hrel1 & Hfree1).
    { apply Hfuel. by left. }
    set (r := random_split c p (rand_calls c) l) in *.
    rewrite Hwalk, bind_Done. cbn [fst snd].
    pose proof (relinked_preserved _ _ _ _ Hrel1) as Hpres1.
    change (preserved c c1) in Hpres1.
    destruct Hrel1 as (Hsc1 & _ & Hbk1 & Hfr1 & _).
    cbn [buckets arena with_rand_calls] in Hbk1, Hfr1.
    destruct (IH (S i0) c1 (bump64 (length l - length r.1) count))
      as (c' & Hpass & Hbls' & Hrc' & Hpres' & Hsc' & Hfr' & Hbk' & Hfree'); [|done|..].
    { intros j lj Hj. specialize (Hbls (S j) lj Hj).
      replace (i0 + S j)%nat with (S i0 + j)%nat in Hbls by lia.
      destruct Hbls as (hdj & Hbj & Hchj). exists hdj. split.
      - rewrite Hbk1; [done|lia].
      - eapply seg_frame; [|exact Hchj]. intros x Hx. apply Hfr1. simpl.
        intros Hxl. apply (Hdisj x Hxl). apply list_elem_of_join. exists lj.
        split; [done|]. by eapply list_elem_of_lookup_2. }
    { intros lj Hlj. apply Hfuel. by right. }
    rewrite Hrc1, (random_lists_preserved c c1 p Hpres1) in Hpass, Hbls', Hrc', Hfree'.
    set (R := random_lists c p r.2 Lr) in *.
    change (mjoin (r.1 :: R.1)) with (r.1 ++ mjoin R.1).
    assert (Hsl : r.1 `sublist_of` l) by apply random_split_sublist.
    assert (HsL : Forall2 sublist R.1 Lr) by apply random_lists_sublist.
    pose proof (sublist_length _ _ Hsl) as Hlen1.
    pose proof (sublist_join_length _ _ HsL) as Hlen2.
    exists c'. split.
    { rewrite Hpass. f_equal. f_equal. rewrite <- bump64_add. f_equal.
      rewrite !length_app. lia. }
    split.
    { intros [|j] lj Hj.
      - simpl in Hj. injection Hj as <-. rewrite Nat.add_0_r.
        destruct Hbl1 as (hd1 & Hb1 & Hch1). exists hd1. split.
        + rewrite Hbk'; [done|lia].
        + eapply seg_frame; [|exact Hch1]. intros x Hx. apply Hfr'.
          intros Hxr. apply (Hdisj x); [|done]. by eapply (elem_of_sublist r.1 l).
      - simpl in Hj. replace (i0 + S j)%nat with (S i0 + j)%nat by lia.
        by apply Hbls'. }
    split; [done|].
    split; [by eapply preserved_trans|].
    split.
    { destruct Hsc1 as (Hh & Hm & Hco & Hnum & _), Hsc' as (Hh' & Hm' & Hco' & Hnum').
      cbn in Hh, Hm, Hco, Hnum. unfold same_counters. by rewrite Hh', Hm', Hco', Hnum'. }
    split.
    { intros x Hx. rewrite Hfr', Hfr1; [done| |]; intros Hin; apply Hx;
        apply elem_of_app; [by left|by right]. }
    split; [intros b Hb'; rewrite Hbk', Hbk1; [done|lia|lia]|].
    intros o Ho Hnot. apply elem_of_app in Ho as [Ho|Ho].
    + rewrite Hfr'; [|by apply Hdisj]. apply Hfree1; [done|].
      intros Hin. apply Hnot, elem_of_app. by left.
    + apply Hfree'; [done|]. intros Hin. apply Hnot, elem_of_app. by right.
Qed.

(** X7.  [randomly_remove_nodes(p)] on well-formed bucket lists [L].  The
    entries are met bucket by bucket, front first; an entry whose graph
    has fewer than [min_replace_size] vertices takes the next number of
    [rand()], and is unlinked when that number over [RAND_MAX] is below
    [p].  What stays keeps its bucket and its order there; an entry of
    [min_replace_size] vertices or more always stays; what goes is left
    in the buffer with both links null until the next compaction, and
    [numentries] drops by the number of entries gone.  Nothing else
    moves: payloads, the frontier and the hit, miss and collision
    counters are as before. *)
Theorem randomly_remove_nodes_spec (fuel : nat) (c : cache) (p : float)
    (L : list (list Z)) :
  lists_wf c L → (∀ l, l ∈ L → (length l < fuel)%nat) →
  let R := random_lists c p (rand_calls c) L in
  ∃ c', randomly_remove_nodes fuel c p = Done c' ∧
    lists_wf c' R.1 ∧
    Forall2 sublist R.1 L ∧
    (∀ o, o ∈ mjoin L → small c o = false → o ∈ mjoin R.1) ∧
    (∀ o, o ∈ mjoin L → o ∉ mjoin R.1 →
          ∃ n, arena c' !! o = Some n ∧ is_free n = true) ∧
    numentries c' =
      u64 (numentries c - Z.of_nat (length (mjoin L) - length (mjoin R.1))) ∧
    rand_calls c' = R.2 ∧
    preserved c c' ∧
    hits c' = hits c ∧ misses c' = misses c ∧ collisions c' = collisions c.
Proof.
  intros (Hlen & Hbl & Hnd) Hshort R. unfold randomly_remove_nodes.
  rewrite <- Hlen.
  destruct (random_pass_spec fuel p L 0 c 0) as
    (c1 & Hpass & Hbls & Hrc & Hpres & (Hh & Hm & Hco & Hnum) & _ & _ & Hfree); try done.
  fold R in Hpass, Hbls, Hrc, Hfree.
  rewrite Hpass, bind_Done. cbn [fst snd].
  pose proof (random_lists_sublist c p L (rand_calls c)) as Hsub. fold R in Hsub.
  eexists. split; [reflexivity|]. split.
  { split; [|split].
    - cbn [buckets with_numentries]. destruct Hpres as (_ & Hl & _).
      rewrite Hl, <- Hlen. by apply Forall2_length in Hsub.
    - intros i l Hi. apply (Hbls i l Hi).
    - clear -Hsub Hnd. revert Hnd. induction Hsub as [|r l R' L' Hs HsR IH]; [done|].
      change (mjoin (r :: R')) with (r ++ mjoin R').
      change (mjoin (l :: L')) with (l ++ mjoin L').
      intros Hnd. apply NoDup_app in Hnd as (H1 & Hd & H2). apply NoDup_app.
      split; [by eapply (sublist_NoDup r l)|]. split; [|by apply IH].
      intros x Hx Hx'. apply (Hd x); [by eapply (elem_of_sublist r l)|].
      by eapply (sublist_join_elem R' L'). }
  split; [done|].
  split; [intros o Ho Hbig; by apply random_lists_big|].
  split; [exact Hfree|].
  split.
  { cbn [numentries with_numentries]. rewrite Hnum, bump64_zero.
    unfold u64, wrap. by rewrite Zminus_mod_idemp_r. }
  split; [done|]. split.
  { destruct Hpres as ((?&?&?&?&?) & Hl & Hp & Hn).
    split; [by repeat split|]. by repeat split. }
  cbn [hits misses collisions with_numentries]. by rewrite Hh, Hm, Hco.
Qed.

(** ** Iteration *)

Lemma visit_from_tiles fuel c : ∀ offs start,
  tiles (arena c) start offs (next_p c) → (length offs < fuel)%nat →
  visit_from fuel c start = Done offs.
Proof.
  induction fuel as [|fuel IH]; intros offs start Ht Hfuel; [lia|].
  destruct offs as [|o offs].
  - simpl in Ht. subst start. cbn [visit_from]. unfold end_. by rewrite Z.eqb_refl.
  - destruct Ht as (-> & n & Hn & Hpos & Ht). cbn [visit_from]. unfold end_, advance.
    pose proof (tiles_le _ _ _ _ Ht) as Hle.
    replace (start =? next_p c) with false by (symmetry; apply Z.eqb_neq; lia).
    rewrite Hn, bind_Done. rewrite (IH offs _ Ht) by (simpl in Hfuel; lia). done.
Qed.

Lemma tiles_sizes a a' : ∀ offs start stop,
  tiles a start offs stop →
  (∀ x n, x ∈ offs → a !! x = Some n → ∃ n', a' !! x = Some n' ∧ size n' = size n) →
  tiles a' start offs stop.
Proof.
  induction offs as [|o offs IH]; intros start stop Ht Hsz; [done|].
  destruct Ht as (-> & n & Hn & Hpos & Ht).
  destruct (Hsz start n ltac:(by left) Hn) as (n' & Hn' & Hs).
  split; [done|]. exists n'. split; [done|]. rewrite Hs. split; [done|].
  apply IH; [done|]. intros x nx Hx. apply Hsz. by right.
Qed.

(** X8.  The iterator visits the nodes of the buffer in address order, each
    once, whether linked in a bucket or not, and stops at the frontier. *)
Theorem visit_spec (fuel : nat) (c : cache) (offs : list Z) :
  tiles (arena c) 0 offs (next_p c) → (length offs < fuel)%nat →
  visit fuel c = Done offs ∧
  (∀ o, o ∈ offs → ∃ n, arena c !! o = Some n ∧ advance c o = Done (o + size n) ∧
                         0 ≤ o ∧ o + size n ≤ next_p c).
Proof.
  intros Ht Hfuel. split; [by apply visit_from_tiles|].
  intros o Ho. destruct (tiles_elem _ _ _ _ _ Ht Ho) as (n & Hn & _ & Hlo & Hhi).
  exists n. unfold advance. rewrite Hn. by repeat split.
Qed.

(** X9.  [store] keeps the buffer a sequence of nodes laid end to end, and the
    iterator meets the new entry last. *)
Theorem store_then_visit (fuel : nat) (c : cache) (k : K) (p : P) (id : Z)
    (n : nat) (c1 : cache) (l offs : list Z) :
  entry_size k p < bufsize c →
  (n ≤ fuel)%nat →
  evicted fuel n c (entry_size k p) c1 →
  next_p c1 + entry_size k p < bufsize c1 →
  bucket_list c1 (bucket_of c1 k) l →
  NoDup l →
  (∀ x, x ∈ l → x < next_p c1) →
  0 < entry_size k p ≤ UINT_MAX →
  tiles (arena c1) 0 offs (next_p c1) →
  ∃ c', store fuel c k p id = Done c' ∧
    tiles (arena c') 0 (offs ++ [next_p c1]) (next_p c') ∧
    ∀ fuel', (S (length offs) < fuel')%nat →
      visit fuel' c' = Done (offs ++ [next_p c1]).
Proof.
  intros Hsz Hn Hev Hfit Hbl Hnd Hbelow Hsize Ht.
  destruct (store_appends fuel c k p id n c1 l Hsz Hn Hev Hfit Hbl Hnd Hbelow)
    as (c' & Hst & Hnp & (n' & Hn' & Hpay) & _ & _ & Hold & _).
  destruct Hpay as (_ & _ & Hsz' & _). simpl in Hsz'.
  rewrite u32_small in Hsz' by (unfold UINT_MAX in Hsize; lia).
  assert (Ht' : tiles (arena c') 0 (offs ++ [next_p c1]) (next_p c')).
  { apply tiles_app. exists (next_p c1). split.
    - apply (tiles_sizes (arena c1)); [done|]. intros x nx Hx Hnx.
      destruct (tiles_elem _ _ _ _ _ Ht Hx) as (nx0 & Hnx0 & Hpos & Hlo & Hhi).
      rewrite Hnx in Hnx0. injection Hnx0 as <-.
      destruct (Hold x nx) as (nx' & Hnx' & _ & _ & Hs & _); [lia|done|by exists nx'].
    - split; [done|]. exists n'. split; [done|]. rewrite Hsz'. split; [lia|]. by rewrite Hnp. }
  exists c'. split; [done|]. split; [done|].
  intros fuel' Hfuel'. unfold visit, begin. apply visit_from_tiles; [done|].
  rewrite length_app. simpl. lia.
Qed.

(** ** The bucket lists across [lookup] and [store] *)

Lemma first_match c k : ∀ l : list Z,
  (∀ x, x ∈ l → key_matches c k x = false) ∨
  (∃ l1 o l2, l = l1 ++ o :: l2 ∧ (∀ x, x ∈ l1 → key_matches c k x = false) ∧
              key_matches c k o = true).
Proof.
  induction l as [|x l IH].
  - left. intros x Hx. by apply elem_of_nil in Hx.
  - destruct (key_matches c k x) eqn:Hx.
    + right. exists [], x, l. split; [done|]. split; [|done].
      intros y Hy. by apply elem_of_nil in Hy.
    + destruct IH as [Hno|(l1 & o & l2 & -> & Hno & Ho)].
      * left. intros y Hy. apply elem_of_cons in Hy as [->|Hy]; [done|by apply Hno].
      * right. exists (x :: l1), o, l2. split; [done|]. split; [|done].
        intros y Hy. apply elem_of_cons in Hy as [->|Hy]; [done|by apply Hno].
Qed.

Lemma join_insert_perm (L : list (list Z)) : ∀ b l l',
  L !! b = Some l → l' ≡ₚ l → mjoin (<[b := l']> L) ≡ₚ mjoin L.
Proof.
  induction L as [|l0 L IH]; intros b l l' Hb Hp; [done|].
  destruct b as [|b]; simpl in Hb.
  - injection Hb as ->. simpl. by rewrite Hp.
  - simpl. by rewrite (IH b l l' Hb Hp).
Qed.

Lemma join_insert_cons (L : list (list Z)) (o : Z) : ∀ b l,
  L !! b = Some l → mjoin (<[b := o :: l]> L) ≡ₚ o :: mjoin L.
Proof.
  induction L as [|l0 L IH]; intros b l Hb; [done|].
  destruct b as [|b]; simpl in Hb.
  - by injection Hb as ->.
  - simpl. rewrite (IH b l Hb). by rewrite Permutation_middle.
Qed.

(** A list replaced in one bucket, the others and their nodes untouched. *)
Lemma lists_wf_insert c c' L b l l' :
  lists_wf c L → L !! b = Some l → l' ≡ₚ l →
  bucket_list c' b l' →
  (∀ b', b' ≠ b → buckets c' !! b' = buckets c !! b') →
  (∀ x, x ∉ l → x ∈ mjoin L → arena c' !! x = arena c !! x) →
  lists_wf c' (<[b := l']> L).
Proof.
  intros (Hlen & Hbl & Hnd) Hb Hp Hbl' Hbk Hfr.
  assert (Hlt : (b < length L)%nat) by (by eapply lookup_lt_Some).
  split; [|split].
  - rewrite length_insert, Hlen. symmetry.
    by apply (buckets_same_length c c' b l l' (Hbl b l Hb) Hbl' Hbk).
  - intros i li Hi. destruct (decide (i = b)) as [->|Hne].
    + rewrite list_lookup_insert_eq in Hi by done. by injection Hi as <-.
    + rewrite list_lookup_insert_ne in Hi by done.
      destruct (Hbl i li Hi) as (hd & Hhd & Hch). exists hd.
      split; [by rewrite Hbk|]. eapply seg_frame; [|exact Hch].
      intros x Hx. apply Hfr.
      * by apply (join_disjoint L i b li l x Hnd Hi Hb Hne).
      * apply list_elem_of_join. exists li. split; [done|].
        by eapply list_elem_of_lookup_2.
  - by rewrite (join_insert_perm L b l l' Hb Hp).
Qed.

(** X10.  [lookup] on a cache whose bucket lists are well formed always
    returns; it hits exactly when an entry of the key's bucket carries
    the key; the bucket lists stay well formed, with the same entries in
    every bucket (in the same order after a miss), and the layout of the
    buffer, the frontier and [numentries] are as before. *)
Theorem lookup_keeps_lists (fuel : nat) (c : cache) (k : K) (L : list (list Z)) :
  lists_wf c L → L ≠ [] → (∀ l, l ∈ L → (length l < fuel)%nat) →
  ∃ r c' l l',
    L !! bucket_of c k = Some l ∧
    lookup fuel c k = Done (r, c') ∧
    lists_wf c' (<[bucket_of c k := l']> L) ∧
    l' ≡ₚ l ∧
    (r = None → l' = l) ∧
    (is_Some r ↔ ∃ o, o ∈ l ∧ key_matches c k o = true) ∧
    next_p c' = next_p c ∧ numentries c' = numentries c ∧
    (∀ offs, tiles (arena c) 0 offs (next_p c) → tiles (arena c') 0 offs (next_p c')).
Proof.
  intros Hwf Hne Hshort. pose proof Hwf as (Hlen & Hbl & Hnd).
  assert (Hb : (bucket_of c k < length L)%nat).
  { unfold bucket_of, nbuckets. rewrite <- Hlen.
    assert (0 < Z.of_nat (length L)) by (destruct L; [done|simpl; lia]).
    pose proof (Z.mod_pos_bound (u32 (hash_graph_key k)) (Z.of_nat (length L))). lia. }
  destruct (lookup_lt_is_Some_2 L _ Hb) as (l & Hl).
  set (b := bucket_of c k) in *.
  assert (Hlin : l ∈ L) by (by eapply list_elem_of_lookup_2).
  destruct (first_match c k l) as [Hno|(l1 & o & l2 & -> & Hno & Ho)].
  - exists None, (with_misses (u32 (misses c + 1))
                    (with_collisions (bump32 (length l) (collisions c)) c)), l, l.
    split; [done|]. split.
    { apply (lookup_miss fuel c k l (Hbl b l Hl)); [by apply Hshort|done]. }
    split.
    { rewrite list_insert_id by done. split; [done|]. split; [|done]. exact Hbl. }
    split; [done|]. split; [done|]. split.
    { split; [by intros (? & ?)|]. intros (o & Ho & Hm). by rewrite (Hno o Ho) in Hm. }
    split; [done|]. split; [done|]. done.
  - unfold key_matches in Ho. destruct (arena c !! o) as [n|] eqn:Hn; [|done].
    assert (Hndl : NoDup (l1 ++ o :: l2)) by (by eapply NoDup_join_elem).
    destruct (lookup_hit fuel c k l1 o l2 n (Hbl b _ Hl) Hndl) as
      (c' & Hlk & Hbl' & (n' & Hn' & _ & _ & Hsz & _) & Hpay & Hfr & Hbk & _ & _ & _ & Hnum & Hnp);
      try done.
    { specialize (Hshort _ Hlin). rewrite length_app in Hshort. lia. }
    exists (Some (bistream_read (stream_of n), graph_id n)), c', (l1 ++ o :: l2), (o :: l1 ++ l2).
    split; [done|]. split; [done|]. split.
    { apply (lists_wf_insert c c' L b (l1 ++ o :: l2)); try done.
      - by rewrite Permutation_middle.
      - intros x Hx _. by apply Hfr. }
    split; [by rewrite Permutation_middle|]. split; [done|]. split.
    { split; [|by eexists]. intros _. exists o. split.
      - apply elem_of_app. right. by left.
      - unfold key_matches. by rewrite Hn. }
    split; [done|]. split; [done|].
    intros offs Ht. rewrite Hnp. apply (tiles_sizes (arena c)); [done|].
    intros x nx _ Hx. destruct (decide (x = o)) as [->|Hxo].
    + rewrite Hn in Hx. injection Hx as <-. by exists n'.
    + destruct (Hpay x nx Hxo Hx) as (nx' & Hx' & _ & _ & Hs & _). by exists nx'.
Qed.

(** X11.  [store] keeps the bucket lists well formed: the new entry is put in
    front of the list of its key's bucket, at the old frontier, and no
    other list changes. *)
Theorem store_keeps_lists (fuel : nat) (c : cache) (k : K) (p : P) (id : Z)
    (n : nat) (c1 : cache) (L : list (list Z)) (l : list Z) :
  entry_size k p < bufsize c →
  (n ≤ fuel)%nat →
  evicted fuel n c (entry_size k p) c1 →
  next_p c1 + entry_size k p < bufsize c1 →
  lists_wf c1 L → L !! bucket_of c1 k = Some l →
  (∀ x, x ∈ mjoin L → x < next_p c1) →
  ∃ c', store fuel c k p id = Done c' ∧
    lists_wf c' (<[bucket_of c1 k := next_p c1 :: l]> L) ∧
    mjoin (<[bucket_of c1 k := next_p c1 :: l]> L) ≡ₚ next_p c1 :: mjoin L ∧
    numentries c' = u64 (numentries c1 + 1).
Proof.
  intros Hsz Hn Hev Hfit Hwf Hl Hbelow. pose proof Hwf as (Hlen & Hbl & Hnd).
  assert (Hlin : l ∈ L) by (by eapply list_elem_of_lookup_2).
  assert (Hsub : ∀ x, x ∈ l → x ∈ mjoin L).
  { intros x Hx. apply list_elem_of_join. by exists l. }
  destruct (store_appends fuel c k p id n c1 l Hsz Hn Hev Hfit (Hbl _ l Hl))
    as (c' & Hst & _ & _ & Hbl' & Hnum & _ & Hfr & Hbk & _).
  { by eapply NoDup_join_elem. }
  { intros x Hx. by apply Hbelow, Hsub. }
  set (b := bucket_of c1 k) in *.
  assert (Hfresh : next_p c1 ∉ mjoin L).
  { intros Hin. apply Hbelow in Hin. lia. }
  assert (Hperm : mjoin (<[b := next_p c1 :: l]> L) ≡ₚ next_p c1 :: mjoin L).
  { by apply join_insert_cons. }
  exists c'. split; [done|]. split; [|by split].
  split; [|split].
  - rewrite length_insert, Hlen. symmetry.
    by apply (buckets_same_length c1 c' b l (next_p c1 :: l) (Hbl b l Hl) Hbl' Hbk).
  - intros i li Hi. destruct (decide (i = b)) as [->|Hne].
    + rewrite list_lookup_insert_eq in Hi by (by eapply lookup_lt_Some).
      by injection Hi as <-.
    + rewrite list_lookup_insert_ne in Hi by done.
      destruct (Hbl i li Hi) as (hd & Hhd & Hch). exists hd.
      split; [by rewrite Hbk|]. eapply seg_frame; [|exact Hch].
      intros x Hx. apply Hfr.
      * apply Hbelow. apply list_elem_of_join. exists li. split; [done|].
        by eapply list_elem_of_lookup_2.
      * by apply (join_disjoint L i b li l x Hnd Hi Hl Hne).
  - rewrite Hperm. by apply NoDup_cons.
Qed.

(** ** [rebucket] *)

(** On an entry that is in no list, the body of the loop does what
    [insert_node_after] does with the sentinel of the new bucket. *)
Lemma rebucket_insert_front c b l o n :
  bucket_list c b l → arena c !! o = Some n → o ∉ l →
  rebucket_insert c o b = insert_node_after c (Node o) (Bucket b).
Proof.
  intros (hd & Hb & Hch) Ho Hol. unfold chain in Hch.
  unfold rebucket_insert, insert_node_after.
  rewrite (get_next_bucket _ _ _ Hb), !bind_Done.
  rewrite (set_next_node _ _ _ _ Ho), !bind_Done.
  rewrite (set_prev_node _ o (with_next (b_next hd) n)), !bind_Done
    by (mem_simpl; apply lookup_insert_eq).
  mem_simpl. rewrite insert_insert_eq.
  rewrite (set_next_bucket _ _ hd), !bind_Done by (mem_simpl; exact Hb).
  rewrite (get_next_node _ o (with_prev (Bucket b) (with_next (b_next hd) n))), !bind_Done
    by (mem_simpl; apply lookup_insert_eq).
  rewrite (get_next_node _ o (with_prev (Bucket b) (with_next (b_next hd) n))), !bind_Done
    by (mem_simpl; apply lookup_insert_eq).
  mem_simpl.
  destruct l as [|q l'].
  - apply seg_nil_inv in Hch. rewrite Hch. simpl is_null. cbv iota.
    rewrite bind_Done. by rewrite (set_next_bucket _ _ hd) by (mem_simpl; exact Hb).
  - apply seg_cons in Hch as (Hhd & nq & Hq & _). rewrite Hhd.
    simpl is_null. cbv iota.
    assert (Hoq : o ≠ q) by (intros ->; apply Hol; by left).
    erewrite !set_prev_node by (simpl; rewrite lookup_insert_ne by done; exact Hq).
    rewrite bind_Done. by rewrite (set_next_bucket _ _ hd) by (mem_simpl; exact Hb).
Qed.

Lemma join_alter_cons (NL : list (list Z)) (o : Z) : ∀ b,
  (b < length NL)%nat → mjoin (alter (cons o) b NL) ≡ₚ o :: mjoin NL.
Proof.
  induction NL as [|l NL IH]; intros b Hb; [simpl in Hb; lia|].
  destruct b as [|b]; [done|]. simpl in Hb.
  change (mjoin (alter (cons o) (S b) (l :: NL))) with (l ++ mjoin (alter (cons o) b NL)).
  rewrite IH by lia. change (mjoin (l :: NL)) with (l ++ mjoin NL).
  by rewrite Permutation_middle.
Qed.

(** One entry goes to the front of its new bucket; the other lists and
    the entries still to come are not touched. *)
Lemma rebucket_insert_lists c NL o n b :
  lists_wf c NL → (b < length NL)%nat → arena c !! o = Some n → o ∉ mjoin NL →
  ∃ c', rebucket_insert c o b = Done c' ∧
    lists_wf c' (alter (cons o) b NL) ∧
    (∀ x, x ≠ o → x ∉ mjoin NL → arena c' !! x = arena c !! x) ∧
    preserved c c' ∧ same_scalars c c'.
Proof.
  intros (Hlen & Hbl & Hnd) Hb Ho Hnew.
  destruct (lookup_lt_is_Some_2 NL b Hb) as (l & Hl).
  assert (Hlin : l ∈ NL) by (by eapply list_elem_of_lookup_2).
  assert (Hsub : ∀ x, x ∈ l → x ∈ mjoin NL).
  { intros x Hx. apply list_elem_of_join. by exists l. }
  assert (Hol : o ∉ l) by (intros Hin; by apply Hnew, Hsub).
  rewrite (rebucket_insert_front c b l o n (Hbl b l Hl) Ho Hol).
  destruct (insert_front_spec c b l o n (Hbl b l Hl) (NoDup_join_elem NL l Hnd Hlin) Ho Hol)
    as (c' & Hins & Hbl' & _ & Hrel).
  exists c'. split; [done|].
  pose proof (relinked_preserved _ _ _ _ Hrel) as Hpres.
  destruct Hrel as (Hsc & Hlen' & Hbk & Hfr & _).
  split; [|split; [|done]].
  - split; [|split].
    + by rewrite length_alter, Hlen, Hlen'.
    + intros i li Hi. destruct (decide (i = b)) as [->|Hne].
      * rewrite list_lookup_alter_eq, Hl in Hi. injection Hi as <-. done.
      * rewrite list_lookup_alter_ne in Hi by done.
        destruct (Hbl i li Hi) as (hd & Hhd & Hch). exists hd.
        split; [by rewrite Hbk|]. eapply seg_frame; [|exact Hch].
        intros x Hx. apply Hfr. intros Hin. apply elem_of_cons in Hin as [->|Hin].
        -- apply Hnew. apply list_elem_of_join. exists li. split; [done|].
           by eapply list_elem_of_lookup_2.
        -- by apply (join_disjoint NL i b li l x Hnd Hi Hl Hne).
    + rewrite (join_alter_cons NL o b Hb). by apply NoDup_cons.
  - intros x Hxo Hx. apply Hfr. intros Hin. apply elem_of_cons in Hin as [->|Hin]; [done|].
    by apply Hx, Hsub.
Qed.

Lemma length_place c nbs order : ∀ NL, length (place c nbs order NL) = length NL.
Proof.
  induction order as [|o order IH]; intros NL; [done|]. simpl.
  by rewrite IH, length_alter.
Qed.

Lemma join_place c nbs order : ∀ NL,
  (0 < nbs)%nat → length NL = nbs →
  mjoin (place c nbs order NL) ≡ₚ reverse order ++ mjoin NL.
Proof.
  induction order as [|o order IH]; intros NL Hnbs Hlen; [done|]. simpl.
  assert (Hslot : (slot c nbs o < length NL)%nat).
  { rewrite Hlen. unfold slot. destruct (arena c !! o) as [n|]; [|lia].
    pose proof (Z.mod_pos_bound (u32 (hash_graph_key (key n))) (Z.of_nat nbs)). lia. }
  rewrite IH by (by rewrite ?length_alter).
  rewrite (join_alter_cons NL o _ Hslot), reverse_cons, <- app_assoc. done.
Qed.

(** The walk along one old list [xs]. *)
Lemma rebucket_walk_spec c0 nbs : ∀ xs fuel pv ptr cc NL,
  (0 < nbs)%nat → Z.of_nat nbs ≤ UINT_MAX →
  seg (arena c0) pv ptr xs NULL → (length xs < fuel)%nat →
  lists_wf cc NL → length NL = nbs →
  NoDup (xs ++ mjoin NL) →
  (∀ x, x ∈ xs → arena cc !! x = arena c0 !! x) →
  ∃ cc', rebucket_walk fuel (Z.of_nat nbs) cc ptr = Done cc' ∧
    lists_wf cc' (place c0 nbs xs NL) ∧
    (∀ x, x ∉ xs → x ∉ mjoin NL → arena cc' !! x = arena cc !! x) ∧
    preserved cc cc' ∧ same_scalars cc cc'.
Proof.
  induction xs as [|o xs IH]; intros fuel pv ptr cc NL Hnbs Hmax Hs Hfuel Hwf Hlen Hnd Hsame.
  - apply seg_nil_inv in Hs as ->. destruct fuel; [simpl in Hfuel; lia|]. simpl.
    exists cc. split; [done|]. split; [done|]. split; [done|].
    split; [apply preserved_refl|by repeat split].
  - apply seg_cons in Hs as (-> & n & Hn & _ & Hs).
    destruct fuel as [|fuel]; [simpl in Hfuel; lia|]. simpl in Hfuel.
    cbn [rebucket_walk]. rewrite (Hsame o) by (by left). rewrite Hn.
    replace (Z.of_nat nbs =? 0) with false by (symmetry; apply Z.eqb_neq; lia).
    assert (Hb : Z.to_nat (u32 (u32 (hash_graph_key (key n)) mod Z.of_nat nbs)) = slot c0 nbs o).
    { unfold slot. rewrite Hn. f_equal. apply u32_small.
      pose proof (Z.mod_pos_bound (u32 (hash_graph_key (key n))) (Z.of_nat nbs)).
      unfold UINT_MAX in Hmax. lia. }
    rewrite Hb.
    assert (Hslot : (slot c0 nbs o < length NL)%nat).
    { rewrite Hlen. unfold slot. rewrite Hn.
      pose proof (Z.mod_pos_bound (u32 (hash_graph_key (key n))) (Z.of_nat nbs)). lia. }
    simpl in Hnd. apply NoDup_cons in Hnd as (Hnew & Hnd).
    assert (Hnew' : o ∉ mjoin NL) by (intros Hin; apply Hnew, elem_of_app; by right).
    assert (Hoxs : o ∉ xs) by (intros Hin; apply Hnew, elem_of_app; by left).
    assert (Hcc : arena cc !! o = Some n) by (rewrite Hsame; [done|by left]).
    destruct (rebucket_insert_lists cc NL o n _ Hwf Hslot Hcc Hnew')
      as (c1 & Hins & Hwf1 & Hfr1 & Hpres1 & Hsc1).
    rewrite Hins, bind_Done.
    destruct (IH fuel (Node o) (next n) c1 (alter (cons o) (slot c0 nbs o) NL))
      as (cc' & Hrun & Hwf' & Hfr' & Hpres' & Hsc'); try done.
    + lia.
    + by rewrite length_alter.
    + rewrite (join_alter_cons NL o _ Hslot). rewrite <- Permutation_middle.
      by apply NoDup_cons.
    + intros x Hx. rewrite Hfr1; [by apply Hsame; right|by intros ->|].
      intros Hin. apply (NoDup_app xs (mjoin NL)) in Hnd as (_ & Hdisj & _).
      by apply (Hdisj x).
    + exists cc'. split; [done|]. split; [done|]. split.
      * intros x Hx Hx'. rewrite Hfr'.
        -- apply Hfr1; [|done]. intros ->. apply Hx. by left.
        -- intros Hin. apply Hx. by right.
        -- rewrite (join_alter_cons NL o _ Hslot). intros Hin.
           apply elem_of_cons in Hin as [->|Hin]; [apply Hx; by left|done].
      * split; [by eapply preserved_trans|by eapply same_scalars_trans].
Qed.

Lemma place_app c nbs xs : ∀ ys NL,
  place c nbs (xs ++ ys) NL = place c nbs ys (place c nbs xs NL).
Proof. induction xs as [|x xs IH]; intros ys NL; [done|]. simpl. apply IH. Qed.

Lemma place_lookup c nbs order : ∀ NL b,
  place c nbs order NL !! b =
  (λ l, reverse (filter (λ o, slot c nbs o = b) order) ++ l) <$> NL !! b.
Proof.
  induction order as [|o order IH]; intros NL b.
  - simpl. by destruct (NL !! b).
  - simpl. rewrite IH. destruct (decide (slot c nbs o = b)) as [<-|Hb].
    + rewrite filter_cons_True by done.
      rewrite list_lookup_alter_eq. destruct (NL !! slot c nbs o) as [l|]; [|done].
      simpl. by rewrite reverse_cons, <- app_assoc.
    + rewrite filter_cons_False by done.
      by rewrite list_lookup_alter_ne.
Qed.

Lemma place_rebucketed c nbs order :
  place c nbs order (replicate nbs []) = rebucketed c nbs order.
Proof.
  apply list_eq. intros b. rewrite place_lookup. unfold rebucketed.
  rewrite list_lookup_fmap. destruct (decide (b < nbs)%nat) as [Hb|Hb].
  - rewrite lookup_replicate_2 by done. rewrite lookup_seq_lt by done.
    simpl. by rewrite app_nil_r.
  - rewrite (proj1 (lookup_replicate_None nbs [] b)) by lia.
    by rewrite lookup_seq_ge by lia.
Qed.

(** The outer [for] over the old heads. *)
Lemma rebucket_pass_spec c0 nbs fuel : ∀ heads Ls cc NL,
  (0 < nbs)%nat → Z.of_nat nbs ≤ UINT_MAX →
  Forall2 (λ hd l, ∃ pv, seg (arena c0) pv (b_next hd) l NULL) heads Ls →
  (∀ l, l ∈ Ls → (length l < fuel)%nat) →
  lists_wf cc NL → length NL = nbs →
  NoDup (mjoin Ls ++ mjoin NL) →
  (∀ x, x ∈ mjoin Ls → arena cc !! x = arena c0 !! x) →
  ∃ cc', rebucket_pass fuel (Z.of_nat nbs) heads cc = Done cc' ∧
    lists_wf cc' (place c0 nbs (mjoin Ls) NL) ∧
    preserved cc cc' ∧ same_scalars cc cc'.
Proof.
  intros heads Ls cc NL Hnbs Hmax Hall. revert cc NL.
  induction Hall as [|hd l heads Ls (pv & Hs) Hall IH]; intros cc NL Hshort Hwf Hlen Hnd Hsame.
  - exists cc. split; [done|]. split; [done|].
    split; [apply preserved_refl|by repeat split].
  - change (mjoin (l :: Ls)) with (l ++ mjoin Ls) in *. cbn [rebucket_pass].
    rewrite <- app_assoc in Hnd.
    assert (Hnd1 : NoDup (l ++ mjoin NL)).
    { apply NoDup_app in Hnd as (H1 & Hd & H2). apply NoDup_app in H2 as (_ & _ & H2).
      apply NoDup_app. split; [done|]. split; [|done].
      intros x Hx Hin. apply (Hd x Hx), elem_of_app. by right. }
    destruct (rebucket_walk_spec c0 nbs l fuel pv (b_next hd) cc NL)
      as (c1 & Hrun & Hwf1 & Hfr1 & Hpres1 & Hsc1); try done.
    { apply Hshort. by left. }
    { intros x Hx. apply Hsame, elem_of_app. by left. }
    rewrite Hrun, bind_Done. rewrite place_app.
    destruct (IH c1 (place c0 nbs l NL)) as (cc' & Hrun' & Hwf' & Hpres' & Hsc').
    + intros l' Hl'. apply Hshort. by right.
    + done.
    + by rewrite length_place.
    + rewrite (join_place c0 nbs l NL Hnbs Hlen).
      apply NoDup_app in Hnd as (H1 & Hd & H2).
      apply NoDup_app in H2 as (H2 & Hd2 & H3).
      apply NoDup_app. split; [done|]. split.
      * intros x Hx Hin. apply elem_of_app in Hin as [Hin|Hin].
        -- rewrite elem_of_reverse in Hin. apply (Hd x Hin), elem_of_app. by left.
        -- by apply (Hd2 x Hx).
      * apply NoDup_app. split; [by rewrite reverse_Permutation|]. split; [|done].
        intros x Hx Hin. rewrite elem_of_reverse in Hx.
        apply (Hd x Hx), elem_of_app. by right.
    + intros x Hx. rewrite Hfr1.
      * apply Hsame, elem_of_app. by right.
      * intros Hin. apply NoDup_app in Hnd as (_ & Hd & _).
        apply (Hd x Hin), elem_of_app. by left.
      * intros Hin. apply NoDup_app in Hnd as (_ & _ & H2).
        apply NoDup_app in H2 as (_ & Hd2 & _). by apply (Hd2 x Hx).
    + exists cc'. split; [done|]. split; [done|].
      split; [by eapply preserved_trans|by eapply same_scalars_trans].
Qed.

(** With [nbs = 0] the first entry met divides by zero; without entries
    the loops do nothing. *)
Lemma rebucket_pass_zero c0 fuel : ∀ heads Ls cc,
  Forall2 (λ hd l, ∃ pv, seg (arena c0) pv (b_next hd) l NULL) heads Ls →
  (0 < fuel)%nat → arena cc = arena c0 →
  rebucket_pass fuel 0 heads cc = if decide (mjoin Ls = []) then Done cc else Fault.
Proof.
  intros heads Ls cc Hall Hfuel Har.
  induction Hall as [|hd l heads Ls (pv & Hs) Hall IH].
  - done.
  - change (mjoin (l :: Ls)) with (l ++ mjoin Ls). cbn [rebucket_pass].
    destruct fuel as [|fuel]; [lia|].
    destruct l as [|o l].
    + apply seg_nil_inv in Hs as ->. simpl. apply IH.
    + apply seg_cons in Hs as (-> & n & Hn & _ & _). simpl.
      by rewrite Har, Hn.
Qed.

Lemma heads_lists c L :
  lists_wf c L →
  Forall2 (λ hd l, ∃ pv, seg (arena c) pv (b_next hd) l NULL) (buckets c) L.
Proof.
  intros (Hlen & Hbl & _). apply Forall2_same_length_lookup. split; [done|].
  intros i hd l Hhd Hl. destruct (Hbl i l Hl) as (hd' & Hhd' & Hch).
  rewrite Hhd in Hhd'. injection Hhd' as <-. by exists (Bucket i).
Qed.

Lemma rebucket_start c nbs :
  lists_wf (with_buckets (create_bucket_array nbs) c) (replicate nbs []).
Proof.
  split; [|split].
  - unfold create_bucket_array. cbn. by rewrite !length_replicate.
  - intros i l Hi. apply lookup_replicate in Hi as (-> & Hi).
    exists {| b_next := NULL; b_prev := NULL |}. split; [|done].
    unfold create_bucket_array. cbn. by apply lookup_replicate_2.
  - assert (H : mjoin (replicate nbs ([] : list Z)) = []); [|rewrite H; apply NoDup_nil_2].
    induction nbs as [|m IH]; [done|]. simpl. exact IH.
Qed.

(** The new lists after [rebucket]. *)
Lemma rebucket_lists fuel c L nbs :
  lists_wf c L → (∀ l, l ∈ L → (length l < fuel)%nat) →
  (0 < nbs)%nat → Z.of_nat nbs ≤ UINT_MAX →
  ∃ c', rebucket fuel c nbs = Done c' ∧
    length (buckets c') = nbs ∧
    lists_wf c' (rebucketed c nbs (mjoin L)) ∧
    (∀ x n, arena c !! x = Some n →
            ∃ n', arena c' !! x = Some n' ∧ same_payload n n') ∧
    (∀ x, arena c !! x = None → arena c' !! x = None) ∧
    same_scalars c c'.
Proof.
  intros Hwf Hshort Hnbs Hmax. unfold rebucket.
  set (cc := with_buckets (create_bucket_array nbs) c).
  destruct (rebucket_pass_spec c nbs fuel (buckets c) L cc (replicate nbs []))
    as (c' & Hrun & Hwf' & Hpres & Hsc); try done.
  - by apply heads_lists.
  - apply rebucket_start.
  - by rewrite length_replicate.
  - assert (H : mjoin (replicate nbs ([] : list Z)) = []).
    { clear. induction nbs as [|m IH]; [done|]. simpl. exact IH. }
    rewrite H, app_nil_r. by destruct Hwf as (_ & _ & ?).
  - exists c'. split; [done|]. rewrite place_rebucketed in Hwf'.
    destruct Hpres as (_ & Hlen' & Hpay & Hnone).
    split; [|split; [done|]].
    + rewrite Hlen'. unfold cc, create_bucket_array. cbn. by rewrite length_replicate.
    + split; [exact Hpay|]. split; [exact Hnone|]. exact Hsc.
Qed.

(** X12.  [rebucket(nbs)] with [0 < nbs]: the cache has [nbs] buckets; bucket
    [b] holds exactly the entries whose key hashes to [b] modulo [nbs],
    the one met last on the walk over the old buckets first; no entry is
    lost or duplicated, the payload of every entry and the counters are
    unchanged.  With [nbs = 0] the first entry met is a division by zero,
    and a cache without entries is left with no bucket at all. *)
Theorem rebucket_spec (fuel : nat) (c : cache) (L : list (list Z)) (nbs : nat) :
  lists_wf c L → (∀ l, l ∈ L → (length l < fuel)%nat) → (0 < fuel)%nat →
  Z.of_nat nbs ≤ UINT_MAX →
  ((0 < nbs)%nat →
   ∃ c', rebucket fuel c nbs = Done c' ∧
     nbuckets c' = Z.of_nat nbs ∧
     lists_wf c' (rebucketed c nbs (mjoin L)) ∧
     mjoin (rebucketed c nbs (mjoin L)) ≡ₚ mjoin L ∧
     (∀ b l o, rebucketed c nbs (mjoin L) !! b = Some l → o ∈ l →
               ∃ n, arena c !! o = Some n ∧
                    Z.of_nat b = u32 (hash_graph_key (key n)) mod Z.of_nat nbs) ∧
     (∀ x n, arena c !! x = Some n →
             ∃ n', arena c' !! x = Some n' ∧ same_payload n n') ∧
     same_scalars c c') ∧
  (nbs = 0%nat →
   rebucket fuel c nbs =
   if decide (mjoin L = []) then Done (with_buckets [] c) else Fault).
Proof.
  intros Hwf Hshort Hfuel Hmax. split.
  - intros Hnbs.
    destruct (rebucket_lists fuel c L nbs Hwf Hshort Hnbs Hmax)
      as (c' & Hrun & Hlen & Hwf' & Hpay & _ & Hsc).
    exists c'. split; [done|]. split; [unfold nbuckets; by rewrite Hlen|].
    split; [done|]. split; [|split; [|by split]].
    + rewrite <- place_rebucketed. rewrite join_place; [|done|by rewrite length_replicate].
      assert (H : mjoin (replicate nbs ([] : list Z)) = []).
      { clear. induction nbs as [|m IH]; [done|]. simpl. exact IH. }
      rewrite H, app_nil_r. apply reverse_Permutation.
    + intros b l o Hb Ho. unfold rebucketed in Hb.
      apply list_lookup_fmap_Some in Hb as (b' & -> & Hb').
      apply lookup_seq in Hb' as (-> & Hlt). simpl in Ho.
      rewrite elem_of_reverse in Ho. apply list_elem_of_filter in Ho as (Hslot & Hin).
      destruct (lists_wf_at c L o Hwf Hin) as (_ & _ & _ & _ & n & _ & _ & _ & _ & Hn & _).
      exists n. split; [done|]. unfold slot in Hslot. rewrite Hn in Hslot.
      pose proof (Z.mod_pos_bound (u32 (hash_graph_key (key n))) (Z.of_nat nbs)). lia.
  - intros ->. unfold rebucket. cbn [Z.of_nat].
    by rewrite (rebucket_pass_zero c fuel (buckets c) L _ (heads_lists c L Hwf) Hfuel).
Qed.

Lemma key_matches_preserved c c' k x :
  (∀ x n, arena c !! x = Some n →
          ∃ n', arena c' !! x = Some n' ∧ same_payload n n') →
  (∀ x, arena c !! x = None → arena c' !! x = None) →
  key_matches c' k x = key_matches c k x.
Proof.
  intros Hpay Hnone. unfold key_matches.
  destruct (arena c !! x) as [n|] eqn:Hx.
  - destruct (Hpay x n Hx) as (n' & -> & _ & _ & _ & -> & _). done.
  - by rewrite (Hnone x Hx).
Qed.

(** X13.  An entry is still found after [rebucket], and a key that no entry
    carries still misses: the new bucket of an entry is the one [lookup]
    searches for its key, given that keys which compare equal hash alike.
    With [lb] the new list of the key's bucket, a hit adds one to [hits]
    and one collision for each entry ahead of the match in [lb]; a miss
    adds one to [misses] and one collision for each entry of [lb], and
    changes nothing else. *)
Theorem rebucket_then_lookup (fuel : nat) (c : cache) (L : list (list Z))
    (nbs : nat) (k : K) :
  lists_wf c L → (length (mjoin L) < fuel)%nat →
  (∀ l, l ∈ L → (length l < fuel)%nat) →
  (0 < nbs)%nat → Z.of_nat nbs ≤ UINT_MAX →
  ∃ c' lb, rebucket fuel c nbs = Done c' ∧
    bucket_of c' k = Z.to_nat (u32 (hash_graph_key k) mod Z.of_nat nbs) ∧
    rebucketed c nbs (mjoin L) !! bucket_of c' k = Some lb ∧
    (∀ o n, o ∈ mjoin L → arena c !! o = Some n →
       compare_graph_keys k (key n) = true →
       hash_graph_key k = hash_graph_key (key n) →
       (∀ x, x ∈ mjoin L → x ≠ o → key_matches c k x = false) →
       ∃ c'' l1 l2, lb = l1 ++ o :: l2 ∧
         lookup fuel c' k =
           Done (Some (bistream_read (stream_of n), graph_id n), c'') ∧
         hits c'' = u32 (hits c + 1) ∧ misses c'' = misses c ∧
         collisions c'' = bump32 (length l1) (collisions c)) ∧
    ((∀ x, x ∈ mjoin L → key_matches c k x = false) →
       lookup fuel c' k =
         Done (None, with_misses (u32 (misses c + 1))
                       (with_collisions (bump32 (length lb) (collisions c)) c'))).
Proof.
  intros Hwf Hfuel Hshort Hnbs Hmax.
  destruct (rebucket_lists fuel c L nbs Hwf Hshort Hnbs Hmax)
    as (c' & Hrun & Hlen & Hwf' & Hpay & Hnone & Hsc).
  assert (Hbk : (bucket_of c' k < nbs)%nat).
  { unfold bucket_of, nbuckets. rewrite Hlen.
    pose proof (Z.mod_pos_bound (u32 (hash_graph_key k)) (Z.of_nat nbs)). lia. }
  set (b := bucket_of c' k) in *.
  set (lb := reverse (filter (λ o, slot c nbs o = b) (mjoin L))).
  exists c', lb. split; [done|].
  split; [unfold b, bucket_of, nbuckets; by rewrite Hlen|].
  assert (Hlb : rebucketed c nbs (mjoin L) !! b = Some lb).
  { unfold rebucketed. by rewrite list_lookup_fmap, lookup_seq_lt. }
  split; [done|].
  destruct Hwf' as (_ & Hbl' & Hnd').
  pose proof (Hbl' b lb Hlb) as Hbl.
  assert (Hndb : NoDup lb).
  { eapply NoDup_join_elem; [exact Hnd'|]. by eapply list_elem_of_lookup_2. }
  assert (Hsub : ∀ x, x ∈ lb → x ∈ mjoin L).
  { intros x Hx. unfold lb in Hx. rewrite elem_of_reverse in Hx.
    by apply list_elem_of_filter in Hx as (_ & ?). }
  assert (Hlenb : (length lb ≤ length (mjoin L))%nat).
  { unfold lb. rewrite length_reverse. apply length_filter. }
  destruct Hsc as (Hh & Hm & Hco & _).
  split.
  - intros o n Ho Hn Hk Hhash Huniq.
    assert (Hob : o ∈ lb).
    { unfold lb. rewrite elem_of_reverse. apply list_elem_of_filter. split; [|done].
      unfold slot, b, bucket_of, nbuckets. by rewrite Hn, Hlen, Hhash. }
    apply list_elem_of_split in Hob as (l1 & l2 & Hsplit).
    rewrite Hsplit in Hbl, Hndb, Hlenb, Hsub.
    destruct (Hpay o n Hn) as (n' & Hn' & Hhc & Hid & Hsz & Hkey & Hst).
    destruct (lookup_hit fuel c' k l1 o l2 n' Hbl Hndb)
      as (c'' & Hlk & _ & _ & _ & _ & _ & Hh' & Hm' & Hco' & _).
    + rewrite length_app in Hlenb. lia.
    + intros x Hx. rewrite (key_matches_preserved c c' k x Hpay Hnone).
      apply Huniq.
      * apply Hsub, elem_of_app. by left.
      * intros ->. apply NoDup_app in Hndb as (_ & Hd & _).
        apply (Hd o Hx). by left.
    + done.
    + by rewrite Hkey.
    + exists c'', l1, l2. split; [done|]. split.
      * rewrite Hlk. unfold stream_of. by rewrite Hid, Hsz, Hkey, Hst.
      * by rewrite Hh', Hm', Hco', Hh, Hm, Hco.
  - intros Hno. rewrite <- Hm, <- Hco.
    apply (lookup_miss fuel c' k lb Hbl); [lia|].
    intros x Hx. rewrite (key_matches_preserved c c' k x Hpay Hnone).
    by apply Hno, Hsub.
Qed.

(** ** [clear] and [reset_stats] *)

(** C10. [clear] moves the frontier back to the start of the buffer, so
    that [size()] is 0, and nulls both links of every bucket, and leaves
    the entry counter alone: [num_entries()] returns after [clear] what it
    returned before.  [reset_stats] zeroes [hits], [misses] and
    [collisions] and leaves the entry counter alone as well. *)
Theorem clear_keeps_num_entries (c : cache) :
  cache_size (clear c) = 0 ∧
  length (buckets (clear c)) = length (buckets c) ∧
  (∀ i hd, buckets (clear c) !! i = Some hd → b_next hd = NULL ∧ b_prev hd = NULL) ∧
  numentries (clear c) = numentries c ∧
  num_entries (clear c) = num_entries c ∧
  num_hits (reset_stats c) = 0 ∧ num_misses (reset_stats c) = 0 ∧
  num_collisions (reset_stats c) = 0 ∧
  numentries (reset_stats c) = numentries c ∧
  num_entries (reset_stats c) = num_entries c.
Proof.
  assert (Hnull : ∀ i hd, buckets (clear c) !! i = Some hd →
                          b_next hd = NULL ∧ b_prev hd = NULL).
  { intros i hd H. unfold clear in H. simpl in H.
    apply list_lookup_fmap_Some in H. destruct H as (? & -> & ?). done. }
  repeat split; try reflexivity; try (by eapply Hnull).
  unfold clear. simpl. by rewrite length_fmap.
Qed.

End cache.
End Cache.

(** * The recursion frames, [tutte/tutte.cpp] *)

Module Engine.

(** [typename G::edge_t]: the two endpoints and the multiplicity. *)
Record edge_t := { first : Z; second : Z; third : Z }.

Inductive edgesel_t :=
  | RANDOM | MAXIMISE_DEGREE | MINIMISE_DEGREE | MAXIMISE_MDEGREE
  | MINIMISE_MDEGREE | MINIMISE_SDEGREE | VERTEX_ORDER.

(** The template parameter [P]: what the frames use of a polynomial
    class. [Pzero] is the default-constructed [P()]. *)
Class Polynomial (P : Type) := {
  X : Z → P;
  Y : Z → P;
  Yrange : Z → Z → P;
  Pzero : P;
  padd : P → P → P;
  pmul : P → P → P
}.

(** The template parameter [G], with the free functions of
    [reductions.hpp] and [graph_key] that the frames call on it.  The
    operations that work on the graph in place take it and return it. *)
Class MultiGraph (G K P : Type) := {
  num_vertices : G → Z;
  num_edges : G → Z;
  vertices : G → list Z;
  edges : G → Z → list (Z * Z);
  num_underlying_edges : G → Z → Z;
  is_multitree : G → bool;
  is_multicycle : G → bool;
  is_biconnected : G → bool;
  extract_biconnected_components : G → list G * G;
  remove_graphs : G → list G → G;
  remove_edge : G → edge_t → G;
  contract_edge : G → edge_t → G;
  simple_contract_edge : G → edge_t → G;
  reduce_loops : G → Z * G;
  reduce_tree : P → G → P;
  reduce_cycle : P → G → P;
  graph_key : G → K
}.

(** The global [cache] object, through the two calls the frames make. *)
Class GraphCache (C K P : Type) := {
  cache_lookup : C → K → res (option (P * Z) * C);
  cache_store : C → K → P → Z → res C
}.

Section engine.
Context {G K P C : Type}.
Context `{Polynomial P} `{MultiGraph G K P} `{GraphCache C K P}.

(** The globals a run fixes before the first frame. *)
Record config := {
  small_graph_threshold : Z;
  edge_selection_heuristic : edgesel_t;
  verbose : bool;
  reduce_multicycles : bool;
  reduce_multiedges : bool;
  reduce_lines : bool;
  write_tree : bool;
  status_interval : Z;
  rtarget : Z → Z      (* the edge index the RANDOM policy draws, from num_edges *)
}.

(** The globals the frames update. *)
Record state := {
  num_steps : Z;
  num_bicomps : Z;
  num_cycles : Z;
  num_disbicomps : Z;
  num_trees : Z;
  old_num_steps : Z;
  current_timeout : Z;
  status_flag : bool;
  tree_id : Z;
  cache : C;
  cache_hit_sizes : list Z
}.

Variable cfg : config.

Definition with_num_steps (v : Z) (s : state) : state :=
  {| num_steps := v; num_bicomps := num_bicomps s; num_cycles := num_cycles s;
     num_disbicomps := num_disbicomps s; num_trees := num_trees s;
     old_num_steps := old_num_steps s; current_timeout := current_timeout s;
     status_flag := status_flag s; tree_id := tree_id s; cache := cache s;
     cache_hit_sizes := cache_hit_sizes s |}.
Definition with_num_bicomps (v : Z) (s : state) : state :=
  {| num_steps := num_steps s; num_bicomps := v; num_cycles := num_cycles s;
     num_disbicomps := num_disbicomps s; num_trees := num_trees s;
     old_num_steps := old_num_steps s; current_timeout := current_timeout s;
     status_flag := status_flag s; tree_id := tree_id s; cache := cache s;
     cache_hit_sizes := cache_hit_sizes s |}.
Definition with_num_cycles (v : Z) (s : state) : state :=
  {| num_steps := num_steps s; num_bicomps := num_bicomps s; num_cycles := v;
     num_disbicomps := num_disbicomps s; num_trees := num_trees s;
     old_num_steps := old_num_steps s; current_timeout := current_timeout s;
     status_flag := status_flag s; tree_id := tree_id s; cache := cache s;
     cache_hit_sizes := cache_hit_sizes s |}.
Definition with_num_disbicomps (v : Z) (s : state) : state :=
  {| num_steps := num_steps s; num_bicomps := num_bicomps s; num_cycles := num_cycles s;
     num_disbicomps := v; num_trees := num_trees s;
     old_num_steps := old_num_steps s; current_timeout := current_timeout s;
     status_flag := status_flag s; tree_id := tree_id s; cache := cache s;
     cache_hit_sizes := cache_hit_sizes s |}.
Definition with_num_trees (v : Z) (s : state) : state :=
  {| num_steps := num_steps s; num_bicomps := num_bicomps s; num_cycles := num_cycles s;
     num_disbicomps := num_disbicomps s; num_trees := v;
     old_num_steps := old_num_steps s; current_timeout := current_timeout s;
     status_flag := status_flag s; tree_id := tree_id s; cache := cache s;
     cache_hit_sizes := cache_hit_sizes s |}.
Definition with_old_num_steps (v : Z) (s : state) : state :=
  {| num_steps := num_steps s; num_bicomps := num_bicomps s; num_cycles := num_cycles s;
     num_disbicomps := num_disbicomps s; num_trees := num_trees s;
     old_num_steps := v; current_timeout := current_timeout s;
     status_flag := status_flag s; tree_id := tree_id s; cache := cache s;
     cache_hit_sizes := cache_hit_sizes s |}.
Definition with_current_timeout (v : Z) (s : state) : state :=
  {| num_steps := num_steps s; num_bicomps := num_bicomps s; num_cycles := num_cycles s;
     num_disbicomps := num_disbicomps s; num_trees := num_trees s;
     old_num_steps := old_num_steps s; current_timeout := v;
     status_flag := status_flag s; tree_id := tree_id s; cache := cache s;
     cache_hit_sizes := cache_hit_sizes s |}.
Definition with_status_flag (v : bool) (s : state) : state :=
  {| num_steps := num_steps s; num_bicomps := num_bicomps s; num_cycles := num_cycles s;
     num_disbicomps := num_disbicomps s; num_trees := num_trees s;
     old_num_steps := old_num_steps s; current_timeout := current_timeout s;
     status_flag := v; tree_id := tree_id s; cache := cache s;
     cache_hit_sizes := cache_hit_sizes s |}.
Definition with_tree_id (v : Z) (s : state) : state :=
  {| num_steps := num_steps s; num_bicomps := num_bicomps s; num_cycles := num_cycles s;
     num_disbicomps := num_disbicomps s; num_trees := num_trees s;
     old_num_steps := old_num_steps s; current_timeout := current_timeout s;
     status_flag := status_flag s; tree_id := v; cache := cache s;
     cache_hit_sizes := cache_hit_sizes s |}.
Definition with_cache (v : C) (s : state) : state :=
  {| num_steps := num_steps s; num_bicomps := num_bicomps s; num_cycles := num_cycles s;
     num_disbicomps := num_disbicomps s; num_trees := num_trees s;
     old_num_steps := old_num_steps s; current_timeout := current_timeout s;
     status_flag := status_flag s; tree_id := tree_id s; cache := v;
     cache_hit_sizes := cache_hit_sizes s |}.
Definition with_cache_hit_sizes (v : list Z) (s : state) : state :=
  {| num_steps := num_steps s; num_bicomps := num_bicomps s; num_cycles := num_cycles s;
     num_disbicomps := num_disbicomps s; num_trees := num_trees s;
     old_num_steps := old_num_steps s; current_timeout := current_timeout s;
     status_flag := status_flag s; tree_id := tree_id s; cache := cache s;
     cache_hit_sizes := v |}.

(** ** The timer, lines 900-915

    [timer_handler] runs on [SIGALRM]; [print_status] is called from a
    frame and, apart from what it prints, clears the flag and remembers
    the step count.  [current_timeout] is an [int]. *)

Definition timer_handler (s : state) : state :=
  with_current_timeout (current_timeout s - status_interval cfg)
    (if verbose cfg then with_status_flag true s else s).

Definition print_status (s : state) : state :=
  with_old_num_steps (num_steps s) (with_status_flag false s).

(** ** [select_edge], lines 238-302 *)

(** The pairs the two nested loops reach, in order, with the underlying
    degrees of both ends: [(head, tail, count, headc, tailc)]. *)
Definition candidates (graph : G) : list (Z * Z * Z * Z * Z) :=
  flat_map
    (λ head,
       let headc := num_underlying_edges graph head in
       if negb (reduce_lines cfg) || negb (headc =? 2) then
         flat_map
           (λ j : Z * Z,
              let tailc := num_underlying_edges graph j.1 in
              if (head <? j.1) || (reduce_lines cfg && (tailc =? 2))
              then [(head, j.1, j.2, headc, tailc)] else [])
           (edges graph head)
       else [])
    (vertices graph).

Definition picked (head tail count : Z) : edge_t :=
  {| first := head; second := tail;
     third := if reduce_multiedges cfg then count else 1 |}.

(** [cost] is assigned by every policy but [VERTEX_ORDER], which returns,
    and [RANDOM], which leaves it indeterminate: reading it then is
    undefined. *)
Definition cost_of (V headc tailc : Z) : option Z :=
  match edge_selection_heuristic cfg with
  | MAXIMISE_DEGREE => Some (u32 (headc + tailc))
  | MAXIMISE_MDEGREE => Some (u32 (headc * tailc))
  | MINIMISE_DEGREE => Some (u32 (2 * V - (headc + tailc)))
  | MINIMISE_SDEGREE => Some (u32 (V - Z.min headc tailc))
  | MINIMISE_MDEGREE => Some (u32 (V * V - headc * tailc))
  | VERTEX_ORDER | RANDOM => None
  end.

Fixpoint select_scan (V target : Z) (cands : list (Z * Z * Z * Z * Z))
    (best : Z) (r : edge_t) (rcount : Z) : res edge_t :=
  match cands with
  | [] => if best =? 0 then Throw (runtime_error "internal failure") else Done r
  | (head, tail, count, headc, tailc) :: cands =>
      match edge_selection_heuristic cfg with
      | VERTEX_ORDER => Done (picked head tail count)
      | RANDOM =>
          if rcount =? target then Done (picked head tail count) else Fault
      | _ =>
          match cost_of V headc tailc with
          | Some cost =>
              if best <? cost
              then select_scan V target cands cost (picked head tail count) rcount
              else select_scan V target cands best r rcount
          | None => Fault
          end
      end
  end.

Definition select_edge (graph : G) : res edge_t :=
  select_scan (u32 (num_vertices graph)) (rtarget cfg (num_edges graph))
              (candidates graph) 0
              {| first := UINT_MAX; second := UINT_MAX; third := UINT_MAX |} 0.

(** ** Pieces the three frames share *)

(** "CHECK IN CACHE": no key was computed, or the probe missed, or it
    hit. *)
Inductive probe :=
  | NoKey
  | Miss (key : K)
  | Hit (key : K) (r : P) (match_id : Z).

Definition probe_cache (wanted : bool) (graph : G) (s : state)
    : res (probe * state) :=
  if wanted then
    let key := graph_key graph in
    r ← cache_lookup (cache s) key;
    match r.1 with
    | Some (p, id) => Done (Hit key p id, with_cache r.2 s)
    | None => Done (Miss key, with_cache r.2 s)
    end
  else Done (NoKey, s).

Definition is_hit (pb : probe) : bool :=
  match pb with
  | Hit _ _ _ => true
  | _ => false
  end.

Definition key_of (pb : probe) : option K :=
  match pb with
  | NoKey => None
  | Miss k => Some k
  | Hit k _ _ => Some k
  end.

(** [cache_hit_sizes[i]++] on a [vector<unsigned int>]: undefined outside
    the vector. *)
Definition incr_hit_size (i : Z) (s : state) : res state :=
  match cache_hit_sizes s !! Z.to_nat i with
  | Some v =>
      Done (with_cache_hit_sizes (<[Z.to_nat i := u32 (v + 1)]> (cache_hit_sizes s)) s)
  | None => Fault
  end.

(** "Finally, save computed polynomial": [if(key != NULL) cache.store(key,poly,mid)]. *)
Definition save (key : option K) (poly : P) (mid : Z) (s : state) : res state :=
  match key with
  | Some k => c ← cache_store (cache s) k poly mid; Done (with_cache c s)
  | None => Done s
  end.

(** The counters of the branch that found the graph not biconnected. *)
Definition count_split (graph : G) (biconnects : list G) (s : state) : state :=
  let s := if is_multitree graph
           then with_num_trees (u64 (num_trees s + 1)) s else s in
  if (1 <? length biconnects)%nat
  then with_num_disbicomps (u64 (num_disbicomps s + 1)) s else s.

(** [for(...) if(j->second == 1)] of [flow]. *)
Definition has_single_edge (graph : G) : bool :=
  existsb (λ v, existsb (λ j : Z * Z, j.2 =? 1) (edges graph v)) (vertices graph).

(** A frame, with the recursive calls it makes as the parameter [rec].
    It returns the polynomial, the caller's graph as the frame left it,
    and the globals. *)
Definition frame := G → Z → state → res (P * G * state).

(** ** [tutte], lines 327-422

    The two recursive calls of the delete/contract step are the operands
    of one [+], and C++ does not fix which operand is evaluated first.
    The frames below make the calls in the order the source gives in its
    comment, "starting with delete".  The sum does not depend on the
    order; the cache and the counters each call finds do. *)

Fixpoint tutte_components (rec : frame) (bs : list G) (poly : P) (tid : Z)
    (s : state) : res (P * state) :=
  match bs with
  | [] => Done (poly, s)
  | i :: bs =>
      let s := with_num_bicomps (u64 (num_bicomps s + 1)) s in
      if is_multicycle i then
        let s := with_num_cycles (u64 (num_cycles s + 1)) s in
        tutte_components rec bs (pmul poly (reduce_cycle (X 1) i))
                         (if write_tree cfg then u32 (tid + 1) else tid) s
      else
        r ← rec i tid s;
        tutte_components rec bs (pmul poly r.1.1) (u32 (tid + 1)) r.2
  end.

Definition tutte_frame (rec : frame) : frame := λ graph mid s,
  if current_timeout s <=? 0 then Done (X 0, graph, s)
  else
    let s := if status_flag s then print_status s else s in
    let s := with_num_steps (u64 (num_steps s + 1)) s in
    let rl := reduce_loops graph in
    let RF := Y rl.1 in
    let graph := rl.2 in
    pr ← probe_cache ((small_graph_threshold cfg <=? num_vertices graph)
                       && negb (is_multitree graph)) graph s;
    match pr.1 with
    | Hit key r match_id =>
        s ← incr_hit_size (u32 (num_vertices graph + 1)) pr.2;
        Done (pmul r RF, graph, s)
    | pb =>
        let s := pr.2 in
        b ← (if reduce_multicycles cfg && is_multicycle graph then
               Done (reduce_cycle (X 1) graph, graph,
                     with_num_cycles (u64 (num_cycles s + 1)) s)
             else if negb (is_biconnected graph) then
               let ex := extract_biconnected_components graph in
               let biconnects := ex.1 in
               let tid := tree_id s in
               let s := with_tree_id (u32 (tree_id s + Z.of_nat (length biconnects))) s in
               let graph := remove_graphs ex.2 biconnects in
               let s := count_split graph biconnects s in
               r ← tutte_components rec biconnects (reduce_tree (X 1) graph) tid s;
               Done (r.1, graph, r.2)
             else
               let lid := tree_id s in
               let rid := u32 (tree_id s + 1) in
               let s := with_tree_id (u32 (tree_id s + 2)) s in
               let g2 := graph in
               edge ← select_edge graph;
               let graph := remove_edge graph edge in
               let g2 := contract_edge g2 edge in
               d ← rec graph lid s;
               c ← rec g2 rid d.2;
               Done (if 1 <? third edge
                     then padd d.1.1 (pmul c.1.1 (Yrange 0 (u32 (third edge - 1))))
                     else padd d.1.1 c.1.1,
                     d.1.2, c.2));
        s ← save (key_of pb) b.1.1 mid b.2;
        Done (pmul b.1.1 RF, b.1.2, s)
    end.

Fixpoint tutte (fuel : nat) : frame :=
  match fuel with
  | O => λ _ _ _, OutOfFuel
  | S fuel => tutte_frame (tutte fuel)
  end.

(** ** [flow], lines 437-544 *)

Fixpoint flow_components (rec : frame) (bs : list G) (poly : P) (tid : Z)
    (s : state) : res (P * state) :=
  match bs with
  | [] => Done (poly, s)
  | i :: bs =>
      let s := with_num_bicomps (u64 (num_bicomps s + 1)) s in
      if is_multicycle i then
        let s := with_num_cycles (u64 (num_cycles s + 1)) s in
        flow_components rec bs (pmul poly (reduce_cycle Pzero i))
                        (if write_tree cfg then u32 (tid + 1) else tid) s
      else
        r ← rec i tid s;
        flow_components rec bs (pmul poly r.1.1) (u32 (tid + 1)) r.2
  end.

Definition flow_frame (rec : frame) : frame := λ graph mid s,
  if current_timeout s <=? 0 then Done (X 0, graph, s)
  else
    let s := if status_flag s then print_status s else s in
    let s := with_num_steps (u64 (num_steps s + 1)) s in
    let rl := reduce_loops graph in
    let RF := Y rl.1 in
    let graph := rl.2 in
    pr ← probe_cache ((small_graph_threshold cfg <=? num_vertices graph)
                       && negb (is_multitree graph)) graph s;
    match pr.1 with
    | Hit key r match_id =>
        s ← incr_hit_size (u32 (num_vertices graph)) pr.2;
        Done (pmul r RF, graph, s)
    | pb =>
        let s := pr.2 in
        (* [inl]: the frame returns at once; [inr]: it goes on to save *)
        b ← (if reduce_multicycles cfg && is_multicycle graph then
               Done (inr (reduce_cycle Pzero graph, graph,
                          with_num_cycles (u64 (num_cycles s + 1)) s))
             else if negb (is_biconnected graph) then
               let ex := extract_biconnected_components graph in
               let biconnects := ex.1 in
               let tid := tree_id s in
               let s := with_tree_id (u32 (tree_id s + Z.of_nat (length biconnects))) s in
               let graph := remove_graphs ex.2 biconnects in
               if has_single_edge graph then
                 Done (inl (Pzero, graph, with_num_trees (u64 (num_trees s + 1)) s))
               else
                 let s := count_split graph biconnects s in
                 r ← flow_components rec biconnects (reduce_tree Pzero graph) tid s;
                 Done (inr (r.1, graph, r.2))
             else
               let lid := tree_id s in
               let rid := u32 (tree_id s + 1) in
               let s := with_tree_id (u32 (tree_id s + 2)) s in
               let g2 := graph in
               edge ← select_edge graph;
               let graph := remove_edge graph edge in
               let g2 := contract_edge g2 edge in
               d ← rec graph lid s;
               c ← rec g2 rid d.2;
               Done (inr (if 1 <? third edge
                          then padd d.1.1 (pmul c.1.1 (Yrange 0 (u32 (third edge - 1))))
                          else padd d.1.1 c.1.1,
                          d.1.2, c.2)));
        match b with
        | inl r => Done r
        | inr b =>
            s ← save (key_of pb) b.1.1 mid b.2;
            Done (pmul b.1.1 RF, b.1.2, s)
        end
    end.

Fixpoint flow (fuel : nat) : frame :=
  match fuel with
  | O => λ _ _ _, OutOfFuel
  | S fuel => flow_frame (flow fuel)
  end.

(** ** [chromatic], lines 559-634 *)

Fixpoint chromatic_components (rec : frame) (bs : list G) (poly : P) (tid : Z)
    (s : state) : res (P * state) :=
  match bs with
  | [] => Done (poly, s)
  | i :: bs =>
      let s := with_num_bicomps (u64 (num_bicomps s + 1)) s in
      r ← rec i tid s;
      chromatic_components rec bs (pmul poly r.1.1) (u32 (tid + 1)) r.2
  end.

Definition chromatic_frame (rec : frame) : frame := λ graph mid s,
  if current_timeout s <=? 0 then Done (X 0, graph, s)
  else
    let s := if status_flag s then print_status s else s in
    let s := with_num_steps (u64 (num_steps s + 1)) s in
    pr ← probe_cache (small_graph_threshold cfg <=? num_vertices graph) graph s;
    match pr.1 with
    | Hit key r match_id =>
        s ← incr_hit_size (u32 (num_vertices graph)) pr.2;
        Done (r, graph, s)
    | pb =>
        let s := pr.2 in
        if negb (is_biconnected graph) then
          let ex := extract_biconnected_components graph in
          let biconnects := ex.1 in
          let tid := tree_id s in
          let s := with_tree_id (u32 (tree_id s + Z.of_nat (length biconnects))) s in
          let graph := remove_graphs ex.2 biconnects in
          let s := count_split graph biconnects s in
          r ← chromatic_components rec biconnects (X (num_edges graph)) tid s;
          Done (r.1, graph, r.2)
        else
          let lid := tree_id s in
          let rid := u32 (tree_id s + 1) in
          let s := with_tree_id (u32 (tree_id s + 2)) s in
          let g2 := graph in
          edge ← select_edge graph;
          let graph := remove_edge graph edge in
          let g2 := simple_contract_edge g2 edge in
          d ← rec graph lid s;
          c ← rec g2 rid d.2;
          let poly := padd d.1.1 c.1.1 in
          (* the save is inside this branch, lines 623-630 *)
          s ← save (key_of pb) poly mid c.2;
          Done (poly, d.1.2, s)
    end.

Fixpoint chromatic (fuel : nat) : frame :=
  match fuel with
  | O => λ _ _ _, OutOfFuel
  | S fuel => chromatic_frame (chromatic fuel)
  end.

(** ** What the frames do *)

(** The globals once a frame has passed the timeout check: the status
    line is printed if the flag is up, and [num_steps] is incremented. *)
Definition entered (s : state) : state :=
  let s := if status_flag s then print_status s else s in
  with_num_steps (u64 (num_steps s + 1)) s.

Lemma leb_gt_false a b : a < b → (b <=? a) = false.
Proof. intros. apply Z.leb_gt. lia. Qed.

(** C5. A frame of [tutte], [flow] or [chromatic] that is entered once
    [current_timeout] is zero or less returns [X(0)] at once: the graph it
    was given, the cache and every counter are as they were.  This holds
    whatever the frame would have called ([rec]), hence at every depth of
    the recursion. *)
Theorem timeout_returns_sentinel (rec : frame) (graph : G) (mid : Z) (s : state) :
  current_timeout s ≤ 0 →
  tutte_frame rec graph mid s = Done (X 0, graph, s) ∧
  flow_frame rec graph mid s = Done (X 0, graph, s) ∧
  chromatic_frame rec graph mid s = Done (X 0, graph, s) ∧
  (∀ fuel, tutte (S fuel) graph mid s = Done (X 0, graph, s) ∧
           flow (S fuel) graph mid s = Done (X 0, graph, s) ∧
           chromatic (S fuel) graph mid s = Done (X 0, graph, s)).
Proof.
  intros Ht. apply Z.leb_le in Ht.
  assert (Hf : ∀ r, tutte_frame r graph mid s = Done (X 0, graph, s) ∧
                    flow_frame r graph mid s = Done (X 0, graph, s) ∧
                    chromatic_frame r graph mid s = Done (X 0, graph, s)).
  { intros r. unfold tutte_frame, flow_frame, chromatic_frame. by rewrite Ht. }
  destruct (Hf rec) as (? & ? & ?). repeat split; try done; simpl; apply Hf.
Qed.

(** C4. In [flow], when the graph is not biconnected and what remains
    of it after its biconnected components are taken out has an edge of
    multiplicity 1, the frame returns [P()]: not multiplied by the loop
    factor, and without a call of [cache.store]. *)
Theorem flow_tree_kills_branch (rec : frame) (graph : G) (mid : Z) (s : state)
    (pb : probe) (s1 : state) :
  let g1 := (reduce_loops graph).2 in
  let ex := extract_biconnected_components g1 in
  let rest := remove_graphs ex.2 ex.1 in
  0 < current_timeout s →
  probe_cache ((small_graph_threshold cfg <=? num_vertices g1)
               && negb (is_multitree g1)) g1 (entered s) = Done (pb, s1) →
  is_hit pb = false →
  reduce_multicycles cfg && is_multicycle g1 = false →
  is_biconnected g1 = false →
  has_single_edge rest = true →
  flow_frame rec graph mid s =
  Done (Pzero, rest,
        with_num_trees (u64 (num_trees s1 + 1))
          (with_tree_id (u32 (tree_id s1 + Z.of_nat (length ex.1))) s1)).
Proof.
  intros g1 ex rest Ht Hpr Hmiss Hcyc Hbic Hsingle.
  unfold flow_frame. rewrite (leb_gt_false _ _ Ht).
  unfold entered in Hpr. subst g1 ex rest. cbv zeta.
  rewrite Hpr, bind_Done. cbn [fst snd].
  destruct pb as [|k|k r id]; [| |done];
    rewrite Hcyc, Hbic; cbn [negb]; by rewrite Hsingle.
Qed.

(** C3. In [tutte] and in [flow], a frame that reaches the
    delete/contract step on the selected edge [(u, v, k)] computes, from
    the polynomial [pd] of the delete branch and [pc] of the contract
    branch, [pd + pc * Y(0, k-1)] when [k > 1] and [pd + pc] otherwise;
    it saves that polynomial under the key if one was computed and
    returns it times the loop factor. *)
Theorem multiedge_recurrence (rec : frame) (graph : G) (mid : Z) (s : state)
    (pb : probe) (s1 : state) (edge : edge_t) (pd pc : P) (gd gc : G)
    (sd sc s' : state) :
  let g1 := (reduce_loops graph).2 in
  let RF := Y (reduce_loops graph).1 in
  let poly := if 1 <? third edge
              then padd pd (pmul pc (Yrange 0 (u32 (third edge - 1))))
              else padd pd pc in
  0 < current_timeout s →
  probe_cache ((small_graph_threshold cfg <=? num_vertices g1)
               && negb (is_multitree g1)) g1 (entered s) = Done (pb, s1) →
  is_hit pb = false →
  reduce_multicycles cfg && is_multicycle g1 = false →
  is_biconnected g1 = true →
  select_edge g1 = Done edge →
  rec (remove_edge g1 edge) (tree_id s1)
      (with_tree_id (u32 (tree_id s1 + 2)) s1) = Done (pd, gd, sd) →
  rec (contract_edge g1 edge) (u32 (tree_id s1 + 1)) sd = Done (pc, gc, sc) →
  save (key_of pb) poly mid sc = Done s' →
  tutte_frame rec graph mid s = Done (pmul poly RF, gd, s') ∧
  flow_frame rec graph mid s = Done (pmul poly RF, gd, s') ∧
  (1 < third edge ≤ UINT_MAX →
   poly = padd pd (pmul pc (Yrange 0 (third edge - 1)))) ∧
  (third edge ≤ 1 → poly = padd pd pc).
Proof.
  intros g1 RF poly Ht Hpr Hmiss Hcyc Hbic Hsel Hd Hc Hsave.
  unfold entered in Hpr. subst g1 RF.
  assert (Hframes :
    tutte_frame rec graph mid s = Done (pmul poly (Y (reduce_loops graph).1), gd, s') ∧
    flow_frame rec graph mid s = Done (pmul poly (Y (reduce_loops graph).1), gd, s')).
  { unfold tutte_frame, flow_frame. rewrite (leb_gt_false _ _ Ht). cbv zeta.
    rewrite Hpr, !bind_Done. cbn [fst snd].
    destruct pb as [|k|k r id]; [| |done];
      rewrite Hcyc, Hbic; cbn [negb]; rewrite Hsel, !bind_Done, Hd, !bind_Done;
      cbn [fst snd]; rewrite Hc, !bind_Done; cbn [fst snd]; fold poly;
      by rewrite Hsave. }
  destruct Hframes as (? & ?). repeat split; try done.
  - subst poly. intros Hk. replace (1 <? third edge) with true by (symmetry; apply Z.ltb_lt; lia).
    rewrite u32_small; [done|]. unfold UINT_MAX in Hk. lia.
  - subst poly. intros Hk. by replace (1 <? third edge) with false by (symmetry; apply Z.ltb_ge; lia).
Qed.

(** C9 on the code.  On a cache hit the frame of [flow] and of
    [chromatic] increments [cache_hit_sizes[|V|]], the frame of [tutte]
    increments [cache_hit_sizes[|V| + 1]] and leaves cell [|V|] as it was;
    where that cell is outside the vector the access is undefined. *)
Theorem hit_size_cell (rec : frame) (graph : G) (mid : Z) (s : state)
    (key : K) (r : P) (id : Z) (s1 : state) :
  let g1 := (reduce_loops graph).2 in
  let RF := Y (reduce_loops graph).1 in
  let bump i := with_cache_hit_sizes
                  (alter (λ v, u32 (v + 1)) (Z.to_nat i) (cache_hit_sizes s1)) s1 in
  0 < current_timeout s →
  (probe_cache ((small_graph_threshold cfg <=? num_vertices g1)
                && negb (is_multitree g1)) g1 (entered s) = Done (Hit key r id, s1) →
   (is_Some (cache_hit_sizes s1 !! Z.to_nat (u32 (num_vertices g1 + 1))) →
      tutte_frame rec graph mid s =
      Done (pmul r RF, g1, bump (u32 (num_vertices g1 + 1)))) ∧
   (cache_hit_sizes s1 !! Z.to_nat (u32 (num_vertices g1 + 1)) = None →
      tutte_frame rec graph mid s = Fault) ∧
   (is_Some (cache_hit_sizes s1 !! Z.to_nat (u32 (num_vertices g1))) →
      flow_frame rec graph mid s =
      Done (pmul r RF, g1, bump (u32 (num_vertices g1))))) ∧
  (probe_cache (small_graph_threshold cfg <=? num_vertices graph) graph (entered s)
     = Done (Hit key r id, s1) →
   is_Some (cache_hit_sizes s1 !! Z.to_nat (u32 (num_vertices graph))) →
   chromatic_frame rec graph mid s =
   Done (r, graph, with_cache_hit_sizes
                     (alter (λ v, u32 (v + 1)) (Z.to_nat (u32 (num_vertices graph)))
                            (cache_hit_sizes s1)) s1)).
Proof.
  intros g1 RF bump Ht. subst g1 RF bump. unfold entered.
  assert (Hincr : ∀ i v, cache_hit_sizes s1 !! Z.to_nat i = Some v →
            incr_hit_size i s1 =
            Done (with_cache_hit_sizes
                    (alter (λ v, u32 (v + 1)) (Z.to_nat i) (cache_hit_sizes s1)) s1)).
  { intros i v Hv. unfold incr_hit_size. rewrite Hv. do 2 f_equal.
    apply list_eq. intros j. destruct (decide (j = Z.to_nat i)) as [->|Hne].
    - rewrite list_lookup_alter_eq, Hv. simpl.
      apply list_lookup_insert_eq. by eapply lookup_lt_Some.
    - by rewrite list_lookup_alter_ne, list_lookup_insert_ne. }
  split.
  - intros Hpr. unfold tutte_frame, flow_frame. rewrite (leb_gt_false _ _ Ht). cbv zeta.
    rewrite Hpr, !bind_Done. cbn [fst snd]. repeat split.
    + intros (v & Hv). by rewrite (Hincr _ _ Hv).
    + intros Hv. unfold incr_hit_size. by rewrite Hv.
    + intros (v & Hv). by rewrite (Hincr _ _ Hv).
  - intros Hpr (v & Hv). unfold chromatic_frame. rewrite (leb_gt_false _ _ Ht). cbv zeta.
    rewrite Hpr, !bind_Done. cbn [fst snd]. by rewrite (Hincr _ _ Hv).
Qed.

(** The store after a miss, mode by mode.  A [tutte] frame whose probe missed
    ends with [cache.store(key, poly, mid)] on every path.  A [chromatic]
    frame whose probe missed and whose graph is not biconnected returns
    the product over the components with the cache as the last component
    left it: no store.  A [flow] frame that takes the early [return P()]
    leaves the cache as the probe left it: no store either. *)
Lemma save_on_miss_by_mode (rec : frame) (graph : G) (mid : Z) (s : state)
    (key : K) (s1 : state) :
  let g1 := (reduce_loops graph).2 in
  0 < current_timeout s →
  (probe_cache ((small_graph_threshold cfg <=? num_vertices g1)
                && negb (is_multitree g1)) g1 (entered s) = Done (Miss key, s1) →
   (∀ p g s', tutte_frame rec graph mid s = Done (p, g, s') →
      ∃ poly sb, p = pmul poly (Y (reduce_loops graph).1) ∧
                 save (Some key) poly mid sb = Done s') ∧
   (reduce_multicycles cfg && is_multicycle g1 = false →
    is_biconnected g1 = false →
    has_single_edge (remove_graphs (extract_biconnected_components g1).2
                                   (extract_biconnected_components g1).1) = true →
    ∃ p g s', flow_frame rec graph mid s = Done (p, g, s') ∧ cache s' = cache s1)) ∧
  (probe_cache (small_graph_threshold cfg <=? num_vertices graph) graph (entered s)
     = Done (Miss key, s1) →
   is_biconnected graph = false →
   ∀ p g s', chromatic_frame rec graph mid s = Done (p, g, s') →
     let ex := extract_biconnected_components graph in
     let rest := remove_graphs ex.2 ex.1 in
     chromatic_components rec ex.1 (X (num_edges rest)) (tree_id s1)
       (count_split rest ex.1
          (with_tree_id (u32 (tree_id s1 + Z.of_nat (length ex.1))) s1))
     = Done (p, s')).
Proof.
  intros g1 Ht. subst g1. unfold entered. split.
  - intros Hpr. split.
    + intros p g s'. unfold tutte_frame. rewrite (leb_gt_false _ _ Ht). cbv zeta.
      rewrite Hpr, !bind_Done. cbn [fst snd key_of].
      intros Hrun. apply res_bind_done in Hrun as (b & _ & Hrun).
      apply res_bind_done in Hrun as (sv & Hsave & Hret).
      injection Hret as <- <- <-. by exists b.1.1, b.2.
    + intros Hcyc Hbic Hsingle. unfold flow_frame. rewrite (leb_gt_false _ _ Ht).
      cbv zeta. rewrite Hpr, bind_Done. cbn [fst snd].
      rewrite Hcyc, Hbic. cbn [negb]. rewrite Hsingle. cbn [res_bind mbind res_mbind].
      eexists _, _, _. split; [reflexivity|]. done.
  - intros Hpr Hbic p g s'. unfold chromatic_frame. rewrite (leb_gt_false _ _ Ht). cbv zeta.
    rewrite Hpr, !bind_Done. cbn [fst snd]. rewrite Hbic. cbn [negb].
    intros Hrun. apply res_bind_done in Hrun as (r & Hcomp & Hret).
    injection Hret as <- <- <-. rewrite Hcomp. by destruct r.
Qed.

(** ** [select_edge] *)

(** The cost and the edge of a candidate [(head, tail, count, headc, tailc)]. *)
Definition cand_cost (V : Z) (cd : Z * Z * Z * Z * Z) : Z :=
  match cost_of V cd.1.2 cd.2 with Some x => x | None => 0 end.

Definition cand_edge (cd : Z * Z * Z * Z * Z) : edge_t :=
  picked cd.1.1.1.1 cd.1.1.1.2 cd.1.1.2.

Definition cost_policy : Prop :=
  edge_selection_heuristic cfg ≠ VERTEX_ORDER ∧ edge_selection_heuristic cfg ≠ RANDOM.

Lemma cand_cost_nonneg V cd : 0 ≤ cand_cost V cd.
Proof.
  unfold cand_cost, cost_of.
  destruct (edge_selection_heuristic cfg); try done; unfold u32, wrap;
    apply Z.mod_pos_bound; lia.
Qed.

Lemma select_scan_max V target : cost_policy → ∀ cands best r rcount,
  0 ≤ best →
  (Forall (λ cd, cand_cost V cd ≤ best) cands ∧
   select_scan V target cands best r rcount =
   if best =? 0 then Throw (runtime_error "internal failure") else Done r) ∨
  (∃ l1 cd l2, cands = l1 ++ cd :: l2 ∧ best < cand_cost V cd ∧
     Forall (λ x, cand_cost V x < cand_cost V cd) l1 ∧
     Forall (λ x, cand_cost V x ≤ cand_cost V cd) l2 ∧
     select_scan V target cands best r rcount = Done (cand_edge cd)).
Proof.
  intros (Hvo & Hrnd). induction cands as [|cd cands IH]; intros best r rcount Hbest.
  - left. by split.
  - destruct cd as [[[[head tail] count] headc] tailc].
    assert (Hstep : select_scan V target ((head, tail, count, headc, tailc) :: cands)
                      best r rcount =
                    if best <? cand_cost V (head, tail, count, headc, tailc)
                    then select_scan V target cands
                           (cand_cost V (head, tail, count, headc, tailc))
                           (picked head tail count) rcount
                    else select_scan V target cands best r rcount).
    { unfold cand_cost. cbn [select_scan fst snd]. unfold cost_of.
      by destruct (edge_selection_heuristic cfg). }
    rewrite Hstep. set (cd := (head, tail, count, headc, tailc)) in *.
    destruct (Z.ltb_spec best (cand_cost V cd)) as [Hlt|Hge].
    + right. destruct (IH (cand_cost V cd) (picked head tail count) rcount)
        as [(Hall & Hrun)|(l1 & cd' & l2 & -> & Hlt' & Hl1 & Hl2 & Hrun)]; [lia|..].
      * exists [], cd, cands. split; [done|]. split; [done|]. split; [done|].
        split; [done|]. rewrite Hrun.
        replace (cand_cost V cd =? 0) with false by (symmetry; apply Z.eqb_neq; lia).
        done.
      * exists (cd :: l1), cd', l2. split; [done|]. split; [lia|].
        split; [by apply Forall_cons|]. by split.
    + destruct (IH best r rcount Hbest)
        as [(Hall & Hrun)|(l1 & cd' & l2 & -> & Hlt' & Hl1 & Hl2 & Hrun)].
      * left. split; [by apply Forall_cons|done].
      * right. exists (cd :: l1), cd', l2. split; [done|]. split; [done|].
        split; [apply Forall_cons; split; [lia|done]|]. by split.
Qed.

(** X14.  [select_edge] under each policy.  With one of the five degree
    policies it returns the first candidate of the highest cost, as long
    as that cost is not 0; when every candidate costs 0, or there is none,
    it throws ["internal failure"].  [VERTEX_ORDER] returns the first
    candidate.  [RANDOM] returns the first candidate when the drawn index
    is 0; with any other index the comparison after the [switch] reads
    [cost] before anything was assigned to it. *)
Theorem select_edge_spec (graph : G) :
  let V := u32 (num_vertices graph) in
  (cost_policy →
   (Forall (λ cd, cand_cost V cd = 0) (candidates graph) ∧
    select_edge graph = Throw (runtime_error "internal failure")) ∨
   (∃ l1 cd l2, candidates graph = l1 ++ cd :: l2 ∧
      select_edge graph = Done (cand_edge cd) ∧
      0 < cand_cost V cd ∧
      Forall (λ x, cand_cost V x < cand_cost V cd) l1 ∧
      Forall (λ x, cand_cost V x ≤ cand_cost V cd) l2)) ∧
  (edge_selection_heuristic cfg = VERTEX_ORDER →
   select_edge graph =
   match candidates graph with
   | [] => Throw (runtime_error "internal failure")
   | cd :: _ => Done (cand_edge cd)
   end) ∧
  (edge_selection_heuristic cfg = RANDOM →
   select_edge graph =
   match candidates graph with
   | [] => Throw (runtime_error "internal failure")
   | cd :: _ => if rtarget cfg (num_edges graph) =? 0 then Done (cand_edge cd) else Fault
   end).
Proof.
  intros V. split; [|split].
  - intros Hpol. unfold select_edge. fold V.
    destruct (select_scan_max V (rtarget cfg (num_edges graph)) Hpol (candidates graph) 0
                {| first := UINT_MAX; second := UINT_MAX; third := UINT_MAX |} 0)
      as [(Hall & Hrun)|(l1 & cd & l2 & Hsplit & Hlt & Hl1 & Hl2 & Hrun)]; [lia|..].
    + left. split; [|done]. eapply Forall_impl; [exact Hall|].
      intros cd Hle. pose proof (cand_cost_nonneg V cd). simpl in Hle. lia.
    + right. by exists l1, cd, l2.
  - intros Hvo. unfold select_edge.
    destruct (candidates graph) as [|[[[[head tail] count] headc] tailc] cands]; [done|].
    cbn [select_scan]. by rewrite Hvo.
  - intros Hrnd. unfold select_edge.
    destruct (candidates graph) as [|[[[[head tail] count] headc] tailc] cands]; [done|].
    cbn [select_scan]. rewrite Hrnd. by rewrite (Z.eqb_sym 0).
Qed.

End engine.
End Engine.

(** * Text substitution, [tutte/tutte.cpp] lines 919-927

    [search_replace] prepares the polynomial for printing in the flow
    and chromatic modes.  Strings are lists of characters; [find] and
    [replace] are the members of [std::string] the function calls, with
    the result of [find] and the positions passed as [size_t] values.
    [pos] is an [int]: every assignment to it converts, and every use of
    it as a position converts back. *)

Module Text.

Definition npos : Z := 2 ^ 64 - 1.

(** Conversion to [int]. *)
Definition int32 (z : Z) : Z := (z + 2 ^ 31) mod 2 ^ 32 - 2 ^ 31.

Definition size (s : list Ascii.ascii) : Z := Z.of_nat (length s).

Inductive ret :=
  | Returns (text : list Ascii.ascii)
  | OutOfRange
  | Unfinished.

Fixpoint starts_with (s l : list Ascii.ascii) : bool :=
  match s, l with
  | [], _ => true
  | _ :: _, [] => false
  | a :: s, b :: l => Ascii.eqb a b && starts_with s l
  end.

(** [find_at s l i]: the lowest position of [s] in [l], where [l] starts
    at position [i] of the text. *)
Fixpoint find_at (s l : list Ascii.ascii) (i : Z) : Z :=
  if starts_with s l then i
  else match l with
       | [] => npos
       | _ :: l => find_at s l (i + 1)
       end.

(** [text.find(s, pos)]. *)
Definition find (text s : list Ascii.ascii) (pos : Z) : Z :=
  if pos <=? size text then find_at s (drop (Z.to_nat pos) text) pos else npos.

(** [text.replace(pos, n1, s, n2)] with [n2] the length of [s]. *)
Definition replace (text : list Ascii.ascii) (pos n1 : Z) (s : list Ascii.ascii)
    : option (list Ascii.ascii) :=
  if size text <? pos then None
  else
    let xlen := Z.min n1 (size text - pos) in
    Some (take (Z.to_nat pos) text ++ s ++ drop (Z.to_nat (pos + xlen)) text).

Fixpoint search_replace_loop (fuel : nat) (from to text : list Ascii.ascii) (pos : Z) : ret :=
  match fuel with
  | O => Unfinished
  | S fuel =>
      let pos := int32 (find text from (u64 pos)) in
      if u64 pos =? npos then Returns text
      else
        match replace text (u64 pos) (size from) to with
        | None => OutOfRange
        | Some text =>
            let pos := int32 (u64 (u64 pos - size from)) in
            let pos := int32 (u64 (u64 pos + size to)) in
            search_replace_loop fuel from to text pos
        end
  end.

Definition search_replace (fuel : nat) (from to text : list Ascii.ascii) : ret :=
  search_replace_loop fuel from to text 0.

(** What the substitution of [to] for the character [f] should give. *)
Definition subst_char (f : Ascii.ascii) (to : list Ascii.ascii) (text : list Ascii.ascii) : list Ascii.ascii :=
  flat_map (λ ch, if Ascii.eqb ch f then to else [ch]) text.

(** ** Integer conversions *)

Lemma int32_small z : - 2 ^ 31 ≤ z < 2 ^ 31 → int32 z = z.
Proof. intros Hz. unfold int32. rewrite Z.mod_small by lia. lia. Qed.

Lemma int32_shift z k : int32 (z + k * 2 ^ 32) = int32 z.
Proof.
  unfold int32. replace (z + k * 2 ^ 32 + 2 ^ 31) with (z + 2 ^ 31 + k * 2 ^ 32) by lia.
  by rewrite Z_mod_plus_full.
Qed.

Lemma int32_u64 z : int32 (u64 z) = int32 z.
Proof.
  unfold u64, wrap. rewrite (Z.mod_eq z (2 ^ 64)) by lia.
  replace (z - 2 ^ 64 * (z / 2 ^ 64)) with (z + (- 2 ^ 32 * (z / 2 ^ 64)) * 2 ^ 32) by lia.
  apply int32_shift.
Qed.

Lemma int32_u64_add z a : int32 (u64 (u64 z + a)) = int32 (z + a).
Proof.
  rewrite int32_u64. unfold u64, wrap. rewrite (Z.mod_eq z (2 ^ 64)) by lia.
  replace (z - 2 ^ 64 * (z / 2 ^ 64) + a)
    with (z + a + (- 2 ^ 32 * (z / 2 ^ 64)) * 2 ^ 32) by lia.
  apply int32_shift.
Qed.

Lemma int32_congr z a : int32 (int32 z + a) = int32 (z + a).
Proof.
  unfold int32 at 2. rewrite (Z.mod_eq (z + 2 ^ 31) (2 ^ 32)) by lia.
  replace (z + 2 ^ 31 - 2 ^ 32 * ((z + 2 ^ 31) / 2 ^ 32) - 2 ^ 31 + a)
    with (z + a + (- ((z + 2 ^ 31) / 2 ^ 32)) * 2 ^ 32) by lia.
  apply int32_shift.
Qed.

(** The position after one replacement at [p]. *)
Lemma next_pos p a b :
  - 2 ^ 31 ≤ p - a + b < 2 ^ 31 →
  int32 (u64 (u64 (int32 (u64 (u64 p - a))) + b)) = p - a + b.
Proof.
  intros Hr. rewrite int32_u64_add.
  replace (u64 p - a) with (u64 p + - a) by lia.
  rewrite int32_u64_add, int32_congr.
  replace (p + - a + b) with (p - a + b) by lia. by apply int32_small.
Qed.

Lemma next_pos_small p a b :
  0 ≤ p < 2 ^ 64 → - 2 ^ 31 ≤ p - a + b < 2 ^ 31 →
  int32 (u64 (u64 (int32 (u64 (p - a))) + b)) = p - a + b.
Proof. intros Hp Hr. rewrite <- (next_pos p a b Hr). by rewrite (u64_small p). Qed.

Lemma int32_npos : int32 npos = -1.
Proof. reflexivity. Qed.

Lemma u64_neg z : - 2 ^ 31 ≤ z < 0 → u64 z = 2 ^ 64 + z.
Proof.
  intros Hz. unfold u64, wrap.
  replace z with (2 ^ 64 + z + (-1) * 2 ^ 64) at 1 by lia.
  rewrite Z_mod_plus_full. apply Z.mod_small. lia.
Qed.

(** ** [find] *)

Lemma starts_with_app s l : starts_with s (s ++ l) = true.
Proof.
  induction s as [|a s IH]; [done|]. simpl. by rewrite Ascii.eqb_refl, IH.
Qed.

Lemma starts_with_inv s : ∀ l, starts_with s l = true → l = s ++ drop (length s) l.
Proof.
  induction s as [|a s IH]; intros l Hs; [done|].
  destruct l as [|b l]; [done|]. simpl in Hs.
  apply andb_prop in Hs as (Hab & Hs). apply Ascii.eqb_eq in Hab as ->.
  simpl. f_equal. by apply IH.
Qed.

(** A position that [find_at] returns is one where [s] starts. *)
Lemma find_at_found s : ∀ l i,
  find_at s l i ≠ npos →
  ∃ k, find_at s l i = i + Z.of_nat k ∧ (k ≤ length l)%nat ∧
       starts_with s (drop k l) = true.
Proof.
  induction l as [|b l IH]; intros i Hf.
  - simpl in *. destruct (starts_with s []) eqn:Hs; [|done].
    exists 0%nat. split; [lia|]. split; [simpl; lia|]. done.
  - simpl in *. destruct (starts_with s (b :: l)) eqn:Hs.
    + exists 0%nat. split; [lia|]. split; [simpl; lia|]. done.
    + destruct (IH (i + 1) Hf) as (k & Hk & Hle & Hst).
      exists (S k). split; [lia|]. split; [simpl; lia|]. done.
Qed.

Lemma find_at_here s l i : starts_with s l = true → find_at s l i = i.
Proof. intros Hs. destruct l; simpl; by rewrite Hs. Qed.

Lemma find_found text s pos p :
  find text s pos = p → p ≠ npos →
  pos ≤ p ∧ p - pos ≤ size text - pos ∧ 0 ≤ size text - pos ∧
  starts_with s (drop (Z.to_nat pos + Z.to_nat (p - pos)) text) = true.
Proof.
  unfold find. destruct (Z.leb_spec pos (size text)) as [Hle|Hgt]; [|congruence].
  intros Hf Hp. rewrite <- Hf in Hp.
  destruct (find_at_found s _ _ Hp) as (k & Hk & Hlen & Hst).
  rewrite Hk in Hf. subst p. rewrite length_drop in Hlen. unfold size in *.
  rewrite drop_drop in Hst.
  replace (Z.to_nat (pos + Z.of_nat k - pos)) with k by lia.
  split; [lia|]. split; [lia|]. split; [lia|]. done.
Qed.

(** With a single character to look for. *)
Lemma find_at_char f : ∀ l1 l2 i,
  f ∉ l1 → find_at [f] (l1 ++ f :: l2) i = i + Z.of_nat (length l1).
Proof.
  induction l1 as [|b l1 IH]; intros l2 i Hf.
  - simpl. rewrite Ascii.eqb_refl. simpl. lia.
  - apply not_elem_of_cons in Hf as (Hfb & Hf). simpl.
    replace (Ascii.eqb f b) with false by (symmetry; by apply Ascii.eqb_neq).
    simpl. rewrite IH by done. lia.
Qed.

Lemma find_at_no_char f : ∀ l i, f ∉ l → find_at [f] l i = npos.
Proof.
  induction l as [|b l IH]; intros i Hf; [done|].
  apply not_elem_of_cons in Hf as (Hfb & Hf). simpl.
  replace (Ascii.eqb f b) with false by (symmetry; by apply Ascii.eqb_neq).
  simpl. by apply IH.
Qed.

Lemma subst_char_none f to l : f ∉ l → subst_char f to l = l.
Proof.
  induction l as [|b l IH]; intros Hf; [done|].
  apply not_elem_of_cons in Hf as (Hfb & Hf). unfold subst_char in *. simpl.
  replace (Ascii.eqb b f) with false by (symmetry; by apply Ascii.eqb_neq).
  simpl. f_equal. by apply IH.
Qed.

Lemma subst_char_app f to l1 l2 :
  subst_char f to (l1 ++ l2) = subst_char f to l1 ++ subst_char f to l2.
Proof. unfold subst_char. apply flat_map_app. Qed.

Lemma subst_char_hit f to l : subst_char f to (f :: l) = to ++ subst_char f to l.
Proof. unfold subst_char. simpl. by rewrite Ascii.eqb_refl. Qed.

Lemma split_first (f : Ascii.ascii) : ∀ l,
  f ∈ l → ∃ l1 l2, l = l1 ++ f :: l2 ∧ f ∉ l1.
Proof.
  induction l as [|b l IH]; intros Hf; [by apply elem_of_nil in Hf|].
  destruct (decide (b = f)) as [->|Hne].
  - exists [], l. split; [done|]. apply not_elem_of_nil.
  - apply elem_of_cons in Hf as [->|Hf]; [done|].
    destruct (IH Hf) as (l1 & l2 & -> & Hl1). exists (b :: l1), l2.
    split; [done|]. apply not_elem_of_cons. split; [congruence|done].
Qed.

Fixpoint occurrences (f : Ascii.ascii) (l : list Ascii.ascii) : nat :=
  match l with
  | [] => 0
  | b :: l => (if Ascii.eqb b f then 1 else 0) + occurrences f l
  end.

Lemma occurrences_app f l1 l2 :
  occurrences f (l1 ++ l2) = (occurrences f l1 + occurrences f l2)%nat.
Proof. induction l1 as [|b l1 IH]; [done|]. simpl. rewrite IH. lia. Qed.

(** The loop, with [D] the part of the text already rewritten and [R]
    the part of the input still to scan. *)
Lemma search_replace_loop_char f to z : ∀ fuel D R pos,
  last to = Some z → z ≠ f →
  0 ≤ pos ≤ size D → f ∉ drop (Z.to_nat pos) D →
  size D + size (subst_char f to R) < 2 ^ 31 →
  (occurrences f R < fuel)%nat →
  search_replace_loop fuel [f] to (D ++ R) pos = Returns (D ++ subst_char f to R).
Proof.
  induction fuel as [|fuel IH]; intros D R pos Hlast Hz Hpos Hclean Hsize Hfuel; [lia|].
  assert (Hto : (1 ≤ length to)%nat).
  { destruct to; [done|simpl; lia]. }
  pose proof (Z.le_trans _ _ _ (proj1 Hpos) (proj2 Hpos)) as HD.
  cbn [search_replace_loop]. rewrite (u64_small pos) by (unfold size in *; lia).
  unfold find. replace (pos <=? size (D ++ R)) with true
    by (symmetry; apply Z.leb_le; unfold size in *; rewrite length_app; lia).
  rewrite drop_app_le by (unfold size in *; lia).
  destruct (decide (f ∈ R)) as [Hin|Hnin].
  - destruct (split_first f R Hin) as (r1 & r2 & -> & Hr1).
    rewrite (app_assoc (drop _ D) r1), find_at_char
      by (intros Hx; apply elem_of_app in Hx as [Hx|Hx]; done).
    rewrite length_app, length_drop.
    set (p := size D + size r1).
    replace (pos + Z.of_nat (length D - Z.to_nat pos + length r1)) with p
      by (unfold p, size in *; lia).
    rewrite subst_char_app, subst_char_hit, (subst_char_none f to r1 Hr1) in Hsize |- *.
    unfold size in Hsize. rewrite !length_app in Hsize.
    assert (Hp : 0 ≤ p ∧ p + Z.of_nat (length to) < 2 ^ 31) by (unfold p, size; lia).
    rewrite (int32_small p) by lia. rewrite (u64_small p) by lia.
    replace (p =? npos) with false by (symmetry; apply Z.eqb_neq; unfold npos; lia).
    unfold replace. unfold size at 1. rewrite !length_app. cbn [length].
    replace (Z.of_nat (length D + (length r1 + S (length r2))) <? p) with false
      by (symmetry; apply Z.ltb_ge; unfold p, size; lia).
    replace (Z.min (size [f]) (size (D ++ r1 ++ f :: r2) - p)) with 1
      by (unfold p, size; rewrite !length_app; cbn [length]; lia).
    replace (take (Z.to_nat p) (D ++ r1 ++ f :: r2)) with (D ++ r1).
    2:{ rewrite app_assoc. rewrite take_app_length'; [done|].
        unfold p, size. rewrite length_app. lia. }
    replace (drop (Z.to_nat (p + 1)) (D ++ r1 ++ f :: r2)) with r2.
    2:{ replace (D ++ r1 ++ f :: r2) with ((D ++ r1 ++ [f]) ++ r2)
          by (by rewrite <- !app_assoc).
        rewrite drop_app_length'; [done|].
        unfold p, size. rewrite !length_app. cbn [length]. lia. }
    rewrite next_pos_small by (unfold size; cbn [length]; lia).
    replace ((D ++ r1) ++ to ++ r2) with ((D ++ r1 ++ to) ++ r2)
      by (by rewrite <- !app_assoc).
    rewrite IH; try done.
    + by rewrite <- !app_assoc.
    + unfold p, size. rewrite !length_app. cbn [length]. lia.
    + apply last_Some in Hlast as (t0 & ->).
      replace (D ++ r1 ++ t0 ++ [z]) with ((D ++ r1 ++ t0) ++ [z])
        by (by rewrite <- !app_assoc).
      rewrite drop_app_length'.
      * intros Hx. apply list_elem_of_singleton in Hx. congruence.
      * unfold p, size. rewrite !length_app. cbn [length]. lia.
    + unfold size. rewrite !length_app. lia.
    + rewrite occurrences_app in Hfuel. simpl in Hfuel.
      rewrite Ascii.eqb_refl in Hfuel. lia.
  - rewrite find_at_no_char
      by (intros Hx; apply elem_of_app in Hx as [Hx|Hx]; done).
    rewrite int32_npos. by rewrite (subst_char_none f to R Hnin).
Qed.

Lemma starts_with_length s : ∀ l, starts_with s l = true → (length s ≤ length l)%nat.
Proof.
  induction s as [|a s IH]; intros l Hs; [simpl; lia|].
  destruct l as [|b l]; [done|]. simpl in Hs.
  apply andb_prop in Hs as (_ & Hs). apply IH in Hs. simpl. lia.
Qed.

(** The replacement at a position where [from] starts. *)
Lemma replace_at text from to p :
  0 ≤ p ≤ size text → starts_with from (drop (Z.to_nat p) text) = true →
  replace text p (size from) to =
  Some (take (Z.to_nat p) text ++ to ++ drop (Z.to_nat p + length from) text).
Proof.
  intros Hp Hs. unfold replace.
  replace (size text <? p) with false by (symmetry; apply Z.ltb_ge; lia).
  pose proof (starts_with_length _ _ Hs) as Hlen. rewrite length_drop in Hlen.
  unfold size in *. rewrite Z.min_l by lia.
  by replace (Z.to_nat (p + Z.of_nat (length from)))
    with (Z.to_nat p + length from)%nat by lia.
Qed.

Lemma find_at_occurs s l2 : ∀ l1 i,
  ∃ k, find_at s (l1 ++ s ++ l2) i = i + Z.of_nat k ∧ (k ≤ length l1)%nat ∧
       starts_with s (drop k (l1 ++ s ++ l2)) = true.
Proof.
  induction l1 as [|b l1 IH]; intros i.
  - exists 0%nat. simpl. rewrite find_at_here by apply starts_with_app.
    split; [lia|]. split; [lia|]. apply starts_with_app.
  - destruct (starts_with s ((b :: l1) ++ s ++ l2)) eqn:Hs.
    + exists 0%nat. rewrite find_at_here by done. split; [lia|]. split; [simpl; lia|done].
    + destruct (IH (i + 1)) as (k & Hk & Hle & Hst). exists (S k).
      simpl in Hs |- *. rewrite Hs. split; [lia|]. split; [lia|done].
Qed.

(** The loop when [to] is [from]: the text and the position stay. *)
Lemma search_replace_loop_same from text p : ∀ fuel pos,
  0 ≤ p ≤ size text → size text < 2 ^ 31 →
  starts_with from (drop (Z.to_nat p) text) = true →
  0 ≤ pos < 2 ^ 31 → find text from pos = p →
  search_replace_loop fuel from from text pos = Unfinished.
Proof.
  intros fuel pos Hp Hsize Hs. revert pos.
  induction fuel as [|fuel IH]; intros pos Hpos Hfind; [done|].
  cbn [search_replace_loop]. rewrite (u64_small pos) by lia. rewrite Hfind.
  rewrite (int32_small p) by lia. rewrite (u64_small p) by lia.
  replace (p =? npos) with false by (symmetry; apply Z.eqb_neq; unfold npos; lia).
  rewrite (replace_at text from from p Hp Hs).
  pose proof (starts_with_inv _ _ Hs) as Heq. rewrite drop_drop in Heq.
  rewrite <- Heq, take_drop.
  rewrite next_pos_small by lia.
  apply IH; [lia|]. replace (p - size from + size from) with p by lia.
  unfold find. replace (p <=? size text) with true by (symmetry; apply Z.leb_le; lia).
  by apply find_at_here.
Qed.

(** X15.  Every [f] of the text is replaced by [to], and nothing else changes,
    when [to] is not empty and does not end in [f]: the scan resumes at
    the last character of the text just inserted.  This covers the two
    calls of [run], which replace ["x"] and ["y"] by ["(1-x)"]. *)
Theorem search_replace_char (fuel : nat) (f z : Ascii.ascii)
    (to text : list Ascii.ascii) :
  last to = Some z → z ≠ f →
  size (subst_char f to text) < 2 ^ 31 →
  (occurrences f text < fuel)%nat →
  search_replace fuel [f] to text = Returns (subst_char f to text).
Proof.
  intros Hlast Hz Hsize Hfuel. unfold search_replace.
  apply (search_replace_loop_char f to z fuel [] text 0); try done.
  apply not_elem_of_nil.
Qed.

(** X16.  Replacing a string by itself does not return when the string occurs
    in the text: the scan resumes where the match was found. *)
Theorem search_replace_same (from l1 l2 : list Ascii.ascii) :
  size (l1 ++ from ++ l2) < 2 ^ 31 →
  ∀ fuel, search_replace fuel from from (l1 ++ from ++ l2) = Unfinished.
Proof.
  intros Hsize fuel. unfold search_replace.
  destruct (find_at_occurs from l2 l1 0) as (k & Hk & Hle & Hs).
  apply (search_replace_loop_same from _ (Z.of_nat k)).
  - unfold size. rewrite length_app. lia.
  - done.
  - by rewrite Nat2Z.id.
  - lia.
  - unfold find.
    replace (0 <=? size (l1 ++ from ++ l2)) with true
      by (symmetry; apply Z.leb_le; unfold size; lia).
    change (Z.to_nat 0) with 0%nat. rewrite drop_0, Hk. lia.
Qed.

(** X17.  A replacement that leaves the position negative ends the scan: when
    the first match is at [p] and [p + |to| < |from|], only that match is
    replaced, whatever follows. *)
Theorem search_replace_stops_early (fuel : nat) (from to text : list Ascii.ascii)
    (p : Z) :
  find text from 0 = p → p ≠ npos →
  p + size to < size from → size text < 2 ^ 31 → (2 ≤ fuel)%nat →
  search_replace fuel from to text =
  Returns (take (Z.to_nat p) text ++ to ++ drop (Z.to_nat p + length from) text).
Proof.
  intros Hfind Hp Hshort Hsize Hfuel.
  destruct (find_found text from 0 p Hfind Hp) as (Hp0 & Hple & _ & Hs).
  simpl in Hs. rewrite Z.sub_0_r in Hs, Hple.
  pose proof (starts_with_length _ _ Hs) as Hlen. rewrite length_drop in Hlen.
  destruct fuel as [|[|fuel]]; [lia|lia|].
  unfold search_replace. cbn [search_replace_loop].
  change (u64 0) with 0. rewrite Hfind.
  rewrite (int32_small p) by lia. rewrite (u64_small p) by lia.
  replace (p =? npos) with false by (symmetry; by apply Z.eqb_neq).
  rewrite (replace_at text from to p) by (done || lia).
  set (text' := take (Z.to_nat p) text ++ to ++ drop (Z.to_nat p + length from) text).
  assert (Hsize' : size text' < 2 ^ 31).
  { unfold text', size in *. rewrite !length_app, length_take, length_drop. lia. }
  rewrite next_pos_small by (unfold size in *; lia).
  rewrite (u64_neg (p - size from + size to)) by (unfold size in *; lia).
  unfold find.
  replace (2 ^ 64 + (p - size from + size to) <=? size text') with false
    by (symmetry; apply Z.leb_gt; unfold size in *; lia).
  by rewrite int32_npos.
Qed.

End Text.

(** * Reading a graph, [tutte/tutte.cpp] lines 640-685

    [read_graph] takes one whitespace-delimited word of the input and
    reads it as [tail--head,tail--head,...].  The word is the argument
    here.  The graph class is a parameter: [make n] is [G(n)] and
    [add_edge g a b] is [g.add_edge(a,b)].  [extract_int] is what
    [int r; ss >> r; return r;] returns for a fresh [stringstream] over
    the text, as C++11 defines it: blanks are skipped; when the text ends
    there, nothing is extracted and [r] is never written, so that
    [return r] reads an indeterminate value; otherwise a sign and decimal
    digits are taken, and [r] is the number, clamped to the range of
    [int], or 0 when there is no digit to take. *)

Module Input.

Import Text.

Inductive thrown :=
  | Std (e : exn)
  | out_of_range.

Inductive outcome (A : Type) :=
  | Returns (a : A)
  | Throws (t : thrown)
  | Undefined
  | Unfinished.
Arguments Returns {A} a.
Arguments Throws {A} t.
Arguments Undefined {A}.
Arguments Unfinished {A}.

Definition outcome_bind {A B} (f : A → outcome B) (m : outcome A) : outcome B :=
  match m with
  | Returns a => f a
  | Throws t => Throws t
  | Undefined => Undefined
  | Unfinished => Unfinished
  end.

#[global] Instance outcome_mbind : MBind outcome := @outcome_bind.

Definition INT_MAX : Z := 2 ^ 31 - 1.
Definition INT_MIN : Z := - 2 ^ 31.

Definition code (a : Ascii.ascii) : Z := Z.of_nat (Ascii.nat_of_ascii a).

Definition isdigit (a : Ascii.ascii) : bool := (48 <=? code a) && (code a <=? 57).

Definition isspace (a : Ascii.ascii) : bool :=
  (code a =? 32) || ((9 <=? code a) && (code a <=? 13)).

Definition dash : Ascii.ascii := Eval vm_compute in Ascii.ascii_of_nat 45.
Definition plus : Ascii.ascii := Eval vm_compute in Ascii.ascii_of_nat 43.
Definition comma : Ascii.ascii := Eval vm_compute in Ascii.ascii_of_nat 44.

Fixpoint skip_space (s : list Ascii.ascii) : list Ascii.ascii :=
  match s with
  | a :: s' => if isspace a then skip_space s' else s
  | [] => []
  end.

(** The number the leading digits of [s] spell, after [acc]. *)
Fixpoint digits_value (s : list Ascii.ascii) (acc : Z) : Z :=
  match s with
  | a :: s' => if isdigit a then digits_value s' (10 * acc + (code a - 48)) else acc
  | [] => acc
  end.

Definition starts_with_digit (s : list Ascii.ascii) : bool :=
  match s with
  | a :: _ => isdigit a
  | [] => false
  end.

Definition extract_int (s : list Ascii.ascii) : outcome Z :=
  match skip_space s with
  | [] => Undefined
  | a :: s' =>
      let signed :=
        if Ascii.eqb a dash then (true, s')
        else if Ascii.eqb a plus then (false, s')
        else (false, a :: s') in
      if starts_with_digit signed.2 then
        let v := digits_value signed.2 0 in
        let v := if signed.1 then - v else v in
        Returns (Z.max INT_MIN (Z.min INT_MAX v))
      else Returns 0
  end.

(** [str.substr(pos, n)]. *)
Definition substr (str : list Ascii.ascii) (pos n : Z) : option (list Ascii.ascii) :=
  if size str <? pos then None
  else Some (take (Z.to_nat n) (drop (Z.to_nat pos) str)).

(** [str[pos]] for [pos <= str.length()]: the character, or the
    terminator at the end. *)
Definition at_ (str : list Ascii.ascii) (pos : Z) : outcome Ascii.ascii :=
  match str !! Z.to_nat pos with
  | Some a => Returns a
  | None => if pos =? size str then Returns Ascii.zero else Undefined
  end.

(** The [while] of [parse_number]; [pos] is an [unsigned int]. *)
Fixpoint scan_digits (fuel : nat) (str : list Ascii.ascii) (pos : Z) : outcome Z :=
  match fuel with
  | O => Unfinished
  | S fuel =>
      if pos <? size str then
        a ← at_ str pos;
        if isdigit a then scan_digits fuel str (u32 (pos + 1)) else Returns pos
      else Returns pos
  end.

(** [parse_number(pos, str)]: the number and the new [pos]. *)
Definition parse_number (fuel : nat) (pos : Z) (str : list Ascii.ascii)
    : outcome (Z * Z) :=
  let s := int32 pos in
  pos ← scan_digits fuel str pos;
  match substr str (u64 s) pos with
  | None => Throws out_of_range
  | Some sub => r ← extract_int sub; Returns (r, pos)
  end.

Definition syntax_error (c got : Ascii.ascii) : thrown :=
  Std (runtime_error
         (String.append "syntax error -- expected '"
            (String c (String.append "', got '" (String got "'"))))).

(** [match(c, pos, str)]: the new [pos]. *)
Definition match_ (c : Ascii.ascii) (pos : Z) (str : list Ascii.ascii) : outcome Z :=
  got ← at_ str pos;
  if (size str <=? pos) || negb (Ascii.eqb got c) then Throws (syntax_error c got)
  else Returns (u32 (pos + 1)).

Section read.
Context {G : Type}.
Variable make : Z → G.
Variable add_edge : G → Z → Z → G.

(** The [while] of [read_graph]: [V] and the edge list. *)
Fixpoint read_edges (fuel : nat) (str : list Ascii.ascii) (firstTime : bool)
    (pos V : Z) (edgelist : list (Z * Z)) : outcome (Z * list (Z * Z)) :=
  match fuel with
  | O => Unfinished
  | S fuel' =>
      if pos <? size str then
        pos ← (if firstTime then Returns pos else match_ comma pos str);
        t ← parse_number fuel pos str;
        let tail := u32 t.1 in
        pos ← match_ dash t.2 str;
        pos ← match_ dash pos str;
        h ← parse_number fuel pos str;
        let head := u32 h.1 in
        read_edges fuel' str false h.2 (Z.max V (Z.max head tail))
                   (edgelist ++ [(tail, head)])
      else Returns (V, edgelist)
  end.

Definition read_graph (fuel : nat) (str : list Ascii.ascii) : outcome G :=
  r ← read_edges fuel str true 0 0 [];
  if r.1 =? 0 then Returns (make 0)
  else Returns (fold_left (λ g e, add_edge g e.1 e.2) r.2 (make (u32 (r.1 + 1)))).

(** ** The text of a list of edges *)

Definition digit (d : nat) : Ascii.ascii := Ascii.ascii_of_nat (48 + d).

Definition numeral (ds : list nat) : list Ascii.ascii := digit <$> ds.

Definition value (ds : list nat) : Z := fold_left (λ v d, 10 * v + Z.of_nat d) ds 0.

Definition edge_text (e : list nat * list nat) : list Ascii.ascii :=
  numeral e.1 ++ [dash; dash] ++ numeral e.2.

Fixpoint more_text (es : list (list nat * list nat)) : list Ascii.ascii :=
  match es with
  | [] => []
  | e :: es => comma :: edge_text e ++ more_text es
  end.

Definition graph_text (es : list (list nat * list nat)) : list Ascii.ascii :=
  match es with
  | [] => []
  | e :: es => edge_text e ++ more_text es
  end.

Definition is_number (ds : list nat) : Prop :=
  ds ≠ [] ∧ Forall (λ d, (d < 10)%nat) ds ∧ value ds ≤ INT_MAX.

Definition edges_of (es : list (list nat * list nat)) : list (Z * Z) :=
  (λ e, (value e.1, value e.2)) <$> es.

Definition top (V : Z) (es : list (Z * Z)) : Z :=
  fold_left (λ V e, Z.max V (Z.max e.2 e.1)) es V.

(** ** Characters *)

Lemma code_digit d : (d < 10)%nat → code (digit d) = 48 + Z.of_nat d.
Proof.
  intros Hd. unfold code, digit. rewrite Ascii.nat_ascii_embedding by lia. lia.
Qed.

Lemma isdigit_digit d : (d < 10)%nat → isdigit (digit d) = true.
Proof.
  intros Hd. unfold isdigit. rewrite (code_digit d Hd).
  apply andb_true_iff. split; [apply Z.leb_le|apply Z.leb_le]; lia.
Qed.

Lemma isspace_digit d : (d < 10)%nat → isspace (digit d) = false.
Proof.
  intros Hd. unfold isspace. rewrite (code_digit d Hd).
  apply orb_false_iff. split; [apply Z.eqb_neq; lia|].
  apply andb_false_iff. right. apply Z.leb_gt. lia.
Qed.

Lemma digit_not c d : (d < 10)%nat → isdigit c = false → Ascii.eqb (digit d) c = false.
Proof.
  intros Hd Hc. apply Ascii.eqb_neq. intros <-. by rewrite (isdigit_digit d Hd) in Hc.
Qed.

Lemma value_snoc_acc ds : ∀ acc,
  acc ≤ fold_left (λ v d, 10 * v + Z.of_nat d) ds acc ∨ acc < 0.
Proof.
  induction ds as [|d ds IH]; intros acc; [left; simpl; lia|].
  simpl. destruct (IH (10 * acc + Z.of_nat d)); lia.
Qed.

Lemma value_nonneg ds : 0 ≤ value ds.
Proof. unfold value. destruct (value_snoc_acc ds 0); lia. Qed.

(** ** [parse_number] and [match] on a well-formed piece of text *)

Lemma at_app pre a rest : at_ (pre ++ a :: rest) (size pre) = Returns a.
Proof.
  unfold at_, size. rewrite Nat2Z.id.
  by rewrite lookup_app_r, Nat.sub_diag by lia.
Qed.

Lemma at_end pre : at_ pre (size pre) = Returns Ascii.zero.
Proof.
  unfold at_, size. rewrite Nat2Z.id.
  rewrite lookup_ge_None_2 by lia. by rewrite Z.eqb_refl.
Qed.

Lemma scan_digits_numeral ds : ∀ fuel pre rest,
  Forall (λ d, (d < 10)%nat) ds → starts_with_digit rest = false →
  size (pre ++ numeral ds ++ rest) < 2 ^ 32 → (length ds < fuel)%nat →
  scan_digits fuel (pre ++ numeral ds ++ rest) (size pre)
  = Returns (size pre + Z.of_nat (length ds)).
Proof.
  induction ds as [|d ds IH]; intros fuel pre rest Hds Hrest Hsize Hfuel.
  - destruct fuel as [|fuel]; [simpl in Hfuel; lia|]. cbn [scan_digits numeral fmap list_fmap app].
    destruct rest as [|a rest].
    + rewrite app_nil_r. rewrite Z.ltb_irrefl. f_equal. simpl. lia.
    + replace (size pre <? size (pre ++ a :: rest)) with true
        by (symmetry; apply Z.ltb_lt; unfold size; rewrite length_app; simpl; lia).
      rewrite at_app. simpl in Hrest. cbn [mbind outcome_mbind outcome_bind].
      rewrite Hrest. f_equal. simpl. lia.
  - destruct fuel as [|fuel]; [simpl in Hfuel; lia|]. apply Forall_cons in Hds as (Hd & Hds).
    cbn [scan_digits numeral fmap list_fmap app].
    replace (size pre <? size (pre ++ digit d :: (digit <$> ds) ++ rest)) with true
      by (symmetry; apply Z.ltb_lt; unfold size; rewrite length_app; simpl; lia).
    rewrite at_app. cbn [mbind outcome_mbind outcome_bind].
    rewrite (isdigit_digit d Hd).
    assert (Hsz : size (pre ++ [digit d]) = size pre + 1)
      by (unfold size; rewrite length_app; simpl; lia).
    rewrite u32_small.
    2:{ unfold size in *. rewrite !length_app in Hsize. simpl in Hsize. lia. }
    rewrite <- Hsz.
    replace (pre ++ digit d :: (digit <$> ds) ++ rest)
      with ((pre ++ [digit d]) ++ numeral ds ++ rest) by (by rewrite <- app_assoc).
    rewrite IH; try done.
    + f_equal. rewrite Hsz. simpl. lia.
    + by rewrite <- app_assoc.
    + simpl in Hfuel. lia.
Qed.

Lemma digits_value_numeral ds rest : ∀ acc,
  Forall (λ d, (d < 10)%nat) ds → starts_with_digit rest = false →
  digits_value (numeral ds ++ rest) acc = fold_left (λ v d, 10 * v + Z.of_nat d) ds acc.
Proof.
  induction ds as [|d ds IH]; intros acc Hds Hrest.
  - simpl. destruct rest as [|a rest]; [done|]. simpl in *. by rewrite Hrest.
  - apply Forall_cons in Hds as (Hd & Hds). cbn [numeral fmap list_fmap app digits_value].
    rewrite (isdigit_digit d Hd), (code_digit d Hd).
    replace (10 * acc + (48 + Z.of_nat d - 48)) with (10 * acc + Z.of_nat d) by lia.
    by apply IH.
Qed.

Lemma extract_int_numeral ds rest :
  is_number ds → starts_with_digit rest = false →
  extract_int (numeral ds ++ rest) = Returns (value ds).
Proof.
  intros (Hne & Hds & Hmax) Hrest. destruct ds as [|d ds]; [done|].
  pose proof Hds as Hds'. apply Forall_cons in Hds' as (Hd & _).
  unfold extract_int. cbn [numeral fmap list_fmap app skip_space].
  rewrite (isspace_digit d Hd).
  rewrite (digit_not dash d Hd eq_refl), (digit_not plus d Hd eq_refl).
  cbn [fst snd starts_with_digit]. rewrite (isdigit_digit d Hd).
  change (digit d :: (digit <$> ds) ++ rest) with (numeral (d :: ds) ++ rest).
  rewrite (digits_value_numeral _ _ 0 Hds Hrest). fold (value (d :: ds)).
  pose proof (value_nonneg (d :: ds)). f_equal. unfold INT_MIN, INT_MAX in *. lia.
Qed.

Lemma starts_with_digit_take n rest :
  starts_with_digit rest = false → starts_with_digit (take n rest) = false.
Proof. destruct rest, n; done. Qed.

Lemma parse_number_numeral fuel pre ds rest :
  is_number ds → starts_with_digit rest = false →
  size (pre ++ numeral ds ++ rest) < 2 ^ 31 → (length ds < fuel)%nat →
  parse_number fuel (size pre) (pre ++ numeral ds ++ rest)
  = Returns (value ds, size pre + Z.of_nat (length ds)).
Proof.
  intros Hnum Hrest Hsize Hfuel. pose proof Hnum as (Hne & Hds & Hmax).
  unfold parse_number.
  rewrite (scan_digits_numeral ds fuel pre rest Hds Hrest) by (done || lia).
  cbn [mbind outcome_mbind outcome_bind].
  assert (Hpre : 0 ≤ size pre < 2 ^ 31).
  { unfold size in *. rewrite length_app in Hsize. lia. }
  rewrite int32_small by lia. rewrite u64_small by lia.
  unfold substr.
  replace (size (pre ++ numeral ds ++ rest) <? size pre) with false
    by (symmetry; apply Z.ltb_ge; unfold size; rewrite length_app; lia).
  replace (Z.to_nat (size pre)) with (length pre) by (unfold size; lia).
  rewrite drop_app_length.
  rewrite take_app_ge by (unfold numeral, size; rewrite length_fmap; lia).
  by rewrite (extract_int_numeral ds _ Hnum (starts_with_digit_take _ _ Hrest)).
Qed.

Lemma match_here c pre rest :
  size (pre ++ c :: rest) < 2 ^ 32 →
  match_ c (size pre) (pre ++ c :: rest) = Returns (size pre + 1).
Proof.
  intros Hsize. unfold match_. rewrite at_app. cbn [mbind outcome_mbind outcome_bind].
  replace (size (pre ++ c :: rest) <=? size pre) with false
    by (symmetry; apply Z.leb_gt; unfold size; rewrite length_app; simpl; lia).
  rewrite Ascii.eqb_refl. cbn [negb orb]. rewrite u32_small; [done|].
  unfold size in *. rewrite length_app in Hsize. simpl in Hsize. lia.
Qed.

(** What [match] throws at a position that does not hold [c]: the
    character there, or the terminator at the end of the text. *)
Lemma match_other c pre rest :
  head rest ≠ Some c →
  match_ c (size pre) (pre ++ rest)
  = Throws (syntax_error c (default Ascii.zero (head rest))).
Proof.
  intros Hc. unfold match_. destruct rest as [|a rest].
  - rewrite app_nil_r, at_end. cbn [mbind outcome_mbind outcome_bind].
    by rewrite Z.leb_refl.
  - rewrite at_app. cbn [mbind outcome_mbind outcome_bind].
    replace (Ascii.eqb a c) with false.
    + by rewrite orb_true_r.
    + symmetry. apply Ascii.eqb_neq. intros ->. by apply Hc.
Qed.

(** ** The loop of [read_graph] *)

Definition edge_ok (e : list nat * list nat) : Prop := is_number e.1 ∧ is_number e.2.

Definition separator (firstTime : bool) : list Ascii.ascii :=
  if firstTime then [] else [comma].

Lemma more_text_no_digit es : starts_with_digit (more_text es) = false.
Proof. by destruct es. Qed.

(** One round of the loop, over the text of one edge. *)
Lemma read_edges_step fuel pre firstTime e rest V edgelist :
  edge_ok e → starts_with_digit rest = false →
  size (pre ++ separator firstTime ++ edge_text e ++ rest) < 2 ^ 31 →
  (length (edge_text e) < S fuel)%nat →
  read_edges (S fuel) (pre ++ separator firstTime ++ edge_text e ++ rest)
             firstTime (size pre) V edgelist
  = read_edges fuel (pre ++ separator firstTime ++ edge_text e ++ rest) false
               (size (pre ++ separator firstTime ++ edge_text e))
               (Z.max V (Z.max (value e.2) (value e.1)))
               (edgelist ++ [(value e.1, value e.2)]).
Proof.
  intros (Ht & Hh) Hrest Hsize Hfuel. destruct e as [t h]. cbn [fst snd] in *.
  set (str := pre ++ separator firstTime ++ edge_text (t, h) ++ rest) in *.
  set (pre1 := pre ++ separator firstTime).
  set (pre2 := pre1 ++ numeral t).
  set (pre3 := pre2 ++ [dash]).
  set (pre4 := pre3 ++ [dash]).
  set (pre5 := pre4 ++ numeral h).
  assert (E1 : str = pre1 ++ numeral t ++ (dash :: dash :: numeral h ++ rest)).
  { unfold str, pre1, edge_text. cbn [fst snd]. by rewrite <- !app_assoc. }
  assert (E3 : str = pre2 ++ dash :: (dash :: numeral h ++ rest)).
  { rewrite E1. unfold pre2. by rewrite <- !app_assoc. }
  assert (E4 : str = pre3 ++ dash :: (numeral h ++ rest)).
  { rewrite E3. unfold pre3. by rewrite <- !app_assoc. }
  assert (E5 : str = pre4 ++ numeral h ++ rest).
  { rewrite E4. unfold pre4. by rewrite <- !app_assoc. }
  assert (Hlen : (length (edge_text (t, h)) = length t + 2 + length h)%nat).
  { unfold edge_text, numeral. cbn [fst snd]. rewrite !length_app, !length_fmap. simpl. lia. }
  assert (S2 : size pre2 = size pre1 + Z.of_nat (length t)).
  { unfold pre2, size, numeral. rewrite length_app, length_fmap. lia. }
  assert (S3 : size pre3 = size pre2 + 1).
  { unfold pre3, size. rewrite length_app. simpl. lia. }
  assert (S4 : size pre4 = size pre3 + 1).
  { unfold pre4, size. rewrite length_app. simpl. lia. }
  assert (S5 : size pre5 = size pre4 + Z.of_nat (length h)).
  { unfold pre5, size, numeral. rewrite length_app, length_fmap. lia. }
  assert (Hin : size pre < size str).
  { unfold str, size. rewrite !length_app, Hlen. lia. }
  cbn [read_edges]. replace (size pre <? size str) with true by (symmetry; by apply Z.ltb_lt).
  assert (Hsep : (if firstTime then Returns (size pre) else match_ comma (size pre) str)
                 = Returns (size pre1)).
  { unfold pre1, str, separator. destruct firstTime.
    - by rewrite app_nil_r.
    - cbn [app]. rewrite match_here.
      + f_equal. unfold size. rewrite length_app. simpl. lia.
      + clear -Hsize. unfold str, separator in Hsize. cbn [app] in Hsize. lia. }
  rewrite Hsep. cbn [mbind outcome_mbind outcome_bind].
  rewrite E1 at 1. rewrite parse_number_numeral; [|done|done|rewrite <- E1; lia|lia].
  cbn [mbind outcome_mbind outcome_bind fst snd].
  rewrite <- S2. rewrite E3 at 1. rewrite match_here by (rewrite <- E3; lia).
  cbn [mbind outcome_mbind outcome_bind]. rewrite <- S3.
  rewrite E4 at 1. rewrite match_here by (rewrite <- E4; lia).
  cbn [mbind outcome_mbind outcome_bind]. rewrite <- S4.
  rewrite E5 at 1. rewrite parse_number_numeral; [|done|done|rewrite <- E5; lia|lia].
  cbn [mbind outcome_mbind outcome_bind fst snd]. rewrite <- S5.
  destruct Ht as (_ & _ & Htm), Hh as (_ & _ & Hhm).
  pose proof (value_nonneg t). pose proof (value_nonneg h).
  rewrite !u32_small by (unfold INT_MAX in *; lia).
  replace pre5 with (pre ++ separator firstTime ++ edge_text (t, h)); [done|].
  unfold pre5, pre4, pre3, pre2, pre1, edge_text. cbn [fst snd]. by rewrite <- !app_assoc.
Qed.

Lemma top_cons V e es : top V (e :: es) = top (Z.max V (Z.max e.2 e.1)) es.
Proof. done. Qed.

Lemma read_edges_more es : ∀ fuel pre V edgelist,
  Forall edge_ok es →
  size (pre ++ more_text es) < 2 ^ 31 →
  (length (more_text es) < fuel)%nat →
  read_edges fuel (pre ++ more_text es) false (size pre) V edgelist
  = Returns (top V (edges_of es), edgelist ++ edges_of es).
Proof.
  induction es as [|e es IH]; intros fuel pre V edgelist Hes Hsize Hfuel.
  - destruct fuel as [|fuel]; [simpl in Hfuel; lia|]. cbn [more_text read_edges].
    rewrite !app_nil_r, Z.ltb_irrefl. done.
  - destruct fuel as [|fuel]; [simpl in Hfuel; lia|].
    apply Forall_cons in Hes as (He & Hes).
    change (more_text (e :: es)) with (separator false ++ edge_text e ++ more_text es) in *.
    rewrite !length_app in Hfuel. simpl in Hfuel.
    assert (2 ≤ length (edge_text e))%nat
      by (unfold edge_text; rewrite !length_app; simpl; lia).
    rewrite (read_edges_step fuel pre false e (more_text es)); try done.
    + replace (pre ++ separator false ++ edge_text e ++ more_text es)
        with ((pre ++ separator false ++ edge_text e) ++ more_text es)
        by (by rewrite <- !app_assoc).
      rewrite IH; try done.
      * cbn [edges_of fmap list_fmap]. rewrite top_cons. cbn [fst snd].
        by rewrite <- app_assoc.
      * by rewrite <- !app_assoc.
      * lia.
    + apply more_text_no_digit.
    + lia.
Qed.

Lemma top_bounds es : ∀ V M,
  0 ≤ V ≤ M → Forall (λ e, 0 ≤ e.1 ≤ M ∧ 0 ≤ e.2 ≤ M) es → 0 ≤ top V es ≤ M.
Proof.
  induction es as [|e es IH]; intros V M HV Hes; [done|].
  apply Forall_cons in Hes as ((H1 & H2) & Hes). rewrite top_cons.
  apply IH; [lia|done].
Qed.

(** X18.  [read_graph] on the text of a list of edges, each number written
    with decimal digits (leading zeros allowed) and at most [INT_MAX]:
    the graph has one vertex more than the largest number and the edges
    in the order of the text.  When the largest number is 0, so also for
    an empty text and for any number of loops [0--0], the result is the
    empty graph [G(0)] and the edges are dropped. *)
Theorem read_graph_spec (fuel : nat) (es : list (list nat * list nat)) :
  Forall edge_ok es →
  size (graph_text es) < 2 ^ 31 →
  (length (graph_text es) < fuel)%nat →
  read_graph fuel (graph_text es) =
  Returns (if top 0 (edges_of es) =? 0 then make 0
           else fold_left (λ g e, add_edge g e.1 e.2) (edges_of es)
                          (make (top 0 (edges_of es) + 1))).
Proof.
  intros Hes Hsize Hfuel. unfold read_graph.
  assert (Hrun : read_edges fuel (graph_text es) true 0 0 []
                 = Returns (top 0 (edges_of es), edges_of es)).
  { destruct es as [|e es].
    - destruct fuel as [|fuel]; [simpl in Hfuel; lia|]. done.
    - destruct fuel as [|fuel]; [simpl in Hfuel; lia|].
      apply Forall_cons in Hes as (He & Hes).
      change (graph_text (e :: es))
        with ([] ++ separator true ++ edge_text e ++ more_text es) in *.
      cbn [app separator] in Hfuel. rewrite length_app in Hfuel.
      change 0 with (size []) at 1.
      rewrite (read_edges_step fuel [] true e (more_text es)); try done.
      + change ([] ++ separator true ++ edge_text e ++ more_text es)
          with (edge_text e ++ more_text es) in *.
        change (size ([] ++ separator true ++ edge_text e)) with (size (edge_text e)).
        assert (2 ≤ length (edge_text e))%nat
          by (unfold edge_text; rewrite !length_app; simpl; lia).
        rewrite (read_edges_more es fuel (edge_text e)); [done|done|done|lia].
      + apply more_text_no_digit.
      + lia. }
  rewrite Hrun. cbn [mbind outcome_mbind outcome_bind fst snd].
  destruct (top 0 (edges_of es) =? 0); [done|].
  rewrite u32_small; [done|].
  assert (Hb : 0 ≤ top 0 (edges_of es) ≤ INT_MAX).
  { apply top_bounds; [unfold INT_MAX; lia|]. unfold edges_of.
    apply Forall_fmap. eapply Forall_impl; [exact Hes|].
    intros e ((_ & _ & H1) & (_ & _ & H2)). unfold compose. cbn [fst snd].
    pose proof (value_nonneg e.1). pose proof (value_nonneg e.2). lia. }
  unfold INT_MAX in Hb. lia.
Qed.

Lemma bind_Returns {A B} (a : A) (f : A → outcome B) : Returns a ≫= f = f a.
Proof. reflexivity. Qed.

Lemma bind_Throws {A B} (t : thrown) (f : A → outcome B) : Throws t ≫= f = Throws t.
Proof. reflexivity. Qed.

(** A numeral too long for an [int] is read as [INT_MAX]. *)
Lemma extract_int_clamped ds rest :
  ds ≠ [] → Forall (λ d, (d < 10)%nat) ds → starts_with_digit rest = false →
  extract_int (numeral ds ++ rest) = Returns (Z.min INT_MAX (value ds)).
Proof.
  intros Hne Hds Hrest. destruct ds as [|d ds]; [done|].
  pose proof Hds as Hds'. apply Forall_cons in Hds' as (Hd & _).
  unfold extract_int. cbn [numeral fmap list_fmap app skip_space].
  rewrite (isspace_digit d Hd).
  rewrite (digit_not dash d Hd eq_refl), (digit_not plus d Hd eq_refl).
  cbn [fst snd starts_with_digit]. rewrite (isdigit_digit d Hd).
  change (digit d :: (digit <$> ds) ++ rest) with (numeral (d :: ds) ++ rest).
  rewrite (digits_value_numeral _ _ 0 Hds Hrest). fold (value (d :: ds)).
  pose proof (value_nonneg (d :: ds)). f_equal. unfold INT_MIN, INT_MAX in *. lia.
Qed.

(** X19.  A number of at least one digit that is not followed by [-] is a
    syntax error; the message quotes the character found, or the
    terminator when the text ends there.  A text that is not empty and
    starts with no digit has no defined result: [parse_number] extracts
    from the empty text, which leaves its [int r] unwritten, and returns
    it. *)
Theorem read_graph_syntax_error (fuel : nat) (ds : list nat) (rest : list Ascii.ascii) :
  Forall (λ d, (d < 10)%nat) ds →
  starts_with_digit rest = false →
  numeral ds ++ rest ≠ [] →
  size (numeral ds ++ rest) < 2 ^ 31 →
  (length ds < fuel)%nat →
  (ds = [] → read_graph fuel (numeral ds ++ rest) = Undefined) ∧
  (ds ≠ [] → head rest ≠ Some dash →
   read_graph fuel (numeral ds ++ rest)
   = Throws (syntax_error dash (default Ascii.zero (head rest)))).
Proof.
  intros Hds Hrest Hne Hsize Hfuel. unfold read_graph.
  destruct fuel as [|fuel]; [lia|]. cbn [read_edges].
  replace (0 <? size (numeral ds ++ rest)) with true.
  2:{ symmetry. apply Z.ltb_lt. unfold size. destruct (numeral ds ++ rest); [done|simpl; lia]. }
  rewrite bind_Returns. unfold parse_number.
  pose proof (scan_digits_numeral ds (S fuel) [] rest Hds Hrest) as Hscan.
  cbn [app] in Hscan. change (size []) with 0 in Hscan.
  rewrite Hscan by (done || lia). rewrite bind_Returns.
  change (int32 0) with 0. change (u64 0) with 0.
  unfold substr. replace (size (numeral ds ++ rest) <? 0) with false
    by (symmetry; apply Z.ltb_ge; unfold size; lia).
  change (Z.to_nat 0) with 0%nat. rewrite drop_0.
  replace (Z.to_nat (0 + Z.of_nat (length ds))) with (length (numeral ds))
    by (unfold numeral; rewrite length_fmap; lia).
  rewrite take_app_length. split.
  - intros ->. reflexivity.
  - intros Hds0 Hdash. rewrite <- (app_nil_r (numeral ds)) at 1.
    rewrite (extract_int_clamped ds [] Hds0 Hds eq_refl), !bind_Returns.
    cbn [fst snd].
    replace (0 + Z.of_nat (length ds)) with (size (numeral ds))
      by (unfold size, numeral; rewrite length_fmap; lia).
    rewrite (match_other dash (numeral ds) rest Hdash). by rewrite !bind_Throws.
Qed.

End read.
End Input.

(** * A concrete instantiation

    The frames are templates over the graph and the polynomial class; the
    classes the program instantiates them with ([adjacency_list],
    [factor_poly], the key functions and the byte streams) are not among
    the sources given.  This module writes them down from the
    specification, small and executable, so that the theorems above can
    be run on explicit graphs. *)

Module Concrete.
Import Engine.

(** ** Polynomials *)

Definition term := (Z * Z)%type.

Definition term_eqb (t u : term) : bool := (t.1 =? u.1) && (t.2 =? u.2).
Definition term_ltb (t u : term) : bool :=
  (t.1 <? u.1) || ((t.1 =? u.1) && (t.2 <? u.2)).

(** Modelled from the spec: a factor group of [FactorPoly] (section 3), a
    sum of monomials [c x^a y^b] with distinct exponents, kept sorted. *)
Definition group := list (term * Z).

(** Modelled from the spec: [FactorPoly] (sections 3 and 4.B), a sequence
    of factor groups whose value is their product. *)
Definition poly := list group.

Fixpoint add_term (t : term) (c : Z) (g : group) : group :=
  match g with
  | [] => [(t, c)]
  | (u, d) :: g' =>
      if term_eqb t u then (u, c + d) :: g'
      else if term_ltb t u then (t, c) :: g
      else (u, d) :: add_term t c g'
  end.

Definition add_group (g h : group) : group :=
  fold_left (λ acc tc, add_term tc.1 tc.2 acc) h g.

Definition mul_group (g h : group) : group :=
  fold_left
    (λ acc tc,
       fold_left (λ acc ud, add_term (tc.1.1 + ud.1.1, tc.1.2 + ud.1.2) (tc.2 * ud.2) acc)
                 h acc)
    g [].

(** Modelled from the spec: the flattening of a polynomial into
    single-group form (section 3). *)
Definition expand (p : poly) : group :=
  fold_left mul_group p [((0, 0), 1)].

(** Modelled from the spec: [P + Q] (section 4.B): merge when both are
    single-factor, expand both and merge otherwise. *)
Definition poly_add (p q : poly) : poly :=
  match p, q with
  | [g], [h] => [add_group g h]
  | _, _ => [add_group (expand p) (expand q)]
  end.

(** Modelled from the spec: [P * Q] (section 4.B) concatenates the
    factor sequences. *)
Definition poly_mul (p q : poly) : poly := p ++ q.

Definition poly_X (n : Z) : poly := [[((n, 0), 1)]].
Definition poly_Y (n : Z) : poly := [[((0, n), 1)]].

(** Modelled from the spec: [Y(a,b) = y^a + ... + y^b] (section 3). *)
Definition poly_Yrange (a b : Z) : poly :=
  [map (λ i, ((0, a + Z.of_nat i), 1)) (seq 0 (Z.to_nat (b - a + 1)))].

(** Modelled from the spec: [P()], the zero polynomial (section 4.F). *)
Definition poly_zero : poly := [[]].

#[global] Instance poly_ops : Polynomial poly :=
  {| X := poly_X; Y := poly_Y; Yrange := poly_Yrange; Pzero := poly_zero;
     padd := poly_add; pmul := poly_mul |}.

(** ** Multigraphs *)

(** Modelled from the spec: [MultiGraph] (section 3): the vertices, and
    the edges [(u, v, m)] with [u <= v] and multiplicity [m > 0]. *)
Record graph := { verts : list Z; adj : list (Z * Z * Z) }.

Definition g_num_vertices (g : graph) : Z := Z.of_nat (length (verts g)).
Definition g_num_edges (g : graph) : Z := foldr (λ e n, e.2 + n) 0 (adj g).

Definition g_edges (g : graph) (v : Z) : list (Z * Z) :=
  flat_map (λ e : Z * Z * Z,
              if e.1.1 =? v then [(e.1.2, e.2)]
              else if e.1.2 =? v then [(e.1.1, e.2)] else [])
           (adj g).

Definition g_degree (g : graph) (v : Z) : Z := Z.of_nat (length (g_edges g v)).

Definition same_ends (u v : Z) (e : Z * Z * Z) : bool :=
  (e.1.1 =? Z.min u v) && (e.1.2 =? Z.max u v).

(** Modelled from the spec: adding [k] copies of an edge accumulates its
    multiplicity (section 6, input format). *)
Definition add_edges (u v k : Z) (es : list (Z * Z * Z)) : list (Z * Z * Z) :=
  if existsb (same_ends u v) es
  then map (λ e, if same_ends u v e then (e.1, e.2 + k) else e) es
  else es ++ [(Z.min u v, Z.max u v, k)].

(** Modelled from the spec: [remove_edge] (section 4.C) lowers the
    multiplicity, by the multiplicity the selected edge carries, and
    drops the entry at zero. *)
Definition g_remove_edge (g : graph) (e : edge_t) : graph :=
  {| verts := verts g;
     adj := flat_map
              (λ x, if same_ends (first e) (second e) x
                    then (if third e <? x.2 then [(x.1, x.2 - third e)] else [])
                    else [x])
              (adj g) |}.

(** Modelled from the spec: [contract_edge] (section 4.C) merges [v] into
    [u], sums the multiplicities of edges that become parallel and keeps
    the loops the merge creates. *)
Definition g_contract_edge (g : graph) (e : edge_t) : graph :=
  let g' := g_remove_edge g e in
  let rn := λ w, if w =? second e then first e else w in
  {| verts := filter (λ w, w ≠ second e) (verts g');
     adj := fold_left (λ acc x, add_edges (rn x.1.1) (rn x.1.2) x.2 acc) (adj g') [] |}.

(** Modelled from the spec: [simple_contract] (section 4.C) collapses
    parallel edges into one and keeps no loop. *)
Definition g_simple_contract_edge (g : graph) (e : edge_t) : graph :=
  let g' := g_contract_edge g e in
  {| verts := verts g';
     adj := map (λ x, (x.1, 1)) (filter (λ x : Z * Z * Z, x.1.1 ≠ x.1.2) (adj g')) |}.

(** Modelled from the spec: [reduce_loops] (section 4.C) removes every
    self-loop and returns how many it removed. *)
Definition g_reduce_loops (g : graph) : Z * graph :=
  (foldr (λ e n, if e.1.1 =? e.1.2 then e.2 + n else n) 0 (adj g),
   {| verts := verts g;
      adj := filter (λ x : Z * Z * Z, x.1.1 ≠ x.1.2) (adj g) |}).

(** The vertices reachable from [seen] without passing through [avoid]. *)
Fixpoint reach (fuel : nat) (es : list (Z * Z * Z)) (avoid : option Z)
    (seen : list Z) : list Z :=
  match fuel with
  | O => seen
  | S fuel =>
      let ok := λ w, negb (bool_decide (Some w = avoid)) in
      let step :=
        flat_map (λ e : Z * Z * Z,
                    if ok e.1.1 && ok e.1.2 then
                      (if bool_decide (e.1.1 ∈ seen) then [e.1.2] else []) ++
                      (if bool_decide (e.1.2 ∈ seen) then [e.1.1] else [])
                    else []) es in
      reach fuel es avoid (list_union seen step)
  end.

Definition connected_avoiding (g : graph) (avoid : option Z) : bool :=
  match filter (λ w, Some w ≠ avoid) (verts g) with
  | [] => true
  | v :: rest =>
      let r := reach (length (verts g)) (adj g) avoid [v] in
      forallb (λ w, bool_decide (w ∈ r)) rest
  end.

Definition g_is_connected (g : graph) : bool := connected_avoiding g None.

(** Modelled from the spec: a multitree is a tree when multiplicities are
    ignored (glossary). *)
Definition g_is_multitree (g : graph) : bool :=
  g_is_connected g && (Z.of_nat (length (adj g)) + 1 =? g_num_vertices g).

(** Modelled from the spec: a multicycle is a single cycle when
    multiplicities are ignored (glossary). *)
Definition g_is_multicycle (g : graph) : bool :=
  (3 <=? g_num_vertices g) && g_is_connected g &&
  (Z.of_nat (length (adj g)) =? g_num_vertices g) &&
  forallb (λ v, g_degree g v =? 2) (verts g).

(** Modelled from the spec: biconnected means connected with no
    articulation point (glossary); graphs on fewer than three vertices go
    the way of trees. *)
Definition g_is_biconnected (g : graph) : bool :=
  (3 <=? g_num_vertices g) && g_is_connected g &&
  forallb (λ v, connected_avoiding g (Some v)) (verts g).

(** Two edges are in one block when no single vertex separates them. *)
Definition same_block (g : graph) (e f : Z * Z * Z) : bool :=
  bool_decide (e.1 = f.1) ||
  forallb
    (λ w,
       let ends := λ x : Z * Z * Z, filter (λ v, v ≠ w) [x.1.1; x.1.2] in
       existsb (λ a, let r := reach (length (verts g)) (adj g) (Some w) [a] in
                     existsb (λ b, bool_decide (b ∈ r)) (ends f))
               (ends e))
    (verts g).

Fixpoint blocks (g : graph) (es : list (Z * Z * Z)) (fuel : nat)
    : list (list (Z * Z * Z)) :=
  match fuel, es with
  | S fuel, e :: rest =>
      (e :: filter (λ f, same_block g e f = true) rest)
        :: blocks g (filter (λ f, same_block g e f = false) rest) fuel
  | _, _ => []
  end.

(** Modelled from the spec: [extract_biconnected_components]
    (section 4.C): the maximal biconnected subgraphs; bridges stay
    behind. *)
Definition g_extract (g : graph) : list graph * graph :=
  (map (λ b : list (Z * Z * Z),
          {| verts := filter (λ v, existsb (λ e : Z * Z * Z,
                                       (e.1.1 =? v) || (e.1.2 =? v)) b = true)
                             (verts g);
             adj := b |})
       (filter (λ b : list (Z * Z * Z), (2 <= length b)%nat)
               (blocks g (adj g) (length (adj g)))),
   g).

(** Modelled from the spec: what is left of [G] once the components are
    taken out is its tree skeleton (section 4.F). *)
Definition g_remove_graphs (g : graph) (comps : list graph) : graph :=
  {| verts := verts g;
     adj := filter (λ e : Z * Z * Z,
                      forallb (λ c, negb (existsb (λ f : Z * Z * Z,
                                                    bool_decide (f.1 = e.1)) (adj c)))
                              comps = true)
                   (adj g) |}.

(** Modelled from the spec: a tree of [e] simple edges has polynomial
    [x^e] (section 8, property 3); an edge of multiplicity [k] contributes
    [x + y + ... + y^(k-1)] (section 8, two parallel edges). *)
Definition bundle (xs : poly) (k : Z) : poly :=
  if k =? 1 then xs else poly_add xs (poly_Yrange 1 (k - 1)).

Definition g_reduce_tree (xs : poly) (g : graph) : poly :=
  fold_left (λ acc e, poly_mul acc (bundle xs e.2)) (adj g) (poly_X 0).

(** Modelled from the spec: the closed form of a cycle (section 8,
    property 4), by deleting and contracting its first edge. *)
Fixpoint cycle_poly (xs : poly) (ks : list Z) : poly :=
  match ks with
  | [] => poly_X 0
  | [k] => poly_Y k
  | k :: rest =>
      poly_add (fold_left (λ acc j, poly_mul acc (bundle xs j)) rest (poly_X 0))
               (poly_mul (poly_Yrange 0 (k - 1)) (cycle_poly xs rest))
  end.

Definition g_reduce_cycle (xs : poly) (g : graph) : poly :=
  cycle_poly xs (map (λ e, e.2) (adj g)).

(** ** Canonical keys *)

Fixpoint insert_everywhere (x : Z) (l : list Z) : list (list Z) :=
  match l with
  | [] => [[x]]
  | y :: l' => (x :: l) :: map (cons y) (insert_everywhere x l')
  end.

Fixpoint perms (l : list Z) : list (list Z) :=
  match l with
  | [] => [[]]
  | x :: l' => flat_map (insert_everywhere x) (perms l')
  end.

Fixpoint index_of (v : Z) (l : list Z) : Z :=
  match l with
  | [] => 0
  | x :: l' => if x =? v then 0 else 1 + index_of v l'
  end.

Fixpoint list_ltb (a b : list Z) : bool :=
  match a, b with
  | [], [] => false
  | [], _ => true
  | _, [] => false
  | x :: a', y :: b' => (x <? y) || ((x =? y) && list_ltb a' b')
  end.

Fixpoint insert_sorted (x : list Z) (l : list (list Z)) : list (list Z) :=
  match l with
  | [] => [x]
  | y :: l' => if list_ltb x y then x :: l else y :: insert_sorted x l'
  end.

Definition relabelled (g : graph) (order : list Z) : list Z :=
  concat (foldr insert_sorted []
            (map (λ e : Z * Z * Z,
                    let a := index_of e.1.1 order in
                    let b := index_of e.1.2 order in
                    [Z.min a b; Z.max a b; e.2])
                 (adj g))).

(** Modelled from the spec: [CanonicalKey] (sections 3 and 4.D), a key
    that isomorphic multigraphs share: the header, then the least edge
    list over all orders of the vertices. *)
Definition g_key (g : graph) : list Z :=
  g_num_vertices g :: g_num_edges g ::
  foldr (λ c best, if list_ltb c best then c else best)
        (relabelled g (verts g))
        (map (relabelled g) (perms (verts g))).

#[global] Instance graph_ops : MultiGraph graph (list Z) poly :=
  {| num_vertices := g_num_vertices; num_edges := g_num_edges;
     vertices := verts; edges := g_edges; num_underlying_edges := g_degree;
     is_multitree := g_is_multitree; is_multicycle := g_is_multicycle;
     is_biconnected := g_is_biconnected;
     extract_biconnected_components := g_extract;
     remove_graphs := g_remove_graphs; remove_edge := g_remove_edge;
     contract_edge := g_contract_edge;
     simple_contract_edge := g_simple_contract_edge;
     reduce_loops := g_reduce_loops; reduce_tree := g_reduce_tree;
     reduce_cycle := g_reduce_cycle; graph_key := g_key |}.

(** ** The cache, on these keys and polynomials *)

Definition byte_of (n : N) : Byte.byte := default Byte.x00 (Byte.of_N n).

Fixpoint varint (fuel : nat) (n : N) : list Byte.byte :=
  match fuel with
  | O => []
  | S fuel =>
      if (n <? 128)%N then [byte_of n]
      else byte_of (128 + n mod 128) :: varint fuel (n / 128)
  end.

Definition put (z : Z) : list Byte.byte :=
  varint (S (N.size_nat (Z.to_N z))) (Z.to_N z).

Fixpoint get_from (bs : list Byte.byte) (shift acc : N) : Z * list Byte.byte :=
  match bs with
  | [] => (Z.of_N acc, [])
  | b :: bs =>
      let v := Byte.to_N b in
      if (v <? 128)%N then (Z.of_N (acc + v * shift), bs)
      else get_from bs (shift * 128) (acc + (v - 128) * shift)
  end.

Definition get (bs : list Byte.byte) : Z * list Byte.byte := get_from bs 1 0.

(** Modelled from the spec: the cache wire format (section 6): the
    number of factor groups, then per group the number of monomials, then
    per monomial the two exponents and the coefficient. *)
Definition write_poly (p : poly) : list Byte.byte :=
  put (Z.of_nat (length p)) ++
  flat_map (λ g : group,
              put (Z.of_nat (length g)) ++
              flat_map (λ tc : term * Z, put tc.1.1 ++ put tc.1.2 ++ put tc.2) g)
           p.

Fixpoint get_terms (n : nat) (bs : list Byte.byte) : group * list Byte.byte :=
  match n with
  | O => ([], bs)
  | S n =>
      let x := get bs in
      let y := get x.2 in
      let c := get y.2 in
      let r := get_terms n c.2 in
      (((x.1, y.1), c.1) :: r.1, r.2)
  end.

Fixpoint get_groups (n : nat) (bs : list Byte.byte) : poly * list Byte.byte :=
  match n with
  | O => ([], bs)
  | S n =>
      let k := get bs in
      let g := get_terms (Z.to_nat k.1) k.2 in
      let r := get_groups n g.2 in
      (g.1 :: r.1, r.2)
  end.

Definition read_poly (bs : list Byte.byte) : poly :=
  let n := get bs in (get_groups (Z.to_nat n.1) n.2).1.

(** [sizeof(struct cache_node)] with 8-byte pointers. *)
Definition header : Z := 32.

(** Modelled from the spec: the key is hashed (section 4.E, step 1) and
    compared bytewise (step 2); its first word is the number of vertices
    (section 3). *)
Definition key_hash (k : list Z) : Z := fold_left (λ h x, u32 (h * 31 + x)) k 7.
Definition key_eqb (k k' : list Z) : bool := bool_decide (k = k').
Definition key_bytes (k : list Z) : Z := 8 * Z.of_nat (length k).
Definition key_vertices (k : list Z) : Z := hd 0 k.

Abbreviation gcache := (@Cache.cache (list Z)).
Abbreviation gnode := (@Cache.cache_node (list Z)).

Definition c_lookup (fuel : nat) (c : gcache) (k : list Z)
    : res (option (poly * Z) * gcache) :=
  Cache.lookup header key_hash key_eqb key_bytes read_poly fuel c k.

Definition c_store (fuel : nat) (c : gcache) (k : list Z) (p : poly) (id : Z)
    : res gcache :=
  Cache.store header key_hash key_bytes key_vertices write_poly
              (λ _, 0) 2147483647 fuel c k p id.

(** Enough fuel for the loops of a cache that holds its entries in acyclic
    lists: a walk visits each entry at most once, and the passes of
    [remove_unused_nodes] have removed every entry that can go once [hc]
    is past the largest hit count. *)
Definition most_hits (c : gcache) : Z :=
  map_fold (λ _ n m, Z.max (Cache.hit_count n) m) 0 (Cache.arena c).

Definition enough (c : gcache) : nat :=
  S (size (Cache.arena c) + Z.to_nat (most_hits c)).

#[global] Instance cache_ops : GraphCache gcache (list Z) poly :=
  {| cache_lookup := λ c k, c_lookup (enough c) c k;
     cache_store := λ c k p id, c_store (enough c) c k p id |}.

(** ** Runs *)

Definition default_config : config :=
  {| small_graph_threshold := 5; edge_selection_heuristic := VERTEX_ORDER;
     verbose := true; reduce_multicycles := true; reduce_multiedges := true;
     reduce_lines := false; write_tree := false; status_interval := 5;
     rtarget := λ _, 0 |}.

(** The globals as [run] sets them before the first frame of a graph on
    [V] vertices, with the cache given. *)
Definition start (V : nat) (c : gcache) : state :=
  {| num_steps := 0; num_bicomps := 0; num_cycles := 0; num_disbicomps := 0;
     num_trees := 0; old_num_steps := 0; current_timeout := 15768000;
     status_flag := false; tree_id := 2; cache := c;
     cache_hit_sizes := replicate V 0 |}.

Definition empty_cache : gcache := Cache.new_cache (1024 * 1024) 100 0.

Definition simple_graph (n : Z) (es : list (Z * Z)) : graph :=
  {| verts := map Z.of_nat (seq 0 (Z.to_nat n));
     adj := fold_left (λ acc e, add_edges e.1 e.2 1 acc) es [] |}.

Definition K3 : graph := simple_graph 3 [(0, 1); (1, 2); (0, 2)].
Definition K4 : graph :=
  simple_graph 4 [(0, 1); (0, 2); (0, 3); (1, 2); (1, 3); (2, 3)].
Definition C5 : graph := simple_graph 5 [(0, 1); (1, 2); (2, 3); (3, 4); (0, 4)].
Definition P4 : graph := simple_graph 4 [(0, 1); (1, 2); (2, 3)].
Definition P5 : graph := simple_graph 5 [(0, 1); (1, 2); (2, 3); (3, 4)].
Definition two_parallel : graph := simple_graph 2 [(0, 1); (0, 1)].

End Concrete.

(** * The theorems on explicit inputs *)

Module Witness.
Import Engine Concrete.

Definition value {A} (d : A) (r : res A) : A :=
  match r with
  | Done a => a
  | _ => d
  end.

(** ** Timeout *)

Definition timed_out : @state gcache := with_current_timeout 0 (start 3 empty_cache).

Lemma timeout_returns_sentinel_witness :
  current_timeout timed_out ≤ 0 ∧
  tutte default_config 5 K3 1 timed_out = Done (poly_X 0, K3, timed_out) ∧
  flow default_config 5 K3 1 timed_out = Done (poly_X 0, K3, timed_out) ∧
  chromatic default_config 5 K3 1 timed_out = Done (poly_X 0, K3, timed_out).
Proof.
  assert (Ht : current_timeout timed_out ≤ 0) by (simpl; lia).
  split; [exact Ht|].
  destruct (timeout_returns_sentinel default_config (tutte default_config 4) K3 1
              timed_out Ht) as (_ & _ & _ & H).
  exact (H 4%nat).
Defined.

(** A frame that is past its check when the counter reaches zero.  The
    frame is entered on [house] (a 5-cycle with the chord [0--2]) with
    [current_timeout = 5]; the alarm goes off once, as the frame makes its
    first call, and [timer_handler] takes the counter to 0.  Both calls
    return [X(0)] by the check (they are given no fuel to do anything
    else); the frame then adds the two, stores the sum under its key and
    returns it: the constant 2 where [X(0)] is 1, and a cache of one
    entry where there was none. *)
Definition house : graph :=
  simple_graph 5 [(0, 1); (1, 2); (2, 3); (3, 4); (0, 4); (0, 2)].

Definition pending : @state gcache := with_current_timeout 5 (start 5 empty_cache).

Definition alarm_once (r : @frame graph poly gcache) : @frame graph poly gcache :=
  λ g mid s,
    r g mid (if 0 <? current_timeout s then timer_handler default_config s else s).

Definition pending_tutte : poly * graph * @state gcache :=
  Eval vm_compute in
    value (poly_zero, house, pending)
          (tutte_frame default_config (alarm_once (tutte default_config 1)) house 1 pending).

Definition pending_flow : poly * graph * @state gcache :=
  Eval vm_compute in
    value (poly_zero, house, pending)
          (flow_frame default_config (alarm_once (flow default_config 1)) house 1 pending).

Definition pending_chromatic : poly * graph * @state gcache :=
  Eval vm_compute in
    value (poly_zero, house, pending)
          (chromatic_frame default_config (alarm_once (chromatic default_config 1))
                           house 1 pending).

Lemma timeout_pending_counterexample :
  current_timeout pending = 5 ∧ Cache.num_entries (cache pending) = 0 ∧
  expand (poly_X 0) = [((0, 0), 1)] ∧
  tutte_frame default_config (alarm_once (tutte default_config 1)) house 1 pending
    = Done pending_tutte ∧
  current_timeout pending_tutte.2 = 0 ∧
  expand pending_tutte.1.1 = [((0, 0), 2)] ∧
  Cache.num_entries (cache pending_tutte.2) = 1 ∧
  flow_frame default_config (alarm_once (flow default_config 1)) house 1 pending
    = Done pending_flow ∧
  current_timeout pending_flow.2 = 0 ∧
  expand pending_flow.1.1 = [((0, 0), 2)] ∧
  Cache.num_entries (cache pending_flow.2) = 1 ∧
  chromatic_frame default_config (alarm_once (chromatic default_config 1)) house 1 pending
    = Done pending_chromatic ∧
  current_timeout pending_chromatic.2 = 0 ∧
  expand pending_chromatic.1.1 = [((0, 0), 2)] ∧
  Cache.num_entries (cache pending_chromatic.2) = 1.
Proof. repeat split; vm_compute; reflexivity. Qed.

(** ** The tree rule of [flow]: a triangle with a tail of two edges *)

Definition paw5 : graph := simple_graph 5 [(0, 1); (1, 2); (0, 2); (2, 3); (3, 4)].

Definition paw5_probe : probe * @state gcache :=
  Eval vm_compute in
    value (NoKey, start 5 empty_cache)
          (probe_cache true paw5 (entered (start 5 empty_cache))).

Lemma flow_tree_kills_branch_witness :
  ∃ g s', flow default_config 3 paw5 1 (start 5 empty_cache) = Done (poly_zero, g, s') ∧
          Cache.misses (cache s') = 1 ∧ Cache.next_p (cache s') = 0.
Proof.
  change (flow default_config 3) with (flow_frame default_config (flow default_config 2)).
  rewrite (flow_tree_kills_branch default_config (flow default_config 2) paw5 1
             (start 5 empty_cache) paw5_probe.1 paw5_probe.2).
  - eexists _, _. split; [reflexivity|]. vm_compute. split; reflexivity.
  - simpl; lia.
  - vm_compute. reflexivity.
  - vm_compute. reflexivity.
  - vm_compute. reflexivity.
  - vm_compute. reflexivity.
  - vm_compute. reflexivity.
Defined.

(** ** Delete/contract on a double edge: [K4] with the edge [0--1] doubled *)

Definition K4d : graph :=
  {| verts := [0; 1; 2; 3];
     adj := [(0, 1, 2); (0, 2, 1); (0, 3, 1); (1, 2, 1); (1, 3, 1); (2, 3, 1)] |}.

Definition K4d_edge : edge_t := {| first := 0; second := 1; third := 2 |}.

Definition K4d_start : @state gcache := start 4 empty_cache.

Definition K4d_delete : poly * graph * @state gcache :=
  Eval vm_compute in
    value (poly_zero, K4d, K4d_start)
          (tutte default_config 20 (g_remove_edge K4d K4d_edge) 2
                 (with_tree_id 4 (entered K4d_start))).

Definition K4d_contract : poly * graph * @state gcache :=
  Eval vm_compute in
    value (poly_zero, K4d, K4d_start)
          (tutte default_config 20 (g_contract_edge K4d K4d_edge) 3 K4d_delete.2).

Lemma multiedge_recurrence_witness :
  tutte default_config 21 K4d 1 K4d_start =
  Done (poly_mul (poly_add K4d_delete.1.1
                           (poly_mul K4d_contract.1.1 (poly_Yrange 0 1)))
                 (poly_Y 0),
        K4d_delete.1.2, K4d_contract.2) ∧
  expand (poly_add K4d_delete.1.1 (poly_mul K4d_contract.1.1 (poly_Yrange 0 1))) =
  [((0, 1), 2); ((0, 2), 4); ((0, 3), 3); ((0, 4), 1); ((1, 0), 2); ((1, 1), 5);
   ((1, 2), 2); ((2, 0), 3); ((2, 1), 1); ((3, 0), 1)].
Proof.
  split; [|vm_compute; reflexivity].
  change (tutte default_config 21) with (tutte_frame default_config (tutte default_config 20)).
  destruct (multiedge_recurrence default_config (tutte default_config 20) K4d 1 K4d_start
              NoKey (entered K4d_start) K4d_edge
              K4d_delete.1.1 K4d_contract.1.1 K4d_delete.1.2 K4d_contract.1.2
              K4d_delete.2 K4d_contract.2 K4d_contract.2) as (H & _).
  - simpl; lia.
  - vm_compute. reflexivity.
  - vm_compute. reflexivity.
  - vm_compute. reflexivity.
  - vm_compute. reflexivity.
  - vm_compute. reflexivity.
  - vm_compute. reflexivity.
  - vm_compute. reflexivity.
  - vm_compute. reflexivity.
  - exact H.
Defined.

(** ** A cache hit: [C5] run a second time on the cache of its first run *)

Definition C5_warm : gcache :=
  Eval vm_compute in
    cache (value (poly_zero, C5, start 5 empty_cache)
                 (tutte default_config 5 C5 1 (start 5 empty_cache))).2.

Definition hit_poly (pb : @probe (list Z) poly) : poly :=
  match pb with
  | Hit _ r _ => r
  | _ => poly_zero
  end.

Definition hit_id (pb : @probe (list Z) poly) : Z :=
  match pb with
  | Hit _ _ id => id
  | _ => 0
  end.

Definition C5_probe (cells : nat) : probe * @state gcache :=
  value (NoKey, start cells C5_warm)
        (probe_cache true C5 (entered (start cells C5_warm))).

Definition C5_probe8 : probe * @state gcache := Eval vm_compute in C5_probe 8.
Definition C5_probe6 : probe * @state gcache := Eval vm_compute in C5_probe 6.

Lemma hit_size_cell_witness :
  (∃ p g s', tutte default_config 1 C5 1 (start 8 C5_warm) = Done (p, g, s') ∧
             expand p = [((0, 1), 1); ((1, 0), 1); ((2, 0), 1); ((3, 0), 1); ((4, 0), 1)] ∧
             cache_hit_sizes s' = [0; 0; 0; 0; 0; 0; 1; 0]) ∧
  (∃ p g s', flow_frame default_config (tutte default_config 0) C5 1 (start 8 C5_warm)
               = Done (p, g, s') ∧
             cache_hit_sizes s' = [0; 0; 0; 0; 0; 1; 0; 0]) ∧
  (∃ p g s', chromatic_frame default_config (tutte default_config 0) C5 1
               (start 8 C5_warm) = Done (p, g, s') ∧
             cache_hit_sizes s' = [0; 0; 0; 0; 0; 1; 0; 0]) ∧
  tutte default_config 1 C5 1 (start 6 C5_warm) = Fault.
Proof.
  assert (Ht : ∀ n, 0 < current_timeout (start n C5_warm)) by (intros; simpl; lia).
  destruct (hit_size_cell default_config (tutte default_config 0) C5 1 (start 8 C5_warm)
              (g_key C5) (hit_poly C5_probe8.1) (hit_id C5_probe8.1) C5_probe8.2 (Ht _))
    as (H8 & Hc8).
  destruct (hit_size_cell default_config (tutte default_config 0) C5 1 (start 6 C5_warm)
              (g_key C5) (hit_poly C5_probe6.1) (hit_id C5_probe6.1) C5_probe6.2 (Ht _))
    as (H6 & _).
  destruct H8 as (Htu & _ & Hfl); [vm_compute; reflexivity|].
  destruct H6 as (_ & Hfault & _); [vm_compute; reflexivity|].
  change (tutte default_config 1) with (tutte_frame default_config (tutte default_config 0)).
  rewrite Htu, Hfl, Hc8, Hfault.
  - repeat split; eexists _, _, _; (split; [reflexivity|]); vm_compute; try split; reflexivity.
  - vm_compute. reflexivity.
  - vm_compute. reflexivity.
  - vm_compute. eexists. reflexivity.
  - vm_compute. eexists. reflexivity.
  - vm_compute. eexists. reflexivity.
Defined.

(** ** A lookup in a bucket of three entries *)

Definition after (c : res gcache) (k : list Z) (p : poly) (id : Z) : res gcache :=
  c ≫= λ c, c_store (enough c) c k p id.

(** One bucket, and the keys of [K3], [C5] and [P4] stored in that
    order: the bucket list is [P4; C5; K3], at offsets 298, 125 and 0. *)
Definition three : gcache :=
  Eval vm_compute in
    value empty_cache
      (after (after (after (Done (Cache.new_cache 4096 1 0))
                           (g_key K3) (poly_X 3) 1)
                    (g_key C5) (poly_X 5) 2)
             (g_key P4) (poly_Y 4) 3).

Definition three_C5 : gnode :=
  Eval vm_compute in
    default (Cache.fresh_node header key_bytes write_poly (g_key C5) (poly_X 5) 2)
            (Cache.arena three !! 125).

Lemma lookup_spec_witness :
  ∃ c', c_lookup 4 three (g_key C5) = Done (Some (poly_X 5, 2), c') ∧
        Cache.bucket_list c' 0 [125; 298; 0] ∧
        Cache.hits c' = 1 ∧ Cache.collisions c' = 1 ∧
        (∃ n', Cache.arena c' !! 125 = Some n' ∧ Cache.hit_count n' = 1).
Proof.
  destruct (Cache.lookup_spec header key_hash key_eqb key_bytes read_poly
              4 three (g_key C5) [298; 125; 0]) as (_ & Hhit & _).
  - apply Cache.bucket_list_b_true. vm_compute. reflexivity.
  - apply (bool_decide_unpack _). vm_compute. exact I.
  - simpl. lia.
  - destruct (Hhit [298] 125 [0] three_C5) as (c' & Hlk & Hbl & (n' & Hn' & Hhc & _) & _ & _ & _ & Hh & _ & Hco & _).
    + reflexivity.
    + intros x Hx. apply list_elem_of_singleton in Hx as ->. vm_compute. reflexivity.
    + vm_compute. reflexivity.
    + vm_compute. reflexivity.
    + exists c'. split; [exact Hlk|]. split; [exact Hbl|]. split; [exact Hh|].
      split; [exact Hco|]. exists n'. split; [exact Hn'|exact Hhc].
Defined.

(** ** A store into a buffer that is exactly full afterwards

    One bucket and 298 bytes: the entry of [K3] takes 125, the entry of
    [C5] would take the 173 that are left.  The test of the [while] is
    [>=], so one round of eviction and compaction runs first: [K3] goes,
    the frontier is back at 0, and [C5] lands there. *)
Definition tight : gcache :=
  Eval vm_compute in
    value empty_cache (c_store 4 (Cache.new_cache 298 1 0) (g_key K3) (poly_X 3) 1).

Definition tight_evicted : gcache :=
  Eval vm_compute in
    value tight (Cache.evict key_vertices (λ _, 0) 2147483647 4 tight).

Lemma store_spec_witness :
  ∃ c', c_store 4 tight (g_key C5) (poly_X 5) 2 = Done c' ∧
        Cache.next_p c' = 173 ∧
        Cache.bucket_list c' 0 [0] ∧
        Cache.numentries c' = 1.
Proof.
  destruct (Cache.store_spec header key_hash key_bytes key_vertices write_poly
              (λ _, 0) 2147483647 4 tight (g_key C5) (poly_X 5) 2) as (_ & _ & Happ).
  destruct (Happ ltac:(vm_compute; reflexivity) 1%nat tight_evicted [])
    as (c' & Hst & Hnp & _ & Hbl & Hnum & _).
  - lia.
  - split; [vm_compute; discriminate|]. exists tight_evicted.
    split; [vm_compute; reflexivity|reflexivity].
  - vm_compute. reflexivity.
  - apply Cache.bucket_list_b_true. vm_compute. reflexivity.
  - constructor.
  - intros x Hx. by apply elem_of_nil in Hx.
  - exists c'. split; [exact Hst|]. split; [rewrite Hnp; vm_compute; reflexivity|].
    split; [exact Hbl|]. rewrite Hnum. vm_compute. reflexivity.
Defined.

(** The two boundary cases.  An entry of exactly the capacity (125 bytes
    into a buffer of 125) does not exceed it, and [store] throws
    [bad_alloc]; one byte more of buffer and it is stored.  An entry that
    ends exactly at the end of the buffer (125 + 173 = 298) would not
    overflow it, and [store] evicts first: the key of [K3] is gone
    afterwards. *)
Lemma store_boundary_counterexample :
  Cache.entry_size header key_bytes write_poly (g_key K3) (poly_X 3) = 125 ∧
  c_store 4 (Cache.new_cache 125 1 0) (g_key K3) (poly_X 3) 1 = Throw bad_alloc ∧
  (c_store 4 (Cache.new_cache 126 1 0) (g_key K3) (poly_X 3) 1 ≫= λ c, Done (Cache.next_p c))
    = Done 125 ∧
  Cache.next_p tight +
    Cache.entry_size header key_bytes write_poly (g_key C5) (poly_X 5) = Cache.bufsize tight ∧
  (c_lookup 4 tight (g_key K3) ≫= λ r, Done r.1) = Done (Some (poly_X 3, 1)) ∧
  (c_store 4 tight (g_key C5) (poly_X 5) 2 ≫= λ c,
     c_lookup 4 c (g_key K3) ≫= λ r, Done (r.1, Cache.next_p c)) = Done (None, 173).
Proof. repeat split; vm_compute; reflexivity. Qed.

(** ** Eviction by use

    The bucket of [three] after a hit on the key of [K3], with graphs of
    five vertices and more pinned: the list is [K3; P4; C5] at offsets 0,
    298 and 125, with hit counts 1, 0 and 0, and 423 bytes are in use.
    With [p = 0.5] the pass [hc = 1] unlinks [P4] (125 bytes), the pass
    [hc = 2] unlinks [K3] (250 bytes in total) and ends the loop; [C5]
    stays. *)
Definition worn : gcache :=
  Eval vm_compute in
    Cache.set_replace_size 5
      (value three (c_lookup 4 three (g_key K3) ≫= λ r, Done r.2)).

Definition worn_K3 : gnode :=
  Eval vm_compute in
    default (Cache.fresh_node header key_bytes write_poly (g_key K3) (poly_X 3) 1)
            (Cache.arena worn !! 0).

Lemma remove_unused_nodes_spec_witness :
  ∃ c', Cache.remove_unused_nodes key_vertices 4 worn 0.5%float = Done c' ∧
        Cache.lists_wf c' [[125]] ∧
        Cache.numentries c' = 1 ∧
        (∃ n', Cache.arena c' !! 0 = Some n' ∧ Cache.is_free n' = true) ∧
        Cache.next_p c' = 423.
Proof.
  destruct (Cache.remove_unused_nodes_spec key_vertices 4 worn 0.5%float
              [[0; 298; 125]] 2)
    as (c' & Hrun & Hwf & Hdrop & _ & Hpres & Hnum).
  - split; [reflexivity|]. split.
    + intros i l Hi. destruct i as [|i]; [|done]. injection Hi as <-.
      apply Cache.bucket_list_b_true. vm_compute. reflexivity.
    + apply (bool_decide_unpack _). vm_compute. exact I.
  - intros l Hl. apply list_elem_of_singleton in Hl as ->. simpl. lia.
  - lia.
  - vm_compute. discriminate.
  - intros j Hj. assert (j = 1%nat) as -> by lia. vm_compute. reflexivity.
  - vm_compute. reflexivity.
  - assert (Hk : Cache.kept_by key_vertices worn (Z.of_nat 2) <$> [[0; 298; 125]] = [[125]])
      by (vm_compute; reflexivity).
    rewrite Hk in Hwf.
    exists c'. split; [exact Hrun|]. split; [exact Hwf|].
    split; [rewrite Hnum; vm_compute; reflexivity|]. split.
    + destruct (Hdrop 0 worn_K3) as (_ & n' & Hn' & Hfree & _).
      * apply (bool_decide_unpack _). vm_compute. exact I.
      * vm_compute. reflexivity.
      * vm_compute. reflexivity.
      * vm_compute. reflexivity.
      * exists n'. split; [exact Hn'|exact Hfree].
    + destruct Hpres as ((Hnp & _) & _). rewrite Hnp. reflexivity.
Defined.

(** ** Compaction

    The bucket of [three] after a hit on [K3] and one on [P4], and an
    eviction that unlinked [C5]: the entries at 0 and 298 are in use, the
    173 bytes at 125 are free.  [pack_buffer] moves the entry at 298 down
    to 125 and the frontier from 423 to 250. *)
Definition holed : gcache :=
  Eval vm_compute in
    value three
      (c_lookup 4 three (g_key K3) ≫= λ r,
       c_lookup 4 r.2 (g_key P4) ≫= λ r,
       Cache.remove_unused_nodes key_vertices 4 r.2 0.25%float).

Definition holed_P4 : gnode :=
  Eval vm_compute in
    default (Cache.fresh_node header key_bytes write_poly (g_key P4) (poly_Y 4) 3)
            (Cache.arena holed !! 298).

Lemma pack_buffer_spec_witness :
  ∃ c', Cache.pack_buffer 4 holed = Done c' ∧
        Cache.next_p holed = 423 ∧ Cache.next_p c' = 250 ∧
        Cache.lists_wf c' [[125; 0]] ∧
        Cache.tiles (Cache.arena c') 0 [0; 125] 250 ∧
        (∃ n', Cache.arena c' !! 125 = Some n' ∧ Cache.same_payload holed_P4 n').
Proof.
  destruct (Cache.pack_buffer_spec 4 holed [0; 125; 298] [[298; 0]])
    as (c' & Hrun & Hnp & _ & Hmv & _ & Htl & Hwf & _).
  - apply Cache.tiles_b_true. vm_compute. reflexivity.
  - split; [reflexivity|]. split.
    + intros i l Hi. destruct i as [|i]; [|done]. injection Hi as <-.
      apply Cache.bucket_list_b_true. vm_compute. reflexivity.
    + apply (bool_decide_unpack _). vm_compute. exact I.
  - intros o Ho. change (o ∈ [298; 0]) in Ho.
    apply elem_of_cons in Ho as [->|Ho]; [right; right; by left|].
    apply list_elem_of_singleton in Ho as ->. by left.
  - intros o Ho Hl. change (o ∈ [298; 0]).
    apply elem_of_cons in Ho as [->|Ho]; [right; by left|].
    apply elem_of_cons in Ho as [->|Ho]; [vm_compute in Hl; discriminate|].
    apply list_elem_of_singleton in Ho as ->. by left.
  - simpl. lia.
  - assert (Hr : (λ l : list Z, Cache.reloc holed [0; 125; 298] <$> l) <$> [[298; 0]]
                 = [[125; 0]]) by (vm_compute; reflexivity).
    assert (Hs : Cache.reloc holed [0; 125; 298] <$>
                   filter (λ z, Cache.live_at holed z = true) [0; 125; 298]
                 = [0; 125]) by (vm_compute; reflexivity).
    assert (Hn : Cache.next_p c' = 250) by (rewrite Hnp; vm_compute; reflexivity).
    rewrite Hr in Hwf. rewrite Hs, Hn in Htl.
    exists c'. split; [exact Hrun|]. split; [reflexivity|]. split; [exact Hn|].
    split; [exact Hwf|]. split; [exact Htl|].
    destruct (Hmv [0; 125] 298 [] holed_P4) as (Hat & Hnode).
    + reflexivity.
    + vm_compute. reflexivity.
    + vm_compute. reflexivity.
    + assert (Hq : Cache.reloc holed [0; 125; 298] 298 = 125) by (vm_compute; reflexivity).
      rewrite Hq in Hnode. eexists. split; [exact Hnode|]. by repeat split.
Defined.

(** ** The key that is computed and never stored *)

Definition P5_run : poly * graph * @state gcache :=
  Eval vm_compute in
    value (poly_zero, P5, start 5 empty_cache)
          (chromatic default_config 1 P5 1 (start 5 empty_cache)).

(** C1, on the code.  [chromatic] on the path on five vertices, from an
    empty cache: the key is computed and the probe misses; the graph is
    not biconnected and has no biconnected component, the frame returns
    [x^4], and the cache still holds nothing: a second probe with the
    same key misses again. *)
Theorem chromatic_path_not_stored :
  chromatic default_config 1 P5 1 (start 5 empty_cache) = Done P5_run ∧
  P5_run.1.1 = poly_mul (poly_X 4) [] ∧
  (small_graph_threshold default_config <=? num_vertices P5) = true ∧
  Cache.misses (cache P5_run.2) = 1 ∧
  Cache.numentries (cache P5_run.2) = 0 ∧
  Cache.next_p (cache P5_run.2) = 0 ∧
  Cache.arena (cache P5_run.2) = ∅ ∧
  (c_lookup 1 (cache P5_run.2) (g_key P5) ≫= λ r, Done r.1) = Done None.
Proof. repeat split; vm_compute; reflexivity. Qed.

(** ** The bucket statistics

    [three] rebucketed into three buckets: the entry of [C5] is alone in
    bucket 0, the entries of [K3] and [P4] share bucket 1, bucket 2 is
    empty. *)
Definition spread : gcache :=
  Eval vm_compute in value three (Cache.rebucket key_hash 4 three 3).

Lemma spread_lists : Cache.lists_wf spread [[125]; [0; 298]; []].
Proof.
  split; [reflexivity|]. split.
  - intros i l Hi.
    destruct i as [|[|[|i]]]; [| | |done]; injection Hi as <-;
      apply Cache.bucket_list_b_true; vm_compute; reflexivity.
  - apply (bool_decide_unpack _). vm_compute. exact I.
Qed.

Lemma spread_short : Cache.short_lists 4 [[125]; [0; 298]; []].
Proof.
  intros l Hl. unfold Cache.INT_MAX.
  apply elem_of_cons in Hl as [->|Hl]; [simpl; lia|].
  apply elem_of_cons in Hl as [->|Hl]; [simpl; lia|].
  apply list_elem_of_singleton in Hl as ->. simpl. lia.
Qed.

Lemma bucket_length_spec_witness :
  Cache.bucket_length 4 spread 1 = Done 2 ∧
  Cache.bucket_length 4 spread 3 = Fault ∧
  Cache.bucket_length 4 spread (-1) = Fault.
Proof.
  destruct (Cache.bucket_length_spec 4 spread 1 [0; 298]) as (Hlen & Hout).
  - apply Cache.bucket_list_b_true. vm_compute. reflexivity.
  - simpl. lia.
  - unfold Cache.INT_MAX. simpl. lia.
  - split; [exact Hlen|]. split.
    + apply Hout. right. vm_compute. discriminate.
    + apply Hout. left. lia.
Defined.

Lemma min_max_bucket_size_spec_witness :
  Cache.min_bucket_size 4 spread = Done 0 ∧ Cache.max_bucket_size 4 spread = Done 2.
Proof.
  destruct (Cache.min_max_bucket_size_spec 4 spread [[125]; [0; 298]; []]
              spread_lists spread_short)
    as (lo & hi & Hmin & Hmax & _ & Hbounds & Hatt).
  destruct (Hatt ltac:(discriminate)) as ((l & Hl & Hlo) & (l' & Hl' & Hhi)).
  pose proof (Hbounds [] ltac:(do 2 right; by left)) as (Hlo0 & _).
  pose proof (Hbounds [0; 298] ltac:(right; by left)) as (_ & Hhi2).
  simpl in Hlo0, Hhi2.
  assert (lo = 0) as -> by lia.
  assert (hi = 2) as ->.
  { apply elem_of_cons in Hl' as [->|Hl']; [simpl in Hhi; lia|].
    apply elem_of_cons in Hl' as [->|Hl']; [simpl in Hhi; lia|].
    apply list_elem_of_singleton in Hl' as ->. simpl in Hhi. lia. }
  by split.
Defined.

Lemma count_buckets_sized_spec_witness :
  Cache.count_buckets_sized 4 spread 1 2 = Done 2 ∧
  Cache.count_buckets_sized 4 spread (-1) 2 = Done 0.
Proof.
  destruct (Cache.count_buckets_sized_spec 4 spread [[125]; [0; 298]; []] 1 2
              spread_lists spread_short) as (_ & Hin & _); [vm_compute; discriminate|].
  destruct (Cache.count_buckets_sized_spec 4 spread [[125]; [0; 298]; []] (-1) 2
              spread_lists spread_short) as (_ & _ & Hneg); [vm_compute; discriminate|].
  split.
  - rewrite Hin by (unfold Cache.INT_MAX; lia). reflexivity.
  - apply Hneg. lia.
Defined.

(** ** A store and the lookup that follows it

    The key of [P5] stored into [three] lands at the frontier, 423, and
    at the front of the bucket. *)
Lemma store_then_lookup_witness :
  ∃ c' c'', c_store 4 three (g_key P5) (poly_X 4) 4 = Done c' ∧
            c_lookup 4 c' (g_key P5) = Done (Some (poly_X 4, 4), c'') ∧
            Cache.bucket_list c'' 0 [423; 298; 125; 0] ∧
            Cache.hits c'' = 1 ∧ Cache.numentries c'' = 4.
Proof.
  destruct (Cache.store_then_lookup header key_hash key_eqb key_bytes key_vertices
              write_poly read_poly (λ _, 0) 2147483647 4 three (g_key P5) (poly_X 4) 4
              0 three [298; 125; 0])
    as (c' & c'' & Hst & Hlk & Hbl & Hh & _ & _ & Hnum).
  - vm_compute. reflexivity.
  - lia.
  - reflexivity.
  - vm_compute. reflexivity.
  - apply Cache.bucket_list_b_true. vm_compute. reflexivity.
  - apply (bool_decide_unpack _). vm_compute. exact I.
  - intros x Hx. change (x ∈ [298; 125; 0]) in Hx.
    apply elem_of_cons in Hx as [->|Hx]; [vm_compute; reflexivity|].
    apply elem_of_cons in Hx as [->|Hx]; [vm_compute; reflexivity|].
    apply list_elem_of_singleton in Hx as ->. vm_compute. reflexivity.
  - split; vm_compute; discriminate.
  - vm_compute. reflexivity.
  - vm_compute. reflexivity.
  - lia.
  - exists c', c''. split; [exact Hst|]. split; [exact Hlk|]. split; [exact Hbl|].
    split; [rewrite Hh; vm_compute; reflexivity|rewrite Hnum; vm_compute; reflexivity].
Defined.

(** ** A lookup after [clear] *)

Definition no_buckets : gcache := Cache.new_cache 4096 0 0.

Lemma clear_then_lookup_witness :
  c_lookup 4 (Cache.clear three) (g_key C5) =
    Done (None, Cache.with_misses 1 (Cache.clear three)) ∧
  c_lookup 4 (Cache.clear no_buckets) (g_key C5) = Fault.
Proof.
  destruct (Cache.clear_then_lookup header key_hash key_eqb key_bytes read_poly
              4 three (g_key C5)) as (Hmiss & _); [lia|].
  destruct (Cache.clear_then_lookup header key_hash key_eqb key_bytes read_poly
              4 no_buckets (g_key C5)) as (_ & Hfault); [lia|].
  split.
  - apply Hmiss. vm_compute. discriminate.
  - apply Hfault. reflexivity.
Defined.

(** ** Two lookups of the same key *)

Lemma lookup_twice_witness :
  ∃ c' c'', c_lookup 4 three (g_key C5) = Done (Some (poly_X 5, 2), c') ∧
            c_lookup 4 c' (g_key C5) = Done (Some (poly_X 5, 2), c'') ∧
            Cache.bucket_list c'' 0 [125; 298; 0] ∧
            Cache.collisions c'' = Cache.collisions c' ∧
            Cache.hits c'' = 2.
Proof.
  destruct (Cache.lookup_twice header key_hash key_eqb key_bytes read_poly
              4 three (g_key C5) [298] 125 [0] three_C5)
    as (c' & c'' & Hlk & Hlk' & Hbl' & Hbl'' & Hco & Hh & _).
  - apply Cache.bucket_list_b_true. vm_compute. reflexivity.
  - apply (bool_decide_unpack _). vm_compute. exact I.
  - simpl. lia.
  - intros x Hx. apply list_elem_of_singleton in Hx as ->. vm_compute. reflexivity.
  - reflexivity.
  - vm_compute. reflexivity.
  - exists c', c''. split; [exact Hlk|]. split; [exact Hlk'|]. split; [exact Hbl''|].
    split; [exact Hco|]. rewrite Hh. vm_compute. reflexivity.
Defined.

(** ** [rebucket] *)

Lemma three_lists : Cache.lists_wf three [[298; 125; 0]].
Proof.
  split; [reflexivity|]. split.
  - intros i l Hi. destruct i as [|i]; [|done]. injection Hi as <-.
    apply Cache.bucket_list_b_true. vm_compute. reflexivity.
  - apply (bool_decide_unpack _). vm_compute. exact I.
Qed.

Lemma three_short : ∀ l : list Z, l ∈ [[298; 125; 0]] → (length l < 4)%nat.
Proof. intros l Hl. apply list_elem_of_singleton in Hl as ->. simpl. lia. Qed.

Definition one_bucket : gcache := Cache.new_cache 4096 1 0.

Lemma rebucket_spec_witness :
  (∃ c', Cache.rebucket key_hash 4 three 3 = Done c' ∧
         Cache.nbuckets c' = 3 ∧
         Cache.lists_wf c' [[125]; [0; 298]; []]) ∧
  Cache.rebucket key_hash 4 three 0 = Fault ∧
  Cache.rebucket key_hash 4 one_bucket 0 = Done (Cache.with_buckets [] one_bucket).
Proof.
  split; [|split].
  - destruct (Cache.rebucket_spec key_hash 4 three [[298; 125; 0]] 3
                three_lists three_short) as (Hpos & _); [lia|vm_compute; discriminate|].
    destruct (Hpos ltac:(lia)) as (c' & Hrun & Hnb & Hwf & _).
    assert (Hr : Cache.rebucketed key_hash three 3 (mjoin [[298; 125; 0]])
                 = [[125]; [0; 298]; []]) by (vm_compute; reflexivity).
    rewrite Hr in Hwf. exists c'. split; [exact Hrun|]. split; [exact Hnb|exact Hwf].
  - destruct (Cache.rebucket_spec key_hash 4 three [[298; 125; 0]] 0
                three_lists three_short) as (_ & Hzero); [lia|vm_compute; discriminate|].
    rewrite (Hzero eq_refl). reflexivity.
  - destruct (Cache.rebucket_spec key_hash 4 one_bucket [[]] 0) as (_ & Hzero).
    + split; [reflexivity|]. split.
      * intros i l Hi. destruct i as [|i]; [|done]. injection Hi as <-.
        apply Cache.bucket_list_b_true. vm_compute. reflexivity.
      * apply (bool_decide_unpack _). vm_compute. exact I.
    + intros l Hl. apply list_elem_of_singleton in Hl as ->. simpl. lia.
    + lia.
    + vm_compute. discriminate.
    + rewrite (Hzero eq_refl). reflexivity.
Defined.

Lemma rebucket_then_lookup_witness :
  ∃ c' c'' c3, Cache.rebucket key_hash 4 three 3 = Done c' ∧
               c_lookup 4 c' (g_key C5) = Done (Some (poly_X 5, 2), c'') ∧
               Cache.hits c'' = 1 ∧ Cache.collisions c'' = 0 ∧
               c_lookup 4 c' (g_key P5) = Done (None, c3) ∧
               Cache.misses c3 = 1 ∧ Cache.collisions c3 = 2 ∧
               Cache.hits c3 = Cache.hits c' ∧ Cache.arena c3 = Cache.arena c' ∧
               Cache.buckets c3 = Cache.buckets c'.
Proof.
  destruct (Cache.rebucket_then_lookup header key_hash key_eqb key_bytes read_poly
              4 three [[298; 125; 0]] 3 (g_key C5) three_lists)
    as (c' & lb & Hrun & Hbo & Hlb & Hhit & _);
    [simpl; lia|exact three_short|lia|vm_compute; discriminate|].
  destruct (Cache.rebucket_then_lookup header key_hash key_eqb key_bytes read_poly
              4 three [[298; 125; 0]] 3 (g_key P5) three_lists)
    as (c1 & lb1 & Hrun1 & Hbo1 & Hlb1 & _ & Hmiss);
    [simpl; lia|exact three_short|lia|vm_compute; discriminate|].
  rewrite Hrun in Hrun1. injection Hrun1 as <-.
  assert (Hb : Z.to_nat (u32 (key_hash (g_key C5)) `mod` Z.of_nat 3) = 0%nat)
    by (vm_compute; reflexivity).
  assert (Hb1 : Z.to_nat (u32 (key_hash (g_key P5)) `mod` Z.of_nat 3) = 1%nat)
    by (vm_compute; reflexivity).
  rewrite Hbo, Hb in Hlb. rewrite Hbo1, Hb1 in Hlb1.
  assert (Hr : Cache.rebucketed key_hash three 3 (mjoin [[298; 125; 0]])
               = [[125]; [0; 298]; []]) by (vm_compute; reflexivity).
  rewrite Hr in Hlb, Hlb1. injection Hlb as <-. injection Hlb1 as <-.
  destruct (Hhit 125 three_C5) as (c'' & l1 & l2 & Hsplit & Hlk & Hh & _ & Hco).
  - change (125 ∈ [298; 125; 0]). right. by left.
  - reflexivity.
  - vm_compute. reflexivity.
  - vm_compute. reflexivity.
  - intros x Hx Hne. change (x ∈ [298; 125; 0]) in Hx.
    apply elem_of_cons in Hx as [->|Hx]; [vm_compute; reflexivity|].
    apply elem_of_cons in Hx as [->|Hx]; [exfalso; apply Hne; reflexivity|].
    apply list_elem_of_singleton in Hx as ->. vm_compute. reflexivity.
  - assert (l1 = []) as ->.
    { destruct l1 as [|x l1]; [reflexivity|]. destruct l1; discriminate Hsplit. }
    exists c', c''. eexists. split; [exact Hrun|]. split; [exact Hlk|].
    split; [rewrite Hh; reflexivity|]. split; [rewrite Hco; reflexivity|].
    split.
    + apply Hmiss. intros x Hx. change (x ∈ [298; 125; 0]) in Hx.
      apply elem_of_cons in Hx as [->|Hx]; [vm_compute; reflexivity|].
      apply elem_of_cons in Hx as [->|Hx]; [vm_compute; reflexivity|].
      apply list_elem_of_singleton in Hx as ->. vm_compute. reflexivity.
    + repeat split; reflexivity.
Defined.

(** ** The edge [select_edge] picks

    On the paw with a pendant path, [paw5], the degrees of the ends add
    up to 4 for the edge 0-1 and to 5 for 0-2, 1-2 and 2-3. *)
Definition max_degree : config :=
  {| small_graph_threshold := 5; edge_selection_heuristic := MAXIMISE_DEGREE;
     verbose := true; reduce_multicycles := true; reduce_multiedges := true;
     reduce_lines := false; write_tree := false; status_interval := 5;
     rtarget := λ _, 0 |}.

Definition random_second : config :=
  {| small_graph_threshold := 5; edge_selection_heuristic := RANDOM;
     verbose := true; reduce_multicycles := true; reduce_multiedges := true;
     reduce_lines := false; write_tree := false; status_interval := 5;
     rtarget := λ _, 1 |}.

Lemma select_edge_spec_witness :
  (∃ cd, select_edge max_degree paw5 = Done (cand_edge max_degree cd) ∧
         cand_edge max_degree cd = {| first := 0; second := 2; third := 1 |} ∧
         0 < cand_cost max_degree 5 cd) ∧
  select_edge default_config paw5 = Done {| first := 0; second := 1; third := 1 |} ∧
  select_edge random_second paw5 = Fault.
Proof.
  split; [|split].
  - destruct (select_edge_spec max_degree paw5) as (Hcost & _ & _).
    destruct Hcost as [(_ & Hthrow)|(l1 & cd & l2 & _ & Hrun & Hpos & _)].
    + split; discriminate.
    + vm_compute in Hthrow. discriminate.
    + exists cd. split; [exact Hrun|]. split; [|exact Hpos].
      assert (Hr : select_edge max_degree paw5 = Done {| first := 0; second := 2; third := 1 |})
        by (vm_compute; reflexivity).
      rewrite Hrun in Hr. congruence.
  - destruct (select_edge_spec default_config paw5) as (_ & Hvo & _).
    rewrite (Hvo eq_refl). reflexivity.
  - destruct (select_edge_spec random_second paw5) as (_ & _ & Hrnd).
    rewrite (Hrnd eq_refl). reflexivity.
Defined.

(** ** The substitutions [run] makes before printing *)

Definition chars (s : string) : list Ascii.ascii := String.list_ascii_of_string s.

Definition char_x : Ascii.ascii := Eval vm_compute in Ascii.ascii_of_nat 120.
Definition char_close : Ascii.ascii := Eval vm_compute in Ascii.ascii_of_nat 41.

Lemma search_replace_char_witness :
  Text.search_replace 3 (chars "x") (chars "(1-x)") (chars "x^2+x")
  = Text.Returns (chars "(1-x)^2+(1-x)").
Proof.
  apply (Text.search_replace_char 3 char_x char_close (chars "(1-x)") (chars "x^2+x")).
  - reflexivity.
  - discriminate.
  - vm_compute. reflexivity.
  - vm_compute. lia.
Defined.

Lemma search_replace_same_witness :
  Text.search_replace 1000 (chars "x") (chars "x") (chars "2*x") = Text.Unfinished.
Proof.
  apply (Text.search_replace_same (chars "x") (chars "2*") (chars "") ltac:(vm_compute; reflexivity)).
Defined.

Lemma search_replace_stops_early_witness :
  Text.search_replace 5 (chars "ab") (chars "") (chars "abab") = Text.Returns (chars "ab").
Proof.
  apply (Text.search_replace_stops_early 5 (chars "ab") (chars "") (chars "abab") 0).
  - reflexivity.
  - vm_compute. discriminate.
  - vm_compute. reflexivity.
  - vm_compute. reflexivity.
  - lia.
Defined.

(** ** Random eviction

    [worn] holds [K3], [P4] and [C5] in that order and spares graphs of 5
    vertices or more.  The first number drawn is [RAND_MAX] (the entry of
    [K3] stays), the second 0 (the entry of [P4] goes); [C5] is too big
    to take a number. *)
Definition coin (i : nat) : Z :=
  match i with
  | O => 2147483647
  | _ => 0
  end.

Lemma randomly_remove_nodes_spec_witness :
  ∃ c', Cache.randomly_remove_nodes key_vertices coin 2147483647 4 worn 0.5%float
        = Done c' ∧
        Cache.lists_wf c' [[0; 125]] ∧
        (∃ n, Cache.arena c' !! 298 = Some n ∧ Cache.is_free n = true) ∧
        Cache.numentries c' = 2 ∧ Cache.rand_calls c' = 2%nat ∧
        Cache.next_p c' = 423.
Proof.
  destruct (Cache.randomly_remove_nodes_spec key_vertices coin 2147483647 4 worn
              0.5%float [[0; 298; 125]])
    as (c' & Hrun & Hwf & _ & _ & Hfree & Hnum & Hrc & Hpres & _).
  - split; [reflexivity|]. split.
    + intros i l Hi. destruct i as [|i]; [|done]. injection Hi as <-.
      apply Cache.bucket_list_b_true. vm_compute. reflexivity.
    + apply (bool_decide_unpack _). vm_compute. exact I.
  - intros l Hl. apply list_elem_of_singleton in Hl as ->. simpl. lia.
  - assert (HR : Cache.random_lists key_vertices coin 2147483647 worn 0.5%float
                   (Cache.rand_calls worn) [[0; 298; 125]] = ([[0; 125]], 2%nat))
      by (vm_compute; reflexivity).
    rewrite HR in Hwf, Hfree, Hnum, Hrc. cbn [fst snd] in Hwf, Hfree, Hnum, Hrc.
    exists c'. split; [exact Hrun|]. split; [exact Hwf|]. split.
    + apply Hfree.
      * change (298 ∈ [0; 298; 125]). right. by left.
      * change (298 ∉ [0; 125]). intros Hin.
        apply elem_of_cons in Hin as [Hin|Hin]; [done|].
        apply list_elem_of_singleton in Hin. done.
    + split; [rewrite Hnum; vm_compute; reflexivity|]. split; [exact Hrc|].
      destruct Hpres as ((Hnp & _) & _). rewrite Hnp. reflexivity.
Defined.

(** ** The iterator

    In [holed] the node at 125 is in no bucket; the iterator meets it all
    the same. *)
Lemma visit_spec_witness :
  Cache.visit 4 holed = Done [0; 125; 298] ∧
  Cache.lists_wf holed [[298; 0]] ∧
  Cache.advance holed 125 = Done 298.
Proof.
  destruct (Cache.visit_spec 4 holed [0; 125; 298]) as (Hvisit & Hadv).
  - apply Cache.tiles_b_true. vm_compute. reflexivity.
  - simpl. lia.
  - split; [exact Hvisit|]. split.
    + split; [reflexivity|]. split.
      * intros i l Hi. destruct i as [|i]; [|done]. injection Hi as <-.
        apply Cache.bucket_list_b_true. vm_compute. reflexivity.
      * apply (bool_decide_unpack _). vm_compute. exact I.
    + destruct (Hadv 125) as (n & Hn & Hstep & _); [right; by left|].
      rewrite Hstep. f_equal.
      assert (Hs : Cache.size_at holed 125 = 173) by (vm_compute; reflexivity).
      unfold Cache.size_at in Hs. rewrite Hn in Hs. rewrite Hs. reflexivity.
Defined.

Lemma store_then_visit_witness :
  ∃ c', c_store 4 three (g_key P5) (poly_X 4) 4 = Done c' ∧
        Cache.tiles (Cache.arena c') 0 [0; 125; 298; 423] (Cache.next_p c') ∧
        Cache.visit 5 c' = Done [0; 125; 298; 423].
Proof.
  destruct (Cache.store_then_visit header key_hash key_bytes key_vertices
              write_poly (λ _, 0) 2147483647 4 three (g_key P5) (poly_X 4) 4
              0 three [298; 125; 0] [0; 125; 298])
    as (c' & Hst & Ht & Hvisit).
  - vm_compute. reflexivity.
  - lia.
  - reflexivity.
  - vm_compute. reflexivity.
  - apply Cache.bucket_list_b_true. vm_compute. reflexivity.
  - apply (bool_decide_unpack _). vm_compute. exact I.
  - intros x Hx. change (x ∈ [298; 125; 0]) in Hx.
    apply elem_of_cons in Hx as [->|Hx]; [vm_compute; reflexivity|].
    apply elem_of_cons in Hx as [->|Hx]; [vm_compute; reflexivity|].
    apply list_elem_of_singleton in Hx as ->. vm_compute. reflexivity.
  - split; [vm_compute; reflexivity|vm_compute; discriminate].
  - apply Cache.tiles_b_true. vm_compute. reflexivity.
  - exists c'. split; [exact Hst|]. split; [exact Ht|]. apply Hvisit. simpl. lia.
Defined.

(** ** The bucket lists across a lookup and a store

    In [spread] the keys of [P4] and [P5] belong to bucket 1, which holds
    the entries at 0 and 298. *)
Lemma lookup_keeps_lists_witness :
  ∃ r c' l', c_lookup 4 spread (g_key P4) = Done (r, c') ∧ is_Some r ∧
             Cache.lists_wf c' [[125]; l'; []] ∧ l' ≡ₚ [0; 298] ∧
             Cache.tiles (Cache.arena c') 0 [0; 125; 298] (Cache.next_p c').
Proof.
  destruct (Cache.lookup_keeps_lists header key_hash key_eqb key_bytes read_poly
              4 spread (g_key P4) [[125]; [0; 298]; []] spread_lists)
    as (r & c' & l & l' & Hl & Hlk & Hwf & Hperm & _ & Hhit & _ & _ & Ht).
  - discriminate.
  - intros l Hl. apply spread_short. exact Hl.
  - assert (Hb : Cache.bucket_of key_hash spread (g_key P4) = 1%nat)
      by (vm_compute; reflexivity).
    rewrite Hb in Hl, Hwf. injection Hl as <-.
    exists r, c', l'. split; [exact Hlk|]. split.
    + apply Hhit. exists 298. split; [right; by left|vm_compute; reflexivity].
    + split; [exact Hwf|]. split; [exact Hperm|]. apply Ht.
      apply Cache.tiles_b_true. vm_compute. reflexivity.
Defined.

Lemma store_keeps_lists_witness :
  ∃ c', c_store 4 spread (g_key P5) (poly_X 4) 4 = Done c' ∧
        Cache.lists_wf c' [[125]; [423; 0; 298]; []] ∧
        Cache.numentries c' = 4.
Proof.
  destruct (Cache.store_keeps_lists header key_hash key_bytes key_vertices
              write_poly (λ _, 0) 2147483647 4 spread (g_key P5) (poly_X 4) 4
              0 spread [[125]; [0; 298]; []] [0; 298])
    as (c' & Hst & Hwf & _ & Hnum).
  - vm_compute. reflexivity.
  - lia.
  - reflexivity.
  - vm_compute. reflexivity.
  - exact spread_lists.
  - vm_compute. reflexivity.
  - intros x Hx. change (x ∈ [125; 0; 298]) in Hx.
    apply elem_of_cons in Hx as [->|Hx]; [vm_compute; reflexivity|].
    apply elem_of_cons in Hx as [->|Hx]; [vm_compute; reflexivity|].
    apply list_elem_of_singleton in Hx as ->. vm_compute. reflexivity.
  - assert (Hb : Cache.bucket_of key_hash spread (g_key P5) = 1%nat)
      by (vm_compute; reflexivity).
    rewrite Hb in Hwf.
    exists c'. split; [exact Hst|]. split; [exact Hwf|].
    rewrite Hnum. vm_compute. reflexivity.
Defined.

(** ** Reading a graph

    The graph class of this instantiation: [G(n)] has [n] vertices and no
    edge, [add_edge] adds one copy of an edge. *)
Definition g_make (n : Z) : graph := simple_graph n [].

Definition g_add_edge (g : graph) (a b : Z) : graph :=
  {| verts := verts g; adj := add_edges a b 1 (adj g) |}.

Lemma read_graph_spec_witness :
  Input.read_graph g_make g_add_edge 20 (chars "0--1,1--2,0--2") = Input.Returns K3 ∧
  Input.read_graph g_make g_add_edge 20 (chars "0--0") = Input.Returns (g_make 0).
Proof.
  assert (Hnum : ∀ d, (d < 10)%nat → Input.is_number [d]).
  { intros d Hd. split; [discriminate|]. split; [by apply Forall_singleton|].
    unfold Input.value, Input.INT_MAX. simpl. lia. }
  split.
  - apply (Input.read_graph_spec g_make g_add_edge 20
             [([0%nat], [1%nat]); ([1%nat], [2%nat]); ([0%nat], [2%nat])]).
    + repeat constructor; apply Hnum; lia.
    + vm_compute. reflexivity.
    + vm_compute. lia.
  - apply (Input.read_graph_spec g_make g_add_edge 20 [([0%nat], [0%nat])]).
    + repeat constructor; apply Hnum; lia.
    + vm_compute. reflexivity.
    + vm_compute. lia.
Defined.

Lemma read_graph_syntax_error_witness :
  Input.read_graph g_make g_add_edge 20 (chars "1,2")
  = Input.Throws (Input.Std (runtime_error "syntax error -- expected '-', got ','")) ∧
  Input.read_graph g_make g_add_edge 20 (chars "x") = Input.Undefined.
Proof.
  split.
  - apply (Input.read_graph_syntax_error g_make g_add_edge 20 [1%nat] (chars ",2")).
    + apply Forall_singleton. lia.
    + reflexivity.
    + discriminate.
    + vm_compute. reflexivity.
    + simpl. lia.
    + discriminate.
    + discriminate.
  - apply (Input.read_graph_syntax_error g_make g_add_edge 20 [] (chars "x")).
    + constructor.
    + reflexivity.
    + discriminate.
    + vm_compute. reflexivity.
    + simpl. lia.
    + reflexivity.
Defined.

End Witness.
